(** * Sparse incidence tables and entity sets of MFEM: a shallow embedding

    The development follows [general/table.cpp] (classes [Table], [STable],
    [DSTable] and the free functions [Transpose] and [Mult]) and
    [mesh/entsets.cpp] (class [EntitySets]).

    Conventions.
    - A C++ [int] is a [Z].  Signed overflow is undefined behaviour in C++,
      so there is no wrap-around to write out: the model describes the
      executions in which no [int] computation overflows.
    - An [int*] array obtained from [new int[n]] is a [list Z]; the null
      pointer and the empty array are both the empty list.
    - Every computation runs in the [result] monad below: [Abort] is a call
      of [mfem_error] / [MFEM_ABORT] / a failed [MFEM_VERIFY], [Fault] is
      behaviour outside the language contract (indexing outside an array,
      dereferencing a null pointer, allocating a negative size). *)

From Stdlib Require Import ZArith Lia.
From stdpp Require Import base tactics option list functions gmap strings.

Local Open Scope Z_scope.

(** ** The result monad *)

Inductive result (A : Type) : Type :=
| Ok (a : A)
| Abort
| Fault.
Arguments Ok {A} a.
Arguments Abort {A}.
Arguments Fault {A}.

#[global] Instance result_ret : MRet result := fun A a => Ok a.
#[global] Instance result_bind : MBind result := fun A B f m =>
  match m with
  | Ok a => f a
  | Abort => Abort
  | Fault => Fault
  end.

(** [mfem_error] prints its message and aborts the process.
    Modelled from the spec: [mfem_error] is defined in general/error.cpp,
    which is absent; per section 7 fatal conditions abort the operation and
    are not designed to be caught. *)
Definition mfem_error {A : Type} : result A := Abort.

Lemma bind_Ok {A B : Type} (f : A → result B) (a : A) : Ok a ≫= f = f a.
Proof. reflexivity. Qed.

Lemma bind_Ok_inv {A B : Type} (f : A → result B) (m : result A) (b : B) :
  m ≫= f = Ok b → ∃ a, m = Ok a ∧ f a = Ok b.
Proof. destruct m; simpl; intros; try discriminate; eauto. Qed.

(** ** Arrays *)

(** [a[i]] as an rvalue. *)
Definition rd (a : list Z) (i : Z) : result Z :=
  if decide (0 ≤ i) then
    match a !! Z.to_nat i with
    | Some v => Ok v
    | None => Fault
    end
  else Fault.

(** [a[i] = v]. *)
Definition wr (a : list Z) (i : Z) (v : Z) : result (list Z) :=
  if decide (0 ≤ i ∧ i < Z.of_nat (length a)) then
    Ok (<[Z.to_nat i := v]> a)
  else Fault.

(** [new int[n]]: the cells of a fresh array are not initialised; [junk]
    gives whatever they happen to hold. *)
Definition new_int (junk : nat → Z) (n : Z) : result (list Z) :=
  if decide (0 ≤ n) then Ok (junk <$> seq 0 (Z.to_nat n)) else Fault.

(** The slice [a[lo .. hi)]. *)
Definition slice (a : list Z) (lo hi : Z) : list Z :=
  take (Z.to_nat (hi - lo)) (drop (Z.to_nat lo) a).

Lemma rd_Ok a i v :
  rd a i = Ok v ↔ 0 ≤ i ∧ a !! Z.to_nat i = Some v.
Proof.
  unfold rd. case_decide.
  - destruct (a !! Z.to_nat i) eqn:E; split.
    + intros [= ->]. done.
    + intros [_ [= ->]]. done.
    + discriminate.
    + intros [_ [=]].
  - split; [discriminate | lia].
Qed.

Lemma rd_lookup a i v :
  0 ≤ i → a !! Z.to_nat i = Some v → rd a i = Ok v.
Proof. intros. apply rd_Ok. auto. Qed.

Lemma rd_in_range a i :
  0 ≤ i < Z.of_nat (length a) → ∃ v, rd a i = Ok v ∧ a !! Z.to_nat i = Some v.
Proof.
  intros H. destruct (lookup_lt_is_Some_2 a (Z.to_nat i)) as [v Hv]; [lia|].
  exists v. split; [apply rd_lookup; [lia | done] | done].
Qed.

Lemma rd_length a i v : rd a i = Ok v → 0 ≤ i < Z.of_nat (length a).
Proof.
  intros [H1 H2]%rd_Ok. apply lookup_lt_Some in H2. lia.
Qed.

Lemma wr_Ok a i v :
  0 ≤ i < Z.of_nat (length a) → wr a i v = Ok (<[Z.to_nat i := v]> a).
Proof. intros. unfold wr. rewrite decide_True; [done | lia]. Qed.

Lemma wr_Ok_inv a i v a' :
  wr a i v = Ok a' → 0 ≤ i < Z.of_nat (length a) ∧ a' = <[Z.to_nat i := v]> a.
Proof. unfold wr. case_decide; intros; simplify_eq. split; [lia | done]. Qed.

Lemma rd_insert_eq a i v :
  0 ≤ i < Z.of_nat (length a) → rd (<[Z.to_nat i := v]> a) i = Ok v.
Proof.
  intros. apply rd_lookup; [lia|]. apply list_lookup_insert_eq. lia.
Qed.

Lemma rd_insert_ne a i j v :
  0 ≤ i → 0 ≤ j → i ≠ j → rd (<[Z.to_nat i := v]> a) j = rd a j.
Proof.
  intros. unfold rd. rewrite list_lookup_insert_ne; [done | lia].
Qed.

Lemma new_int_Ok junk n :
  0 ≤ n → ∃ a, new_int junk n = Ok a ∧ Z.of_nat (length a) = n.
Proof.
  intros. unfold new_int. rewrite decide_True by done. eexists; split; [done|].
  rewrite length_fmap, length_seq. lia.
Qed.

(** ** Counted loops *)

(** [for (k = lo; <n more iterations>; k++) s = body k s]. *)
Fixpoint iter {S : Type} (body : Z → S → result S) (lo : Z) (n : nat) (s : S)
  : result S :=
  match n with
  | O => Ok s
  | S n' => s' ← body lo s; iter body (lo + 1) n' s'
  end.

(** [for (k = lo; k < hi; k++) s = body k s], for a bound [hi] that the body
    leaves alone. *)
Definition for_range {S : Type} (lo hi : Z) (body : Z → S → result S) (s : S)
  : result S :=
  iter body lo (Z.to_nat (hi - lo)) s.

(** [for (k = hi; k > lo; k--) s = body k s]. *)
Fixpoint iter_down {S : Type} (body : Z → S → result S) (hi : Z) (n : nat)
    (s : S) : result S :=
  match n with
  | O => Ok s
  | S n' => s' ← body hi s; iter_down body (hi - 1) n' s'
  end.

Definition for_down {S : Type} (hi lo : Z) (body : Z → S → result S) (s : S)
  : result S :=
  iter_down body hi (Z.to_nat (hi - lo)) s.

(** Monadic left fold: the loop body applied to the elements of a list. *)
Fixpoint foldM {S X : Type} (f : X → S → result S) (xs : list X) (s : S)
  : result S :=
  match xs with
  | [] => Ok s
  | x :: xs' => s' ← f x s; foldM f xs' s'
  end.

Section loops.
Context {S : Type}.

(** Invariant rule for upward loops. *)
Lemma iter_inv (P : Z → S → Prop) (body : Z → S → result S) n lo s :
  P lo s →
  (∀ k t, lo ≤ k < lo + Z.of_nat n → P k t →
          ∃ t', body k t = Ok t' ∧ P (k + 1) t') →
  ∃ s', iter body lo n s = Ok s' ∧ P (lo + Z.of_nat n) s'.
Proof.
  revert lo s. induction n as [|n IH]; intros lo s H0 Hstep.
  - exists s. split; [done|]. by replace (lo + Z.of_nat 0) with lo by lia.
  - destruct (Hstep lo s) as (t & Hb & Hp); [lia | done |].
    destruct (IH (lo + 1) t) as (s' & Hi & Hq); [done | |].
    + intros k u Hk. apply Hstep. lia.
    + exists s'. simpl. rewrite Hb. simpl. split; [done|].
      by replace (lo + Z.of_nat (Datatypes.S n)) with (lo + 1 + Z.of_nat n) by lia.
Qed.

Lemma for_range_inv (P : Z → S → Prop) lo hi body s :
  lo ≤ hi →
  P lo s →
  (∀ k t, lo ≤ k < hi → P k t → ∃ t', body k t = Ok t' ∧ P (k + 1) t') →
  ∃ s', for_range lo hi body s = Ok s' ∧ P hi s'.
Proof.
  intros Hle H0 Hstep. unfold for_range.
  destruct (iter_inv P body (Z.to_nat (hi - lo)) lo s) as (s' & Hi & Hp).
  - done.
  - intros k t Hk Hpk. apply Hstep; [lia | done].
  - exists s'. split; [done|].
    by replace (lo + Z.of_nat (Z.to_nat (hi - lo))) with hi in Hp by lia.
Qed.

Lemma for_range_empty lo hi (body : Z → S → result S) s :
  hi ≤ lo → for_range lo hi body s = Ok s.
Proof.
  intros. unfold for_range. by replace (Z.to_nat (hi - lo)) with O by lia.
Qed.

(** Invariant rule for downward loops. *)
Lemma iter_down_inv (P : Z → S → Prop) (body : Z → S → result S) n hi s :
  P hi s →
  (∀ k t, hi - Z.of_nat n < k ≤ hi → P k t →
          ∃ t', body k t = Ok t' ∧ P (k - 1) t') →
  ∃ s', iter_down body hi n s = Ok s' ∧ P (hi - Z.of_nat n) s'.
Proof.
  revert hi s. induction n as [|n IH]; intros hi s H0 Hstep.
  - exists s. split; [done|]. by replace (hi - Z.of_nat 0) with hi by lia.
  - destruct (Hstep hi s) as (t & Hb & Hp); [lia | done |].
    destruct (IH (hi - 1) t) as (s' & Hi & Hq); [done | |].
    + intros k u Hk. apply Hstep. lia.
    + exists s'. simpl. rewrite Hb. simpl. split; [done|].
      by replace (hi - Z.of_nat (Datatypes.S n)) with (hi - 1 - Z.of_nat n) by lia.
Qed.

Lemma for_down_inv (P : Z → S → Prop) hi lo body s :
  lo ≤ hi →
  P hi s →
  (∀ k t, lo < k ≤ hi → P k t → ∃ t', body k t = Ok t' ∧ P (k - 1) t') →
  ∃ s', for_down hi lo body s = Ok s' ∧ P lo s'.
Proof.
  intros Hle H0 Hstep. unfold for_down.
  destruct (iter_down_inv P body (Z.to_nat (hi - lo)) hi s) as (s' & Hi & Hp).
  - done.
  - intros k t Hk Hpk. apply Hstep; [lia | done].
  - exists s'. split; [done|].
    by replace (hi - Z.of_nat (Z.to_nat (hi - lo))) with lo in Hp by lia.
Qed.

(** A loop that reads [a[k]] at iteration [k] and does nothing else with
    [k] is a fold over the slice it visits. *)
Lemma iter_rd_foldM (a : list Z) (f : Z → S → result S) n lo s :
  0 ≤ lo → lo + Z.of_nat n ≤ Z.of_nat (length a) →
  iter (λ k t, v ← rd a k; f v t) lo n s
  = foldM f (take n (drop (Z.to_nat lo) a)) s.
Proof.
  revert lo s. induction n as [|n IH]; intros lo s Hlo Hhi; [done|].
  destruct (rd_in_range a lo) as (v & Hr & Hl); [lia|].
  rewrite (drop_S _ v _ Hl). simpl. rewrite Hr. simpl.
  destruct (f v s) as [t| |]; simpl; [|done..].
  rewrite IH by lia. do 3 f_equal. lia.
Qed.

Lemma for_range_rd_foldM (a : list Z) (f : Z → S → result S) lo hi s :
  0 ≤ lo → lo ≤ hi → hi ≤ Z.of_nat (length a) →
  for_range lo hi (λ k t, v ← rd a k; f v t) s = foldM f (slice a lo hi) s.
Proof.
  intros. unfold for_range, slice. apply iter_rd_foldM; lia.
Qed.

Lemma foldM_app {X} (f : X → S → result S) xs ys s :
  foldM f (xs ++ ys) s = s' ← foldM f xs s; foldM f ys s'.
Proof.
  revert s. induction xs as [|x xs IH]; intros s; [done|].
  simpl. destruct (f x s); simpl; [apply IH | done..].
Qed.

Lemma foldM_inv {X} (P : list X → S → Prop) (f : X → S → result S) xs s :
  P [] s →
  (∀ pre x post t, xs = pre ++ x :: post → P pre t →
                   ∃ t', f x t = Ok t' ∧ P (pre ++ [x]) t') →
  ∃ s', foldM f xs s = Ok s' ∧ P xs s'.
Proof.
  intros H0 Hstep.
  assert (∀ post pre t, xs = pre ++ post → P pre t →
            ∃ s', foldM f post t = Ok s' ∧ P xs s') as Hgen.
  { induction post as [|x post IH]; intros pre t Hxs Hp.
    - exists t. rewrite app_nil_r in Hxs. by subst.
    - destruct (Hstep pre x post t) as (t' & Hf & Hp'); [done..|].
      destruct (IH (pre ++ [x]) t') as (s' & ? & ?);
        [by rewrite <- app_assoc | done |].
      exists s'. simpl. rewrite Hf. done. }
  by apply (Hgen xs [] s).
Qed.
End loops.

(** ** [Table]: the CSR incidence table of table.cpp *)

(** The object state of a [Table]: the row count [size] and the arrays [I]
    (row starts) and [J] (columns).  The fields carry the names of their
    accessors [Size()], [GetI()] and [GetJ()]. *)
Record Table : Type := mkTable {
  Size : Z;
  GetI : list Z;
  GetJ : list Z;
}.

(** [Table::Table (int dim, int connections_per_row)]. *)
Definition Table_new (junk : nat → Z) (dim connections_per_row : Z)
  : result Table :=
  let sum := dim * connections_per_row in
  I_ ← new_int junk (dim + 1);
  J_ ← new_int junk sum;
  I_ ← wr I_ 0 0;
  '(I_, J_) ← for_range 1 (dim + 1) (λ i '(I_, J_),
      prev ← rd I_ (i - 1);
      I_ ← wr I_ i (prev + connections_per_row);
      lo ← rd I_ (i - 1);
      hi ← rd I_ i;
      J_ ← for_range lo hi (λ j J_, wr J_ j (-1)) J_;
      Ok (I_, J_)) (I_, J_);
  Ok (mkTable dim I_ J_).

(** [Table::SetDims (int rows, int nnz)]. *)
Definition SetDims (junk : nat → Z) (T : Table) (rows nnz : Z) : result Table :=
  j ← (match GetI T with [] => Ok 0 | _ => rd (GetI T) (Size T) end);
  '(size, I_) ← (if decide (Size T ≠ rows) then
                  I_ ← (if decide (rows >= 0) then new_int junk (rows + 1)
                       else Ok []);
                  Ok (rows, I_)
                else Ok (Size T, GetI T));
  J_ ← (if decide (j ≠ nnz) then
         (if decide (nnz > 0) then new_int junk nnz else Ok [])
       else Ok (GetJ T));
  I_ ← (if decide (size >= 0) then I_ ← wr I_ 0 0; wr I_ size nnz else Ok I_);
  Ok (mkTable size I_ J_).

(** The scan of [Table::operator()]: [n] slots remain from slot [k] on. *)
Fixpoint find_scan (J_ : list Z) (j : Z) (k : Z) (n : nat) : result Z :=
  match n with
  | O => Ok (-1)
  | S n' =>
      v ← rd J_ k;
      if decide (v = j) then Ok k
      else if decide (v = -1) then Ok (-1)
      else find_scan J_ j (k + 1) n'
  end.

(** [int Table::operator() (int i, int j) const]. *)
Definition Table_call (T : Table) (i j : Z) : result Z :=
  if decide (i >= Size T ∨ i < 0) then Ok (-1)
  else
    hi ← rd (GetI T) (i + 1);
    lo ← rd (GetI T) i;
    find_scan (GetJ T) j lo (Z.to_nat (hi - lo)).

(** The scan of [Table::Push]; running off the row is the call of
    [mfem_error] after the loop. *)
Fixpoint push_scan (J_ : list Z) (j : Z) (k : Z) (n : nat)
  : result (Z * list Z) :=
  match n with
  | O => mfem_error
  | S n' =>
      v ← rd J_ k;
      if decide (v = j) then Ok (k, J_)
      else if decide (v = -1) then J_ ← wr J_ k j; Ok (k, J_)
      else push_scan J_ j (k + 1) n'
  end.

(** [int Table::Push (int i, int j)]; [MFEM_DEBUG] tells whether the range
    check on [i] is compiled in. *)
Definition Push (MFEM_DEBUG : bool) (T : Table) (i j : Z)
  : result (Z * Table) :=
  _ ← (if MFEM_DEBUG then
         if decide (i >= Size T ∨ i < 0) then mfem_error else Ok ()
       else Ok ());
  lo ← rd (GetI T) i;
  hi ← rd (GetI T) (i + 1);
  '(k, J_) ← push_scan (GetJ T) j lo (Z.to_nat (hi - lo));
  Ok (k, mkTable (Size T) (GetI T) J_).

(** The inner loop of [Table::Finalize]: copy the row from slot [k] on,
    [n] slots remaining, until the first unset slot ([break]). *)
Fixpoint copy_row (J_ : list Z) (k : Z) (n : nat) (NewJ : list Z) (cnt : Z)
  : result (list Z * Z) :=
  match n with
  | O => Ok (NewJ, cnt)
  | S n' =>
      v ← rd J_ k;
      if decide (v = -1) then Ok (NewJ, cnt)
      else NewJ' ← wr NewJ cnt v; copy_row J_ (k + 1) n' NewJ' (cnt + 1)
  end.

(** [void Table::Finalize()]. *)
Definition Finalize (junk : nat → Z) (MFEM_DEBUG : bool) (T : Table)
  : result Table :=
  nnz ← rd (GetI T) (Size T);
  sum ← for_range 0 nnz (λ i sum,
           v ← rd (GetJ T) i;
           Ok (if decide (v ≠ -1) then sum + 1 else sum)) 0;
  if decide (sum ≠ nnz) then
    NewJ ← new_int junk sum;
    '(I_, NewJ, n, newI) ← for_range 0 (Size T) (λ i '(I_, NewJ, n, newI),
        hi ← rd I_ (i + 1);
        lo ← rd I_ i;
        '(NewJ, n) ← copy_row (GetJ T) lo (Z.to_nat (hi - lo)) NewJ n;
        I_ ← wr I_ i newI;
        Ok (I_, NewJ, n, n)) (GetI T, NewJ, 0, 0);
    I_ ← wr I_ (Size T) sum;
    _ ← (if MFEM_DEBUG then
           if decide (sum ≠ n) then mfem_error else Ok ()
         else Ok ());
    Ok (mkTable (Size T) I_ NewJ)
  else Ok T.

(** [int Table::Width() const]. *)
Definition Width (T : Table) : result Z :=
  nnz ← rd (GetI T) (Size T);
  width ← for_range 0 nnz (λ k width,
             v ← rd (GetJ T) k;
             Ok (if decide (v > width) then v else width)) (-1);
  Ok (width + 1).

(** *** Representation invariants *)

(** The CSR shape of section 3: [size+1] row starts, beginning at 0 and
    non-decreasing, and [I[size]] columns. *)
Definition csr (T : Table) : Prop :=
  0 ≤ Size T ∧
  Z.of_nat (length (GetI T)) = Size T + 1 ∧
  GetI T !! O = Some 0 ∧
  (∀ i a b, 0 ≤ i < Size T → GetI T !! Z.to_nat i = Some a →
            GetI T !! Z.to_nat (i + 1) = Some b → a ≤ b) ∧
  GetI T !! Z.to_nat (Size T) = Some (Z.of_nat (length (GetJ T))).

(** Row [i] of a table, as the list of its slots. *)
Definition row (T : Table) (i : Z) : list Z :=
  match GetI T !! Z.to_nat i, GetI T !! Z.to_nat (i + 1) with
  | Some lo, Some hi => slice (GetJ T) lo hi
  | _, _ => []
  end.

(** Unset slots trail in every row.  The constructor leaves every slot
    unset and [Push] writes into the first unset slot of a row, so the rows
    of a table under construction have this form; the scans of
    [operator()], [Push] and [Finalize] stop at the first unset slot of a
    row and rely on it. *)
Definition packed (T : Table) : Prop :=
  ∀ i, 0 ≤ i < Size T →
    ∃ (ys : list Z) (n : nat),
      row T i = ys ++ replicate n (-1) ∧ ∀ v, v ∈ ys → v ≠ -1.

(** A table under construction or built. *)
Definition StaticTable (T : Table) : Prop := csr T ∧ packed T.

(** A table without unset slots whose entries are column indices. *)
Definition finalized (T : Table) : Prop :=
  csr T ∧ ∀ v, v ∈ GetJ T → 0 ≤ v.

(** [(i, j)] is an entry of [T]: column [j] sits in a slot of row [i]. *)
Definition entry (T : Table) (i j : Z) : Prop :=
  0 ≤ i < Size T ∧ j ∈ row T i.

(** *** Slices and rows *)

Lemma length_slice a lo hi :
  0 ≤ lo → lo ≤ hi → hi ≤ Z.of_nat (length a) →
  length (slice a lo hi) = Z.to_nat (hi - lo).
Proof.
  intros. unfold slice. rewrite length_take, length_drop. lia.
Qed.

Lemma lookup_slice a lo hi (n : nat) :
  (n < Z.to_nat (hi - lo))%nat →
  slice a lo hi !! n = a !! (Z.to_nat lo + n)%nat.
Proof.
  intros. unfold slice. rewrite lookup_take_lt by done. apply lookup_drop.
Qed.

Lemma lookup_slice_Z a lo hi p :
  0 ≤ lo → lo ≤ p < hi →
  slice a lo hi !! Z.to_nat (p - lo) = a !! Z.to_nat p.
Proof.
  intros. rewrite lookup_slice by lia. f_equal. lia.
Qed.

Lemma elem_of_slice a lo hi v :
  0 ≤ lo →
  v ∈ slice a lo hi ↔ ∃ p, lo ≤ p < hi ∧ a !! Z.to_nat p = Some v.
Proof.
  intros Hlo. rewrite list_elem_of_lookup. split.
  - intros [n Hn]. pose proof (lookup_lt_Some _ _ _ Hn) as Hlt.
    unfold slice in Hlt. rewrite length_take in Hlt.
    rewrite lookup_slice in Hn by lia.
    exists (lo + Z.of_nat n). split; [lia|].
    rewrite <- Hn. f_equal. lia.
  - intros (p & Hp & Hv). exists (Z.to_nat (p - lo)).
    by rewrite lookup_slice_Z.
Qed.

Lemma slice_nil a lo hi : hi ≤ lo → slice a lo hi = [].
Proof. intros. unfold slice. by replace (Z.to_nat (hi - lo)) with O by lia. Qed.

Lemma slice_cons a lo hi v :
  0 ≤ lo → lo < hi → a !! Z.to_nat lo = Some v →
  slice a lo hi = v :: slice a (lo + 1) hi.
Proof.
  intros ? ? Hv. unfold slice.
  replace (Z.to_nat (hi - lo)) with (S (Z.to_nat (hi - (lo + 1)))) by lia.
  rewrite (drop_S _ _ _ Hv). simpl.
  by replace (Z.to_nat (lo + 1)) with (S (Z.to_nat lo)) by lia.
Qed.

Lemma slice_all a : slice a 0 (Z.of_nat (length a)) = a.
Proof.
  unfold slice. change (Z.to_nat 0) with O. rewrite drop_0.
  apply take_ge. lia.
Qed.

Section csr_facts.
Context (T : Table) (Hcsr : csr T).

Lemma csr_rd_I i :
  0 ≤ i ≤ Size T →
  ∃ a, GetI T !! Z.to_nat i = Some a ∧ rd (GetI T) i = Ok a.
Proof.
  intros Hi. destruct Hcsr as (? & Hlen & _).
  destruct (rd_in_range (GetI T) i) as (a & ? & ?); [lia | eauto].
Qed.

Lemma csr_mono i k a b :
  0 ≤ i → i + Z.of_nat k ≤ Size T →
  GetI T !! Z.to_nat i = Some a →
  GetI T !! Z.to_nat (i + Z.of_nat k) = Some b → a ≤ b.
Proof.
  destruct Hcsr as (? & Hlen & _ & Hmono & _).
  revert b. induction k as [|k IH]; intros b Hi Hk Ha Hb.
  - replace (i + Z.of_nat 0) with i in Hb by lia. simplify_eq. lia.
  - destruct (csr_rd_I (i + Z.of_nat k)) as (c & Hc & _); [lia|].
    specialize (IH c Hi ltac:(lia) Ha Hc).
    assert (c ≤ b); [|lia].
    apply (Hmono (i + Z.of_nat k)); [lia | done |].
    rewrite <- Hb. f_equal. lia.
Qed.

Lemma csr_le i k a b :
  0 ≤ i → i ≤ k → k ≤ Size T →
  GetI T !! Z.to_nat i = Some a → GetI T !! Z.to_nat k = Some b → a ≤ b.
Proof.
  intros ? ? ? Ha Hb. apply (csr_mono i (Z.to_nat (k - i))); try done; try lia.
  rewrite <- Hb. f_equal. lia.
Qed.

(** The bounds of a row. *)
Lemma csr_row i :
  0 ≤ i < Size T →
  ∃ lo hi, GetI T !! Z.to_nat i = Some lo ∧
           GetI T !! Z.to_nat (i + 1) = Some hi ∧
           0 ≤ lo ∧ lo ≤ hi ∧ hi ≤ Z.of_nat (length (GetJ T)) ∧
           row T i = slice (GetJ T) lo hi.
Proof.
  intros Hi.
  destruct (csr_rd_I i) as (lo & Hlo & _); [lia|].
  destruct (csr_rd_I (i + 1)) as (hi & Hhi & _); [lia|].
  exists lo, hi. pose proof Hcsr as (? & ? & H0 & _ & Hend).
  repeat split; try done.
  - apply (csr_le 0 i 0 lo); try done; lia.
  - apply (csr_le i (i + 1) lo hi); try done; lia.
  - apply (csr_le (i + 1) (Size T) hi _); try done; lia.
  - unfold row. by rewrite Hlo, Hhi.
Qed.
End csr_facts.

(** [k] is a slot of row [i]. *)
Definition is_slot (T : Table) (i k : Z) : Prop :=
  ∃ lo hi, GetI T !! Z.to_nat i = Some lo ∧
           GetI T !! Z.to_nat (i + 1) = Some hi ∧ lo ≤ k < hi.

Lemma entry_slot T i j :
  csr T →
  entry T i j ↔
  0 ≤ i < Size T ∧ ∃ k, is_slot T i k ∧ GetJ T !! Z.to_nat k = Some j.
Proof.
  intros Hcsr. unfold entry. split.
  - intros [Hi Hj]. split; [done|].
    destruct (csr_row T Hcsr i Hi) as (lo & hi & Hlo & Hhi & ? & ? & ? & Hrow).
    rewrite Hrow in Hj. apply elem_of_slice in Hj as (p & ? & ?); [|done].
    exists p. split; [|done]. by exists lo, hi.
  - intros [Hi (k & (lo & hi & Hlo & Hhi & ?) & Hk)]. split; [done|].
    destruct (csr_row T Hcsr i Hi) as (lo' & hi' & ? & ? & ? & ? & ? & Hrow).
    simplify_eq. rewrite Hrow. apply elem_of_slice; [done|]. eauto.
Qed.

Lemma packed_row T i :
  packed T → 0 ≤ i < Size T →
  ∃ ys n, row T i = ys ++ replicate n (-1) ∧ ∀ v, v ∈ ys → v ≠ -1.
Proof. intros Hp Hi. exact (Hp i Hi). Qed.

(** A table in CSR shape without unset slots (as the two-phase build, the
    explicit build, [Finalize], [Transpose] and [Mult] leave them) satisfies
    the representation invariant. *)
Lemma unset_free_StaticTable T : csr T → -1 ∉ GetJ T → StaticTable T.
Proof.
  intros Hcsr Hn. split; [done|]. intros i Hi. exists (row T i), O.
  split; [by rewrite app_nil_r|]. intros v Hv ->. apply Hn.
  destruct (csr_row T Hcsr i Hi) as (lo & hi & _ & _ & ? & ? & ? & Hrow).
  rewrite Hrow in Hv. apply elem_of_slice in Hv as (p & _ & Hp); [|done].
  by eapply list_elem_of_lookup_2.
Qed.

(** *** [Table::operator()] *)

(** What the scan returns on the slots [xs] of a row that starts at slot [k]. *)
Fixpoint scan_slots (xs : list Z) (j k : Z) : Z :=
  match xs with
  | [] => -1
  | v :: xs' =>
      if decide (v = j) then k
      else if decide (v = -1) then -1
      else scan_slots xs' j (k + 1)
  end.

Lemma find_scan_slots J_ j n k :
  0 ≤ k → k + Z.of_nat n ≤ Z.of_nat (length J_) →
  find_scan J_ j k n = Ok (scan_slots (take n (drop (Z.to_nat k) J_)) j k).
Proof.
  revert k. induction n as [|n IH]; intros k Hk Hn; [done|].
  destruct (rd_in_range J_ k) as (v & Hr & Hl); [lia|].
  rewrite (drop_S _ v _ Hl). simpl. rewrite Hr. simpl.
  repeat case_decide; try done.
  rewrite IH by lia. by replace (Z.to_nat (k + 1)) with (S (Z.to_nat k)) by lia.
Qed.

Lemma scan_slots_absent xs j k : j ∉ xs → scan_slots xs j k = -1.
Proof.
  revert k. induction xs as [|v xs IH]; intros k Hj; [done|].
  simpl. apply not_elem_of_cons in Hj as [? ?].
  repeat case_decide; try done; try congruence. by apply IH.
Qed.

Lemma scan_slots_present ys n j k :
  (∀ v, v ∈ ys → v ≠ -1) → j ∈ ys ++ replicate n (-1) →
  ∃ m : nat, scan_slots (ys ++ replicate n (-1)) j k = k + Z.of_nat m ∧
             (ys ++ replicate n (-1)) !! m = Some j.
Proof.
  revert k. induction ys as [|v ys IH]; intros k Hys Hj.
  - simpl in *. destruct n as [|n]; [by apply elem_of_nil in Hj|].
    apply elem_of_replicate in Hj as [-> _]. simpl.
    try rewrite decide_True by done. exists O. split; [lia | done].
  - simpl. case_decide as Hv.
    + exists O. split; [lia | by subst].
    + rewrite decide_False by (apply Hys; left).
      simpl in Hj. apply elem_of_cons in Hj as [?|Hj]; [congruence|].
      destruct (IH (k + 1)) as (m & Hm & Hl); [|done|].
      * intros w Hw. apply Hys. by right.
      * exists (S m). split; [lia | done].
Qed.

(** Claim C9.  On a table that satisfies the representation invariant, the
    lookup [operator()(i,j)] always returns: it yields -1 for a row [i]
    outside [0, size), the index of a slot of row [i] that holds [j] when
    [(i,j)] is an entry, and -1 when it is not.  The lookup is a [const]
    member: it returns a value and no table. *)
Theorem Table_call_total (T : Table) (i j : Z) :
  StaticTable T →
  ∃ v, Table_call T i j = Ok v ∧
    ((i < 0 ∨ Size T ≤ i) → v = -1) ∧
    (entry T i j → is_slot T i v ∧ GetJ T !! Z.to_nat v = Some j) ∧
    (¬ entry T i j → v = -1).
Proof.
  intros [Hcsr Hpk]. unfold Table_call. case_decide as Hi.
  - exists (-1). split; [done|]. split; [done|]. split; [|done].
    intros [? _]. lia.
  - assert (0 ≤ i < Size T) as Hi' by lia.
    destruct (csr_row T Hcsr i Hi') as (lo & hi & Hlo & Hhi & ? & ? & ? & Hrow).
    rewrite (rd_lookup (GetI T) (i + 1) hi), (rd_lookup (GetI T) i lo)
      by (done || lia).
    simpl. rewrite find_scan_slots by lia. fold (slice (GetJ T) lo hi).
    rewrite <- Hrow. eexists. split; [done|]. split; [lia|]. split.
    + intros [_ Hj].
      destruct (packed_row T i Hpk Hi') as (ys & n & Hr & Hys).
      rewrite Hr in Hj |- *.
      destruct (scan_slots_present ys n j lo Hys Hj) as (m & -> & Hm).
      rewrite <- Hr, Hrow in Hm.
      pose proof (lookup_lt_Some _ _ _ Hm) as Hlt.
      rewrite length_slice in Hlt by lia.
      rewrite lookup_slice in Hm by lia. split.
      * exists lo, hi. repeat split; try done; lia.
      * rewrite <- Hm. f_equal. lia.
    + intros Hne. apply scan_slots_absent. intros Hj. apply Hne. by split.
Qed.

(** *** [Table::Push] *)

(** The scan of [Push] stops at the first slot that holds [j] or is unset. *)
Lemma push_scan_find J_ j n k :
  0 ≤ k → k + Z.of_nat n ≤ Z.of_nat (length J_) →
  push_scan J_ j k n =
  match list_find (λ v, v = j ∨ v = -1) (take n (drop (Z.to_nat k) J_)) with
  | None => Abort
  | Some (m, v) =>
      if decide (v = j) then Ok (k + Z.of_nat m, J_)
      else Ok (k + Z.of_nat m, <[Z.to_nat (k + Z.of_nat m) := j]> J_)
  end.
Proof.
  revert k. induction n as [|n IH]; intros k Hk Hn; [done|].
  destruct (rd_in_range J_ k) as (v & Hr & Hl); [lia|].
  rewrite (drop_S _ v _ Hl). simpl. rewrite Hr. simpl.
  destruct (decide (v = j)) as [->|Hvj].
  - rewrite decide_True by auto. simpl. rewrite decide_True by done.
    do 2 f_equal. lia.
  - destruct (decide (v = -1)) as [->|Hv1].
    + rewrite decide_True by auto. simpl. rewrite decide_False by done.
      rewrite wr_Ok by lia. simpl. do 2 f_equal; [lia|]. f_equal. lia.
    + rewrite decide_False by tauto.
      rewrite IH by lia.
      replace (Z.to_nat (k + 1)) with (S (Z.to_nat k)) by lia.
      destruct (list_find _ _) as [[m w]|]; simpl; [|done].
      replace (k + 1 + Z.of_nat m) with (k + Z.of_nat (S m)) by lia. done.
Qed.

Lemma slice_insert_out a lo hi p v :
  0 ≤ lo → (p < lo ∨ hi ≤ p) → 0 ≤ p →
  slice (<[Z.to_nat p := v]> a) lo hi = slice a lo hi.
Proof.
  intros Hlo Hp Hp0. unfold slice. destruct (decide (p < lo)) as [Hp'|Hp'].
  - by rewrite drop_insert_lt by lia.
  - rewrite drop_insert_ge by lia. apply take_insert_ge. lia.
Qed.

Lemma slice_insert_in a lo hi p v :
  0 ≤ lo → lo ≤ p < hi →
  slice (<[Z.to_nat p := v]> a) lo hi
  = <[Z.to_nat (p - lo) := v]> (slice a lo hi).
Proof.
  intros Hlo Hp. unfold slice.
  rewrite drop_insert_ge by lia. rewrite take_insert_lt by lia.
  f_equal. lia.
Qed.

(** Rows other than [i] do not see a write into a slot of row [i]. *)
Lemma row_insert_other T i i' k v :
  csr T → 0 ≤ i < Size T → 0 ≤ i' < Size T → i' ≠ i → is_slot T i k →
  row (mkTable (Size T) (GetI T) (<[Z.to_nat k := v]> (GetJ T))) i' = row T i'.
Proof.
  intros Hcsr Hi Hi' Hne (lo & hi & Hlo & Hhi & Hk).
  destruct (csr_row T Hcsr i Hi) as (? & ? & ? & ? & ? & ? & ? & _).
  destruct (csr_row T Hcsr i' Hi') as (lo' & hi' & Hlo' & Hhi' & ? & ? & ? & _).
  simplify_eq. unfold row. simpl. rewrite Hlo', Hhi'.
  apply slice_insert_out; [done | | lia].
  destruct (decide (i' < i)).
  - right. assert (hi' ≤ lo); [|lia].
    apply (csr_le T Hcsr (i' + 1) i); try done; lia.
  - left. assert (hi ≤ lo'); [|lia].
    apply (csr_le T Hcsr (i + 1) i'); try done; lia.
Qed.

Lemma csr_insert T k v :
  csr T → csr (mkTable (Size T) (GetI T) (<[Z.to_nat k := v]> (GetJ T))).
Proof.
  intros (? & ? & ? & ? & ?). unfold csr. simpl.
  rewrite length_insert. done.
Qed.

(** The three outcomes of [Push] on a valid row of a table that satisfies the
    representation invariant. *)
Lemma Push_cases dbg T i j :
  StaticTable T → 0 ≤ i < Size T →
  (entry T i j ∧
   ∃ k, Push dbg T i j = Ok (k, T) ∧ is_slot T i k ∧
        GetJ T !! Z.to_nat k = Some j)
  ∨ (¬ entry T i j ∧ entry T i (-1) ∧
     ∃ k, Push dbg T i j
          = Ok (k, mkTable (Size T) (GetI T) (<[Z.to_nat k := j]> (GetJ T))) ∧
          is_slot T i k ∧ GetJ T !! Z.to_nat k = Some (-1) ∧
          ∀ p, is_slot T i p → p < k → GetJ T !! Z.to_nat p ≠ Some (-1))
  ∨ (¬ entry T i j ∧ ¬ entry T i (-1) ∧ Push dbg T i j = Abort).
Proof.
  intros [Hcsr Hpk] Hi.
  destruct (csr_row T Hcsr i Hi) as (lo & hi & Hlo & Hhi & ? & ? & ? & Hrow).
  assert (Push dbg T i j =
          '(k, J_) ← push_scan (GetJ T) j lo (Z.to_nat (hi - lo));
          Ok (k, mkTable (Size T) (GetI T) J_)) as ->.
  { unfold Push. rewrite (rd_lookup (GetI T) i lo), (rd_lookup (GetI T) (i + 1) hi)
      by (done || lia).
    destruct dbg; [rewrite decide_False by lia|]; done. }
  rewrite push_scan_find by lia. fold (slice (GetJ T) lo hi). rewrite <- Hrow.
  unfold entry.
  destruct (list_find _ (row T i)) as [[m v]|] eqn:Hfind.
  - apply list_find_Some in Hfind as (Hm & Hv & Hbefore).
    pose proof (lookup_lt_Some _ _ _ Hm) as Hlt.
    rewrite Hrow, length_slice in Hlt by lia.
    assert (GetJ T !! Z.to_nat (lo + Z.of_nat m) = Some v) as HJ.
    { rewrite Hrow, lookup_slice in Hm by lia. rewrite <- Hm. f_equal. lia. }
    assert (is_slot T i (lo + Z.of_nat m)) as Hslot.
    { exists lo, hi. repeat split; try done; lia. }
    destruct (decide (v = j)) as [->|Hvj].
    + left. split; [split; [done | by eapply list_elem_of_lookup_2]|].
      exists (lo + Z.of_nat m). by destruct T.
    + right. left. destruct Hv as [?|Hv]; [done|subst v].
      split; [|split; [split; [done | by eapply list_elem_of_lookup_2]|]].
      * intros [_ Hj]. apply list_elem_of_lookup in Hj as [q Hq].
        destruct (Hpk i Hi) as (ys & n & Hr & Hys).
        destruct (lt_eq_lt_dec q m) as [[Hqm|Hqm]|Hqm]; [| subst q |].
        -- apply (Hbefore q j Hq Hqm). by left.
        -- congruence.
        -- rewrite Hr in Hm, Hq.
           assert (length ys ≤ m)%nat as Hge.
           { apply Nat.nlt_ge. intros Hlt'.
             rewrite lookup_app_l in Hm by done.
             apply list_elem_of_lookup_2 in Hm. by apply Hys in Hm. }
           rewrite lookup_app_r in Hq by lia.
           apply lookup_replicate in Hq as [? _]. congruence.
      * exists (lo + Z.of_nat m). split; [done|]. split; [done|]. split; [done|].
        intros p (lo' & hi' & ? & ? & ?) Hp Hp1. simplify_eq.
        apply (Hbefore (Z.to_nat (p - lo)) (-1)); [|lia|by right].
        rewrite Hrow, lookup_slice by lia. rewrite <- Hp1. f_equal. lia.
  - right. right. apply list_find_None in Hfind.
    rewrite Forall_forall in Hfind.
    split; [|split; [|done]]; intros [_ Hj]; apply Hfind in Hj; tauto.
Qed.

Lemma Push_valid_row dbg T i j k T' :
  csr T → Push dbg T i j = Ok (k, T') → 0 ≤ i < Size T.
Proof.
  intros (? & Hlen & _) HP. unfold Push in HP.
  apply bind_Ok_inv in HP as (_ & _ & HP).
  apply bind_Ok_inv in HP as (lo & Hlo%rd_length & HP).
  apply bind_Ok_inv in HP as (hi & Hhi%rd_length & _). lia.
Qed.

(** [Push] keeps the representation invariant. *)
Lemma Push_StaticTable dbg T i j k T' :
  StaticTable T → Push dbg T i j = Ok (k, T') → StaticTable T'.
Proof.
  intros HT HP. pose proof HT as [Hcsr Hpk].
  pose proof (Push_valid_row _ _ _ _ _ _ Hcsr HP) as Hi.
  destruct (Push_cases dbg T i j HT Hi)
    as [(_ & k' & HP' & _)|[(Hnj & _ & k' & HP' & Hslot & Hk & Hfirst)|(_ & _ & HP')]];
    rewrite HP' in HP; simplify_eq; [done|].
  split; [by apply csr_insert|].
  intros i' Hi'. simpl in Hi'.
  destruct (decide (i' = i)) as [->|Hne].
  2: { rewrite (row_insert_other T i i' k j) by done. by apply Hpk. }
  destruct (csr_row T Hcsr i Hi) as (lo & hi & Hlo & Hhi & ? & ? & ? & Hrow).
  destruct Hslot as (lo' & hi' & Hlo' & Hhi' & Hk').
  assert (lo' = lo) as -> by congruence. assert (hi' = hi) as -> by congruence.
  unfold row at 1. simpl. rewrite Hlo, Hhi.
  rewrite slice_insert_in, <- Hrow by lia.
  destruct (Hpk i Hi) as (ys & n & Hr & Hys).
  assert (row T i !! Z.to_nat (k - lo) = Some (-1)) as Hm.
  { rewrite Hrow, lookup_slice_Z by lia. done. }
  assert (j ≠ -1) as Hj1.
  { intros ->. apply Hnj. split; [done|]. by eapply list_elem_of_lookup_2. }
  assert (Z.to_nat (k - lo) = length ys) as Hlen.
  { apply Nat.le_antisymm.
    - apply Nat.nlt_ge. intros Hlt.
      assert ((ys ++ replicate n (-1)) !! length ys = Some (-1)) as Hy.
      { rewrite lookup_app_r by lia. rewrite Nat.sub_diag.
        apply lookup_replicate_2.
        rewrite Hr in Hm. apply lookup_lt_Some in Hm.
        rewrite length_app, length_replicate in Hm. lia. }
      apply (Hfirst (lo + Z.of_nat (length ys))); [exists lo, hi|lia|].
      + repeat split; try done; lia.
      + rewrite <- Hy, <- Hr, Hrow, lookup_slice by lia. f_equal. lia.
    - apply Nat.nlt_ge. intros Hlt. rewrite Hr, lookup_app_l in Hm by done.
      apply list_elem_of_lookup_2 in Hm. by apply Hys in Hm. }
  rewrite Hlen in Hm |- *. rewrite Hr. destruct n as [|n].
  { rewrite Hr in Hm. rewrite lookup_app_r, Nat.sub_diag in Hm by lia. done. }
  exists (ys ++ [j]), n. split.
  - replace (length ys) with (length ys + 0)%nat at 1 by lia.
    rewrite insert_app_r. simpl. by rewrite <- app_assoc.
  - intros v [Hv| ->%list_elem_of_singleton]%elem_of_app; [by apply Hys | done].
Qed.

(** *** The fixed-degree constructor *)

(** Two arrays that agree cell by cell are the same array. *)
Lemma list_eq_Z (a b : list Z) :
  length a = length b →
  (∀ p, 0 ≤ p < Z.of_nat (length a) → a !! Z.to_nat p = b !! Z.to_nat p) →
  a = b.
Proof.
  intros Hlen Hp. apply list_eq. intros n.
  destruct (decide (n < length a)%nat).
  - specialize (Hp (Z.of_nat n)). rewrite Nat2Z.id in Hp. apply Hp. lia.
  - rewrite !lookup_ge_None_2; [done | lia | lia].
Qed.

(** The table that [Table_new] builds: row [r] starts at [r * cpr] and every
    slot is unset. *)
Definition fresh_table (dim cpr : Z) : Table :=
  mkTable dim
    ((λ r : nat, Z.of_nat r * cpr) <$> seq 0 (Z.to_nat (dim + 1)))
    (replicate (Z.to_nat (dim * cpr)) (-1)).

Lemma Table_new_eq junk dim cpr :
  0 ≤ dim → 0 ≤ cpr → Table_new junk dim cpr = Ok (fresh_table dim cpr).
Proof.
  intros Hdim Hcpr. unfold Table_new.
  destruct (new_int_Ok junk (dim + 1)) as (I0 & -> & HI0); [lia|].
  destruct (new_int_Ok junk (dim * cpr)) as (J0 & -> & HJ0); [nia|].
  simpl. rewrite wr_Ok by lia. simpl.
  set (P := λ (i : Z) (s : list Z * list Z),
    Z.of_nat (length s.1) = dim + 1 ∧ Z.of_nat (length s.2) = dim * cpr ∧
    (∀ r, 0 ≤ r < i → s.1 !! Z.to_nat r = Some (r * cpr)) ∧
    (∀ p, 0 ≤ p < (i - 1) * cpr → s.2 !! Z.to_nat p = Some (-1))).
  match goal with |- context [for_range 1 (dim + 1) ?b ?s] =>
    destruct (for_range_inv P 1 (dim + 1) b s) as ([I1 J1] & -> & HP) end.
  - lia.
  - unfold P. simpl. rewrite length_insert. repeat split; try done.
    + intros r Hr. assert (r = 0) as -> by lia.
      rewrite list_lookup_insert_eq by lia. done.
    + intros p Hp. lia.
  - intros i [Ia Ja] Hi (HlI & HlJ & HI & HJ). simpl in *.
    rewrite (rd_lookup Ia (i - 1) ((i - 1) * cpr)) by (apply HI || lia; lia).
    simpl. rewrite wr_Ok by lia. simpl.
    rewrite (rd_insert_ne Ia i (i - 1)) by lia.
    rewrite (rd_lookup Ia (i - 1) ((i - 1) * cpr)) by (apply HI || lia; lia).
    simpl. rewrite rd_insert_eq by lia. simpl.
    set (Q := λ (j : Z) (a : list Z),
      Z.of_nat (length a) = dim * cpr ∧
      ∀ p, 0 ≤ p < j → a !! Z.to_nat p = Some (-1)).
    match goal with |- context [for_range ?lo ?hi ?b ?s] =>
      destruct (for_range_inv Q lo hi b s) as (J2 & -> & HQ) end.
    + lia.
    + split; [done|]. intros p Hp. apply HJ. lia.
    + intros j a Hj [Hla Ha]. rewrite wr_Ok by nia.
      eexists. split; [done|]. split; [by rewrite length_insert|].
      intros p Hp. destruct (decide (p = j)) as [->|].
      * rewrite list_lookup_insert_eq; [done | nia].
      * rewrite list_lookup_insert_ne by lia. apply Ha. lia.
    + simpl. eexists. split; [done|]. destruct HQ as [HlJ2 HJ2].
      unfold P. simpl. rewrite length_insert. repeat split; try done.
      * intros r Hr. destruct (decide (r = i)) as [->|].
        -- rewrite list_lookup_insert_eq by lia. f_equal. lia.
        -- rewrite list_lookup_insert_ne by lia. apply HI. lia.
      * intros p Hp. apply HJ2. lia.
  - simpl. destruct HP as (HlI & HlJ & HI & HJ). simpl in *.
    unfold fresh_table. do 2 f_equal.
    + apply list_eq_Z.
      * rewrite length_fmap, length_seq. lia.
      * intros p Hp. rewrite HI by lia.
        rewrite list_lookup_fmap, lookup_seq_lt by lia. simpl.
        f_equal. lia.
    + apply list_eq_Z.
      * rewrite length_replicate. lia.
      * intros p Hp. rewrite HJ by lia.
        symmetry. apply lookup_replicate_2. lia.
Qed.

Lemma fresh_table_row_start dim cpr r :
  0 ≤ r ≤ dim → GetI (fresh_table dim cpr) !! Z.to_nat r = Some (r * cpr).
Proof.
  intros. simpl. rewrite list_lookup_fmap, lookup_seq_lt by lia. simpl.
  by rewrite Z2Nat.id by lia.
Qed.

Lemma fresh_table_StaticTable dim cpr :
  0 ≤ dim → 0 ≤ cpr → StaticTable (fresh_table dim cpr).
Proof.
  intros Hdim Hcpr. split.
  - unfold csr. change (Size (fresh_table dim cpr)) with dim.
    split; [done|]. split; [|split; [|split]].
    + simpl. rewrite length_fmap, length_seq. lia.
    + apply (fresh_table_row_start dim cpr 0). lia.
    + intros i a b Hi Ha Hb.
      rewrite (fresh_table_row_start dim cpr i) in Ha by lia.
      rewrite (fresh_table_row_start dim cpr (i + 1)) in Hb by lia.
      simplify_eq. nia.
    + rewrite (fresh_table_row_start dim cpr dim) by lia. simpl.
      rewrite length_replicate. f_equal. lia.
  - intros i Hi. change (Size (fresh_table dim cpr)) with dim in Hi.
    exists [], (Z.to_nat cpr). split; [|by intros v ?%elem_of_nil].
    unfold row.
    rewrite (fresh_table_row_start dim cpr i),
      (fresh_table_row_start dim cpr (i + 1)) by lia.
    simpl. unfold slice. rewrite drop_replicate, take_replicate.
    f_equal. nia.
Qed.

(** The tables of the fixed-degree protocol (section 4.1, protocol 1):
    allocated by the constructor with [cpr] slots in every row, then filled
    by calls of [Push]. *)
Inductive FixedDegree (cpr : Z) : Table → Prop :=
| FD_new junk dim T :
    0 ≤ dim → 0 ≤ cpr → Table_new junk dim cpr = Ok T → FixedDegree cpr T
| FD_push dbg T i j k T' :
    FixedDegree cpr T → Push dbg T i j = Ok (k, T') → FixedDegree cpr T'.

Lemma Push_shape dbg T i j k T' :
  StaticTable T → Push dbg T i j = Ok (k, T') →
  Size T' = Size T ∧ GetI T' = GetI T ∧ length (GetJ T') = length (GetJ T).
Proof.
  intros HT HP. pose proof HT as [Hcsr _].
  pose proof (Push_valid_row _ _ _ _ _ _ Hcsr HP) as Hi.
  destruct (Push_cases dbg T i j HT Hi)
    as [(_ & k' & HP' & _)|[(_ & _ & k' & HP' & _)|(_ & _ & HP')]];
    rewrite HP' in HP; simplify_eq; [done|]. simpl.
  by rewrite length_insert.
Qed.

Lemma length_row T i :
  csr T → 0 ≤ i < Size T →
  ∃ lo hi, GetI T !! Z.to_nat i = Some lo ∧
           GetI T !! Z.to_nat (i + 1) = Some hi ∧
           Z.of_nat (length (row T i)) = hi - lo.
Proof.
  intros Hcsr Hi.
  destruct (csr_row T Hcsr i Hi) as (lo & hi & Hlo & Hhi & ? & ? & ? & ->).
  exists lo, hi. rewrite length_slice by lia. repeat split; try done. lia.
Qed.

Lemma FixedDegree_inv cpr T :
  FixedDegree cpr T →
  StaticTable T ∧ ∀ i, 0 ≤ i < Size T → Z.of_nat (length (row T i)) = cpr.
Proof.
  induction 1 as [junk dim T Hdim Hcpr Hnew|dbg T i j k T' HT [IH1 IH2] HP].
  - rewrite Table_new_eq in Hnew by done. simplify_eq.
    pose proof (fresh_table_StaticTable dim cpr Hdim Hcpr) as HS.
    split; [done|]. intros i Hi.
    destruct (length_row _ i (proj1 HS) Hi) as (lo & hi & Hlo & Hhi & ->).
    change (Size (fresh_table dim cpr)) with dim in Hi.
    rewrite (fresh_table_row_start dim cpr i) in Hlo by lia.
    rewrite (fresh_table_row_start dim cpr (i + 1)) in Hhi by lia.
    simplify_eq. lia.
  - pose proof (Push_StaticTable _ _ _ _ _ _ IH1 HP) as HS'.
    split; [done|]. intros i' Hi'.
    destruct (Push_shape _ _ _ _ _ _ IH1 HP) as (HSz & HI' & _).
    destruct (length_row _ i' (proj1 HS') Hi') as (lo & hi & Hlo & Hhi & ->).
    rewrite HSz in Hi'. rewrite HI' in Hlo, Hhi.
    destruct (length_row _ i' (proj1 IH1) Hi') as (lo' & hi' & ? & ? & Hl).
    rewrite <- (IH2 i' Hi'), Hl. simplify_eq. done.
Qed.

(** Claim C5.  On a table of the fixed-degree protocol with [cpr] slots per
    row and a valid row [i]: when column [j] occupies a slot of row [i],
    [Push(i,j)] returns the index of such a slot and leaves the table as it
    is; when it does not and the row has an unset slot, [Push] writes [j]
    into the first unset slot and returns its index; when it does not and
    all [cpr] slots of the row are taken, [Push] ends in the fatal
    [mfem_error]; and a second [Push(i,j)] returns the same index and
    changes nothing. *)
Theorem Push_fixed_degree (dbg : bool) (cpr : Z) (T : Table) (i j : Z) :
  FixedDegree cpr T → 0 ≤ i < Size T →
  Z.of_nat (length (row T i)) = cpr ∧
  (entry T i j →
   ∃ k, Push dbg T i j = Ok (k, T) ∧ is_slot T i k ∧
        GetJ T !! Z.to_nat k = Some j) ∧
  (¬ entry T i j → entry T i (-1) →
   ∃ k, Push dbg T i j
        = Ok (k, mkTable (Size T) (GetI T) (<[Z.to_nat k := j]> (GetJ T))) ∧
        is_slot T i k ∧ GetJ T !! Z.to_nat k = Some (-1) ∧
        ∀ p, is_slot T i p → p < k → GetJ T !! Z.to_nat p ≠ Some (-1)) ∧
  (¬ entry T i j → ¬ entry T i (-1) → Push dbg T i j = Abort) ∧
  (∀ k T', Push dbg T i j = Ok (k, T') → Push dbg T' i j = Ok (k, T')).
Proof.
  intros [HS Hdeg]%FixedDegree_inv Hi.
  split; [by apply Hdeg|].
  pose proof (Push_cases dbg T i j HS Hi) as Hc.
  split; [|split; [|split]].
  - intros He. destruct Hc as [(_ & Hk)|[(Hn & _)|(Hn & _)]]; done.
  - intros Hn He. destruct Hc as [(? & _)|[(_ & _ & Hk)|(_ & ? & _)]]; done.
  - intros Hn He. destruct Hc as [(? & _)|[(_ & ? & _)|(_ & _ & ?)]]; done.
  - intros k T' HP.
    destruct Hc as [(_ & k' & HP' & _)|[(Hn & _ & k' & HP' & Hslot & _)|(_ & _ & HP')]];
      rewrite HP' in HP; simplify_eq; [done|].
    pose proof (Push_StaticTable _ _ _ _ _ _ HS HP') as HS'.
    set (T' := mkTable (Size T) (GetI T) (<[Z.to_nat k := j]> (GetJ T))) in *.
    assert (Hslot' : is_slot T' i k) by done.
    assert (HJk : GetJ T' !! Z.to_nat k = Some j).
    { simpl. apply list_lookup_insert_eq.
      destruct Hslot as (lo & hi & Hlo & Hhi & ?).
      destruct (csr_row T (proj1 HS) i Hi) as (? & ? & ? & ? & ? & ? & ? & _).
      simplify_eq. lia. }
    destruct (Push_cases dbg T' i j HS' Hi)
      as [(_ & k' & HP2 & Hs2 & HJ2)|[(Hn' & _)|(Hn' & _)]].
    + rewrite HP2. destruct (decide (k' = k)) as [->|Hne]; [done|].
      exfalso. apply Hn. apply entry_slot; [apply HS|]. split; [done|].
      exists k'. split; [done|].
      simpl in HJ2. rewrite list_lookup_insert_ne in HJ2; [done|].
      destruct Hs2 as (? & ? & ? & ? & ?). destruct Hslot as (? & ? & ? & ? & ?).
      destruct (csr_row T (proj1 HS) i Hi) as (? & ? & ? & ? & ? & ? & ? & _).
      subst T'. simpl in *. simplify_eq. lia.
    + exfalso. apply Hn'. apply entry_slot; [apply HS'|]. split; [done|]. eauto.
    + exfalso. apply Hn'. apply entry_slot; [apply HS'|]. split; [done|]. eauto.
Qed.

(** *** [Table::Finalize] *)

(** The slots of [xs] that are set. *)
Definition set_slots (xs : list Z) : list Z := filter (λ v, v ≠ -1) xs.

(** The number of set slots among the first [s] cells of [a]. *)
Definition set_before (a : list Z) (s : Z) : Z :=
  Z.of_nat (length (set_slots (take (Z.to_nat s) a))).

(** The table that [Finalize] builds when it compacts. *)
Definition compacted (T : Table) : Table :=
  mkTable (Size T) (set_before (GetJ T) <$> GetI T) (set_slots (GetJ T)).

Lemma set_slots_app xs ys : set_slots (xs ++ ys) = set_slots xs ++ set_slots ys.
Proof. apply filter_app. Qed.

Lemma set_slots_packed ys n :
  (∀ v, v ∈ ys → v ≠ -1) → set_slots (ys ++ replicate n (-1)) = ys.
Proof.
  intros Hys. rewrite set_slots_app.
  assert (set_slots (replicate n (-1)) = []) as ->.
  { induction n as [|n IH]; [done|]. simpl. unfold set_slots in *.
    rewrite filter_cons_False; [done | by intros ?]. }
  rewrite app_nil_r. unfold set_slots.
  induction ys as [|v ys IH]; [done|].
  rewrite filter_cons_True by (apply Hys; left).
  f_equal. apply IH. intros w Hw. apply Hys. by right.
Qed.

Lemma set_slots_no_unset xs : -1 ∉ xs → set_slots xs = xs.
Proof.
  intros Hn. pose proof (set_slots_packed xs 0) as H. simpl in H.
  rewrite app_nil_r in H. apply H. intros v Hv Heq. subst v. by apply Hn.
Qed.

Lemma count_loop xs s :
  foldM (λ v sum, Ok (if decide (v ≠ -1) then sum + 1 else sum)) xs s
  = Ok (s + Z.of_nat (length (set_slots xs))).
Proof.
  revert s. induction xs as [|v xs IH]; intros s; simpl.
  - f_equal. lia.
  - rewrite IH. unfold set_slots. case_decide.
    + rewrite filter_cons_True by done. simpl. f_equal. lia.
    + rewrite filter_cons_False by (simpl; tauto). done.
Qed.

Lemma take_slice a lo hi :
  0 ≤ lo → lo ≤ hi →
  take (Z.to_nat hi) a = take (Z.to_nat lo) a ++ slice a lo hi.
Proof.
  intros. unfold slice.
  replace (Z.to_nat hi) with (Z.to_nat lo + Z.to_nat (hi - lo))%nat by lia.
  symmetry. apply take_take_drop.
Qed.

(** The copy loop on a row whose unset slots trail. *)
Lemma copy_row_packed J_ ys : ∀ k n m NewJ cnt,
  0 ≤ k → k + Z.of_nat n ≤ Z.of_nat (length J_) →
  take n (drop (Z.to_nat k) J_) = ys ++ replicate m (-1) →
  (∀ v, v ∈ ys → v ≠ -1) →
  0 ≤ cnt → cnt + Z.of_nat (length ys) ≤ Z.of_nat (length NewJ) →
  ∃ NewJ', copy_row J_ k n NewJ cnt = Ok (NewJ', cnt + Z.of_nat (length ys)) ∧
           length NewJ' = length NewJ ∧
           take (Z.to_nat (cnt + Z.of_nat (length ys))) NewJ'
           = take (Z.to_nat cnt) NewJ ++ ys.
Proof.
  induction ys as [|v ys IH]; intros k n m NewJ cnt Hk Hn Hxs Hys Hc Hcap.
  - exists NewJ. simpl. rewrite Z.add_0_r, app_nil_r.
    split; [|done]. destruct n as [|n]; [done|].
    destruct (rd_in_range J_ k) as (v & Hr & Hl); [lia|].
    rewrite (drop_S _ v _ Hl) in Hxs. simpl in Hxs.
    destruct m as [|m]; [done|]. simpl in Hxs. simplify_eq.
    simpl. rewrite Hr. done.
  - destruct n as [|n]; [done|].
    destruct (rd_in_range J_ k) as (w & Hr & Hl); [lia|].
    rewrite (drop_S _ w _ Hl) in Hxs. simpl in Hxs. simplify_eq.
    simpl. rewrite Hr. simpl. rewrite decide_False by (apply Hys; left).
    simpl in Hcap. rewrite wr_Ok by lia. simpl.
    destruct (IH (k + 1) n m (<[Z.to_nat cnt := v]> NewJ) (cnt + 1))
      as (NewJ' & Hcp & Hlen & Htk); try lia.
    + by replace (Z.to_nat (k + 1)) with (S (Z.to_nat k)) by lia.
    + intros w Hw. apply Hys. by right.
    + rewrite length_insert. lia.
    + exists NewJ'. rewrite length_insert in Hlen.
      replace (cnt + Z.of_nat (S (length ys)))
        with (cnt + 1 + Z.of_nat (length ys)) by lia.
      split; [done|]. split; [done|]. rewrite Htk.
      replace (Z.to_nat (cnt + 1)) with (S (Z.to_nat cnt)) by lia.
      rewrite (take_S_r _ _ v) by (apply list_lookup_insert_eq; lia).
      rewrite take_insert_ge by lia. by rewrite <- app_assoc.
Qed.

Lemma set_before_split a lo hi :
  0 ≤ lo → lo ≤ hi →
  set_before a hi = set_before a lo + Z.of_nat (length (set_slots (slice a lo hi))).
Proof.
  intros. unfold set_before. rewrite (take_slice a lo hi) by done.
  rewrite set_slots_app, length_app. lia.
Qed.

Lemma set_before_all a :
  set_before a (Z.of_nat (length a)) = Z.of_nat (length (set_slots a)).
Proof. unfold set_before. rewrite take_ge; [done | lia]. Qed.

Lemma set_before_le_all a s :
  0 ≤ s ≤ Z.of_nat (length a) → set_before a s ≤ Z.of_nat (length (set_slots a)).
Proof.
  intros. rewrite <- set_before_all.
  rewrite (set_before_split a s (Z.of_nat (length a))) by lia. lia.
Qed.

Lemma set_slots_length_eq xs :
  length (set_slots xs) = length xs → -1 ∉ xs.
Proof.
  unfold set_slots. induction xs as [|v xs IH]; intros Hl; [by intros ?%elem_of_nil|].
  destruct (decide (v = -1)) as [->|Hv].
  - rewrite filter_cons_False in Hl by (simpl; tauto).
    pose proof (length_filter (λ v, v ≠ -1) xs). simpl in Hl. lia.
  - rewrite filter_cons_True in Hl by done. simpl in Hl.
    intros [?|?]%elem_of_cons; [congruence|]. apply IH; [lia | done].
Qed.

(** [Finalize] in closed form. *)
Lemma Finalize_eq junk dbg T :
  StaticTable T →
  Finalize junk dbg T
  = Ok (if decide (-1 ∈ GetJ T) then compacted T else T).
Proof.
  intros [Hcsr Hpk]. pose proof Hcsr as (HSz & HlI & HI0 & Hmono & Hend).
  unfold Finalize.
  rewrite (rd_lookup _ _ _ HSz Hend). simpl.
  rewrite (for_range_rd_foldM (GetJ T)
             (λ v sum, Ok (if decide (v ≠ -1) then sum + 1 else sum))) by lia.
  rewrite slice_all, count_loop, Z.add_0_l. simpl.
  set (sum := Z.of_nat (length (set_slots (GetJ T)))).
  case_decide as Hsum.
  2: { rewrite decide_False; [done|]. apply set_slots_length_eq. lia. }
  rewrite decide_True.
  2: { destruct (decide (-1 ∈ GetJ T)) as [|Hn]; [done|].
       apply set_slots_no_unset in Hn. unfold sum in Hsum.
       rewrite Hn in Hsum. lia. }
  destruct (new_int_Ok junk sum) as (N0 & -> & HN0); [lia|]. simpl.
  set (P := λ (i : Z) (s : list Z * list Z * Z * Z),
    let '(Ia, NJ, n, newI) := s in
    length Ia = length (GetI T) ∧ Z.of_nat (length NJ) = sum ∧ newI = n ∧
    (∀ r, i ≤ r ≤ Size T → Ia !! Z.to_nat r = GetI T !! Z.to_nat r) ∧
    (∀ r, 0 ≤ r < i →
          Ia !! Z.to_nat r = set_before (GetJ T) <$> GetI T !! Z.to_nat r) ∧
    ∃ st, GetI T !! Z.to_nat i = Some st ∧ n = set_before (GetJ T) st ∧
          take (Z.to_nat n) NJ = set_slots (take (Z.to_nat st) (GetJ T))).
  match goal with |- context [for_range 0 (Size T) ?b ?s] =>
    destruct (for_range_inv P 0 (Size T) b s) as ([[[I1 N1] n1] newI1] & -> & HP)
  end.
  - done.
  - unfold P. repeat split; try done; [lia|]. exists 0. by repeat split.
  - intros i [[[Ia NJ] n] newI] Hi (HlIa & HlNJ & -> & Hrest & Hdone & st & Hst & Hn & Htk).
    destruct (csr_row T Hcsr i Hi) as (lo & hi & Hlo & Hhi & ? & ? & ? & Hrow).
    assert (st = lo) as -> by congruence.
    rewrite (rd_lookup Ia (i + 1) hi) by (rewrite ?Hrest; done || lia).
    rewrite (rd_lookup Ia i lo) by (rewrite ?Hrest; done || lia). simpl.
    destruct (Hpk i Hi) as (ys & m & Hr & Hys).
    assert (set_before (GetJ T) hi = n + Z.of_nat (length ys)) as Hhi'.
    { rewrite (set_before_split _ lo hi), <- Hrow, Hr, set_slots_packed by done.
      lia. }
    pose proof (set_before_le_all (GetJ T) hi ltac:(lia)) as Hle. fold sum in Hle.
    destruct (copy_row_packed (GetJ T) ys lo (Z.to_nat (hi - lo)) m NJ n)
      as (NJ' & -> & HlNJ' & Htk'); try done; try lia.
    { fold (slice (GetJ T) lo hi). by rewrite <- Hrow. }
    { unfold set_before in Hn. lia. }
    simpl. rewrite wr_Ok by lia. simpl. eexists. split; [done|].
    unfold P. rewrite length_insert. repeat split; try done; try lia.
    + intros r Hr'. rewrite list_lookup_insert_ne by lia. apply Hrest. lia.
    + intros r Hr'. destruct (decide (r = i)) as [->|].
      * rewrite list_lookup_insert_eq by lia. by rewrite Hlo, Hn.
      * rewrite list_lookup_insert_ne by lia. apply Hdone. lia.
    + exists hi. split; [done|]. split; [done|].
      rewrite Htk', Htk, (take_slice (GetJ T) lo hi), set_slots_app by done.
      by rewrite <- Hrow, Hr, set_slots_packed.
  - destruct HP as (HlI1 & HlN1 & -> & Hrest & Hdone & st & Hst & Hn & Htk).
    assert (st = Z.of_nat (length (GetJ T))) as -> by congruence.
    rewrite set_before_all in Hn. fold sum in Hn. subst n1.
    simpl. rewrite wr_Ok by lia. simpl.
    assert ((if dbg then if decide (sum ≠ sum) then mfem_error else Ok ()
             else Ok ()) = Ok ()) as ->.
    { destruct dbg; [by rewrite decide_False by tauto | done]. }
    simpl. unfold compacted. do 2 f_equal.
    + apply list_eq_Z; [by rewrite length_insert, length_fmap|].
      intros p Hp. rewrite length_insert in Hp.
      rewrite list_lookup_fmap. destruct (decide (p = Size T)) as [->|].
      * rewrite list_lookup_insert_eq by lia. rewrite Hend. simpl.
        by rewrite set_before_all.
      * rewrite list_lookup_insert_ne by lia. apply Hdone. lia.
    + rewrite take_ge in Htk by lia. rewrite take_ge in Htk by lia. done.
Qed.

Lemma slice_app_middle (a b c : list Z) :
  slice (a ++ b ++ c) (Z.of_nat (length a))
        (Z.of_nat (length a) + Z.of_nat (length b)) = b.
Proof.
  unfold slice. rewrite Nat2Z.id, drop_app_length.
  replace (Z.to_nat (_ + _ - _)) with (length b) by lia.
  apply take_app_length.
Qed.

Lemma compacted_csr T : csr T → csr (compacted T).
Proof.
  intros Hcsr. pose proof Hcsr as (HSz & HlI & HI0 & Hmono & Hend).
  unfold csr, compacted. simpl. rewrite length_fmap, !list_lookup_fmap.
  split; [done|]. split; [done|]. split; [by rewrite HI0|]. split.
  - intros i a b Hi Ha Hb.
    destruct (csr_row T Hcsr i Hi) as (lo & hi & Hlo & Hhi & ? & ? & ? & _).
    rewrite list_lookup_fmap, Hlo in Ha. rewrite list_lookup_fmap, Hhi in Hb.
    simpl in *. simplify_eq.
    rewrite (set_before_split _ lo hi) by done. lia.
  - rewrite Hend. simpl. by rewrite set_before_all.
Qed.

Lemma compacted_row T i :
  csr T → 0 ≤ i < Size T → row (compacted T) i = set_slots (row T i).
Proof.
  intros Hcsr Hi.
  destruct (csr_row T Hcsr i Hi) as (lo & hi & Hlo & Hhi & ? & ? & ? & Hrow).
  unfold row at 1. simpl. rewrite !list_lookup_fmap, Hlo, Hhi. simpl.
  rewrite (set_before_split _ lo hi) by done.
  rewrite <- (take_drop (Z.to_nat hi) (GetJ T)) at 1.
  rewrite (take_slice _ lo hi) by done.
  rewrite !set_slots_app, <- app_assoc.
  unfold set_before at 1 2. rewrite slice_app_middle. by rewrite Hrow.
Qed.

(** Claim C6.  On a table that satisfies the representation invariant,
    [Finalize] returns a CSR table with the same rows count whose total
    entry count [I[size]] is the number of set slots of the original, whose
    every row holds exactly the set slots of the original row in their
    original order, and which has no unset slot; when the original has no
    unset slot the table is returned as it is. *)
Theorem Finalize_compacts (junk : nat → Z) (dbg : bool) (T : Table) :
  StaticTable T →
  ∃ T', Finalize junk dbg T = Ok T' ∧
        csr T' ∧ Size T' = Size T ∧
        GetI T' !! Z.to_nat (Size T')
        = Some (Z.of_nat (length (set_slots (GetJ T)))) ∧
        (∀ i, 0 ≤ i < Size T → row T' i = set_slots (row T i)) ∧
        (-1 ∉ GetJ T') ∧
        (-1 ∉ GetJ T → T' = T).
Proof.
  intros HS. rewrite Finalize_eq by done. pose proof HS as [Hcsr Hpk].
  eexists. split; [done|]. case_decide as Hu.
  - split; [by apply compacted_csr|]. split; [done|]. split; [|split; [|split]].
    + pose proof (compacted_csr T Hcsr) as (_ & _ & _ & _ & Hend). done.
    + intros i Hi. by apply compacted_row.
    + simpl. unfold set_slots. intros [? _]%list_elem_of_filter. done.
    + done.
  - split; [done|]. split; [done|].
    rewrite (set_slots_no_unset (GetJ T)) by done.
    split; [apply Hcsr|]. split; [|done].
    intros i Hi. symmetry. apply set_slots_no_unset.
    intros Hin. apply Hu.
    destruct (csr_row T Hcsr i Hi) as (lo & hi & _ & _ & ? & ? & ? & Hrow).
    rewrite Hrow in Hin. apply elem_of_slice in Hin as (p & _ & Hp); [|done].
    by eapply list_elem_of_lookup_2.
Qed.

(** ** Table algebra: [Transpose] and [Mult] *)

(** [void Transpose (const Table &A, Table &At, int _ncols_A)].  [At0] is
    the state of the output object [At] at the call; [A] and [At] are
    distinct objects. *)
Definition Transpose (junk : nat → Z) (A At0 : Table) (_ncols_A : Z)
  : result Table :=
  let i_A := GetI A in
  let j_A := GetJ A in
  let nrows_A := Size A in
  ncols_A ← (if decide (_ncols_A < 0) then Width A else Ok _ncols_A);
  nnz_A ← rd i_A nrows_A;
  At ← SetDims junk At0 ncols_A nnz_A;
  let i_At := GetI At in
  let j_At := GetJ At in
  i_At ← for_range 0 (ncols_A + 1) (λ i i_At, wr i_At i 0) i_At;
  i_At ← for_range 0 nnz_A (λ i i_At,
            c ← rd j_A i;
            v ← rd i_At (c + 1);
            wr i_At (c + 1) (v + 1)) i_At;
  i_At ← for_range 1 ncols_A (λ i i_At,
            a ← rd i_At (i + 1);
            b ← rd i_At i;
            wr i_At (i + 1) (a + b)) i_At;
  '(i_At, j_At) ← for_range 0 nrows_A (λ i '(i_At, j_At),
      lo ← rd i_A i;
      hi ← rd i_A (i + 1);
      for_range lo hi (λ j '(i_At, j_At),
        c ← rd j_A j;
        pos ← rd i_At c;
        j_At ← wr j_At pos i;
        i_At ← wr i_At c (pos + 1);
        Ok (i_At, j_At)) (i_At, j_At)) (i_At, j_At);
  i_At ← for_down ncols_A 0 (λ i i_At,
            v ← rd i_At (i - 1);
            wr i_At i v) i_At;
  i_At ← wr i_At 0 0;
  Ok (mkTable (Size At) i_At j_At).

(** The inner loops of [Mult], first pass: the columns of row [k] of [B],
    for row [i] of [A]. *)
Definition mult_count (i : Z) (m : Z) (s : list Z * Z) : result (list Z * Z) :=
  let '(B_marker, counter) := s in
  mk ← rd B_marker m;
  if decide (mk ≠ i) then
    B_marker ← wr B_marker m i;
    Ok (B_marker, counter + 1)
  else Ok (B_marker, counter).

(** The inner loops of [Mult], second pass. *)
Definition mult_fill (i : Z) (m : Z) (s : list Z * Z * list Z)
  : result (list Z * Z * list Z) :=
  let '(B_marker, counter, j_C) := s in
  mk ← rd B_marker m;
  if decide (mk ≠ i) then
    B_marker ← wr B_marker m i;
    j_C ← wr j_C counter m;
    Ok (B_marker, counter + 1, j_C)
  else Ok (B_marker, counter, j_C).

(** The walk over row [i] of [A] and, for each of its columns [k], over row
    [k] of [B], which both passes of [Mult] perform. *)
Definition mult_row {S : Type} (A B : Table) (step : Z → Z → S → result S)
    (i : Z) (s : S) : result S :=
  lo ← rd (GetI A) i;
  hi ← rd (GetI A) (i + 1);
  for_range lo hi (λ j s,
    k ← rd (GetJ A) j;
    lo' ← rd (GetI B) k;
    hi' ← rd (GetI B) (k + 1);
    for_range lo' hi' (λ l s,
      m ← rd (GetJ B) l;
      step i m s) s) s.

(** [void Mult (const Table &A, const Table &B, Table &C)].  [C0] is the
    state of the output object [C] at the call. *)
Definition Mult (junk : nat → Z) (A B C0 : Table) : result Table :=
  let nrows_A := Size A in
  let nrows_B := Size B in
  ncols_A ← Width A;
  ncols_B ← Width B;
  _ ← (if decide (ncols_A > nrows_B) then mfem_error else Ok ());
  B_marker ← new_int junk ncols_B;
  B_marker ← for_range 0 ncols_B (λ i B_marker, wr B_marker i (-1)) B_marker;
  '(B_marker, counter) ←
    for_range 0 nrows_A (λ i s, mult_row A B mult_count i s) (B_marker, 0);
  C ← SetDims junk C0 nrows_A counter;
  B_marker ← for_range 0 ncols_B (λ i B_marker, wr B_marker i (-1)) B_marker;
  let i_C := GetI C in
  let j_C := GetJ C in
  '(i_C, (B_marker, counter, j_C)) ←
    for_range 0 nrows_A (λ i '(i_C, (B_marker, counter, j_C)),
      i_C ← wr i_C i counter;
      s ← mult_row A B mult_fill i (B_marker, counter, j_C);
      Ok (i_C, s)) (i_C, (B_marker, 0, j_C));
  Ok (mkTable (Size C) i_C j_C).

(** *** [Width] and [SetDims] *)

(** One past the largest column of [l], and 0 for an empty [l]. *)
Definition width_of (l : list Z) : Z := foldl Z.max (-1) l + 1.

Lemma foldl_max_ge (l : list Z) w : w ≤ foldl Z.max w l.
Proof.
  revert w. induction l as [|v l IH]; intros w; simpl; [lia|].
  specialize (IH (Z.max w v)). lia.
Qed.

Lemma foldl_max_bound (l : list Z) w v : v ∈ l → v ≤ foldl Z.max w l.
Proof.
  revert w. induction l as [|u l IH]; intros w Hv; [by apply elem_of_nil in Hv|].
  simpl. apply elem_of_cons in Hv as [->|Hv]; [|by apply IH].
  pose proof (foldl_max_ge l (Z.max w u)). lia.
Qed.

Lemma foldl_max_least (l : list Z) w n :
  w ≤ n → (∀ v, v ∈ l → v ≤ n) → foldl Z.max w l ≤ n.
Proof.
  revert w. induction l as [|u l IH]; intros w Hw Hl; simpl; [done|].
  apply IH.
  - specialize (Hl u ltac:(left)). lia.
  - intros v Hv. apply Hl. by right.
Qed.

Lemma width_of_bound l v : v ∈ l → v < width_of l.
Proof. intros Hv. pose proof (foldl_max_bound l (-1) v Hv). unfold width_of. lia. Qed.

Lemma width_of_nonneg l : 0 ≤ width_of l.
Proof. pose proof (foldl_max_ge l (-1)). unfold width_of. lia. Qed.

Lemma width_of_least l n : 0 ≤ n → (∀ v, v ∈ l → v < n) → width_of l ≤ n.
Proof.
  intros Hn Hl. unfold width_of.
  assert (foldl Z.max (-1) l ≤ n - 1); [|lia].
  apply foldl_max_least; [lia|]. intros v Hv. specialize (Hl v Hv). lia.
Qed.

Lemma Width_eq T : csr T → Width T = Ok (width_of (GetJ T)).
Proof.
  intros Hcsr. pose proof Hcsr as (HSz & _ & _ & _ & Hend).
  unfold Width. rewrite (rd_lookup _ _ _ HSz Hend). simpl.
  rewrite (for_range_rd_foldM (GetJ T)
             (λ v width, Ok (if decide (v > width) then v else width))) by lia.
  rewrite slice_all. unfold width_of. clear.
  generalize (-1). induction (GetJ T) as [|v l IH]; intros w; [done|].
  simpl. specialize (IH (Z.max w v)).
  replace (if decide (v > w) then v else w) with (Z.max w v)
    by (case_decide; lia).
  done.
Qed.

(** The states of a [Table] object that [SetDims] may be called on: the
    empty object ([size < 0], no arrays), or arrays of the sizes that [size]
    and [I[size]] announce. *)
Definition reusable (T : Table) : Prop :=
  (Size T < 0 ∧ GetI T = [] ∧ GetJ T = []) ∨
  (0 ≤ Size T ∧ Z.of_nat (length (GetI T)) = Size T + 1 ∧
   GetI T !! Z.to_nat (Size T) = Some (Z.of_nat (length (GetJ T)))).

Lemma csr_reusable T : csr T → reusable T.
Proof. intros (? & ? & _ & _ & ?). right. done. Qed.

Lemma SetDims_shape junk T rows nnz :
  reusable T → 0 ≤ rows → 0 ≤ nnz →
  ∃ I_ J_, SetDims junk T rows nnz = Ok (mkTable rows I_ J_) ∧
           Z.of_nat (length I_) = rows + 1 ∧ Z.of_nat (length J_) = nnz ∧
           I_ !! Z.to_nat rows = Some nnz.
Proof.
  intros Hre Hrows Hnnz. unfold SetDims.
  assert (∃ j, (match GetI T with [] => Ok 0 | _ => rd (GetI T) (Size T) end)
               = Ok j ∧ Z.of_nat (length (GetJ T)) = j) as (j & -> & Hj).
  { destruct Hre as [(? & -> & ->)|(HSz & Hl & Hend)]; [by exists 0|].
    exists (Z.of_nat (length (GetJ T))). split; [|done].
    rewrite (rd_lookup (GetI T) (Size T) _ HSz Hend).
    destruct (GetI T); [simpl in Hl; lia | done]. }
  simpl.
  assert (∃ Ia, (if decide (Size T ≠ rows) then
                   I_ ← (if decide (rows >= 0) then new_int junk (rows + 1)
                         else Ok []);
                   Ok (rows, I_)
                 else Ok (Size T, GetI T)) = Ok (rows, Ia) ∧
                Z.of_nat (length Ia) = rows + 1) as (Ia & -> & HIa).
  { case_decide as Hsz.
    - rewrite decide_True by lia.
      destruct (new_int_Ok junk (rows + 1)) as (Ia & -> & ?); [lia|].
      by exists Ia.
    - exists (GetI T). assert (Size T = rows) as <- by lia.
      split; [done|]. destruct Hre as [(? & _)|(? & Hl & _)]; [lia | done]. }
  simpl.
  assert (∃ Ja, (if decide (j ≠ nnz) then
                   (if decide (nnz > 0) then new_int junk nnz else Ok [])
                 else Ok (GetJ T)) = Ok Ja ∧
                Z.of_nat (length Ja) = nnz) as (Ja & -> & HJa).
  { case_decide as Hjn.
    - case_decide.
      + destruct (new_int_Ok junk nnz) as (Ja & -> & ?); [lia|]. by exists Ja.
      + exists []. split; [done|]. simpl. lia.
    - exists (GetJ T). split; [done|]. lia. }
  simpl. rewrite decide_True by lia.
  rewrite wr_Ok by lia. simpl. rewrite wr_Ok by (rewrite length_insert; lia).
  eexists _, _. split; [done|]. rewrite !length_insert.
  split; [done|]. split; [done|].
  apply list_lookup_insert_eq. rewrite length_insert. lia.
Qed.

(** *** Counting columns *)

(** The number of occurrences of column [c] in [l]. *)
Definition cnt (c : Z) (l : list Z) : Z :=
  Z.of_nat (length (filter (λ v, v = c) l)).

(** The number of cells of [l] that hold a column below [c]. *)
Definition below (l : list Z) (c : Z) : Z :=
  Z.of_nat (length (filter (λ v, v < c) l)).

Lemma cnt_app c l1 l2 : cnt c (l1 ++ l2) = cnt c l1 + cnt c l2.
Proof. unfold cnt. rewrite filter_app, length_app. lia. Qed.

Lemma cnt_nonneg c l : 0 ≤ cnt c l.
Proof. unfold cnt. lia. Qed.

Lemma cnt_single c v : cnt c [v] = if decide (v = c) then 1 else 0.
Proof.
  unfold cnt. case_decide.
  - by rewrite filter_cons_True.
  - by rewrite filter_cons_False.
Qed.

Lemma cnt_take_S c l (p : nat) v :
  l !! p = Some v →
  cnt c (take (S p) l) = cnt c (take p l) + (if decide (v = c) then 1 else 0).
Proof.
  intros Hv. by rewrite (take_S_r _ _ _ Hv), cnt_app, cnt_single.
Qed.

Lemma cnt_take_lt c l (p : nat) :
  l !! p = Some c → cnt c (take p l) + 1 ≤ cnt c l.
Proof.
  intros Hv. rewrite <- (take_drop_middle l p c Hv) at 2.
  rewrite cnt_app. change (c :: drop (S p) l) with ([c] ++ drop (S p) l).
  rewrite cnt_app, cnt_single, decide_True by done.
  pose proof (cnt_nonneg c (drop (S p) l)). lia.
Qed.

Lemma cnt_take_all c l (n : nat) :
  (length l ≤ n)%nat → cnt c (take n l) = cnt c l.
Proof. intros. by rewrite take_ge. Qed.

Lemma below_succ l c : below l (c + 1) = below l c + cnt c l.
Proof.
  unfold below, cnt. induction l as [|v l IH]; [done|].
  destruct (decide (v < c)); [|destruct (decide (v = c))].
  - rewrite (filter_cons_True (λ v, v < c + 1)) by lia.
    rewrite (filter_cons_True (λ v, v < c)) by lia.
    rewrite (filter_cons_False (λ v, v = c)) by lia. simpl. lia.
  - rewrite (filter_cons_True (λ v, v < c + 1)) by lia.
    rewrite (filter_cons_False (λ v, v < c)) by lia.
    rewrite (filter_cons_True (λ v, v = c)) by lia. simpl. lia.
  - rewrite (filter_cons_False (λ v, v < c + 1)) by lia.
    rewrite (filter_cons_False (λ v, v < c)) by lia.
    rewrite (filter_cons_False (λ v, v = c)) by lia. simpl. lia.
Qed.

Lemma below_mono l c c' : c ≤ c' → below l c ≤ below l c'.
Proof.
  intros Hc. unfold below. induction l as [|v l IH]; [done|].
  destruct (decide (v < c)).
  - rewrite (filter_cons_True (λ v, v < c)) by lia.
    rewrite (filter_cons_True (λ v, v < c')) by lia. simpl. lia.
  - rewrite (filter_cons_False (λ v, v < c)) by lia.
    destruct (decide (v < c')).
    + rewrite (filter_cons_True (λ v, v < c')) by lia. simpl. lia.
    + rewrite (filter_cons_False (λ v, v < c')) by lia. lia.
Qed.

Lemma below_bottom l c : (∀ v, v ∈ l → c ≤ v) → below l c = 0.
Proof.
  intros Hl. unfold below. induction l as [|v l IH]; [done|].
  rewrite filter_cons_False.
  - apply IH. intros w Hw. apply Hl. by right.
  - specialize (Hl v ltac:(left)). simpl. lia.
Qed.

Lemma below_top l n : (∀ v, v ∈ l → v < n) → below l n = Z.of_nat (length l).
Proof.
  intros Hl. unfold below. induction l as [|v l IH]; [done|].
  rewrite filter_cons_True by (apply Hl; left). simpl.
  rewrite Nat2Z.inj_succ, IH; [lia|]. intros w Hw. apply Hl. by right.
Qed.

(** A slot below [below l n] lies in the range of exactly one column. *)
Lemma below_cover l (n : nat) s :
  below l 0 ≤ s < below l (Z.of_nat n) →
  ∃ c, 0 ≤ c < Z.of_nat n ∧ below l c ≤ s < below l (c + 1).
Proof.
  induction n as [|n IH]; intros Hs; [change (Z.of_nat 0) with 0 in Hs; lia|].
  destruct (decide (s < below l (Z.of_nat n))) as [Hlt|Hge].
  - destruct IH as (c & ? & ?); [lia|]. exists c. split; [lia | done].
  - exists (Z.of_nat n). split; [lia|].
    replace (Z.of_nat n + 1) with (Z.of_nat (S n)) by lia. lia.
Qed.

(** *** Filling an array *)

Lemma fill_loop (a : list Z) n v :
  Z.of_nat (length a) = n →
  for_range 0 n (λ i a, wr a i v) a = Ok (replicate (Z.to_nat n) v).
Proof.
  intros Hn.
  destruct (for_range_inv
    (λ i (b : list Z), length b = length a ∧
       ∀ p, 0 ≤ p < i → b !! Z.to_nat p = Some v)
    0 n (λ i a, wr a i v) a) as (b & -> & Hlen & Hb).
  - lia.
  - split; [done|]. intros p Hp. lia.
  - intros k b Hk [Hlen Hb]. rewrite wr_Ok by lia. eexists. split; [done|].
    rewrite length_insert. split; [done|]. intros p Hp.
    destruct (decide (p = k)) as [->|].
    + apply list_lookup_insert_eq. lia.
    + rewrite list_lookup_insert_ne by lia. apply Hb. lia.
  - f_equal. apply list_eq_Z.
    + rewrite length_replicate. lia.
    + intros p Hp. rewrite Hb by lia. symmetry. apply lookup_replicate_2. lia.
Qed.

Lemma cnt_take_le c l (p : nat) : cnt c (take p l) ≤ cnt c l.
Proof.
  rewrite <- (take_drop p l) at 2. rewrite cnt_app.
  pose proof (cnt_nonneg c (drop p l)). lia.
Qed.

(** A slot belongs to one row only. *)
Lemma slot_unique T i i' p :
  csr T → 0 ≤ i < Size T → 0 ≤ i' < Size T →
  is_slot T i p → is_slot T i' p → i = i'.
Proof.
  intros Hcsr Hi Hi' (lo & hi & Hlo & Hhi & Hp) (lo' & hi' & Hlo' & Hhi' & Hp').
  destruct (Z.lt_trichotomy i i') as [Hlt|[?|Hlt]]; [exfalso|done|exfalso].
  - assert (hi ≤ lo'); [|lia]. apply (csr_le T Hcsr (i + 1) i'); try done; lia.
  - assert (hi' ≤ lo); [|lia]. apply (csr_le T Hcsr (i' + 1) i); try done; lia.
Qed.

(** *** [Transpose] *)

Section transpose.
Context (junk : nat → Z) (A : Table) (ncols : Z).
Context (HA : finalized A) (Hw : width_of (GetJ A) ≤ ncols).

Local Abbreviation JA := (GetJ A).
Local Abbreviation nnz := (Z.of_nat (length (GetJ A))).

Lemma transpose_col_range v : v ∈ JA → 0 ≤ v < ncols.
Proof.
  intros Hv. destruct HA as [_ Hpos]. split; [by apply Hpos|].
  pose proof (width_of_bound _ _ Hv). lia.
Qed.

Lemma transpose_ncols_nonneg : 0 ≤ ncols.
Proof. pose proof (width_of_nonneg JA). lia. Qed.

Lemma transpose_below_0 : below JA 0 = 0.
Proof. apply below_bottom. intros v Hv. by apply transpose_col_range. Qed.

Lemma transpose_below_top : below JA ncols = nnz.
Proof. apply below_top. intros v Hv. by apply transpose_col_range. Qed.

(** The histogram loop. *)
Lemma transpose_histogram :
  ∃ a, for_range 0 nnz (λ i i_At,
         c ← rd JA i; v ← rd i_At (c + 1); wr i_At (c + 1) (v + 1))
         (replicate (Z.to_nat (ncols + 1)) 0) = Ok a ∧
       Z.of_nat (length a) = ncols + 1 ∧
       a !! O = Some 0 ∧
       ∀ c, 0 ≤ c < ncols → a !! Z.to_nat (c + 1) = Some (cnt c JA).
Proof.
  pose proof transpose_ncols_nonneg as Hn.
  rewrite (for_range_rd_foldM JA
             (λ c i_At, v ← rd i_At (c + 1); wr i_At (c + 1) (v + 1))) by lia.
  rewrite slice_all.
  destruct (foldM_inv
    (λ pre (a : list Z), Z.of_nat (length a) = ncols + 1 ∧ a !! O = Some 0 ∧
       ∀ c, 0 ≤ c < ncols → a !! Z.to_nat (c + 1) = Some (cnt c pre))
    (λ c i_At, v ← rd i_At (c + 1); wr i_At (c + 1) (v + 1))
    JA (replicate (Z.to_nat (ncols + 1)) 0)) as (a & Ha & HP).
  - rewrite length_replicate. split; [lia|]. split.
    + apply lookup_replicate_2. lia.
    + intros c Hc. apply lookup_replicate_2. lia.
  - intros pre c post a HJ (Hlen & H0 & Hcnt).
    assert (0 ≤ c < ncols) as Hc.
    { apply transpose_col_range. rewrite HJ. apply elem_of_app. right. left. }
    rewrite (rd_lookup a (c + 1) (cnt c pre)) by (apply Hcnt || lia; lia).
    simpl. rewrite wr_Ok by lia. eexists. split; [done|].
    rewrite length_insert. split; [done|]. split.
    + rewrite list_lookup_insert_ne by lia. done.
    + intros c' Hc'. rewrite cnt_app, cnt_single.
      destruct (decide (c = c')) as [->|Hne].
      * rewrite list_lookup_insert_eq by lia. done.
      * rewrite list_lookup_insert_ne by lia. rewrite Hcnt by done.
        f_equal. lia.
  - exists a. done.
Qed.

(** The prefix-sum loop. *)
Lemma transpose_prefix_sum (a : list Z) :
  Z.of_nat (length a) = ncols + 1 → a !! O = Some 0 →
  (∀ c, 0 ≤ c < ncols → a !! Z.to_nat (c + 1) = Some (cnt c JA)) →
  ∃ b, for_range 1 ncols (λ i i_At,
         x ← rd i_At (i + 1); y ← rd i_At i; wr i_At (i + 1) (x + y)) a
       = Ok b ∧
       Z.of_nat (length b) = ncols + 1 ∧
       ∀ r, 0 ≤ r ≤ ncols → b !! Z.to_nat r = Some (below JA r).
Proof.
  intros Hlen H0 Hcnt. pose proof transpose_below_0 as Hb0.
  assert (∀ r, 0 ≤ r ≤ ncols → r ≤ 1 → a !! Z.to_nat r = Some (below JA r))
    as Hbase.
  { intros r Hr Hr1. destruct (decide (r = 0)) as [->|].
    - by rewrite Hb0.
    - assert (r = 0 + 1) as -> by lia.
      rewrite below_succ, Hb0, Hcnt by lia. f_equal. }
  destruct (decide (ncols ≤ 1)) as [Hsmall|Hbig].
  { rewrite for_range_empty by lia. exists a. split; [done|].
    split; [done|]. intros r Hr. apply Hbase; lia. }
  destruct (for_range_inv
    (λ i (b : list Z), Z.of_nat (length b) = ncols + 1 ∧
       ∀ r, 0 ≤ r ≤ ncols →
            b !! Z.to_nat r
            = Some (if decide (r ≤ i) then below JA r else cnt (r - 1) JA))
    1 ncols (λ i i_At,
         x ← rd i_At (i + 1); y ← rd i_At i; wr i_At (i + 1) (x + y)) a)
    as (b & Hb & Hlb & HP).
  - lia.
  - split; [done|]. intros r Hr. case_decide; [by apply Hbase|].
    replace r with (r - 1 + 1) at 1 by lia. apply Hcnt. lia.
  - intros i b Hi (Hlb & Hb).
    rewrite (rd_lookup b (i + 1) (cnt i JA)).
    2: lia.
    2: { rewrite Hb by lia. rewrite decide_False by lia. do 2 f_equal. lia. }
    simpl. rewrite (rd_lookup b i (below JA i)).
    2: lia.
    2: { rewrite Hb by lia. by rewrite decide_True by lia. }
    simpl. rewrite wr_Ok by lia. eexists. split; [done|].
    rewrite length_insert. split; [done|]. intros r Hr.
    destruct (decide (r = i + 1)) as [->|Hne].
    + rewrite list_lookup_insert_eq by lia. rewrite decide_True by lia.
      rewrite below_succ. f_equal. lia.
    + rewrite list_lookup_insert_ne by lia. rewrite Hb by done.
      repeat case_decide; try done; lia.
  - exists b. split; [done|]. split; [done|]. intros r Hr.
    rewrite HP by done. by rewrite decide_True by lia.
Qed.

(** The loop that shifts the cursors back to row starts. *)
Lemma transpose_shift (a : list Z) :
  Z.of_nat (length a) = ncols + 1 →
  a !! Z.to_nat ncols = Some (below JA ncols) →
  (∀ c, 0 ≤ c < ncols → a !! Z.to_nat c = Some (below JA (c + 1))) →
  ∃ b, for_down ncols 0 (λ i i_At, v ← rd i_At (i - 1); wr i_At i v) a
       = Ok b ∧
       Z.of_nat (length b) = ncols + 1 ∧
       ∀ r, 0 < r ≤ ncols → b !! Z.to_nat r = Some (below JA r).
Proof.
  intros Hlen Htop Hcur. pose proof transpose_ncols_nonneg as Hn.
  destruct (for_down_inv
    (λ i (b : list Z), Z.of_nat (length b) = ncols + 1 ∧
       ∀ r, 0 ≤ r ≤ ncols →
            b !! Z.to_nat r
            = Some (if decide (r ≤ i ∧ r < ncols) then below JA (r + 1)
                    else below JA r))
    ncols 0 (λ i i_At, v ← rd i_At (i - 1); wr i_At i v) a)
    as (b & Hb & Hlb & HP).
  - done.
  - split; [done|]. intros r Hr. case_decide.
    + apply Hcur. lia.
    + assert (r = ncols) as -> by lia. done.
  - intros k b Hk (Hlb & Hb).
    rewrite (rd_lookup b (k - 1) (below JA k)).
    2: lia.
    2: { rewrite Hb by lia. rewrite decide_True by lia. do 2 f_equal. lia. }
    simpl. rewrite wr_Ok by lia. eexists. split; [done|].
    rewrite length_insert. split; [done|]. intros r Hr.
    destruct (decide (r = k)) as [->|Hne].
    + rewrite list_lookup_insert_eq by lia. by rewrite decide_False by lia.
    + rewrite list_lookup_insert_ne by lia. rewrite Hb by done.
      repeat case_decide; try done; lia.
  - exists b. split; [done|]. split; [done|]. intros r Hr.
    rewrite HP by lia. by rewrite decide_False by lia.
Qed.
(** The scatter loop, after the cells [0 .. P) of [j_A] have been
    visited: the cursor of column [c] has advanced by the number of
    visited occurrences of [c], and the slots between the start of [c]
    and its cursor hold the rows of these occurrences. *)
Definition scatter_inv (P : Z) (s : list Z * list Z) : Prop :=
  Z.of_nat (length s.1) = ncols + 1 ∧ Z.of_nat (length s.2) = nnz ∧
  s.1 !! Z.to_nat ncols = Some (below JA ncols) ∧
  (∀ c, 0 ≤ c < ncols →
        s.1 !! Z.to_nat c
        = Some (below JA c + cnt c (take (Z.to_nat P) JA))) ∧
  (∀ p i c, 0 ≤ p < P → 0 ≤ i < Size A → is_slot A i p →
            JA !! Z.to_nat p = Some c →
            ∃ t, below JA c ≤ t < below JA c + cnt c (take (Z.to_nat P) JA) ∧
                 s.2 !! Z.to_nat t = Some i) ∧
  (∀ c t, 0 ≤ c < ncols →
          below JA c ≤ t < below JA c + cnt c (take (Z.to_nat P) JA) →
          ∃ p i, 0 ≤ p < P ∧ 0 ≤ i < Size A ∧ is_slot A i p ∧
                 JA !! Z.to_nat p = Some c ∧ s.2 !! Z.to_nat t = Some i).

(** The ranges of two columns do not overlap. *)
Lemma scatter_disjoint (j : nat) c c0 t :
  JA !! j = Some c → 0 ≤ c0 →
  below JA c0 ≤ t < below JA c0 + cnt c0 (take j JA) →
  t ≠ below JA c + cnt c (take j JA).
Proof.
  intros Hj Hc0 Ht.
  pose proof (cnt_take_lt c JA j Hj).
  pose proof (cnt_take_le c0 JA j).
  pose proof (cnt_nonneg c (take j JA)).
  destruct (Z.lt_trichotomy c0 c) as [Hlt|[->|Hlt]]; [|lia|].
  - pose proof (below_succ JA c0). pose proof (below_mono JA (c0 + 1) c). lia.
  - pose proof (below_succ JA c). pose proof (below_mono JA (c + 1) c0). lia.
Qed.

Lemma transpose_scatter_step i j s :
  0 ≤ i < Size A → is_slot A i j → 0 ≤ j → scatter_inv j s →
  ∃ s', (let '(i_At, j_At) := s in
         c ← rd JA j;
         pos ← rd i_At c;
         j_At ← wr j_At pos i;
         i_At ← wr i_At c (pos + 1);
         Ok (i_At, j_At)) = Ok s' ∧ scatter_inv (j + 1) s'.
Proof.
  intros Hi Hslot Hj0 (Hlc & Hlj & Htop & Hcur & HR1 & HR2).
  destruct s as [cur jAt]. simpl in *.
  pose proof HA as [Hcsr _].
  assert (∃ c, JA !! Z.to_nat j = Some c) as [c Hc].
  { apply lookup_lt_is_Some_2.
    destruct Hslot as (lo & hi & Hlo & Hhi & ?).
    destruct (csr_row A Hcsr i Hi) as (? & ? & ? & ? & ? & ? & ? & _).
    simplify_eq. lia. }
  assert (0 ≤ c < ncols) as Hcr.
  { apply transpose_col_range. by eapply list_elem_of_lookup_2. }
  pose proof (cnt_take_lt c JA _ Hc) as Hlt.
  pose proof (cnt_nonneg c (take (Z.to_nat j) JA)) as Hnn.
  pose proof (below_succ JA c) as Hsucc.
  pose proof (below_mono JA (c + 1) ncols ltac:(lia)) as Hmono.
  pose proof transpose_below_top as Htop'.
  pose proof (below_mono JA 0 c ltac:(lia)) as Hmono0.
  pose proof transpose_below_0 as Hb0.
  set (pos := below JA c + cnt c (take (Z.to_nat j) JA)) in *.
  rewrite (rd_lookup JA j c) by done. simpl.
  rewrite (rd_lookup cur c pos) by (apply Hcur || lia; done). simpl.
  rewrite wr_Ok by lia. simpl. rewrite wr_Ok by lia. simpl.
  eexists. split; [done|].
  assert (∀ c', cnt c' (take (Z.to_nat (j + 1)) JA)
                = cnt c' (take (Z.to_nat j) JA)
                  + (if decide (c = c') then 1 else 0)) as Hstep.
  { intros c'. replace (Z.to_nat (j + 1)) with (S (Z.to_nat j)) by lia.
    by rewrite (cnt_take_S c' JA _ c Hc). }
  unfold scatter_inv. simpl. rewrite !length_insert.
  split; [done|]. split; [done|]. split; [|split; [|split]].
  - rewrite list_lookup_insert_ne by lia. done.
  - intros c' Hc'. rewrite Hstep. destruct (decide (c = c')) as [<-|Hne].
    + rewrite list_lookup_insert_eq by lia. f_equal. unfold pos. lia.
    + rewrite list_lookup_insert_ne by lia. rewrite Hcur by done.
      f_equal. lia.
  - intros p i' c' Hp Hi' Hs' Hpc. rewrite Hstep.
    destruct (decide (p = j)) as [->|Hne].
    + assert (c' = c) as -> by congruence.
      assert (i' = i) as -> by (by eapply (slot_unique A)).
      exists pos. rewrite decide_True by done. split; [lia|].
      apply list_lookup_insert_eq. lia.
    + destruct (HR1 p i' c' ltac:(lia) Hi' Hs' Hpc) as (t & Ht & Hjt).
      exists t. split; [case_decide; lia|].
      rewrite list_lookup_insert_ne; [done|].
      assert (0 ≤ c') by (apply transpose_col_range; by eapply list_elem_of_lookup_2).
      pose proof (scatter_disjoint _ c c' t Hc ltac:(done) Ht).
      pose proof (below_mono JA 0 c' ltac:(lia)). fold pos in H0. lia.
  - intros c' t Hc' Ht. rewrite Hstep in Ht.
    destruct (decide (c = c' ∧ t = pos)) as [[<- ->]|Hne].
    + exists j, i. repeat split; try done; try lia.
      apply list_lookup_insert_eq. lia.
    + assert (below JA c' ≤ t < below JA c' + cnt c' (take (Z.to_nat j) JA))
        as Ht'.
      { case_decide; [|lia]. subst c'. fold pos in Ht. lia. }
      destruct (HR2 c' t Hc' Ht') as (p & i' & ? & ? & ? & ? & ?).
      exists p, i'. repeat split; try done; try lia.
      rewrite list_lookup_insert_ne; [done|].
      pose proof (scatter_disjoint _ c c' t Hc ltac:(lia) Ht').
      pose proof (below_mono JA 0 c' ltac:(lia)). fold pos in H4. lia.
Qed.
Lemma transpose_scatter (s : list Z * list Z) :
  scatter_inv 0 s →
  ∃ s', for_range 0 (Size A) (λ i '(i_At, j_At),
          lo ← rd (GetI A) i;
          hi ← rd (GetI A) (i + 1);
          for_range lo hi (λ j '(i_At, j_At),
            c ← rd JA j;
            pos ← rd i_At c;
            j_At ← wr j_At pos i;
            i_At ← wr i_At c (pos + 1);
            Ok (i_At, j_At)) (i_At, j_At)) s = Ok s' ∧
        scatter_inv nnz s'.
Proof.
  intros H0. pose proof HA as [Hcsr _].
  pose proof Hcsr as (HSz & _ & HI0 & _ & Hend).
  match goal with |- context [for_range 0 (Size A) ?b s] =>
    destruct (for_range_inv
      (λ i t, ∃ st, GetI A !! Z.to_nat i = Some st ∧ scatter_inv st t)
      0 (Size A) b s) as (s' & Hs' & (st & Hst & Hinv)) end.
  - done.
  - exists 0. done.
  - intros i [cur jAt] Hi (st & Hst & Hinv).
    destruct (csr_row A Hcsr i Hi) as (lo & hi & Hlo & Hhi & ? & ? & ? & _).
    assert (st = lo) as -> by congruence.
    rewrite (rd_lookup (GetI A) i lo), (rd_lookup (GetI A) (i + 1) hi)
      by (done || lia).
    simpl.
    match goal with |- context [for_range lo hi ?bb ?tt] =>
      destruct (for_range_inv (λ j u, scatter_inv j u) lo hi bb tt)
        as (t' & Ht' & Hinv') end.
    + done.
    + done.
    + intros j t Hj Hjinv.
      apply (transpose_scatter_step i j t); try done; try lia.
      by exists lo, hi.
    + exists t'. split; [done|]. by exists hi.
  - exists s'. split; [done|]. by assert (st = nnz) as -> by congruence.
Qed.

(** [Transpose] on a table without unset slots and at least [Width]
    columns. *)
Lemma Transpose_spec (At0 : Table) :
  reusable At0 →
  ∃ At, Transpose junk A At0 ncols = Ok At ∧
        Size At = ncols ∧ csr At ∧
        (∀ c i, entry At c i ↔ entry A i c).
Proof.
  intros Hre. pose proof HA as [Hcsr _].
  pose proof Hcsr as (HSz & _ & HI0 & _ & Hend).
  pose proof transpose_ncols_nonneg as Hn.
  pose proof transpose_below_0 as Hb0.
  pose proof transpose_below_top as Htop.
  unfold Transpose. rewrite decide_False by lia. simpl.
  rewrite (rd_lookup _ _ _ HSz Hend). simpl.
  destruct (SetDims_shape junk At0 ncols nnz Hre Hn ltac:(lia))
    as (I0 & J0 & -> & HlI0 & HlJ0 & _).
  simpl. rewrite fill_loop by done. simpl.
  destruct transpose_histogram as (a & -> & Hla & Ha0 & Hacnt). simpl.
  destruct (transpose_prefix_sum a Hla Ha0 Hacnt) as (b & -> & Hlb & Hb).
  simpl.
  destruct (transpose_scatter (b, J0)) as ([cur jAt] & -> & Hinv).
  { unfold scatter_inv. simpl. rewrite take_0.
    split; [done|]. split; [done|]. split; [apply Hb; lia|].
    split; [|split].
    - intros c Hc. rewrite Hb by lia. f_equal. unfold cnt. simpl. lia.
    - intros p i c Hp. lia.
    - intros c t Hc Ht. unfold cnt in Ht. simpl in Ht. lia. }
  simpl. destruct Hinv as (Hlc & Hlj & Hctop & Hcur & HR1 & HR2).
  simpl in *. rewrite Nat2Z.id in Hcur, HR1, HR2.
  assert (∀ c, cnt c (take (length JA) JA) = cnt c JA) as Hall
    by (intros c; by rewrite take_ge).
  destruct (transpose_shift cur Hlc Hctop) as (d & -> & Hld & Hd).
  { intros c Hc. rewrite Hcur, Hall, below_succ by done. done. }
  simpl. rewrite wr_Ok by lia. simpl.
  assert (∀ r, 0 ≤ r ≤ ncols →
               <[Z.to_nat 0 := 0]> d !! Z.to_nat r = Some (below JA r))
    as HIAt.
  { intros r Hr. destruct (decide (r = 0)) as [->|].
    - rewrite list_lookup_insert_eq by lia. by rewrite Hb0.
    - rewrite list_lookup_insert_ne by lia. apply Hd. lia. }
  set (At := mkTable ncols (<[Z.to_nat 0 := 0]> d) jAt).
  assert (csr At) as HcsrAt.
  { unfold csr. simpl. rewrite length_insert.
    split; [done|]. split; [done|]. split; [|split].
    - pose proof (HIAt 0 ltac:(lia)) as H00. rewrite Hb0 in H00. exact H00.
    - intros i x y Hi Hx Hy. simpl in Hi.
      rewrite (HIAt i) in Hx by (simpl; lia).
      rewrite (HIAt (i + 1)) in Hy by (simpl; lia). simplify_eq.
      apply below_mono. lia.
    - rewrite (HIAt ncols) by lia. f_equal. lia. }
  exists At. split; [done|]. split; [done|]. split; [done|].
  intros c i. rewrite (entry_slot At) by done.
  rewrite (entry_slot A) by done. unfold is_slot at 1. subst At. simpl. split.
  - intros (Hc & t & (lo & hi & Hlo & Hhi & Ht) & Hjt).
    rewrite (HIAt c) in Hlo by lia. rewrite (HIAt (c + 1)) in Hhi by lia.
    simplify_eq.
    destruct (HR2 c t Hc) as (p & i' & Hp & Hi' & Hs & Hpc & Hjt').
    { rewrite Hall, <- below_succ. done. }
    assert (i' = i) as -> by congruence. split; [done|]. by exists p.
  - intros (Hi & p & Hs & Hpc).
    assert (0 ≤ c < ncols) as Hc.
    { apply transpose_col_range. by eapply list_elem_of_lookup_2. }
    assert (0 ≤ p < nnz) as Hp.
    { apply lookup_lt_Some in Hpc. destruct Hs as (? & ? & ? & ? & ?).
      destruct (csr_row A Hcsr i Hi) as (? & ? & ? & ? & ? & ? & ? & _).
      simplify_eq. lia. }
    destruct (HR1 p i c Hp Hi Hs Hpc) as (t & Ht & Hjt).
    split; [done|]. exists t. split; [|done].
    exists (below JA c), (below JA (c + 1)).
    rewrite (HIAt c), (HIAt (c + 1)) by lia.
    rewrite Hall, <- below_succ in Ht. done.
Qed.
End transpose.

(** Every cell of [J] is a slot of some row. *)
Lemma csr_cover T p :
  csr T → 0 ≤ p < Z.of_nat (length (GetJ T)) →
  ∃ i, 0 ≤ i < Size T ∧ is_slot T i p.
Proof.
  intros Hcsr Hp. pose proof Hcsr as (HSz & Hlen & H0 & _ & Hend).
  assert (∀ n : nat, Z.of_nat n ≤ Size T →
            ∀ b, GetI T !! n = Some b → p < b →
            ∃ i, 0 ≤ i < Z.of_nat n ∧ is_slot T i p) as Hgen.
  { induction n as [|n IH]; intros Hn b Hb Hpb.
    - rewrite H0 in Hb. simplify_eq. lia.
    - destruct (csr_rd_I T Hcsr (Z.of_nat n)) as (a & Ha & _); [lia|].
      rewrite Nat2Z.id in Ha.
      destruct (decide (p < a)) as [Hlt|Hge].
      + destruct (IH ltac:(lia) a Ha Hlt) as (i & ? & ?).
        exists i. split; [lia | done].
      + exists (Z.of_nat n). split; [lia|]. exists a, b.
        rewrite Nat2Z.id. replace (Z.to_nat (Z.of_nat n + 1)) with (S n) by lia.
        repeat split; try done; lia. }
  destruct (Hgen (Z.to_nat (Size T)) ltac:(lia) _ Hend ltac:(lia)) as (i & ? & ?).
  exists i. split; [lia | done].
Qed.

Lemma elem_of_entry T v :
  csr T → v ∈ GetJ T → ∃ i, entry T i v.
Proof.
  intros Hcsr [n Hn]%list_elem_of_lookup.
  pose proof (lookup_lt_Some _ _ _ Hn) as Hlt.
  destruct (csr_cover T (Z.of_nat n) Hcsr ltac:(lia)) as (i & Hi & Hs).
  exists i. apply entry_slot; [done|]. split; [done|].
  exists (Z.of_nat n). by rewrite Nat2Z.id.
Qed.

(** Claim C2.  For a table [A] without unset slots and [ncols] at least
    [A.Width()], [Transpose(A, At, ncols)] returns a table [At] with [ncols]
    rows, again without unset slots, in which [(j,i)] is an entry exactly
    when [(i,j)] is an entry of [A]; the width of [At] is at most the number
    of rows of [A], and transposing [At] in turn (with any admissible number
    of columns, the number of rows of [A] among them) returns a table with
    exactly the entries of [A]. *)
Theorem Transpose_twice (junk : nat → Z) (A At0 Att0 : Table) (w ncols : Z) :
  finalized A → reusable At0 → reusable Att0 →
  Width A = Ok w → w ≤ ncols →
  ∃ At, Transpose junk A At0 ncols = Ok At ∧
        Size At = ncols ∧ finalized At ∧
        (∀ i j, entry At j i ↔ entry A i j) ∧
        ∃ w', Width At = Ok w' ∧ w' ≤ Size A ∧
              ∀ ncols2, w' ≤ ncols2 →
                ∃ Att, Transpose junk At Att0 ncols2 = Ok Att ∧
                       Size Att = ncols2 ∧
                       ∀ i j, entry Att i j ↔ entry A i j.
Proof.
  intros HA Hre Hre2 HW Hw. pose proof HA as [Hcsr _].
  rewrite Width_eq in HW by done. simplify_eq.
  destruct (Transpose_spec junk A ncols HA Hw At0 Hre)
    as (At & HT & HSz & HcsrAt & Hent).
  exists At. split; [done|]. split; [done|].
  assert (∀ v, v ∈ GetJ At → 0 ≤ v < Size A) as Hrange.
  { intros v Hv. destruct (elem_of_entry At v HcsrAt Hv) as (c & Hc).
    apply Hent in Hc. apply Hc. }
  assert (finalized At) as HAt.
  { split; [done|]. intros v Hv. by apply Hrange. }
  split; [done|]. split; [intros; apply Hent|].
  exists (width_of (GetJ At)). split; [by apply Width_eq|].
  split.
  { apply width_of_least; [apply Hcsr|]. intros v Hv. by apply Hrange. }
  intros ncols2 Hn2.
  destruct (Transpose_spec junk At ncols2 HAt Hn2 Att0 Hre2)
    as (Att & HT2 & HSz2 & _ & Hent2).
  exists Att. split; [done|]. split; [done|].
  intros i j. rewrite Hent2. apply Hent.
Qed.

(** *** [Mult] *)

(** The columns that a walk over the candidates [ms] emits, given the
    columns [seen] that the marker array already records for the row: each
    new column once, at its first occurrence. *)
Fixpoint emit (seen ms : list Z) : list Z :=
  match ms with
  | [] => []
  | m :: ms' =>
      if decide (m ∈ seen) then emit seen ms' else m :: emit (m :: seen) ms'
  end.

(** The marker array after a walk over [ms] for row [i]. *)
Definition mark_all (i : Z) (ms : list Z) (marker : list Z) : list Z :=
  foldl (λ mk m, <[Z.to_nat m := i]> mk) marker ms.

Lemma emit_elem seen ms m : m ∈ emit seen ms ↔ m ∈ ms ∧ m ∉ seen.
Proof.
  revert seen. induction ms as [|x ms IH]; intros seen; simpl.
  - split; [by intros ?%elem_of_nil | by intros [?%elem_of_nil _]].
  - case_decide as Hx.
    + rewrite IH. split.
      * intros [? ?]. split; [by right | done].
      * intros [[->|?]%elem_of_cons ?]; done.
    + rewrite elem_of_cons, IH. split.
      * intros [->|[? [? ?]%not_elem_of_cons]]; (split; [|done]);
          [by left | by right].
      * intros [[->|?]%elem_of_cons ?]; [by left|].
        destruct (decide (m = x)); [by left|]. right. split; [done|].
        by apply not_elem_of_cons.
Qed.

Lemma emit_NoDup seen ms : NoDup (emit seen ms).
Proof.
  revert seen. induction ms as [|x ms IH]; intros seen; simpl;
    [constructor|].
  case_decide; [apply IH|]. constructor; [|apply IH].
  intros [_ Hn]%emit_elem. apply Hn. left.
Qed.

Lemma mark_all_length i ms marker :
  length (mark_all i ms marker) = length marker.
Proof.
  revert marker. induction ms as [|m ms IH]; intros marker; [done|].
  simpl. by rewrite IH, length_insert.
Qed.

Lemma mark_all_lookup i ms marker (n : nat) v :
  mark_all i ms marker !! n = Some v → v = i ∨ marker !! n = Some v.
Proof.
  revert marker. induction ms as [|m ms IH]; intros marker Hv; [by right|].
  simpl in Hv. apply IH in Hv as [?|Hv]; [by left|].
  destruct (decide (Z.to_nat m = n)) as [<-|Hne].
  - left. apply lookup_lt_Some in Hv as Hlt. rewrite length_insert in Hlt.
    rewrite list_lookup_insert_eq in Hv by done. congruence.
  - right. by rewrite list_lookup_insert_ne in Hv.
Qed.

Section mult_rows.
Context (i ncols_B : Z).

(** The marker array records exactly the columns [seen] for row [i]. *)
Definition marks (seen marker : list Z) : Prop :=
  Z.of_nat (length marker) = ncols_B ∧
  ∀ m, 0 ≤ m < ncols_B → (marker !! Z.to_nat m = Some i ↔ m ∈ seen).

Lemma marks_step seen marker m :
  marks seen marker → 0 ≤ m < ncols_B →
  marks (m :: seen) (<[Z.to_nat m := i]> marker).
Proof.
  intros [Hlen Hm] Hr. split; [by rewrite length_insert|].
  intros m' Hr'. rewrite elem_of_cons.
  destruct (decide (m' = m)) as [->|Hne].
  - rewrite list_lookup_insert_eq by lia. split; [by left | done].
  - rewrite list_lookup_insert_ne by lia. rewrite Hm by done.
    split; [by right | by intros [?|?]].
Qed.

(** The first pass over the candidates of a row. *)
Lemma count_walk ms : ∀ seen marker counter,
  marks seen marker → (∀ m, m ∈ ms → 0 ≤ m < ncols_B) →
  foldM (mult_count i) ms (marker, counter)
  = Ok (mark_all i ms marker, counter + Z.of_nat (length (emit seen ms))).
Proof.
  induction ms as [|m ms IH]; intros seen marker counter Hmk Hms; simpl.
  - f_equal. f_equal. lia.
  - assert (0 ≤ m < ncols_B) as Hr by (apply Hms; left).
    assert (∀ x, x ∈ ms → 0 ≤ x < ncols_B) as Hms'
      by (intros x Hx; apply Hms; by right).
    pose proof Hmk as [Hlen Hm].
    destruct (rd_in_range marker m) as (v & -> & Hv); [lia|]. simpl.
    case_decide as Hvi.
    + rewrite wr_Ok by lia. simpl.
      rewrite decide_False by (rewrite <- Hm by done; congruence).
      rewrite (IH (m :: seen)) by (done || by apply marks_step).
      simpl. do 2 f_equal. lia.
    + assert (v = i) as -> by (destruct (decide (v = i)); [done | tauto]).
      rewrite decide_True by (by apply Hm).
      rewrite (list_insert_id marker _ _ Hv). by apply IH.
Qed.

(** The second pass over the candidates of a row. *)
Lemma fill_walk ms : ∀ seen marker counter j_C,
  marks seen marker → (∀ m, m ∈ ms → 0 ≤ m < ncols_B) →
  0 ≤ counter →
  counter + Z.of_nat (length (emit seen ms)) ≤ Z.of_nat (length j_C) →
  ∃ j_C', foldM (mult_fill i) ms (marker, counter, j_C)
          = Ok (mark_all i ms marker,
                counter + Z.of_nat (length (emit seen ms)), j_C') ∧
          length j_C' = length j_C ∧
          take (Z.to_nat (counter + Z.of_nat (length (emit seen ms)))) j_C'
          = take (Z.to_nat counter) j_C ++ emit seen ms.
Proof.
  induction ms as [|m ms IH]; intros seen marker counter j_C Hmk Hms Hc Hcap;
    simpl.
  - exists j_C. rewrite Z.add_0_r, app_nil_r. done.
  - assert (0 ≤ m < ncols_B) as Hr by (apply Hms; left).
    assert (∀ x, x ∈ ms → 0 ≤ x < ncols_B) as Hms'
      by (intros x Hx; apply Hms; by right).
    pose proof Hmk as [Hlen Hm].
    destruct (rd_in_range marker m) as (v & -> & Hv); [lia|]. simpl.
    simpl in Hcap. destruct (decide (v ≠ i)) as [Hvi|Hvi].
    + assert (m ∉ seen) as Hns by (rewrite <- Hm by done; congruence).
      rewrite decide_False in Hcap by done. rewrite decide_False by done.
      simpl in Hcap.
      rewrite wr_Ok by lia. simpl. rewrite wr_Ok by lia. simpl.
      destruct (IH (m :: seen) (<[Z.to_nat m := i]> marker) (counter + 1)
                  (<[Z.to_nat counter := m]> j_C))
        as (j_C' & -> & Hl & Htk); try done; try lia.
      * by apply marks_step.
      * rewrite length_insert. lia.
      * exists j_C'. rewrite length_insert in Hl. simpl.
        replace (counter + Z.of_nat (S (length (emit (m :: seen) ms))))
          with (counter + 1 + Z.of_nat (length (emit (m :: seen) ms))) by lia.
        split; [done|]. split; [done|]. rewrite Htk.
        replace (Z.to_nat (counter + 1)) with (S (Z.to_nat counter)) by lia.
        rewrite (take_S_r _ _ m) by (apply list_lookup_insert_eq; lia).
        rewrite take_insert_ge by lia. by rewrite <- app_assoc.
    + assert (v = i) as -> by (destruct (decide (v = i)); [done | tauto]).
      assert (m ∈ seen) as Hs by (by apply Hm).
      rewrite decide_True in Hcap by done. rewrite decide_True by done.
      rewrite (list_insert_id marker _ _ Hv). by apply IH.
Qed.
End mult_rows.

Section mult.
Context (junk : nat → Z) (A B : Table).
Context (HA : finalized A) (HB : finalized B).
Context (HW : width_of (GetJ A) ≤ Size B).

Local Abbreviation ncols_B := (width_of (GetJ B)).

(** The candidates for row [i] of the product: the rows of [B] named by
    the columns of row [i] of [A], one after the other. *)
Definition cand (i : Z) : list Z := row A i ≫= row B.

(** Row [i] of the product, and the first [n] rows laid end to end. *)
Definition prod_row (i : Z) : list Z := emit [] (cand i).
Definition prod_rows (n : Z) : list Z := seqZ 0 n ≫= prod_row.

Lemma row_elem_of T i v :
  csr T → 0 ≤ i < Size T → v ∈ row T i → v ∈ GetJ T.
Proof.
  intros Hcsr Hi Hv.
  destruct (csr_row T Hcsr i Hi) as (lo & hi & _ & _ & ? & ? & ? & Hrow).
  rewrite Hrow in Hv. apply elem_of_slice in Hv as (p & _ & Hp); [|done].
  by eapply list_elem_of_lookup_2.
Qed.

Lemma mult_A_col i k : 0 ≤ i < Size A → k ∈ row A i → 0 ≤ k < Size B.
Proof.
  intros Hi Hk. destruct HA as [Hcsr Hpos].
  apply (row_elem_of A) in Hk; [|done..].
  split; [by apply Hpos|]. pose proof (width_of_bound _ _ Hk). lia.
Qed.

Lemma mult_B_col k m : 0 ≤ k < Size B → m ∈ row B k → 0 ≤ m < ncols_B.
Proof.
  intros Hk Hm. destruct HB as [Hcsr Hpos].
  apply (row_elem_of B) in Hm; [|done..].
  split; [by apply Hpos | by apply width_of_bound].
Qed.

Lemma cand_col i m : 0 ≤ i < Size A → m ∈ cand i → 0 ≤ m < ncols_B.
Proof.
  intros Hi (k & Hm & Hk)%list_elem_of_bind.
  eapply mult_B_col; [|done]. by eapply mult_A_col.
Qed.

(** The two nested loops over a row of [A] are a fold over its
    candidates. *)
Lemma mult_row_fold {S : Type} (step : Z → Z → S → result S) i s :
  0 ≤ i < Size A → mult_row A B step i s = foldM (step i) (cand i) s.
Proof.
  intros Hi. destruct HA as [HcsrA _]. destruct HB as [HcsrB _].
  destruct (csr_row A HcsrA i Hi) as (lo & hi & Hlo & Hhi & ? & ? & ? & Hrow).
  unfold mult_row.
  rewrite (rd_lookup (GetI A) i lo), (rd_lookup (GetI A) (i + 1) hi)
    by (done || lia).
  simpl.
  rewrite (for_range_rd_foldM (GetJ A) (λ k s,
    lo' ← rd (GetI B) k;
    hi' ← rd (GetI B) (k + 1);
    for_range lo' hi' (λ l s, m ← rd (GetJ B) l; step i m s) s)) by lia.
  rewrite <- Hrow. unfold cand.
  assert (∀ k, k ∈ row A i → 0 ≤ k < Size B) as Hks
    by (intros k Hk; by eapply mult_A_col).
  revert s Hks. generalize (row A i). clear Hrow.
  induction l as [|k ks IH]; intros s Hks; [done|].
  rewrite bind_cons, foldM_app. simpl.
  assert (0 ≤ k < Size B) as Hk by (apply Hks; left).
  destruct (csr_row B HcsrB k Hk) as (lo' & hi' & Hlo' & Hhi' & ? & ? & ? & Hrow').
  rewrite (rd_lookup (GetI B) k lo'), (rd_lookup (GetI B) (k + 1) hi')
    by (done || lia).
  simpl.
  rewrite (for_range_rd_foldM (GetJ B) (step i)) by lia.
  rewrite <- Hrow'. destruct (foldM (step i) (row B k) s); simpl; [|done..].
  apply IH. intros k' Hk'. apply Hks. by right.
Qed.

Lemma prod_rows_succ n : 0 ≤ n → prod_rows (n + 1) = prod_rows n ++ prod_row n.
Proof.
  intros Hn. unfold prod_rows. rewrite seqZ_app by lia.
  rewrite bind_app. f_equal. simpl. rewrite app_nil_r. f_equal.
Qed.

Lemma prod_rows_mono i (k : nat) :
  0 ≤ i →
  (length (prod_rows i) ≤ length (prod_rows (i + Z.of_nat k)))%nat.
Proof.
  intros Hi. induction k as [|k IH].
  - by replace (i + Z.of_nat 0) with i by lia.
  - replace (i + Z.of_nat (S k)) with (i + Z.of_nat k + 1) by lia.
    rewrite prod_rows_succ, length_app by lia. lia.
Qed.

Lemma prod_rows_le i n :
  0 ≤ i ≤ n → Z.of_nat (length (prod_rows i)) ≤ Z.of_nat (length (prod_rows n)).
Proof.
  intros Hi. pose proof (prod_rows_mono i (Z.to_nat (n - i)) ltac:(lia)) as H.
  replace (i + Z.of_nat (Z.to_nat (n - i))) with n in H by lia. lia.
Qed.

(** No cell of the marker array holds row [i] or a later row. *)
Definition unmarked (i : Z) (marker : list Z) : Prop :=
  Z.of_nat (length marker) = ncols_B ∧
  ∀ (n : nat) v, marker !! n = Some v → v < i.

Lemma unmarked_marks i marker : unmarked i marker → marks i ncols_B [] marker.
Proof.
  intros [Hlen Hv]. split; [done|]. intros m Hm. split.
  - intros Hi%Hv. lia.
  - by intros ?%elem_of_nil.
Qed.

Lemma unmarked_next i ms marker :
  unmarked i marker → unmarked (i + 1) (mark_all i ms marker).
Proof.
  intros [Hlen Hv]. split; [by rewrite mark_all_length|].
  intros n v [->|Hn%Hv]%mark_all_lookup; lia.
Qed.

Lemma unmarked_init : unmarked 0 (replicate (Z.to_nat ncols_B) (-1)).
Proof.
  pose proof (width_of_nonneg (GetJ B)).
  split; [rewrite length_replicate; lia|].
  intros n v [-> _]%lookup_replicate. lia.
Qed.
Local Abbreviation nrows_A := (Size A).
Local Abbreviation total := (Z.of_nat (length (prod_rows (Size A)))).

(** The counting pass. *)
Lemma mult_pass1 marker :
  unmarked 0 marker →
  ∃ marker', for_range 0 nrows_A (λ i s, mult_row A B mult_count i s)
               (marker, 0) = Ok (marker', total) ∧
             Z.of_nat (length marker') = ncols_B.
Proof.
  intros H0. destruct HA as [(HSz & _) _].
  destruct (for_range_inv
    (λ i (s : list Z * Z), unmarked i s.1 ∧
                           s.2 = Z.of_nat (length (prod_rows i)))
    0 nrows_A (λ i s, mult_row A B mult_count i s) (marker, 0))
    as ([mk cn] & Hr & [Hlen _] & Hcn).
  - done.
  - done.
  - intros i [mk cn] Hi [Hmk Hcn]. simpl in *.
    rewrite mult_row_fold by done.
    rewrite (count_walk i ncols_B (cand i) [] mk cn).
    + eexists. split; [done|]. simpl. split; [by apply unmarked_next|].
      rewrite prod_rows_succ, length_app by lia. unfold prod_row. lia.
    + by apply unmarked_marks.
    + intros m Hm. by eapply cand_col.
  - simpl in Hcn. subst cn. by exists mk.
Qed.


(** The filling pass. *)
Lemma mult_pass2 marker (i_C j_C : list Z) :
  unmarked 0 marker →
  Z.of_nat (length i_C) = nrows_A + 1 → Z.of_nat (length j_C) = total →
  i_C !! Z.to_nat nrows_A = Some total →
  ∃ i_C' marker' counter j_C',
    for_range 0 nrows_A (λ i '(i_C, (B_marker, counter, j_C)),
      i_C ← wr i_C i counter;
      s ← mult_row A B mult_fill i (B_marker, counter, j_C);
      Ok (i_C, s)) (i_C, (marker, 0, j_C))
    = Ok (i_C', (marker', counter, j_C')) ∧
    Z.of_nat (length i_C') = nrows_A + 1 ∧
    (∀ r, 0 ≤ r ≤ nrows_A →
          i_C' !! Z.to_nat r = Some (Z.of_nat (length (prod_rows r)))) ∧
    j_C' = prod_rows nrows_A.
Proof.
  intros H0 HlI HlJ Hend. destruct HA as [(HSz & _) _].
  match goal with |- context [for_range 0 nrows_A ?body ?init] =>
    destruct (for_range_inv
      (λ i (s : list Z * (list Z * Z * list Z)),
         let '(iC, (mk, cn, jC)) := s in
         unmarked i mk ∧ cn = Z.of_nat (length (prod_rows i)) ∧
         Z.of_nat (length iC) = nrows_A + 1 ∧
         Z.of_nat (length jC) = total ∧
         iC !! Z.to_nat nrows_A = Some total ∧
         (∀ r, 0 ≤ r < i →
               iC !! Z.to_nat r = Some (Z.of_nat (length (prod_rows r)))) ∧
         take (Z.to_nat cn) jC = prod_rows i)
      0 nrows_A body init)
      as ([iC [[mk cn] jC]] & Hr & Hmk & Hcn & HlI' & HlJ' & Hend' & HI' & HJ')
  end.
  - done.
  - split; [done|]. split; [done|]. split; [done|]. split; [done|].
    split; [done|]. split; [|done]. intros r Hr. lia.
  - intros i [iC [[mk cn] jC]] Hi (Hmk & Hcn & HlI' & HlJ' & Hend' & HI' & HJ').
    rewrite wr_Ok by lia. simpl. rewrite mult_row_fold by done.
    pose proof (prod_rows_le (i + 1) nrows_A ltac:(lia)) as Hle.
    rewrite prod_rows_succ, length_app in Hle by lia.
    destruct (fill_walk i ncols_B (cand i) [] mk cn jC)
      as (jC' & -> & HlJ'' & Htk).
    + by apply unmarked_marks.
    + intros m Hm. by eapply cand_col.
    + lia.
    + unfold prod_row in Hle. lia.
    + simpl. eexists. split; [done|]. simpl.
      rewrite length_insert.
      split; [by apply unmarked_next|].
      split; [rewrite prod_rows_succ, length_app by lia; unfold prod_row; lia|].
      split; [done|]. split; [lia|].
      split; [by rewrite list_lookup_insert_ne by lia|]. split.
      * intros r Hr'. destruct (decide (r = i)) as [->|].
        -- rewrite list_lookup_insert_eq by lia. by rewrite Hcn.
        -- rewrite list_lookup_insert_ne by lia. apply HI'. lia.
      * rewrite Htk, HJ', prod_rows_succ by lia. done.
  - exists iC, mk, cn, jC. split; [done|]. split; [done|]. split.
    + intros r Hr'. destruct (decide (r = nrows_A)) as [->|]; [done|].
      apply HI'. lia.
    + rewrite <- HJ'. symmetry. apply take_ge. lia.
Qed.

(** [Mult] on tables without unset slots, with the width of [A] at most
    the number of rows of [B]. *)
Lemma Mult_spec (C0 : Table) :
  reusable C0 →
  ∃ C, Mult junk A B C0 = Ok C ∧ Size C = Size A ∧ csr C ∧
       ∀ i, 0 ≤ i < Size A → row C i = prod_row i.
Proof.
  intros Hre. pose proof HA as [HcsrA _]. pose proof HB as [HcsrB _].
  pose proof HcsrA as (HSz & _).
  pose proof (width_of_nonneg (GetJ B)) as HnB.
  unfold Mult. rewrite !Width_eq by done. simpl.
  rewrite decide_False by lia. simpl.
  destruct (new_int_Ok junk ncols_B HnB) as (mk0 & -> & Hmk0). simpl.
  rewrite fill_loop by done. simpl.
  destruct (mult_pass1 _ unmarked_init) as (mk1 & -> & Hmk1). simpl.
  destruct (SetDims_shape junk C0 nrows_A total Hre HSz ltac:(lia))
    as (I0 & J0 & -> & HlI0 & HlJ0 & Hend0).
  simpl. rewrite fill_loop by done. simpl.
  destruct (mult_pass2 _ I0 J0 unmarked_init HlI0 HlJ0 Hend0)
    as (iC & mk2 & cn & jC & -> & HlI & HI & ->).
  simpl. set (C := mkTable nrows_A iC (prod_rows nrows_A)).
  assert (csr C) as HcsrC.
  { unfold csr. simpl. split; [done|]. split; [done|].
    split; [apply (HI 0); lia|]. split; [|apply HI; lia].
    intros i a b Hi Ha Hb. rewrite HI in Ha, Hb by lia. simplify_eq.
    apply prod_rows_le. lia. }
  exists C. split; [done|]. split; [done|]. split; [done|].
  intros i Hi. unfold row. simpl. rewrite !HI by lia.
  assert (∃ rest, prod_rows nrows_A = prod_rows i ++ prod_row i ++ rest)
    as [rest ->].
  { pose proof (seqZ_app 0 (i + 1) (Size A - (i + 1)) ltac:(lia) ltac:(lia))
      as Hseq.
    replace (i + 1 + (Size A - (i + 1))) with (Size A) in Hseq by lia.
    unfold prod_rows at 1. rewrite Hseq, bind_app.
    fold (prod_rows (i + 1)). rewrite prod_rows_succ, <- app_assoc by lia.
    by eexists. }
  rewrite prod_rows_succ, length_app, Nat2Z.inj_add by lia.
  apply slice_app_middle.
Qed.
End mult.

(** Claim C1.  For tables [A] and [B] without unset slots: when
    [A.Width() <= B.Size()], [Mult(A,B,C)] returns a CSR table [C] with the
    rows of [A] in which [(i,m)] is an entry exactly when some [k] has
    [(i,k)] an entry of [A] and [(k,m)] an entry of [B], and no row of [C]
    holds a column twice; when [A.Width() > B.Size()], [Mult] ends in the
    fatal [mfem_error]. *)
Theorem Mult_composition (junk : nat → Z) (A B C0 : Table) (wA : Z) :
  finalized A → finalized B → reusable C0 → Width A = Ok wA →
  (wA ≤ Size B →
   ∃ C, Mult junk A B C0 = Ok C ∧ Size C = Size A ∧ csr C ∧
        (∀ i m, entry C i m ↔ ∃ k, entry A i k ∧ entry B k m) ∧
        (∀ i, 0 ≤ i < Size C → NoDup (row C i))) ∧
  (wA > Size B → Mult junk A B C0 = Abort).
Proof.
  intros HA HB Hre HwA. pose proof HA as [HcsrA _]. pose proof HB as [HcsrB _].
  split.
  - intros Hle. rewrite Width_eq in HwA by done. simplify_eq.
    destruct (Mult_spec junk A B HA HB Hle C0 Hre) as (C & HM & HSz & HcsrC & Hrow).
    exists C. split; [done|]. split; [done|]. split; [done|]. split.
    + intros i m. unfold entry at 1. rewrite HSz. split.
      * intros [Hi Hm]. rewrite Hrow in Hm by done.
        apply emit_elem in Hm as [Hm _].
        apply list_elem_of_bind in Hm as (k & Hm & Hk).
        exists k. split; [done|]. split; [|done].
        exact (mult_A_col A B HA Hle i k Hi Hk).
      * intros (k & [Hi Hk] & [_ Hm]). split; [done|].
        rewrite Hrow by done. apply emit_elem. split; [|by intros ?%elem_of_nil].
        apply list_elem_of_bind. by exists k.
    + intros i Hi. rewrite Hrow by lia. apply emit_NoDup.
  - intros Hgt. unfold Mult. rewrite HwA. simpl.
    rewrite Width_eq by done. simpl. by rewrite decide_True.
Qed.

(** ** [DSTable]: the dynamic row table of table.cpp *)

(** A node of a row chain; the [Prev] link is the tail of the list that
    holds the node. *)
Record Node : Type := mkNode {
  Column : Z;
  Index_ : Z;
}.

(** The object state of a [DSTable]: [Rows[r]] is the chain of row [r],
    newest node first. *)
Record DSTable : Type := mkDSTable {
  NumRows : Z;
  NumEntries : Z;
  Rows : list (list Node);
}.

(** [DSTable::DSTable(int nrows)]. *)
Definition DSTable_new (nrows : Z) : result DSTable :=
  if decide (0 ≤ nrows) then
    Ok (mkDSTable nrows 0 (replicate (Z.to_nat nrows) []))
  else Fault.

(** [Rows[r]] as an rvalue. *)
Definition rd_chain (rows : list (list Node)) (r : Z) : result (list Node) :=
  if decide (0 ≤ r) then
    match rows !! Z.to_nat r with
    | Some chain => Ok chain
    | None => Fault
    end
  else Fault.

(** The walk [for (n = Rows[r]; n != NULL; n = n->Prev)] that looks for
    column [c]. *)
Fixpoint chain_find (c : Z) (chain : list Node) : option Z :=
  match chain with
  | [] => None
  | n :: prev => if decide (Column n = c) then Some (Index_ n)
                 else chain_find c prev
  end.

(** [int DSTable::Push_(int r, int c)]. *)
Definition Push_ (MFEM_DEBUG : bool) (T : DSTable) (r c : Z)
  : result (Z * DSTable) :=
  _ ← (if MFEM_DEBUG then
         if decide (r < 0 ∨ r >= NumRows T) then mfem_error else Ok ()
       else Ok ());
  chain ← rd_chain (Rows T) r;
  match chain_find c chain with
  | Some idx => Ok (idx, T)
  | None =>
      let n := mkNode c (NumEntries T) in
      Ok (NumEntries T,
          mkDSTable (NumRows T) (NumEntries T + 1)
                    (<[Z.to_nat r := n :: chain]> (Rows T)))
  end.

(** [int DSTable::Index(int r, int c) const]. *)
Definition Index (MFEM_DEBUG : bool) (T : DSTable) (r c : Z) : result Z :=
  _ ← (if MFEM_DEBUG then
         if decide (r < 0) then mfem_error else Ok ()
       else Ok ());
  if decide (r >= NumRows T) then Ok (-1)
  else
    chain ← rd_chain (Rows T) r;
    Ok (default (-1) (chain_find c chain)).

(** A sequence of calls of [Push_], with the indices they return. *)
Fixpoint push_all (dbg : bool) (ps : list (Z * Z)) (T : DSTable)
  : result (list Z * DSTable) :=
  match ps with
  | [] => Ok ([], T)
  | (r, c) :: ps' =>
      '(k, T1) ← Push_ dbg T r c;
      '(ks, T2) ← push_all dbg ps' T1;
      Ok (k :: ks, T2)
  end.

(** The distinct pairs of [ps] in the order of their first occurrence,
    appended to the pairs [acc] seen before. *)
Fixpoint first_seen (acc ps : list (Z * Z)) : list (Z * Z) :=
  match ps with
  | [] => acc
  | p :: ps' =>
      if decide (p ∈ acc) then first_seen acc ps'
      else first_seen (acc ++ [p]) ps'
  end.

(** The position of a pair in a list of pairs. *)
Fixpoint index_of (p : Z * Z) (l : list (Z * Z)) : option Z :=
  match l with
  | [] => None
  | q :: l' => if decide (q = p) then Some 0
               else (λ k, k + 1) <$> index_of p l'
  end.

Lemma index_of_None p l : index_of p l = None ↔ p ∉ l.
Proof.
  induction l as [|q l IH]; simpl.
  - split; [by intros _ ?%elem_of_nil | done].
  - case_decide as Hq.
    + subst. split; [done|]. intros Hn. exfalso. apply Hn. left.
    + rewrite not_elem_of_cons, <- IH.
      destruct (index_of p l); simpl.
      * split; [done | by intros [_ ?]].
      * split; [intros _; split; [congruence | done] | done].
Qed.

Lemma index_of_Some p l k :
  index_of p l = Some k → 0 ≤ k ∧ l !! Z.to_nat k = Some p.
Proof.
  revert k. induction l as [|q l IH]; intros k; simpl; [done|].
  case_decide as Hq.
  - intros [= <-]. by subst.
  - destruct (index_of p l) as [k'|]; simpl; [|done].
    intros [= <-]. destruct (IH k' eq_refl) as [? Hl]. split; [lia|].
    by replace (Z.to_nat (k' + 1)) with (S (Z.to_nat k')) by lia.
Qed.

Lemma index_of_app p l q :
  index_of p (l ++ [q]) =
  match index_of p l with
  | Some k => Some k
  | None => if decide (q = p) then Some (Z.of_nat (length l)) else None
  end.
Proof.
  induction l as [|x l IH]; simpl.
  - destruct (decide (q = p)); done.
  - destruct (decide (x = p)); [done|]. rewrite IH.
    destruct (index_of p l); simpl; [done|].
    destruct (decide (q = p)); simpl; [|done]. f_equal. lia.
Qed.

Lemma index_of_lookup p l (n : nat) :
  NoDup l → l !! n = Some p → index_of p l = Some (Z.of_nat n).
Proof.
  intros Hnd. revert n. induction Hnd as [|q l Hq Hnd IH]; intros n Hn; [done|].
  simpl. destruct n as [|n]; simpl in Hn.
  - simplify_eq. by rewrite decide_True.
  - rewrite decide_False.
    + rewrite (IH n Hn). simpl. f_equal. lia.
    + intros ->. apply Hq. by eapply list_elem_of_lookup_2.
Qed.

Lemma first_seen_elem acc ps p : p ∈ first_seen acc ps ↔ p ∈ acc ∨ p ∈ ps.
Proof.
  revert acc. induction ps as [|q ps IH]; intros acc; simpl.
  - split; [by left | by intros [?|?%elem_of_nil]].
  - case_decide as Hq; rewrite IH.
    + rewrite elem_of_cons. split; [tauto|]. intros [?|[->|?]]; tauto.
    + rewrite elem_of_app, !elem_of_cons, elem_of_nil. tauto.
Qed.

Lemma first_seen_NoDup acc ps : NoDup acc → NoDup (first_seen acc ps).
Proof.
  revert acc. induction ps as [|q ps IH]; intros acc Hnd; simpl; [done|].
  case_decide as Hq; apply IH; [done|].
  apply NoDup_app. split; [done|]. split; [|apply NoDup_singleton].
  intros x Hx ->%list_elem_of_singleton. done.
Qed.

Lemma first_seen_app acc ps qs :
  first_seen acc (ps ++ qs) = first_seen (first_seen acc ps) qs.
Proof.
  revert acc. induction ps as [|p ps IH]; intros acc; simpl; [done|].
  by case_decide.
Qed.

Lemma first_seen_snoc pre p :
  first_seen [] (pre ++ [p])
  = if decide (p ∈ pre) then first_seen [] pre else first_seen [] pre ++ [p].
Proof.
  rewrite first_seen_app. simpl.
  destruct (decide (p ∈ first_seen [] pre)) as [Hin|Hn];
    rewrite first_seen_elem in *.
  - rewrite decide_True; [done|]. by destruct Hin as [?%elem_of_nil|?].
  - rewrite decide_False; [done|]. tauto.
Qed.

Lemma index_of_first_seen p acc ps k :
  index_of p acc = Some k → index_of p (first_seen acc ps) = Some k.
Proof.
  revert acc. induction ps as [|q ps IH]; intros acc Hk; simpl; [done|].
  case_decide; apply IH; [done|]. by rewrite index_of_app, Hk.
Qed.

Section dstable.
Context (dbg : bool) (nrows : Z).

(** The table holds the pairs [acc], numbered by their positions. *)
Definition ds_inv (acc : list (Z * Z)) (T : DSTable) : Prop :=
  NumRows T = nrows ∧ Z.of_nat (length (Rows T)) = nrows ∧
  NumEntries T = Z.of_nat (length acc) ∧ NoDup acc ∧
  ∀ r chain, 0 ≤ r → Rows T !! Z.to_nat r = Some chain →
             ∀ c, chain_find c chain = index_of (r, c) acc.

Lemma DSTable_new_inv :
  0 ≤ nrows → ∃ T0, DSTable_new nrows = Ok T0 ∧ ds_inv [] T0.
Proof.
  intros Hn. unfold DSTable_new. rewrite decide_True by done.
  eexists. split; [done|]. unfold ds_inv. simpl.
  rewrite length_replicate. split; [done|]. split; [lia|]. split; [done|].
  split; [constructor|]. intros r chain _ [-> _]%lookup_replicate c. done.
Qed.

Lemma Push__step acc T r c :
  ds_inv acc T → 0 ≤ r < nrows →
  ∃ T', Push_ dbg T r c
        = Ok (default (Z.of_nat (length acc)) (index_of (r, c) acc), T') ∧
        ds_inv (first_seen acc [(r, c)]) T' ∧
        ((r, c) ∈ acc → T' = T) ∧
        ((r, c) ∉ acc → NumEntries T' = NumEntries T + 1).
Proof.
  intros (HNR & Hlen & HNE & Hnd & Hch) Hr. unfold Push_.
  assert ((if dbg then
             if decide (r < 0 ∨ r >= NumRows T) then mfem_error else Ok ()
           else Ok ()) = Ok ()) as ->.
  { destruct dbg; [|done]. by rewrite decide_False by lia. }
  simpl. destruct (lookup_lt_is_Some_2 (Rows T) (Z.to_nat r)) as [chain Hc];
    [lia|].
  unfold rd_chain. rewrite decide_True, Hc by lia. simpl.
  rewrite (Hch r chain ltac:(lia) Hc c).
  destruct (index_of (r, c) acc) as [k|] eqn:Hidx; simpl.
  - assert ((r, c) ∈ acc) as Hin.
    { destruct (decide ((r, c) ∈ acc)) as [|Hn]; [done|].
      apply index_of_None in Hn. congruence. }
    exists T. rewrite decide_True by done.
    split; [done|]. split; [done|]. split; [done|]. done.
  - apply index_of_None in Hidx as Hn. rewrite decide_False by done.
    eexists. split; [by rewrite HNE|]. split; [|split; [done|]].
    + unfold ds_inv. simpl. rewrite length_insert, length_app. simpl.
      split; [done|]. split; [done|]. split; [lia|]. split.
      * apply NoDup_app. split; [done|]. split; [|apply NoDup_singleton].
        intros x Hx ->%list_elem_of_singleton. done.
      * intros r' chain' Hr' Hc' c'. rewrite index_of_app.
        destruct (decide (r' = r)) as [->|Hne].
        -- rewrite list_lookup_insert_eq in Hc' by lia. simplify_eq. simpl.
           rewrite (Hch r chain ltac:(lia) Hc c').
           destruct (decide (c = c')) as [->|Hcc].
           ++ by rewrite Hidx, decide_True.
           ++ destruct (index_of (r, c') acc); [done|].
              rewrite decide_False; [done | congruence].
        -- rewrite list_lookup_insert_ne in Hc' by lia.
           rewrite (Hch r' chain' Hr' Hc' c').
           destruct (index_of (r', c') acc); [done|].
           rewrite decide_False; [done | congruence].
    + intros _. simpl. by rewrite HNE.
Qed.

Lemma push_all_spec ps : ∀ acc T,
  ds_inv acc T → (∀ p, p ∈ ps → 0 ≤ p.1 < nrows) →
  ∃ T', push_all dbg ps T
        = Ok ((λ p, default (-1) (index_of p (first_seen acc ps))) <$> ps, T') ∧
        ds_inv (first_seen acc ps) T'.
Proof.
  induction ps as [|[r c] ps IH]; intros acc T Hinv Hps; simpl.
  - by exists T.
  - assert (0 ≤ r < nrows) as Hr by (apply (Hps (r, c)); left).
    destruct (Push__step acc T r c Hinv Hr) as (T1 & -> & Hinv1 & _).
    simpl in Hinv1. simpl.
    set (acc1 := if decide ((r, c) ∈ acc) then acc else acc ++ [(r, c)]) in *.
    assert (first_seen acc ((r, c) :: ps) = first_seen acc1 ps) as Hfs.
    { simpl. unfold acc1. by case_decide. }
    simpl in Hfs. rewrite Hfs.
    assert (ds_inv acc1 T1) as Hinv1'.
    { unfold acc1. by case_decide. }
    destruct (IH acc1 T1 Hinv1') as (T' & -> & Hinv').
    { intros p Hp. apply Hps. by right. }
    simpl. exists T'. split; [|done]. do 3 f_equal.
    assert (index_of (r, c) acc1
            = Some (default (Z.of_nat (length acc)) (index_of (r, c) acc)))
      as Hidx.
    { unfold acc1. case_decide as Hin.
      - destruct (index_of (r, c) acc) eqn:E; [done|].
        apply index_of_None in E. done.
      - rewrite index_of_app. apply index_of_None in Hin as ->.
        simpl. by rewrite decide_True. }
    by rewrite (index_of_first_seen _ _ ps _ Hidx).
Qed.

Lemma push_repeat acc T r c k (n : nat) :
  ds_inv acc T → 0 ≤ r < nrows → index_of (r, c) acc = Some k →
  push_all dbg (replicate n (r, c)) T = Ok (replicate n k, T).
Proof.
  intros Hinv Hr Hk. induction n as [|n IH]; [done|]. simpl.
  destruct (Push__step acc T r c Hinv Hr) as (T1 & -> & _ & Hsame & _).
  rewrite Hk. simpl. rewrite Hsame.
  - by rewrite IH.
  - destruct (decide ((r, c) ∈ acc)) as [|Hn]; [done|].
    apply index_of_None in Hn. congruence.
Qed.
End dstable.

(** Claim C7.  Let [T] be the table reached from [DSTable(nrows)] by pushing
    the pairs [ps] (rows in range) with [Push_], and [seen] the distinct
    pairs of [ps] in the order of their first occurrence.  Then the index
    returned for each push is the position of its pair in [seen], the
    positions run through [0, entryCount) with [entryCount = |seen|], and
    pushing a pair [(r,c)] one or more times afterwards returns one and the
    same index every time: the index the pair already has, with the table
    unchanged, when it was pushed before, and the old [entryCount], which
    then grows by exactly one, when it is new. *)
Theorem Push__dense_numbering (dbg : bool) (nrows : Z) (ps : list (Z * Z))
    (r c : Z) (N : nat) :
  0 ≤ nrows → (∀ p, p ∈ ps → 0 ≤ p.1 < nrows) → 0 ≤ r < nrows →
  ∃ T0 T, DSTable_new nrows = Ok T0 ∧
    push_all dbg ps T0
    = Ok ((λ p, default (-1) (index_of p (first_seen [] ps))) <$> ps, T) ∧
    NoDup (first_seen [] ps) ∧
    (∀ p, p ∈ first_seen [] ps ↔ p ∈ ps) ∧
    NumEntries T = Z.of_nat (length (first_seen [] ps)) ∧
    (∀ p k, index_of p (first_seen [] ps) = Some k ↔
            0 ≤ k ∧ first_seen [] ps !! Z.to_nat k = Some p) ∧
    ∃ k T', push_all dbg (replicate (S N) (r, c)) T
            = Ok (replicate (S N) k, T') ∧
            ((r, c) ∈ ps →
             index_of (r, c) (first_seen [] ps) = Some k ∧ T' = T) ∧
            ((r, c) ∉ ps →
             k = NumEntries T ∧ NumEntries T' = NumEntries T + 1).
Proof.
  intros Hn Hps Hr.
  destruct (DSTable_new_inv nrows Hn) as (T0 & HT0 & Hinv0).
  destruct (push_all_spec dbg nrows ps [] T0 Hinv0 Hps) as (T & HT & Hinv).
  exists T0, T. split; [done|]. split; [done|].
  pose proof (first_seen_NoDup [] ps (NoDup_nil_2)) as Hnd.
  split; [done|]. split.
  { intros p. rewrite first_seen_elem. split; [|by right].
    by intros [?%elem_of_nil|?]. }
  split; [apply Hinv|]. split.
  { intros p k. split; [apply index_of_Some|].
    intros [Hk Hl]. rewrite (index_of_lookup _ _ _ Hnd Hl). f_equal. lia. }
  destruct (Push__step dbg nrows _ T r c Hinv Hr) as (T' & HP & Hinv' & Hsame & Hnew).
  set (seen := first_seen [] ps) in *.
  set (k := default (Z.of_nat (length seen)) (index_of (r, c) seen)) in *.
  exists k, T'. split; [|split].
  - simpl. rewrite HP. simpl.
    rewrite (push_repeat dbg nrows _ T' r c k N Hinv' Hr); [done|].
    simpl. unfold k. case_decide as Hin.
    + destruct (index_of (r, c) seen) eqn:E; [done|].
      apply index_of_None in E. done.
    + rewrite index_of_app. apply index_of_None in Hin as ->.
      simpl. by rewrite decide_True.
  - intros Hin. assert ((r, c) ∈ seen) as Hin'.
    { unfold seen. rewrite first_seen_elem. by right. }
    split; [|by apply Hsame]. unfold k.
    destruct (index_of (r, c) seen) eqn:E; [done|].
    apply index_of_None in E. done.
  - intros Hn'. assert ((r, c) ∉ seen) as Hn''.
    { unfold seen. rewrite first_seen_elem. by intros [?%elem_of_nil|?]. }
    split; [|by apply Hnew]. unfold k.
    apply index_of_None in Hn'' as ->. simpl. symmetry. apply Hinv.
Qed.

(** ** [EntitySets]: named groups of mesh entities (entsets.cpp) *)

Inductive EntityType : Type := VERTEX | EDGE | FACE | ELEMENT.

#[global] Instance EntityType_eq_dec : EqDecision EntityType.
Proof. solve_decision. Defined.

(** Modelled from the spec: class [Mesh] is not part of the sources at
    hand.  Section 6 lists what [EntitySets] consumes from it: the vertex,
    edge and element counts, the dimension, the edge-to-vertex,
    face-to-vertex and face-to-edge tables (the cached pointers
    [edge_vertex], [face_vertex], [face_edge], and the tables that the
    [Get...Table()] calls build when nothing is cached), the vertex-pair
    table ([GetVertexToVertexTable nrows a b] is the value of the lookup
    of [(a,b)] in the table [v_to_v] that the mesh fills from a fresh
    [DSTable(nrows)]) and the face lookup keyed by 3 or 4 vertices. *)
Record Mesh : Type := mkMesh {
  GetNV : Z;
  GetNEdges : Z;
  GetNE : Z;
  Dimension : Z;
  edge_vertex : option Table;
  face_vertex : option Table;
  face_edge : option Table;
  GetEdgeVertexTable : Table;
  GetFaceVertexTable : Table;
  GetFaceEdgeTable : Table;
  GetVertexToVertexTable : Z → Z → Z → Z;
  GetFacesTable3 : Z → Z → Z → Z;
  GetFacesTable4 : Z → Z → Z → Z → Z;
}.

(** The object state of an [EntitySets].  [mesh_] is the current state of
    the mesh that the pointer [mesh_] refers to; the vectors of size 4
    indexed by entity type are functions of the entity type. *)
Record EntitySets : Type := mkEntitySets {
  mesh_ : Mesh;
  edge_vertex_ : option Table;
  face_vertex_ : option Table;
  face_edge_ : option Table;
  NumOfVertices_ : Z;
  NumOfEdges_ : Z;
  NumOfElements_ : Z;
  sets_ : EntityType → list (list Z);
  set_names_ : EntityType → list string;
  set_index_by_name_ : EntityType → gmap string Z;
}.

(** [EntitySets::EntitySets(Mesh & mesh)]. *)
Definition EntitySets_new (mesh : Mesh) : EntitySets :=
  mkEntitySets mesh None None None (GetNV mesh) (GetNEdges mesh) (GetNE mesh)
    (λ _, []) (λ _, []) (λ _, ∅).

(** [unsigned int EntitySets::GetNumSets(EntityType t) const]. *)
Definition GetNumSets (es : EntitySets) (t : EntityType) : Z :=
  Z.of_nat (length (sets_ es t)).

(** [v[i]] and [v[i] = x] for a [std::vector]. *)
Definition rd_at {A : Type} (v : list A) (i : Z) : result A :=
  if decide (0 ≤ i) then
    match v !! Z.to_nat i with
    | Some x => Ok x
    | None => Fault
    end
  else Fault.

Definition wr_at {A : Type} (v : list A) (i : Z) (x : A) : result (list A) :=
  if decide (0 ≤ i ∧ i < Z.of_nat (length v)) then Ok (<[Z.to_nat i := x]> v)
  else Fault.

(** [v.resize(n)]: new cells are value-initialised to [dflt]; a negative
    [int] converts to a size that no vector can have. *)
Definition resize {A : Type} (dflt : A) (v : list A) (n : Z) : result (list A) :=
  if decide (0 ≤ n) then
    Ok (take (Z.to_nat n) v ++ replicate (Z.to_nat n - length v) dflt)
  else Fault.

(** Modelled from the spec: [Table::GetRow(int i)] is declared in
    table.hpp, which is absent; by section 3 row [i] begins at
    [columns[rowStart[i]]].  [row_ptr] is the offset of the returned
    pointer into [J], [row_at] the read [v[k]] through it. *)
Definition row_ptr (T : option Table) (i : Z) : result (Table * Z) :=
  match T with
  | Some T => lo ← rd (GetI T) i; Ok (T, lo)
  | None => Fault
  end.

Definition row_at (v : Table * Z) (k : Z) : result Z :=
  rd (GetJ v.1) (v.2 + k).

(** The body of the loops [for (s = 0; s < GetNumSets(t); s++)]: the group
    [s] of the kind is rewritten by [f]. *)
Definition for_each_set (f : list Z → result (list Z)) (gs : list (list Z))
  : result (list (list Z)) :=
  for_range 0 (Z.of_nat (length gs)) (λ s gs,
    g ← rd_at gs s;
    g ← f g;
    wr_at gs s g) gs.

(** The EDGE block of [QuadUniformRefinement] and [HexUniformRefinement]
    (the two functions repeat it verbatim), on one group. *)
Definition refine_edge_group (ev : option Table) (v_to_v : Z → Z → Z)
    (oedge : Z) (g : list Z) : result (list Z) :=
  let n := Z.of_nat (length g) in
  g ← resize 0 g (2 * n);
  for_range 0 n (λ i g,
    old_edge ← rd g i;
    v ← row_ptr ev old_edge;
    v0 ← row_at v 0;
    g ← wr g i (v_to_v v0 (oedge + old_edge));
    v1 ← row_at v 1;
    wr g (i + n) (v_to_v v1 (oedge + old_edge))) g.

(** The ELEMENT block of [QuadUniformRefinement], on one group. *)
Definition quad_element_group (NumOfElements : Z) (g : list Z)
  : result (list Z) :=
  let n := Z.of_nat (length g) in
  g ← resize 0 g (4 * n);
  for_range 0 n (λ i g,
    e ← rd g i;
    let j := NumOfElements + 3 * e in
    g ← wr g (n + 3 * i + 0) (j + 0);
    g ← wr g (n + 3 * i + 1) (j + 1);
    wr g (n + 3 * i + 2) (j + 2)) g.

(** The ELEMENT block of [HexUniformRefinement], on one group. *)
Definition hex_element_group (NumOfElements : Z) (g : list Z)
  : result (list Z) :=
  let n := Z.of_nat (length g) in
  g ← resize 0 g (8 * n);
  for_range 0 n (λ i g,
    e ← rd g i;
    let j := NumOfElements + 7 * e in
    g ← wr g (n + 7 * i + 0) (j + 0);
    g ← wr g (n + 7 * i + 1) (j + 1);
    g ← wr g (n + 7 * i + 2) (j + 2);
    g ← wr g (n + 7 * i + 3) (j + 3);
    g ← wr g (n + 7 * i + 4) (j + 4);
    g ← wr g (n + 7 * i + 5) (j + 5);
    wr g (n + 7 * i + 6) (j + 6)) g.

(** The search of [HexUniformRefinement] for the child face at corner
    [v0]: the first pair [(k, l)], [k = 0..3], [l = 1..3], for which the face
    table knows [(v0, oedge + e[k], oedge + e[(k+l)%4], v3)]. *)
Fixpoint face_search_l (faces : Z → Z → Z → Z → Z) (e : Table * Z)
    (oedge v0 v1 v3 k : Z) (l : Z) (n : nat) : result Z :=
  match n with
  | O => Ok (-1)
  | S n' =>
      ek ← row_at e ((k + l) `mod` 4);
      let v2 := oedge + ek in
      let new_face := faces v0 v1 v2 v3 in
      if decide (new_face >= 0) then Ok new_face
      else face_search_l faces e oedge v0 v1 v3 k (l + 1) n'
  end.

Fixpoint face_search_k (faces : Z → Z → Z → Z → Z) (e : Table * Z)
    (oedge v0 v3 : Z) (k : Z) (n : nat) : result Z :=
  match n with
  | O => Ok (-1)
  | S n' =>
      ek ← row_at e k;
      let v1 := oedge + ek in
      new_face ← face_search_l faces e oedge v0 v1 v3 k 1 3;
      if decide (new_face >= 0) then Ok new_face
      else face_search_k faces e oedge v0 v3 (k + 1) n'
  end.

(** The FACE block of [HexUniformRefinement], on one group. *)
Definition hex_face_group (fv fe : option Table)
    (faces : Z → Z → Z → Z → Z) (oedge oface : Z) (g : list Z)
  : result (list Z) :=
  let n := Z.of_nat (length g) in
  g ← resize 0 g (4 * n);
  for_range 0 n (λ i g,
    old_face ← rd g i;
    v ← row_ptr fv old_face;
    e ← row_ptr fe old_face;
    for_range 0 4 (λ j g,
      v0 ← row_at v j;
      let v3 := oface + old_face in
      new_face ← face_search_k faces e oedge v0 v3 0 4;
      if decide (new_face >= 0) then
        if decide (j = 0) then wr g i new_face
        else wr g (n + 3 * i + j - 1) new_face
      else Ok g) g) g.

(** [void EntitySets::CopyMeshTables()]. *)
Definition CopyMeshTables (es : EntitySets) : EntitySets :=
  let m := mesh_ es in
  let '(ev, m_ev) :=
    if decide (GetNumSets es EDGE > 0) then
      match edge_vertex m with
      | Some T => (Some T, edge_vertex m)
      | None => (Some (GetEdgeVertexTable m), None)
      end
    else (edge_vertex_ es, edge_vertex m) in
  let '(fv, m_fv) :=
    if decide (GetNumSets es FACE > 0) then
      match face_vertex m with
      | Some T => (Some T, face_vertex m)
      | None => (Some (GetFaceVertexTable m), None)
      end
    else (face_vertex_ es, face_vertex m) in
  let '(fe, m_fe) :=
    if decide (GetNumSets es FACE > 0) then
      match face_edge m with
      | Some T => (Some T, face_edge m)
      | None => (Some (GetFaceEdgeTable m), None)
      end
    else (face_edge_ es, face_edge m) in
  let m' := mkMesh (GetNV m) (GetNEdges m) (GetNE m) (Dimension m)
              m_ev m_fv m_fe
              (GetEdgeVertexTable m) (GetFaceVertexTable m) (GetFaceEdgeTable m)
              (GetVertexToVertexTable m) (GetFacesTable3 m) (GetFacesTable4 m) in
  mkEntitySets m' ev fv fe (GetNV m) (GetNEdges m) (GetNE m)
    (sets_ es) (set_names_ es) (set_index_by_name_ es).

(** The object with the groups of kind [t] replaced. *)
Definition with_sets (es : EntitySets) (t : EntityType) (gs : list (list Z))
  : EntitySets :=
  mkEntitySets (mesh_ es) (edge_vertex_ es) (face_vertex_ es) (face_edge_ es)
    (NumOfVertices_ es) (NumOfEdges_ es) (NumOfElements_ es)
    (<[t := gs]> (sets_ es)) (set_names_ es) (set_index_by_name_ es).

(** [void EntitySets::QuadUniformRefinement()]. *)
Definition QuadUniformRefinement (es : EntitySets) : result EntitySets :=
  es ← (if decide (GetNumSets es EDGE > 0) then
          let v_to_v := GetVertexToVertexTable (mesh_ es) (GetNV (mesh_ es)) in
          let oedge := NumOfVertices_ es in
          gs ← for_each_set (refine_edge_group (edge_vertex_ es) v_to_v oedge)
                 (sets_ es EDGE);
          Ok (with_sets es EDGE gs)
        else Ok es);
  gs ← for_each_set (quad_element_group (NumOfElements_ es)) (sets_ es ELEMENT);
  let es := with_sets es ELEMENT gs in
  Ok (CopyMeshTables es).

(** [void EntitySets::HexUniformRefinement()]. *)
Definition HexUniformRefinement (es : EntitySets) : result EntitySets :=
  es ← (if decide (GetNumSets es EDGE > 0) then
          let v_to_v := GetVertexToVertexTable (mesh_ es) (GetNV (mesh_ es)) in
          let oedge := NumOfVertices_ es in
          gs ← for_each_set (refine_edge_group (edge_vertex_ es) v_to_v oedge)
                 (sets_ es EDGE);
          Ok (with_sets es EDGE gs)
        else Ok es);
  es ← (if decide (GetNumSets es FACE > 0) then
          let faces_tbl := GetFacesTable4 (mesh_ es) in
          let oedge := NumOfVertices_ es in
          let oface := oedge + NumOfEdges_ es in
          gs ← for_each_set
                 (hex_face_group (face_vertex_ es) (face_edge_ es) faces_tbl
                    oedge oface) (sets_ es FACE);
          Ok (with_sets es FACE gs)
        else Ok es);
  gs ← for_each_set (hex_element_group (NumOfElements_ es)) (sets_ es ELEMENT);
  let es := with_sets es ELEMENT gs in
  Ok (CopyMeshTables es).

(** *** Vectors and per-group loops *)

Lemma rd_at_lookup {A} (v : list A) i x :
  0 ≤ i → v !! Z.to_nat i = Some x → rd_at v i = Ok x.
Proof. intros Hi Hx. unfold rd_at. by rewrite decide_True, Hx. Qed.

Lemma wr_at_Ok {A} (v : list A) i x :
  0 ≤ i < Z.of_nat (length v) → wr_at v i x = Ok (<[Z.to_nat i := x]> v).
Proof. intros. unfold wr_at. by rewrite decide_True by lia. Qed.

Lemma resize_grow (v : list Z) n :
  Z.of_nat (length v) ≤ n →
  resize 0 v n = Ok (v ++ replicate (Z.to_nat n - length v) 0).
Proof.
  intros Hn. unfold resize. rewrite decide_True by lia.
  by rewrite take_ge by lia.
Qed.

(** A write into the cell that follows [pre]. *)
Lemma wr_app_cons (pre post : list Z) x v p :
  p = Z.of_nat (length pre) → wr (pre ++ x :: post) p v = Ok (pre ++ v :: post).
Proof.
  intros ->. rewrite wr_Ok by (rewrite length_app; simpl; lia).
  rewrite Nat2Z.id. replace (length pre) with (length pre + 0)%nat at 1 by lia.
  by rewrite insert_app_r.
Qed.

Lemma wr_app_at (pre l : list Z) (k : nat) v p :
  p = Z.of_nat (length pre) + Z.of_nat k → (k < length l)%nat →
  wr (pre ++ l) p v = Ok (pre ++ <[k := v]> l).
Proof.
  intros -> Hk. rewrite wr_Ok by (rewrite length_app; lia).
  replace (Z.to_nat (Z.of_nat (length pre) + Z.of_nat k))
    with (length pre + k)%nat by lia.
  by rewrite insert_app_r.
Qed.

Lemma rd_app_cons (pre post : list Z) x p :
  p = Z.of_nat (length pre) → rd (pre ++ x :: post) p = Ok x.
Proof.
  intros ->. apply rd_lookup; [lia|]. rewrite Nat2Z.id.
  by rewrite lookup_app_r, Nat.sub_diag by lia.
Qed.

(** A loop over the groups of a kind rewrites every group. *)
Lemma for_each_set_map (f : list Z → result (list Z)) (f' : list Z → list Z)
    (gs : list (list Z)) :
  (∀ g, g ∈ gs → f g = Ok (f' g)) → for_each_set f gs = Ok (f' <$> gs).
Proof.
  intros Hf. unfold for_each_set.
  destruct (for_range_inv
    (λ s (cur : list (list Z)),
       cur = (f' <$> take (Z.to_nat s) gs) ++ drop (Z.to_nat s) gs)
    0 (Z.of_nat (length gs))
    (λ s gs, g ← rd_at gs s; g ← f g; wr_at gs s g) gs) as (cur & -> & Hcur).
  - lia.
  - done.
  - intros s cur Hs ->.
    destruct (lookup_lt_is_Some_2 gs (Z.to_nat s)) as [g Hg]; [lia|].
    assert (length (f' <$> take (Z.to_nat s) gs) = Z.to_nat s) as Hlen
      by (rewrite length_fmap, length_take; lia).
    rewrite (rd_at_lookup _ s g); [|lia|].
    2: { rewrite lookup_app_r by lia. rewrite Hlen, Nat.sub_diag.
         by rewrite lookup_drop, Nat.add_0_r. }
    simpl. rewrite Hf by (by eapply list_elem_of_lookup_2). simpl.
    rewrite wr_at_Ok by (rewrite length_app, length_drop; lia).
    eexists. split; [done|].
    replace (Z.to_nat (s + 1)) with (S (Z.to_nat s)) by lia.
    rewrite (take_S_r _ _ _ Hg), fmap_app, <- app_assoc. simpl.
    rewrite (drop_S _ _ _ Hg).
    replace (Z.to_nat s) with (length (f' <$> take (Z.to_nat s) gs) + 0)%nat
      at 1 by lia.
    by rewrite insert_app_r.
  - rewrite Nat2Z.id, take_ge, drop_ge, app_nil_r in Hcur by lia. by subst.
Qed.

(** *** The ELEMENT blocks *)

(** The children that the refinement appends for parent [e]. *)
Definition quad_children (N e : Z) : list Z :=
  [N + 3 * e + 0; N + 3 * e + 1; N + 3 * e + 2].

Definition hex_children (N e : Z) : list Z :=
  [N + 7 * e + 0; N + 7 * e + 1; N + 7 * e + 2; N + 7 * e + 3;
   N + 7 * e + 4; N + 7 * e + 5; N + 7 * e + 6].

Lemma length_bind_const (g : list Z) (f : Z → list Z) (m : nat) :
  (∀ e, length (f e) = m) → length (g ≫= f) = (length g * m)%nat.
Proof.
  intros Hf. induction g as [|e g IH]; [done|].
  rewrite bind_cons, length_app, Hf, IH. simpl. lia.
Qed.

Lemma quad_element_group_eq N g :
  quad_element_group N g = Ok (g ++ (g ≫= quad_children N)).
Proof.
  unfold quad_element_group. rewrite resize_grow by lia. simpl.
  set (n := Z.of_nat (length g)).
  match goal with |- context [for_range 0 n ?body ?init] =>
    destruct (for_range_inv
      (λ i (cur : list Z),
         cur = (g ++ (take (Z.to_nat i) g ≫= quad_children N))
               ++ replicate (Z.to_nat (3 * (n - i))) 0)
      0 n body init) as (cur & -> & Hcur) end.
  - lia.
  - simpl. rewrite app_nil_r. do 2 f_equal. lia.
  - intros i cur Hi ->.
    destruct (lookup_lt_is_Some_2 g (Z.to_nat i)) as [e He]; [lia|].
    rewrite (rd_lookup _ i e); [|lia|].
    2: { rewrite <- app_assoc, lookup_app_l by lia. done. }
    simpl.
    replace (Z.to_nat (3 * (n - i)))
      with (S (S (S (Z.to_nat (3 * (n - (i + 1))))))) by lia.
    simpl.
    set (pre := g ++ (take (Z.to_nat i) g ≫= quad_children N)).
    assert (Z.of_nat (length pre) = n + 3 * i) as Hpre.
    { unfold pre. rewrite length_app, (length_bind_const _ _ 3) by done.
      rewrite length_take. lia. }
    rewrite (wr_app_at pre _ 0) by (simpl; lia). simpl.
    rewrite (wr_app_at pre _ 1) by (simpl; lia). simpl.
    rewrite (wr_app_at pre _ 2) by (simpl; lia). simpl.
    eexists. split; [done|].
    replace (Z.to_nat (i + 1)) with (S (Z.to_nat i)) by lia.
    rewrite (take_S_r _ _ _ He), bind_app. unfold pre.
    rewrite <- !app_assoc. simpl. done.
  - subst cur. unfold n. rewrite Nat2Z.id, take_ge by lia.
    replace (Z.to_nat (3 * (Z.of_nat (length g) - Z.of_nat (length g))))
      with O by lia.
    simpl. by rewrite app_nil_r.
Qed.

Lemma hex_element_group_eq N g :
  hex_element_group N g = Ok (g ++ (g ≫= hex_children N)).
Proof.
  unfold hex_element_group. rewrite resize_grow by lia. simpl.
  set (n := Z.of_nat (length g)).
  match goal with |- context [for_range 0 n ?body ?init] =>
    destruct (for_range_inv
      (λ i (cur : list Z),
         cur = (g ++ (take (Z.to_nat i) g ≫= hex_children N))
               ++ replicate (Z.to_nat (7 * (n - i))) 0)
      0 n body init) as (cur & -> & Hcur) end.
  - lia.
  - simpl. rewrite app_nil_r. do 2 f_equal. lia.
  - intros i cur Hi ->.
    destruct (lookup_lt_is_Some_2 g (Z.to_nat i)) as [e He]; [lia|].
    rewrite (rd_lookup _ i e); [|lia|].
    2: { rewrite <- app_assoc, lookup_app_l by lia. done. }
    simpl.
    replace (Z.to_nat (7 * (n - i)))
      with (S (S (S (S (S (S (S (Z.to_nat (7 * (n - (i + 1))))))))))) by lia.
    simpl.
    set (pre := g ++ (take (Z.to_nat i) g ≫= hex_children N)).
    assert (Z.of_nat (length pre) = n + 7 * i) as Hpre.
    { unfold pre. rewrite length_app, (length_bind_const _ _ 7) by done.
      rewrite length_take. lia. }
    rewrite (wr_app_at pre _ 0) by (simpl; lia). simpl.
    rewrite (wr_app_at pre _ 1) by (simpl; lia). simpl.
    rewrite (wr_app_at pre _ 2) by (simpl; lia). simpl.
    rewrite (wr_app_at pre _ 3) by (simpl; lia). simpl.
    rewrite (wr_app_at pre _ 4) by (simpl; lia). simpl.
    rewrite (wr_app_at pre _ 5) by (simpl; lia). simpl.
    rewrite (wr_app_at pre _ 6) by (simpl; lia). simpl.
    eexists. split; [done|].
    replace (Z.to_nat (i + 1)) with (S (Z.to_nat i)) by lia.
    rewrite (take_S_r _ _ _ He), bind_app. unfold pre.
    rewrite <- !app_assoc. simpl. done.
  - subst cur. unfold n. rewrite Nat2Z.id, take_ge by lia.
    replace (Z.to_nat (7 * (Z.of_nat (length g) - Z.of_nat (length g))))
      with O by lia.
    simpl. by rewrite app_nil_r.
Qed.

(** *** The EDGE block *)

(** Endpoint [k] of edge [e] as the refinement reads it: the cell [v[k]]
    for [v = edge_vertex_->GetRow(e)]. *)
Definition read_end (ev : option Table) (e k : Z) : result Z :=
  v ← row_ptr ev e; row_at v k.

(** Edge [e] has the endpoints [v0] and [v1] in the edge-vertex table. *)
Definition edge_ends (ev : option Table) (e v0 v1 : Z) : Prop :=
  read_end ev e 0 = Ok v0 ∧ read_end ev e 1 = Ok v1.

(** The endpoint as a value (0 where the table has none). *)
Definition endpoint (ev : option Table) (k e : Z) : Z :=
  match read_end ev e k with Ok v => v | _ => 0 end.

(** The half of edge [e] at endpoint [k], as the vertex-pair table numbers
    it. *)
Definition half_edge (ev : option Table) (v_to_v : Z → Z → Z) (oedge : Z)
    (k e : Z) : Z :=
  v_to_v (endpoint ev k e) (oedge + e).

Lemma refine_edge_group_eq ev v_to_v oedge g :
  (∀ e, e ∈ g → ∃ v0 v1, edge_ends ev e v0 v1) →
  refine_edge_group ev v_to_v oedge g
  = Ok ((half_edge ev v_to_v oedge 0 <$> g) ++
        (half_edge ev v_to_v oedge 1 <$> g)).
Proof.
  intros Hends. unfold refine_edge_group. rewrite resize_grow by lia. simpl.
  set (n := Z.of_nat (length g)).
  set (h0 := half_edge ev v_to_v oedge 0).
  set (h1 := half_edge ev v_to_v oedge 1).
  match goal with |- context [for_range 0 n ?body ?init] =>
    destruct (for_range_inv
      (λ i (cur : list Z),
         cur = (h0 <$> take (Z.to_nat i) g) ++
               (drop (Z.to_nat i) g ++ (h1 <$> take (Z.to_nat i) g)) ++
               replicate (Z.to_nat (n - i)) 0)
      0 n body init) as (cur & -> & Hcur) end.
  - lia.
  - simpl. rewrite app_nil_r. do 2 f_equal. lia.
  - intros i cur Hi ->.
    destruct (lookup_lt_is_Some_2 g (Z.to_nat i)) as [e He]; [lia|].
    destruct (Hends e) as (v0 & v1 & H0 & H1); [by eapply list_elem_of_lookup_2|].
    rewrite (drop_S _ _ _ He).
    set (pre := h0 <$> take (Z.to_nat i) g).
    assert (Z.of_nat (length pre) = i) as Hpre
      by (unfold pre; rewrite length_fmap, length_take; lia).
    simpl. rewrite (rd_app_cons pre) by lia. simpl.
    unfold read_end in H0, H1.
    destruct (row_ptr ev e) as [v| |] eqn:Hrp; simpl in H0, H1; try done.
    simpl. rewrite H0. simpl.
    rewrite (wr_app_cons pre) by lia. simpl. rewrite H1. simpl.
    replace (Z.to_nat (n - i)) with (S (Z.to_nat (n - (i + 1)))) by lia.
    simpl.
    set (mid := drop (S (Z.to_nat i)) g ++ (h1 <$> take (Z.to_nat i) g)).
    assert (Z.of_nat (length mid) = n - i - 1 + i) as Hmid.
    { unfold mid. rewrite length_app, length_drop, length_fmap, length_take.
      lia. }
    match goal with |- context [wr (pre ++ ?x :: mid ++ ?y :: ?rest) _ _] =>
      assert (pre ++ x :: mid ++ y :: rest = (pre ++ x :: mid) ++ y :: rest)
        as -> by (by rewrite <- app_assoc) end.
    rewrite (wr_app_cons (pre ++ _ :: mid))
      by (rewrite length_app; simpl; lia).
    eexists. split; [done|].
    replace (Z.to_nat (i + 1)) with (S (Z.to_nat i)) by lia.
    rewrite (take_S_r _ _ _ He), !fmap_app. simpl.
    assert (h0 e = v_to_v v0 (oedge + e)) as ->.
    { unfold h0, half_edge, endpoint, read_end. rewrite Hrp. simpl.
      by rewrite H0. }
    assert (h1 e = v_to_v v1 (oedge + e)) as ->.
    { unfold h1, half_edge, endpoint, read_end. rewrite Hrp. simpl.
      by rewrite H1. }
    unfold pre, mid. rewrite <- !app_assoc. simpl.
    by rewrite <- !app_assoc.
  - subst cur. unfold n. rewrite Nat2Z.id, take_ge, drop_ge by lia.
    replace (Z.to_nat (Z.of_nat (length g) - Z.of_nat (length g))) with O by lia.
    simpl. by rewrite app_nil_r.
Qed.

(** *** The FACE block *)

(** The four corners and the four edges of face [f] can be read. *)
Definition face_rows (fv fe : option Table) (f : Z) : Prop :=
  ∀ k, 0 ≤ k < 4 →
       (∃ a, read_end fv f k = Ok a) ∧ (∃ b, read_end fe f k = Ok b).

Lemma face_search_l_Ok faces e oedge v0 v1 v3 k (n : nat) : ∀ l,
  (∀ k', 0 ≤ k' < 4 → ∃ b, row_at e k' = Ok b) →
  ∃ r, face_search_l faces e oedge v0 v1 v3 k l n = Ok r.
Proof.
  induction n as [|n IH]; intros l He; simpl; [by eexists|].
  destruct (He ((k + l) `mod` 4)) as [b ->]; [by apply Z.mod_pos_bound|].
  simpl. case_decide; [by eexists | by apply IH].
Qed.

Lemma face_search_k_Ok faces e oedge v0 v3 (n : nat) : ∀ k,
  0 ≤ k → k + Z.of_nat n ≤ 4 →
  (∀ k', 0 ≤ k' < 4 → ∃ b, row_at e k' = Ok b) →
  ∃ r, face_search_k faces e oedge v0 v3 k n = Ok r.
Proof.
  induction n as [|n IH]; intros k Hk Hn He; simpl; [by eexists|].
  destruct (He k) as [b ->]; [lia|]. simpl.
  destruct (face_search_l_Ok faces e oedge v0 (oedge + b) v3 k 3 1 He)
    as [r Hr].
  simpl in Hr. rewrite Hr. simpl.
  case_decide; [by eexists|]. apply IH; [lia | lia | done].
Qed.

Lemma hex_face_group_Ok fv fe faces oedge oface g :
  (∀ f, f ∈ g → face_rows fv fe f) →
  ∃ g', hex_face_group fv fe faces oedge oface g = Ok g'.
Proof.
  intros Hrows. unfold hex_face_group. rewrite resize_grow by lia.
  rewrite bind_Ok.
  set (n := Z.of_nat (length g)).
  match goal with |- context [for_range 0 n ?body ?init] =>
    destruct (for_range_inv
      (λ i (cur : list Z),
         Z.of_nat (length cur) = 4 * n ∧
         ∀ i', i ≤ i' < n → cur !! Z.to_nat i' = g !! Z.to_nat i')
      0 n body init) as (cur & -> & _) end; [lia| | |by eexists].
  - split; [rewrite length_app, length_replicate; lia|].
    intros i' Hi'. apply lookup_app_l. lia.
  - intros i cur Hi [Hlen Hcur].
    destruct (lookup_lt_is_Some_2 g (Z.to_nat i)) as [f Hf]; [lia|].
    rewrite (rd_lookup cur i f) by (rewrite ?Hcur; done || lia).
    rewrite bind_Ok.
    pose proof (Hrows f ltac:(by eapply list_elem_of_lookup_2)) as Hface.
    assert (∃ v e, row_ptr fv f = Ok v ∧ row_ptr fe f = Ok e ∧
                   ∀ k, 0 ≤ k < 4 → (∃ a, row_at v k = Ok a) ∧
                                    (∃ b, row_at e k = Ok b))
      as (v & e & -> & -> & Hcells).
    { destruct (Hface 0 ltac:(lia)) as [[a Ha] [b Hb]].
      unfold face_rows in Hface. unfold read_end in Ha, Hb, Hface.
      destruct (row_ptr fv f) as [v| |]; simpl in Ha; try done.
      destruct (row_ptr fe f) as [e| |]; simpl in Hb; try done.
      exists v, e. split; [done|]. split; [done|]. intros k Hk.
      apply (Hface k Hk). }
    rewrite !bind_Ok.
    match goal with |- context [for_range 0 4 ?body ?init] =>
      destruct (for_range_inv
        (λ (j : Z) (c : list Z),
           Z.of_nat (length c) = 4 * n ∧
           ∀ i', i < i' < n → c !! Z.to_nat i' = g !! Z.to_nat i')
        0 4 body init) as (c & -> & Hlc & Hc) end.
    + lia.
    + split; [done|]. intros i' Hi'. apply Hcur. lia.
    + intros j c Hj [Hlc Hc].
      destruct (Hcells j Hj) as [[a ->] _]. rewrite bind_Ok.
      destruct (face_search_k_Ok faces e oedge a (oface + f) 4 0) as [r ->];
        [lia | lia | intros k' Hk'; apply Hcells; lia |].
      rewrite bind_Ok. case_decide; [|by eexists].
      case_decide.
      * rewrite wr_Ok by lia. eexists. split; [done|].
        rewrite length_insert. split; [done|]. intros i' Hi'.
        rewrite list_lookup_insert_ne by lia. by apply Hc.
      * rewrite wr_Ok by lia. eexists. split; [done|].
        rewrite length_insert. split; [done|]. intros i' Hi'.
        rewrite list_lookup_insert_ne by lia. by apply Hc.
    + exists c. split; [done|]. split; [done|]. intros i' Hi'. apply Hc. lia.
Qed.

(** *** The refinement passes *)

(** Every edge stored in an EDGE group has its two endpoints in the
    edge-vertex table; every face stored in a FACE group has four corners
    and four edges in the face tables. *)
Definition edges_ok (es : EntitySets) : Prop :=
  ∀ g e, g ∈ sets_ es EDGE → e ∈ g →
         ∃ v0 v1, edge_ends (edge_vertex_ es) e v0 v1.

Definition faces_ok (es : EntitySets) : Prop :=
  ∀ g f, g ∈ sets_ es FACE → f ∈ g →
         face_rows (face_vertex_ es) (face_edge_ es) f.

Lemma sets_CopyMeshTables es : sets_ (CopyMeshTables es) = sets_ es.
Proof.
  unfold CopyMeshTables.
  repeat (case_decide || destruct (edge_vertex _) || destruct (face_vertex _)
          || destruct (face_edge _)); done.
Qed.

Lemma sets_with_sets es t gs t' :
  sets_ (with_sets es t gs) t' = if decide (t = t') then gs else sets_ es t'.
Proof.
  simpl. case_decide as Ht.
  - subst. apply fn_lookup_insert.
  - by apply fn_lookup_insert_ne.
Qed.

Section refinement.
Context (es : EntitySets).

Local Abbreviation v_to_v :=
  (GetVertexToVertexTable (mesh_ es) (GetNV (mesh_ es))).
Local Abbreviation refined_edges :=
  (λ g, (half_edge (edge_vertex_ es) v_to_v (NumOfVertices_ es) 0 <$> g) ++
        (half_edge (edge_vertex_ es) v_to_v (NumOfVertices_ es) 1 <$> g)).

(** The EDGE block of either pass. *)
Lemma edge_block :
  edges_ok es →
  ∃ es1,
    (if decide (GetNumSets es EDGE > 0) then
       gs ← for_each_set
              (refine_edge_group (edge_vertex_ es) v_to_v (NumOfVertices_ es))
              (sets_ es EDGE);
       Ok (with_sets es EDGE gs)
     else Ok es) = Ok es1 ∧
    sets_ es1 EDGE = refined_edges <$> sets_ es EDGE ∧
    (∀ t, t ≠ EDGE → sets_ es1 t = sets_ es t) ∧
    face_vertex_ es1 = face_vertex_ es ∧ face_edge_ es1 = face_edge_ es ∧
    mesh_ es1 = mesh_ es ∧ NumOfVertices_ es1 = NumOfVertices_ es ∧
    NumOfEdges_ es1 = NumOfEdges_ es ∧ NumOfElements_ es1 = NumOfElements_ es.
Proof.
  intros Hok. case_decide as Hn.
  - rewrite (for_each_set_map _ refined_edges).
    + eexists. split; [done|]. rewrite sets_with_sets. rewrite decide_True by done.
      split; [done|]. split; [|done].
      intros t Ht. rewrite sets_with_sets. by rewrite decide_False.
    + intros g Hg. apply refine_edge_group_eq. intros e He. by eapply Hok.
  - exists es. split; [done|]. split; [|done].
    unfold GetNumSets in Hn. destruct (sets_ es EDGE); [done|]. simpl in Hn. lia.
Qed.

Lemma QuadUniformRefinement_sets :
  edges_ok es →
  ∃ es', QuadUniformRefinement es = Ok es' ∧
         sets_ es' EDGE = refined_edges <$> sets_ es EDGE ∧
         sets_ es' ELEMENT
         = (λ g, g ++ (g ≫= quad_children (NumOfElements_ es)))
             <$> sets_ es ELEMENT.
Proof.
  intros Hok. unfold QuadUniformRefinement.
  destruct (edge_block Hok)
    as (es1 & -> & HE & Hother & _ & _ & _ & _ & _ & HNE).
  rewrite bind_Ok, HNE, (Hother ELEMENT) by done.
  rewrite (for_each_set_map _
             (λ g, g ++ (g ≫= quad_children (NumOfElements_ es)))).
  2: { intros g _. apply quad_element_group_eq. }
  rewrite bind_Ok. eexists. split; [done|].
  rewrite sets_CopyMeshTables, !sets_with_sets.
  rewrite decide_False, decide_True by done. done.
Qed.

Lemma HexUniformRefinement_sets :
  edges_ok es → faces_ok es →
  ∃ es', HexUniformRefinement es = Ok es' ∧
         sets_ es' EDGE = refined_edges <$> sets_ es EDGE ∧
         sets_ es' ELEMENT
         = (λ g, g ++ (g ≫= hex_children (NumOfElements_ es)))
             <$> sets_ es ELEMENT.
Proof.
  intros Hok Hfok. unfold HexUniformRefinement.
  destruct (edge_block Hok)
    as (es1 & -> & HE & Hother & Hfv & Hfe & Hm & HNV & HNEd & HNE).
  rewrite bind_Ok.
  assert (∃ es2,
    (if decide (GetNumSets es1 FACE > 0) then
       gs ← for_each_set
              (hex_face_group (face_vertex_ es1) (face_edge_ es1)
                 (GetFacesTable4 (mesh_ es1)) (NumOfVertices_ es1)
                 (NumOfVertices_ es1 + NumOfEdges_ es1)) (sets_ es1 FACE);
       Ok (with_sets es1 FACE gs)
     else Ok es1) = Ok es2 ∧
    sets_ es2 EDGE = sets_ es1 EDGE ∧ sets_ es2 ELEMENT = sets_ es1 ELEMENT ∧
    NumOfElements_ es2 = NumOfElements_ es1) as (es2 & -> & HE2 & HEl2 & HNE2).
  { case_decide; [|by exists es1].
    set (f := hex_face_group (face_vertex_ es1) (face_edge_ es1)
                (GetFacesTable4 (mesh_ es1)) (NumOfVertices_ es1)
                (NumOfVertices_ es1 + NumOfEdges_ es1)).
    rewrite (for_each_set_map f (λ g, match f g with Ok g' => g' | _ => g end)).
    - eexists. split; [done|]. rewrite !sets_with_sets.
      by rewrite !decide_False by done.
    - intros g Hg. destruct (hex_face_group_Ok (face_vertex_ es1)
        (face_edge_ es1) (GetFacesTable4 (mesh_ es1)) (NumOfVertices_ es1)
        (NumOfVertices_ es1 + NumOfEdges_ es1) g) as [g' Hg'].
      + intros fc Hfc. rewrite Hfv, Hfe. apply (Hfok g); [|done].
        by rewrite <- (Hother FACE).
      + unfold f. by rewrite Hg'. }
  rewrite bind_Ok, HNE2, HNE, HEl2, (Hother ELEMENT) by done.
  rewrite (for_each_set_map _
             (λ g, g ++ (g ≫= hex_children (NumOfElements_ es)))).
  2: { intros g _. apply hex_element_group_eq. }
  rewrite bind_Ok. eexists. split; [done|].
  rewrite sets_CopyMeshTables, !sets_with_sets.
  rewrite decide_False, decide_True by done. by rewrite HE2, HE.
Qed.
End refinement.

(** Claim C3.  Let [g] be an ELEMENT group of an instance whose stored
    edges (and, for the hex pass, faces) are entities of the mesh tables.
    [QuadUniformRefinement] returns with the group holding [g] followed, for
    each parent [e] of [g] in order, by [NumOfElements_ + 3*e + {0,1,2}]:
    four times the size, every original entry in its slot.
    [HexUniformRefinement] returns with [g] followed by
    [NumOfElements_ + 7*e + {0..6}]: eight times the size.  For the group
    [[5]] and [NumOfElements_ = 10] these are [[5, 25, 26, 27]] and
    [[5, 45, 46, 47, 48, 49, 50, 51]]. *)
Theorem element_groups_refined (es : EntitySets) (s : nat) (g : list Z) :
  edges_ok es → sets_ es ELEMENT !! s = Some g →
  (∃ es' g', QuadUniformRefinement es = Ok es' ∧
             sets_ es' ELEMENT !! s = Some g' ∧
             g' = g ++ (g ≫= quad_children (NumOfElements_ es)) ∧
             length g' = (4 * length g)%nat ∧
             (g = [5] → NumOfElements_ es = 10 → g' = [5; 25; 26; 27])) ∧
  (faces_ok es →
   ∃ es' g', HexUniformRefinement es = Ok es' ∧
             sets_ es' ELEMENT !! s = Some g' ∧
             g' = g ++ (g ≫= hex_children (NumOfElements_ es)) ∧
             length g' = (8 * length g)%nat ∧
             (g = [5] → NumOfElements_ es = 10 →
              g' = [5; 45; 46; 47; 48; 49; 50; 51])).
Proof.
  intros Hok Hg. split.
  - destruct (QuadUniformRefinement_sets es Hok) as (es' & HQ & _ & HEl).
    exists es', (g ++ (g ≫= quad_children (NumOfElements_ es))).
    split; [done|]. split; [by rewrite HEl, list_lookup_fmap, Hg|].
    split; [done|]. split.
    + rewrite length_app, (length_bind_const _ _ 3) by done. lia.
    + intros -> ->. reflexivity.
  - intros Hfok.
    destruct (HexUniformRefinement_sets es Hok Hfok) as (es' & HH & _ & HEl).
    exists es', (g ++ (g ≫= hex_children (NumOfElements_ es))).
    split; [done|]. split; [by rewrite HEl, list_lookup_fmap, Hg|].
    split; [done|]. split.
    + rewrite length_app, (length_bind_const _ _ 7) by done. lia.
    + intros -> ->. reflexivity.
Qed.

(** What claim C4 says of the EDGE group [g'] that replaces [g]: twice the
    size and, for the edge [e] stored at position [i] with endpoints [v0]
    and [v1], the vertex-pair index of [(v0, oldVertexCount + e)] at
    position [i] and that of [(v1, oldVertexCount + e)] at position
    [i + n]. *)
Definition bisected (es : EntitySets) (g g' : list Z) : Prop :=
  length g' = (2 * length g)%nat ∧
  ∀ (i : nat) e, g !! i = Some e →
    ∃ v0 v1, edge_ends (edge_vertex_ es) e v0 v1 ∧
      g' !! i
      = Some (GetVertexToVertexTable (mesh_ es) (GetNV (mesh_ es)) v0
                (NumOfVertices_ es + e)) ∧
      g' !! (i + length g)%nat
      = Some (GetVertexToVertexTable (mesh_ es) (GetNV (mesh_ es)) v1
                (NumOfVertices_ es + e)).

Lemma refined_edges_bisected es g :
  (∀ e, e ∈ g → ∃ v0 v1, edge_ends (edge_vertex_ es) e v0 v1) →
  bisected es g
    ((half_edge (edge_vertex_ es)
        (GetVertexToVertexTable (mesh_ es) (GetNV (mesh_ es)))
        (NumOfVertices_ es) 0 <$> g) ++
     (half_edge (edge_vertex_ es)
        (GetVertexToVertexTable (mesh_ es) (GetNV (mesh_ es)))
        (NumOfVertices_ es) 1 <$> g)).
Proof.
  intros Hends. split.
  - rewrite length_app, !length_fmap. lia.
  - intros i e Hi.
    destruct (Hends e) as (v0 & v1 & H0 & H1); [by eapply list_elem_of_lookup_2|].
    exists v0, v1. split; [done|].
    pose proof (lookup_lt_Some _ _ _ Hi) as Hlt. split.
    + rewrite lookup_app_l by (by rewrite length_fmap).
      rewrite list_lookup_fmap, Hi. simpl.
      unfold half_edge, endpoint. by rewrite H0.
    + rewrite lookup_app_r by (rewrite length_fmap; lia).
      rewrite length_fmap, list_lookup_fmap.
      replace (i + length g - length g)%nat with i by lia. rewrite Hi. simpl.
      unfold half_edge, endpoint. by rewrite H1.
Qed.

(** Claim C4.  Let [g] be an EDGE group of size [n] of an instance whose
    stored edges (and, for the hex pass, faces) are entities of the mesh
    tables.  Either refinement pass returns with the group replaced by a
    group of size [2n] that holds, for the edge [e] at position [i] with
    endpoints [v0], [v1] in the edge-vertex table, the vertex-pair index of
    [(v0, NumOfVertices_ + e)] at position [i] and that of
    [(v1, NumOfVertices_ + e)] at position [i + n], with [NumOfVertices_]
    the count stored before the pass. *)
Theorem edge_groups_refined (es : EntitySets) (s : nat) (g : list Z) :
  edges_ok es → sets_ es EDGE !! s = Some g →
  (∃ es' g', QuadUniformRefinement es = Ok es' ∧
             sets_ es' EDGE !! s = Some g' ∧ bisected es g g') ∧
  (faces_ok es →
   ∃ es' g', HexUniformRefinement es = Ok es' ∧
             sets_ es' EDGE !! s = Some g' ∧ bisected es g g').
Proof.
  intros Hok Hg.
  assert (∀ e, e ∈ g → ∃ v0 v1, edge_ends (edge_vertex_ es) e v0 v1) as Hends.
  { intros e He. apply (Hok g); [|done]. by eapply list_elem_of_lookup_2. }
  split.
  - destruct (QuadUniformRefinement_sets es Hok) as (es' & HQ & HE & _).
    eexists es', _. split; [done|].
    split; [by rewrite HE, list_lookup_fmap, Hg|].
    by apply refined_edges_bisected.
  - intros Hfok.
    destruct (HexUniformRefinement_sets es Hok Hfok) as (es' & HH & HE & _).
    eexists es', _. split; [done|].
    split; [by rewrite HE, list_lookup_fmap, Hg|].
    by apply refined_edges_bisected.
Qed.

(** *** Loading the text form *)

(** The operations on [std::istream] that [Load] performs, as functions on
    the state of the stream, together with the two text helpers of MFEM that
    it calls ([skip_comment_lines] and [filter_dos] live in a header that is
    not among the sources at hand, so they are taken as given).
    - [stream_ok s]: the conversion of the stream to [bool];
    - [skip_ws s]: [s >> ws];
    - [getline old s]: [getline(s, str)] for a [str] that held [old];
    - [get_string old s]: [s >> str] for a [str] that held [old];
    - [get_int old s]: [s >> n] for an [int n] that held [old]. *)
(** The character ['#'] that starts a comment line. *)
Definition hash : Ascii.ascii := Ascii.ascii_of_nat 35.

Class Input (istream : Type) : Type := {
  stream_ok : istream → bool;
  skip_ws : istream → istream;
  getline : string → istream → string * istream;
  get_string : string → istream → string * istream;
  get_int : Z → istream → Z * istream;
  skip_comment_lines : istream → Ascii.ascii → istream;
  filter_dos : string → string;
}.

(** [MFEM_VERIFY(cond, msg)] and [MFEM_ABORT(msg)].
    Modelled from the spec: the macros are defined in general/error.hpp,
    which is absent; by section 4.4 a wrong keyword where a fixed keyword is
    expected is an unrecoverable parse error. *)
Definition MFEM_VERIFY (cond : bool) : result () :=
  if cond then Ok () else Abort.
Definition MFEM_ABORT {A : Type} : result A := Abort.

(** The object with the groups, the names and the name index of kind [t]
    replaced. *)
Definition with_loaded (es : EntitySets) (t : EntityType)
    (gs : list (list Z)) (names : list string) (index : gmap string Z)
  : EntitySets :=
  mkEntitySets (mesh_ es) (edge_vertex_ es) (face_vertex_ es) (face_edge_ es)
    (NumOfVertices_ es) (NumOfEdges_ es) (NumOfElements_ es)
    (<[t := gs]> (sets_ es)) (<[t := names]> (set_names_ es))
    (<[t := index]> (set_index_by_name_ es)).

Section load.
Context {istream : Type} `{Input istream}.

(** The value of the local [int]s that [LoadEntitySets] declares without
    initialising them. *)
Context (uninit : Z).

(** The locals [g, v0, v1, v2, v3] of [LoadEntitySets]. *)
Definition face_vars : Type := Z * Z * Z * Z * Z.

(** One turn of the loop over the entities of a group. *)
Definition load_entity (es : EntitySets) (t : EntityType) (j : Z)
    (s : istream * face_vars * list Z)
  : result (istream * face_vars * list Z) :=
  let '(input, (g, v0, v1, v2, v3), group) := s in
  '(input, vars, group) ←
    match t with
    | VERTEX | ELEMENT =>
        old ← rd group j;
        let '(x, input) := get_int old input in
        group ← wr group j x;
        Ok (input, (g, v0, v1, v2, v3), group)
    | EDGE =>
        let '(v0, input) := get_int v0 input in
        let '(v1, input) := get_int v1 input in
        group ← wr group j
                  (GetVertexToVertexTable (mesh_ es) (NumOfVertices_ es)
                     v0 v1);
        Ok (input, (g, v0, v1, v2, v3), group)
    | FACE =>
        let '(g, input) := get_int g input in
        if decide (g = 2) then
          let '(v0, input) := get_int v0 input in
          let '(v1, input) := get_int v1 input in
          let '(v2, input) := get_int v2 input in
          group ← wr group j (GetFacesTable3 (mesh_ es) v0 v1 v2);
          Ok (input, (g, v0, v1, v2, v3), group)
        else if decide (g = 3) then
          let '(v0, input) := get_int v0 input in
          let '(v1, input) := get_int v1 input in
          let '(v2, input) := get_int v2 input in
          let '(v3, input) := get_int v3 input in
          group ← wr group j (GetFacesTable4 (mesh_ es) v0 v1 v2 v3);
          Ok (input, (g, v0, v1, v2, v3), group)
        else MFEM_ABORT
    end;
  Ok (skip_ws input, vars, group).

(** [void EntitySets::LoadEntitySets(istream &input, EntityType t,
    const string & header)]. *)
Definition LoadEntitySets (input : istream) (es : EntitySets)
    (t : EntityType) (header : string) : result (istream * EntitySets) :=
  let ident := ""%string in
  let NumSets := -1 in
  let NumEntities := -1 in
  let input := skip_comment_lines input hash in
  let '(ident, input) := get_string ident input in
  let input := skip_ws input in
  _ ← MFEM_VERIFY (bool_decide (ident = header));
  let '(NumSets, input) := get_int NumSets input in
  let input := skip_ws input in
  sets ← resize [] (sets_ es t) NumSets;
  names ← resize ""%string (set_names_ es t) NumSets;
  '(input, ident, NumEntities, vars, sets, names, index) ←
    for_range 0 NumSets
      (λ i '(input, ident, NumEntities, vars, sets, names, index),
         let '(ident, input) := getline ident input in
         let ident := filter_dos ident in
         names ← wr_at names i ident;
         let index := <[ident := i]> index in
         let '(NumEntities, input) := get_int NumEntities input in
         group ← rd_at sets i;
         group ← resize 0 group NumEntities;
         '(input, vars, group) ←
           for_range 0 NumEntities (load_entity es t) (input, vars, group);
         sets ← wr_at sets i group;
         Ok (input, ident, NumEntities, vars, sets, names, index))
      (input, ident, NumEntities,
       (uninit, uninit, uninit, uninit, uninit),
       sets, names, set_index_by_name_ es t);
  Ok (input, with_loaded es t sets names index).

(** [void EntitySets::Load(istream &input)]: the stream as the call leaves
    it, and the object. *)
Definition Load (input : istream) (es : EntitySets)
  : result (istream * EntitySets) :=
  if negb (stream_ok input) then MFEM_ABORT
  else
    let file_type := ""%string in
    let input := skip_ws input in
    let '(file_type, input) := getline file_type input in
    let file_type := filter_dos file_type in
    let mfem_sets_v10 := bool_decide (file_type = "MFEM sets v1.0"%string) in
    if mfem_sets_v10 then
      let ident := ""%string in
      let Dim := -1 in
      let input := skip_comment_lines input hash in
      let '(ident, input) := get_string ident input in
      let input := skip_ws input in
      _ ← MFEM_VERIFY (bool_decide (ident = "dimension"%string));
      let '(Dim, input) := get_int Dim input in
      let input := skip_ws input in
      '(input, es) ← LoadEntitySets input es VERTEX "vertex_sets";
      '(input, es) ← (if decide (Dim > 1) then
                        LoadEntitySets input es EDGE "edge_sets"
                      else Ok (input, es));
      '(input, es) ← (if decide (Dim > 2) then
                        LoadEntitySets input es FACE "face_sets"
                      else Ok (input, es));
      '(input, es) ← LoadEntitySets input es ELEMENT "element_sets";
      Ok (input, CopyMeshTables es)
    else
      Ok (input, es).
(** The head of a stream as [Load] reads it: the first line (leading
    white space skipped, [filter_dos] applied), the keyword that follows
    the comment lines, the dimension, and the stream after it. *)
Definition read_head (input : istream) : string * string * Z * istream :=
  let input := skip_ws input in
  let '(file_type, input) := getline ""%string input in
  let file_type := filter_dos file_type in
  let input := skip_comment_lines input hash in
  let '(ident, input) := get_string ""%string input in
  let input := skip_ws input in
  let '(Dim, input) := get_int (-1) input in
  let input := skip_ws input in
  (file_type, ident, Dim, input).


(** The keyword that [LoadEntitySets] finds at the head of a section. *)
Definition next_keyword (input : istream) : string :=
  (get_string ""%string (skip_comment_lines input hash)).1.

(** The sections that claim C10 names for a stream of dimension [Dim], in
    the order of the text format: kind and keyword. *)
Definition sections (Dim : Z) : list (EntityType * string) :=
  [(VERTEX, "vertex_sets"%string)] ++
  (if decide (Dim > 1) then [(EDGE, "edge_sets"%string)] else []) ++
  (if decide (Dim > 2) then [(FACE, "face_sets"%string)] else []) ++
  [(ELEMENT, "element_sets"%string)].

(** Reading a list of sections with [LoadEntitySets], one after the
    other. *)
Definition load_sections (secs : list (EntityType * string))
    (s : istream * EntitySets) : result (istream * EntitySets) :=
  foldM (λ '(t, header) '(input, es), LoadEntitySets input es t header)
    secs s.

Lemma LoadEntitySets_keyword input es t header :
  next_keyword input ≠ header → LoadEntitySets input es t header = Abort.
Proof.
  unfold next_keyword, LoadEntitySets. intros Hk.
  destruct (get_string "" (skip_comment_lines input hash)) as [ident input1].
  simpl in Hk. by rewrite bool_decide_false.
Qed.

(** A section leaves the groups of the other kinds alone. *)
Lemma LoadEntitySets_frame input es t header input' es' t' :
  LoadEntitySets input es t header = Ok (input', es') → t' ≠ t →
  sets_ es' t' = sets_ es t'.
Proof.
  unfold LoadEntitySets. intros HL Hne.
  destruct (get_string "" (skip_comment_lines input hash)) as [ident input1].
  apply bind_Ok_inv in HL as (_ & _ & HL).
  destruct (get_int (-1) (skip_ws input1)) as [NumSets input2].
  apply bind_Ok_inv in HL as (sets & _ & HL).
  apply bind_Ok_inv in HL as (names & _ & HL).
  apply bind_Ok_inv in HL as ([[[[[[input3 ident3] ne] vars] sets3] names3] idx]
                               & _ & HL).
  simplify_eq. simpl. by apply fn_lookup_insert_ne.
Qed.

Lemma Load_unfold input es D input0 :
  stream_ok input = true →
  read_head input = ("MFEM sets v1.0"%string, "dimension"%string, D, input0) →
  Load input es =
  ('(input, es) ← LoadEntitySets input0 es VERTEX "vertex_sets";
   '(input, es) ← (if decide (D > 1) then
                     LoadEntitySets input es EDGE "edge_sets"
                   else Ok (input, es));
   '(input, es) ← (if decide (D > 2) then
                     LoadEntitySets input es FACE "face_sets"
                   else Ok (input, es));
   '(input, es) ← LoadEntitySets input es ELEMENT "element_sets";
   Ok (input, CopyMeshTables es)).
Proof.
  intros Hok Hhead. unfold Load, read_head in *. rewrite Hok. simpl.
  destruct (getline "" (skip_ws input)) as [file_type input1].
  destruct (get_string "" (skip_comment_lines input1 hash)) as [ident input2].
  destruct (get_int (-1) (skip_ws input2)) as [Dim input3].
  injection Hhead as Hft Hid HD Hin. subst. rewrite Hft.
  rewrite bool_decide_true by done. rewrite bool_decide_true by done. done.
Qed.
End load.


(** Claim C10.  For an open stream with the first line "MFEM sets v1.0",
    the keyword "dimension" and the dimension [D], [Load] reads the sections
    [sections D] in order and then calls [CopyMeshTables]: these are
    vertex_sets and element_sets always, edge_sets exactly when [D > 1] and
    face_sets exactly when [D > 2].  Where [D <= 1] and the vertex section
    is followed by the keyword edge_sets, the element section meets the
    wrong keyword and [Load] ends in the fatal error; and whenever [Load]
    returns, the EDGE groups are untouched for [D <= 1] and the FACE groups
    for [D <= 2]. *)
Theorem Load_sections {istream : Type} `{Input istream} (uninit : Z)
    (input input0 : istream) (es : EntitySets) (D : Z) :
  stream_ok input = true →
  read_head input = ("MFEM sets v1.0"%string, "dimension"%string, D, input0) →
  Load uninit input es
  = ('(input', es') ← load_sections uninit (sections D) (input0, es);
     Ok (input', CopyMeshTables es')) ∧
  (∀ t, t ∈ (sections D).*1 ↔
        t = VERTEX ∨ t = ELEMENT ∨ (t = EDGE ∧ D > 1) ∨ (t = FACE ∧ D > 2)) ∧
  (D ≤ 1 →
   ∀ input1 es1,
     LoadEntitySets uninit input0 es VERTEX "vertex_sets" = Ok (input1, es1) →
     next_keyword input1 = "edge_sets"%string →
     Load uninit input es = Abort) ∧
  (∀ input' es', Load uninit input es = Ok (input', es') →
     (D ≤ 1 → sets_ es' EDGE = sets_ es EDGE) ∧
     (D ≤ 2 → sets_ es' FACE = sets_ es FACE)).
Proof.
  intros Hok Hhead. rewrite (Load_unfold uninit input es D input0 Hok Hhead).
  split; [|split; [|split]].
  - unfold load_sections, sections. simpl.
    destruct (LoadEntitySets uninit input0 es VERTEX "vertex_sets")
      as [[i1 e1]| |]; simpl; [|done..].
    destruct (decide (D > 1)); destruct (decide (D > 2)); simpl;
      repeat match goal with
             | |- context [LoadEntitySets uninit ?i ?e ?t ?h] =>
                 destruct (LoadEntitySets uninit i e t h) as [[? ?]| |]; simpl
             end; done.
  - intros t. unfold sections.
    destruct (decide (D > 1)); destruct (decide (D > 2)); simpl;
      rewrite ?elem_of_cons, elem_of_nil; destruct t;
      intuition (try discriminate; try lia).
  - intros HD input1 es1 HV Hkw. rewrite HV. simpl.
    rewrite (decide_False (P := D > 1)) by lia. simpl.
    rewrite (decide_False (P := D > 2)) by lia. simpl.
    by rewrite LoadEntitySets_keyword by (by rewrite Hkw).
  - intros input' es' HL.
    apply bind_Ok_inv in HL as ([i1 e1] & HV & HL).
    apply bind_Ok_inv in HL as ([i2 e2] & HE & HL).
    apply bind_Ok_inv in HL as ([i3 e3] & HF & HL).
    apply bind_Ok_inv in HL as ([i4 e4] & HEl & HL).
    simplify_eq. rewrite sets_CopyMeshTables.
    pose proof (LoadEntitySets_frame uninit _ _ _ _ _ _ EDGE HV ltac:(done)).
    pose proof (LoadEntitySets_frame uninit _ _ _ _ _ _ FACE HV ltac:(done)).
    pose proof (LoadEntitySets_frame uninit _ _ _ _ _ _ EDGE HEl ltac:(done)).
    pose proof (LoadEntitySets_frame uninit _ _ _ _ _ _ FACE HEl ltac:(done)).
    split.
    + intros HD. rewrite decide_False in HE by lia. simplify_eq.
      assert (sets_ e3 EDGE = sets_ e2 EDGE) as Heq.
      { case_decide; [|by simplify_eq].
        by eapply LoadEntitySets_frame. }
      congruence.
    + intros HD. rewrite decide_False in HF by lia. simplify_eq.
      assert (sets_ e3 FACE = sets_ e1 FACE) as Heq.
      { case_decide; [|by simplify_eq].
        by eapply LoadEntitySets_frame. }
      congruence.
Qed.


(** ** A stream over a text held in memory

    An instance of [Input] in the manner of [std::istringstream], on which
    the theorems about [Load] can be run: the characters still to be read
    and the two state bits that reading a text in memory can set, [eofbit]
    and [failbit]. *)
Record text_stream : Type := mkText {
  chars : list Ascii.ascii;
  eof : bool;
  failed : bool;
}.

Definition newline : Ascii.ascii := Ascii.ascii_of_nat 10.

(** [isspace] and [isdigit] in the "C" locale. *)
Definition is_blank (c : Ascii.ascii) : bool :=
  let n := Ascii.nat_of_ascii c in
  (Nat.leb 9 n && Nat.leb n 13) || Nat.eqb n 32.

Definition is_digit (c : Ascii.ascii) : bool :=
  let n := Ascii.nat_of_ascii c in Nat.leb 48 n && Nat.leb n 57.

Fixpoint skip_blank (cs : list Ascii.ascii) : list Ascii.ascii :=
  match cs with
  | c :: cs' => if is_blank c then skip_blank cs' else cs
  | [] => []
  end.

(** The longest prefix whose characters satisfy [p], and the rest. *)
Fixpoint span (p : Ascii.ascii → bool) (cs : list Ascii.ascii)
  : list Ascii.ascii * list Ascii.ascii :=
  match cs with
  | c :: cs' =>
      if p c then let '(a, b) := span p cs' in (c :: a, b) else ([], cs)
  | [] => ([], [])
  end.

(** [good()]: no state bit is set. *)
Definition good (s : text_stream) : bool := negb (eof s || failed s).

(** Whether a read that stopped with [cs] left has met the end of the
    text. *)
Definition at_end (cs : list Ascii.ascii) : bool :=
  match cs with [] => true | _ => false end.

(** [istream::sentry]: whether the input function may read, and the stream
    it reads from.  A stream that is not good gets [failbit]; a formatted
    input function skips the white space first, and the end of the text
    there sets [eofbit] and [failbit]. *)
Definition sentry (noskipws : bool) (s : text_stream) : bool * text_stream :=
  if good s then
    if noskipws then (true, s)
    else
      match skip_blank (chars s) with
      | [] => (false, mkText [] true true)
      | cs => (true, mkText cs false false)
      end
  else (false, mkText (chars s) (eof s) true).

(** [s >> ws]: meeting the end of the text sets [eofbit] alone. *)
Definition text_skip_ws (s : text_stream) : text_stream :=
  let '(ok, s1) := sentry true s in
  if ok then
    let cs := skip_blank (chars s1) in mkText cs (at_end cs) false
  else s1.

(** [getline(s, str)]: the string is erased only once the sentry has let
    the read through; the newline is taken from the stream and not stored;
    a read that takes no character at all sets [failbit]. *)
Definition text_getline (old : string) (s : text_stream)
  : string * text_stream :=
  let '(ok, s1) := sentry true s in
  if ok then
    let '(line, rest) := span (λ c, negb (Ascii.eqb c newline)) (chars s1) in
    (String.string_of_list_ascii line,
     match rest with
     | [] => mkText [] true (at_end line)
     | _ :: rest' => mkText rest' false false
     end)
  else (old, s1).

(** [s >> str]. *)
Definition text_get_string (old : string) (s : text_stream)
  : string * text_stream :=
  let '(ok, s1) := sentry false s in
  if ok then
    let '(tok, rest) := span (λ c, negb (is_blank c)) (chars s1) in
    (String.string_of_list_ascii tok, mkText rest (at_end rest) false)
  else (old, s1).

Definition digits_value (ds : list Ascii.ascii) : Z :=
  foldl (λ acc c, 10 * acc + Z.of_nat (Ascii.nat_of_ascii c - 48)) 0 ds.

(** The bounds of a 32-bit [int]. *)
Definition INT_MAX : Z := 2147483647.
Definition INT_MIN : Z := -2147483648.

(** [s >> n] for an [int n]: an optional sign, [+] or [-], and decimal
    digits.  Without a digit the value is 0 and [failbit] is set; a value
    out of the range of [int] is replaced by the nearest bound and
    [failbit] is set; when the sentry refuses the read, [n] keeps its
    value. *)
Definition text_get_int (old : Z) (s : text_stream) : Z * text_stream :=
  let '(ok, s1) := sentry false s in
  if ok then
    let cs := chars s1 in
    let '(neg, cs1) :=
      match cs with
      | c :: cs' =>
          if Ascii.eqb c (Ascii.ascii_of_nat 45) then (true, cs')
          else if Ascii.eqb c (Ascii.ascii_of_nat 43) then (false, cs')
          else (false, cs)
      | [] => (false, cs)
      end in
    let '(ds, rest) := span is_digit cs1 in
    match ds with
    | [] => (0, mkText rest (at_end rest) true)
    | _ =>
        let v := if neg then - digits_value ds else digits_value ds in
        if decide (v < INT_MIN) then (INT_MIN, mkText rest (at_end rest) true)
        else if decide (INT_MAX < v)
        then (INT_MAX, mkText rest (at_end rest) true)
        else (v, mkText rest (at_end rest) false)
    end
  else (old, s1).

(** [s.peek()]: the next character, if the stream is good and has one. *)
Definition text_peek (s : text_stream) : option Ascii.ascii * text_stream :=
  let '(ok, s1) := sentry true s in
  if ok then
    match chars s1 with
    | c :: _ => (Some c, s1)
    | [] => (None, mkText [] true false)
    end
  else (None, s1).

(** [s.ignore(numeric_limits<streamsize>::max(), '\n')]. *)
Definition text_ignore_line (s : text_stream) : text_stream :=
  let '(ok, s1) := sentry true s in
  if ok then
    let '(_, rest) := span (λ c, negb (Ascii.eqb c newline)) (chars s1) in
    match rest with
    | [] => mkText [] true false
    | _ :: rest' => mkText rest' false false
    end
  else s1.

(** The loop of [skip_comment_lines]: skip the white space, leave when the
    next character is not [c], drop the line otherwise.  Every turn that
    does not leave takes a character from the stream, so [fuel] above the
    number of characters is never used up ([skip_lines_fuel] below). *)
Fixpoint skip_lines (fuel : nat) (s : text_stream) (c : Ascii.ascii)
  : text_stream :=
  match fuel with
  | O => s
  | S fuel' =>
      let '(p, s1) := text_peek (text_skip_ws s) in
      match p with
      | Some d =>
          if Ascii.eqb d c then skip_lines fuel' (text_ignore_line s1) c
          else s1
      | None => s1
      end
  end.

Definition text_skip_comment_lines (s : text_stream) (c : Ascii.ascii)
  : text_stream :=
  skip_lines (S (length (chars s))) s c.

(** Drop a carriage return that ends the line. *)
Definition text_filter_dos (str : string) : string :=
  let cs := String.list_ascii_of_string str in
  match reverse cs with
  | c :: rest =>
      if Ascii.eqb c (Ascii.ascii_of_nat 13)
      then String.string_of_list_ascii (reverse rest) else str
  | [] => str
  end.

#[global] Instance text_input : Input text_stream := {
  stream_ok s := negb (failed s);
  skip_ws := text_skip_ws;
  getline := text_getline;
  get_string := text_get_string;
  get_int := text_get_int;
  skip_comment_lines := text_skip_comment_lines;
  filter_dos := text_filter_dos;
}.

(** The stream that holds the given lines. *)
Definition text_of_lines (ls : list string) : text_stream :=
  mkText (ls ≫= λ l, String.list_ascii_of_string l ++ [newline]) false false.

Lemma skip_blank_length cs : (length (skip_blank cs) ≤ length cs)%nat.
Proof.
  induction cs as [|c cs IH]; simpl; [lia|].
  destruct (is_blank c); simpl; lia.
Qed.

Lemma span_length p cs :
  (length (span p cs).2 ≤ length cs)%nat.
Proof.
  induction cs as [|c cs IH]; simpl; [lia|].
  destruct (p c); [|simpl; lia].
  destruct (span p cs) as [a b]. simpl in *. lia.
Qed.

(** A turn of the loop that meets the comment character leaves fewer
    characters than it found. *)
Lemma skip_lines_turn s c s1 :
  text_peek (text_skip_ws s) = (Some c, s1) →
  (length (chars (text_ignore_line s1)) < length (chars s))%nat.
Proof.
  unfold text_peek, text_skip_ws, text_ignore_line, sentry.
  destruct (good s) eqn:Hg; cbn [fst snd].
  - pose proof (skip_blank_length (chars s)) as Hlen.
    destruct (skip_blank (chars s)) as [|d cs] eqn:Hcs.
    + vm_compute. intros; simplify_eq.
    + cbn. intros ?; simplify_eq. cbn.
      pose proof (span_length (λ x, negb (Ascii.eqb x newline)) cs) as Hs.
      simpl in Hlen.
      destruct (negb (Ascii.eqb c newline)).
      * destruct (span _ cs) as [a [|x r]]; simpl in *; lia.
      * simpl. lia.
  - replace (good (mkText (chars s) (eof s) true)) with false
      by (unfold good; simpl; by rewrite orb_true_r).
    intros; simplify_eq.
Qed.

(** The fuel that [text_skip_comment_lines] gives the loop is enough: more
    of it changes nothing. *)
Lemma skip_lines_fuel fuel fuel' s c :
  (length (chars s) < fuel)%nat → (fuel ≤ fuel')%nat →
  skip_lines fuel s c = skip_lines fuel' s c.
Proof.
  revert fuel' s. induction fuel as [|fuel IH]; intros fuel' s Hlen Hle;
    [lia|].
  destruct fuel' as [|fuel']; [lia|]. simpl.
  destruct (text_peek (text_skip_ws s)) as [[d|] s1] eqn:Hp; [|done].
  destruct (Ascii.eqb d c) eqn:Hd; [|done].
  apply Ascii.eqb_eq in Hd as ->.
  apply skip_lines_turn in Hp. apply IH; lia.
Qed.

(** The points at which reading from a stream differs from parsing a
    text: a sign [+], a value beyond [int], and a read past the end of the
    text, which leaves the variable as it was once [eofbit] is set. *)
Example text_get_int_cases :
  text_get_int 7 (text_of_lines ["+5"]%string)
  = (5, mkText [newline] false false) ∧
  text_get_int 7 (text_of_lines ["2147483648"]%string)
  = (INT_MAX, mkText [newline] false true) ∧
  text_get_int 7 (text_of_lines ["-2147483649"]%string)
  = (INT_MIN, mkText [newline] false true) ∧
  text_get_int 7 (text_of_lines ["x"]%string)
  = (0, mkText (chars (text_of_lines ["x"]%string)) false true) ∧
  text_get_int 7 (mkText [] false false) = (7, mkText [] true true) ∧
  text_get_int 7 (mkText [] true false) = (7, mkText [] true true).
Proof. repeat split. Qed.

Example text_getline_cases :
  text_getline "old" (text_of_lines ["ab"; "cd"]%string)
  = ("ab"%string, text_of_lines ["cd"]%string) ∧
  text_getline "old" (mkText [] false false)
  = (""%string, mkText [] true true) ∧
  text_getline "old" (mkText [] true false)
  = ("old"%string, mkText [] true true) ∧
  text_getline "old" (text_skip_ws (text_of_lines [""]%string))
  = ("old"%string, mkText [] true true).
Proof. repeat split. Qed.

(** ** The theorems at concrete inputs *)

(** A table of the fixed-degree protocol: two rows of two slots, after
    [Push(0,5)], [Push(0,6)] and [Push(1,9)]; the last slot is unset. *)
Definition example_table : Table := mkTable 2 [0; 2; 4] [5; 6; 9; -1].

Lemma example_table_FixedDegree : FixedDegree 2 example_table.
Proof.
  apply (FD_push 2 false (mkTable 2 [0; 2; 4] [5; 6; -1; -1]) 1 9 2);
    [|reflexivity].
  apply (FD_push 2 false (mkTable 2 [0; 2; 4] [5; -1; -1; -1]) 0 6 1);
    [|reflexivity].
  apply (FD_push 2 false (mkTable 2 [0; 2; 4] [-1; -1; -1; -1]) 0 5 0);
    [|reflexivity].
  apply (FD_new 2 (λ _, 0) 2); [lia | lia | reflexivity].
Defined.

Lemma example_table_StaticTable : StaticTable example_table.
Proof. exact (proj1 (FixedDegree_inv 2 _ example_table_FixedDegree)). Defined.

(** Two tables without unset slots: [table_A] has 3 rows and width 4,
    [table_B] has 4 rows. *)
Definition table_A : Table := mkTable 3 [0; 2; 3; 5] [1; 2; 0; 3; 1].
Definition table_B : Table := mkTable 4 [0; 2; 3; 3; 5] [0; 1; 1; 2; 0].

(** The state of a [Table] object that holds no arrays. *)
Definition empty_table : Table := mkTable (-1) [] [].

Lemma empty_table_reusable : reusable empty_table.
Proof. left. split; [simpl; lia | done]. Defined.

Lemma table_A_finalized : finalized table_A.
Proof.
  split.
  - unfold csr. simpl. split; [lia|]. split; [reflexivity|].
    split; [reflexivity|]. split; [|reflexivity].
    intros i a b Hi Ha Hb.
    assert (i = 0 ∨ i = 1 ∨ i = 2) as [-> | [-> | ->]] by lia;
      simpl in Ha, Hb; simplify_eq; lia.
  - intros v Hv. simpl in Hv.
    repeat (apply elem_of_cons in Hv as [->|Hv]; [lia|]).
    by apply elem_of_nil in Hv.
Defined.

Lemma table_B_finalized : finalized table_B.
Proof.
  split.
  - unfold csr. simpl. split; [lia|]. split; [reflexivity|].
    split; [reflexivity|]. split; [|reflexivity].
    intros i a b Hi Ha Hb.
    assert (i = 0 ∨ i = 1 ∨ i = 2 ∨ i = 3) as [-> | [-> | [-> | ->]]] by lia;
      simpl in Ha, Hb; simplify_eq; lia.
  - intros v Hv. simpl in Hv.
    repeat (apply elem_of_cons in Hv as [->|Hv]; [lia|]).
    by apply elem_of_nil in Hv.
Defined.

Lemma Mult_composition_witness :
  finalized table_A ∧ finalized table_B ∧ reusable empty_table ∧
  Width table_A = Ok 4 ∧
  (4 ≤ Size table_B →
   ∃ C, Mult (λ _, 0) table_A table_B empty_table = Ok C ∧
        Size C = Size table_A ∧ csr C ∧
        (∀ i m, entry C i m ↔ ∃ k, entry table_A i k ∧ entry table_B k m) ∧
        (∀ i, 0 ≤ i < Size C → NoDup (row C i))) ∧
  (4 > Size table_B → Mult (λ _, 0) table_A table_B empty_table = Abort).
Proof.
  split; [exact table_A_finalized|]. split; [exact table_B_finalized|].
  split; [exact empty_table_reusable|]. split; [reflexivity|].
  exact (Mult_composition (λ _, 0) table_A table_B empty_table 4
           table_A_finalized table_B_finalized empty_table_reusable eq_refl).
Defined.

Lemma Transpose_twice_witness :
  finalized table_A ∧ reusable empty_table ∧ reusable empty_table ∧
  Width table_A = Ok 4 ∧ 4 ≤ 5 ∧
  ∃ At, Transpose (λ _, 0) table_A empty_table 5 = Ok At ∧
        Size At = 5 ∧ finalized At ∧
        (∀ i j, entry At j i ↔ entry table_A i j) ∧
        ∃ w', Width At = Ok w' ∧ w' ≤ Size table_A ∧
              ∀ ncols2, w' ≤ ncols2 →
                ∃ Att, Transpose (λ _, 0) At empty_table ncols2 = Ok Att ∧
                       Size Att = ncols2 ∧
                       ∀ i j, entry Att i j ↔ entry table_A i j.
Proof.
  split; [exact table_A_finalized|]. split; [exact empty_table_reusable|].
  split; [exact empty_table_reusable|]. split; [reflexivity|]. split; [lia|].
  apply (Transpose_twice (λ _, 0) table_A empty_table empty_table 4 5
           table_A_finalized empty_table_reusable empty_table_reusable eq_refl).
  lia.
Defined.

Lemma Push_fixed_degree_witness :
  FixedDegree 2 example_table ∧ 0 ≤ 1 < Size example_table ∧
  Z.of_nat (length (row example_table 1)) = 2 ∧
  (entry example_table 1 4 →
   ∃ k, Push false example_table 1 4 = Ok (k, example_table) ∧
        is_slot example_table 1 k ∧
        GetJ example_table !! Z.to_nat k = Some 4) ∧
  (¬ entry example_table 1 4 → entry example_table 1 (-1) →
   ∃ k, Push false example_table 1 4
        = Ok (k, mkTable (Size example_table) (GetI example_table)
                   (<[Z.to_nat k := 4]> (GetJ example_table))) ∧
        is_slot example_table 1 k ∧
        GetJ example_table !! Z.to_nat k = Some (-1) ∧
        ∀ p, is_slot example_table 1 p → p < k →
             GetJ example_table !! Z.to_nat p ≠ Some (-1)) ∧
  (¬ entry example_table 1 4 → ¬ entry example_table 1 (-1) →
   Push false example_table 1 4 = Abort) ∧
  (∀ k T', Push false example_table 1 4 = Ok (k, T') →
           Push false T' 1 4 = Ok (k, T')).
Proof.
  split; [exact example_table_FixedDegree|]. split; [simpl; lia|].
  apply (Push_fixed_degree false 2 example_table 1 4 example_table_FixedDegree).
  simpl. lia.
Defined.

Lemma Finalize_compacts_witness :
  StaticTable example_table ∧
  ∃ T', Finalize (λ _, 0) false example_table = Ok T' ∧
        csr T' ∧ Size T' = Size example_table ∧
        GetI T' !! Z.to_nat (Size T')
        = Some (Z.of_nat (length (set_slots (GetJ example_table)))) ∧
        (∀ i, 0 ≤ i < Size example_table →
              row T' i = set_slots (row example_table i)) ∧
        (-1 ∉ GetJ T') ∧
        (-1 ∉ GetJ example_table → T' = example_table).
Proof.
  split; [exact example_table_StaticTable|].
  exact (Finalize_compacts (λ _, 0) false example_table
           example_table_StaticTable).
Defined.

Lemma Table_call_total_witness :
  StaticTable example_table ∧
  ∃ v, Table_call example_table 0 6 = Ok v ∧
    ((0 < 0 ∨ Size example_table ≤ 0) → v = -1) ∧
    (entry example_table 0 6 →
     is_slot example_table 0 v ∧ GetJ example_table !! Z.to_nat v = Some 6) ∧
    (¬ entry example_table 0 6 → v = -1).
Proof.
  split; [exact example_table_StaticTable|].
  exact (Table_call_total example_table 0 6 example_table_StaticTable).
Defined.

Lemma Push__dense_numbering_witness :
  0 ≤ 3 ∧ (∀ p, p ∈ [(0, 1); (1, 2); (0, 1)] → 0 ≤ p.1 < 3) ∧ 0 ≤ 2 < 3 ∧
  ∃ T0 T, DSTable_new 3 = Ok T0 ∧
    push_all false [(0, 1); (1, 2); (0, 1)] T0
    = Ok ((λ p, default (-1)
                  (index_of p (first_seen [] [(0, 1); (1, 2); (0, 1)])))
            <$> [(0, 1); (1, 2); (0, 1)], T) ∧
    NoDup (first_seen [] [(0, 1); (1, 2); (0, 1)]) ∧
    (∀ p, p ∈ first_seen [] [(0, 1); (1, 2); (0, 1)] ↔
          p ∈ [(0, 1); (1, 2); (0, 1)]) ∧
    NumEntries T
    = Z.of_nat (length (first_seen [] [(0, 1); (1, 2); (0, 1)])) ∧
    (∀ p k, index_of p (first_seen [] [(0, 1); (1, 2); (0, 1)]) = Some k ↔
            0 ≤ k ∧
            first_seen [] [(0, 1); (1, 2); (0, 1)] !! Z.to_nat k = Some p) ∧
    ∃ k T', push_all false (replicate 3 (2, 5)) T = Ok (replicate 3 k, T') ∧
            ((2, 5) ∈ [(0, 1); (1, 2); (0, 1)] →
             index_of (2, 5) (first_seen [] [(0, 1); (1, 2); (0, 1)]) = Some k ∧
             T' = T) ∧
            ((2, 5) ∉ [(0, 1); (1, 2); (0, 1)] →
             k = NumEntries T ∧ NumEntries T' = NumEntries T + 1).
Proof.
  assert (∀ p : Z * Z, p ∈ [(0, 1); (1, 2); (0, 1)] → 0 ≤ p.1 < 3) as Hps.
  { intros p Hp.
    repeat (apply elem_of_cons in Hp as [->|Hp]; [simpl; lia|]).
    by apply elem_of_nil in Hp. }
  split; [lia|]. split; [exact Hps|]. split; [lia|].
  apply (Push__dense_numbering false 3 [(0, 1); (1, 2); (0, 1)] 2 5 2);
    [lia | exact Hps | lia].
Defined.

(** A mesh of four vertices and one edge [(0,1)], after a refinement that
    left it with 9 vertices; the vertex-pair table numbers the pair [(a,b)]
    as [1000*a + b]. *)
Definition example_mesh : Mesh :=
  mkMesh 9 12 4 2 None None None
    (mkTable 1 [0; 2] [0; 1]) (mkTable 0 [0] []) (mkTable 0 [0] [])
    (λ _ a b, 1000 * a + b) (λ _ _ _, -1) (λ _ _ _ _, -1).

(** An instance with the EDGE group [[0]] and the ELEMENT group [[5]],
    [NumOfVertices_ = 4] and [NumOfElements_ = 10]. *)
Definition example_sets : EntitySets :=
  mkEntitySets example_mesh (Some (mkTable 1 [0; 2] [0; 1])) None None
    4 4 10
    (λ t, match t with ELEMENT => [[5]] | EDGE => [[0]] | _ => [] end)
    (λ _, []) (λ _, ∅).

Lemma example_sets_edges_ok : edges_ok example_sets.
Proof.
  intros g e Hg He. simpl in Hg.
  apply list_elem_of_singleton in Hg as ->.
  apply list_elem_of_singleton in He as ->.
  exists 0, 1. split; reflexivity.
Defined.

Lemma example_sets_faces_ok : faces_ok example_sets.
Proof. intros g f Hg. simpl in Hg. by apply elem_of_nil in Hg. Defined.

Lemma element_groups_refined_witness :
  edges_ok example_sets ∧ sets_ example_sets ELEMENT !! O = Some [5] ∧
  (∃ es' g', QuadUniformRefinement example_sets = Ok es' ∧
             sets_ es' ELEMENT !! O = Some g' ∧
             g' = [5] ++ ([5] ≫= quad_children (NumOfElements_ example_sets)) ∧
             length g' = (4 * length [5])%nat ∧
             ([5] = [5] → NumOfElements_ example_sets = 10 →
              g' = [5; 25; 26; 27])) ∧
  faces_ok example_sets ∧
  (∃ es' g', HexUniformRefinement example_sets = Ok es' ∧
             sets_ es' ELEMENT !! O = Some g' ∧
             g' = [5] ++ ([5] ≫= hex_children (NumOfElements_ example_sets)) ∧
             length g' = (8 * length [5])%nat ∧
             ([5] = [5] → NumOfElements_ example_sets = 10 →
              g' = [5; 45; 46; 47; 48; 49; 50; 51])).
Proof.
  split; [exact example_sets_edges_ok|]. split; [reflexivity|].
  destruct (element_groups_refined example_sets O [5]
              example_sets_edges_ok eq_refl) as [HQ HH].
  split; [exact HQ|]. split; [exact example_sets_faces_ok|].
  exact (HH example_sets_faces_ok).
Defined.

Lemma edge_groups_refined_witness :
  edges_ok example_sets ∧ sets_ example_sets EDGE !! O = Some [0] ∧
  (∃ es' g', QuadUniformRefinement example_sets = Ok es' ∧
             sets_ es' EDGE !! O = Some g' ∧ bisected example_sets [0] g') ∧
  faces_ok example_sets ∧
  (∃ es' g', HexUniformRefinement example_sets = Ok es' ∧
             sets_ es' EDGE !! O = Some g' ∧ bisected example_sets [0] g').
Proof.
  split; [exact example_sets_edges_ok|]. split; [reflexivity|].
  destruct (edge_groups_refined example_sets O [0]
              example_sets_edges_ok eq_refl) as [HQ HH].
  split; [exact HQ|]. split; [exact example_sets_faces_ok|].
  exact (HH example_sets_faces_ok).
Defined.

(** A stream in another format, and a stream of dimension 1 that carries an
    edge_sets section all the same. *)
Definition mesh_text : text_stream :=
  text_of_lines ["MFEM mesh v1.0"; ""; "dimension"; "2"]%string.

Definition line_text : text_stream :=
  text_of_lines
    ["MFEM sets v1.0"; ""; "dimension"; "1"; "";
     "vertex_sets"; "1"; ""; "left"; "1"; "0"; "";
     "edge_sets"; "0"; "";
     "element_sets"; "0"; ""]%string.



Lemma Load_sections_witness :
  stream_ok line_text = true ∧
  read_head line_text
  = ("MFEM sets v1.0"%string, "dimension"%string, 1, (read_head line_text).2) ∧
  Load 0 line_text (EntitySets_new example_mesh)
  = ('(input', es') ← load_sections 0 (sections 1)
                        ((read_head line_text).2, EntitySets_new example_mesh);
     Ok (input', CopyMeshTables es')) ∧
  (∀ t, t ∈ (sections 1).*1 ↔
        t = VERTEX ∨ t = ELEMENT ∨ (t = EDGE ∧ 1 > 1) ∨ (t = FACE ∧ 1 > 2)) ∧
  (1 ≤ 1 →
   ∀ input1 es1,
     LoadEntitySets 0 (read_head line_text).2 (EntitySets_new example_mesh)
       VERTEX "vertex_sets" = Ok (input1, es1) →
     next_keyword input1 = "edge_sets"%string →
     Load 0 line_text (EntitySets_new example_mesh) = Abort) ∧
  (∀ input' es',
     Load 0 line_text (EntitySets_new example_mesh) = Ok (input', es') →
     (1 ≤ 1 → sets_ es' EDGE = sets_ (EntitySets_new example_mesh) EDGE) ∧
     (1 ≤ 2 → sets_ es' FACE = sets_ (EntitySets_new example_mesh) FACE)).
Proof.
  assert (read_head line_text
          = ("MFEM sets v1.0"%string, "dimension"%string, 1,
             (read_head line_text).2)) as Hhead by (vm_compute; reflexivity).
  split; [reflexivity|]. split; [exact Hhead|].
  exact (Load_sections 0 line_text (read_head line_text).2
           (EntitySets_new example_mesh) 1 eq_refl Hhead).
Defined.

(** The stream of dimension 1 with an edge_sets section is refused. *)
Example Load_line_text :
  Load 0 line_text (EntitySets_new example_mesh) = Abort.
Proof. vm_compute. reflexivity. Qed.

(** * Further properties of the tables *)

(** ** The fixed-degree constructor, [Push] and the lookup *)

Lemma fresh_table_row dim cpr i :
  0 ≤ dim → 0 ≤ cpr → 0 ≤ i < dim →
  row (fresh_table dim cpr) i = replicate (Z.to_nat cpr) (-1).
Proof.
  intros Hdim Hcpr Hi. unfold row.
  rewrite (fresh_table_row_start dim cpr i),
    (fresh_table_row_start dim cpr (i + 1)) by lia.
  simpl. unfold slice. rewrite drop_replicate, take_replicate.
  f_equal. nia.
Qed.

Lemma width_of_unset n : width_of (replicate n (-1)) = 0.
Proof.
  unfold width_of. assert (foldl Z.max (-1) (replicate n (-1)) = -1) as ->; [|done].
  induction n as [|n IH]; [done|]. simpl. exact IH.
Qed.

(** The lookup in terms of the slots of the row. *)
Lemma Table_call_row T i j :
  csr T → 0 ≤ i < Size T →
  ∃ lo, GetI T !! Z.to_nat i = Some lo ∧
        Table_call T i j = Ok (scan_slots (row T i) j lo).
Proof.
  intros Hcsr Hi.
  destruct (csr_row T Hcsr i Hi) as (lo & hi & Hlo & Hhi & ? & ? & ? & Hrow).
  exists lo. split; [done|]. unfold Table_call.
  rewrite decide_False by lia.
  rewrite (rd_lookup (GetI T) (i + 1) hi), (rd_lookup (GetI T) i lo)
    by (done || lia).
  simpl. rewrite find_scan_slots by lia. by rewrite Hrow.
Qed.

(** The constructor [Table(dim, connections_per_row)] returns, whatever the
    fresh memory holds, the table with [dim] rows of [connections_per_row]
    unset slots each: no column is found in it and its width is 0. *)
Theorem Table_new_unset (junk : nat → Z) (dim cpr : Z) :
  0 ≤ dim → 0 ≤ cpr →
  ∃ T, Table_new junk dim cpr = Ok T ∧
       (∀ junk', Table_new junk' dim cpr = Ok T) ∧
       Size T = dim ∧ csr T ∧
       (∀ i, 0 ≤ i < dim → row T i = replicate (Z.to_nat cpr) (-1)) ∧
       (∀ i j, j ≠ -1 → Table_call T i j = Ok (-1)) ∧
       Width T = Ok 0.
Proof.
  intros Hdim Hcpr. exists (fresh_table dim cpr).
  pose proof (fresh_table_StaticTable dim cpr Hdim Hcpr) as [Hcsr _].
  split; [by apply Table_new_eq|]. split; [intros; by apply Table_new_eq|].
  split; [done|]. split; [done|]. split; [|split].
  - intros i Hi. by apply fresh_table_row.
  - intros i j Hj.
    destruct (decide (0 ≤ i < dim)) as [Hi|Hi].
    + destruct (Table_call_row (fresh_table dim cpr) i j Hcsr Hi) as (lo & _ & ->).
      rewrite fresh_table_row by done. f_equal. apply scan_slots_absent.
      intros [? _]%elem_of_replicate. done.
    + unfold Table_call. simpl. rewrite decide_True by lia. done.
  - rewrite Width_eq by done. simpl. by rewrite width_of_unset.
Qed.

(** Where the scan of [Push] stops, the lookup stops afterwards. *)
Lemma scan_slots_after_find xs j lo (m : nat) v :
  list_find (λ v, v = j ∨ v = -1) xs = Some (m, v) →
  scan_slots (if decide (v = j) then xs else <[m := j]> xs) j lo
  = lo + Z.of_nat m.
Proof.
  revert lo m. induction xs as [|x xs IH]; intros lo m Hf; [done|].
  simpl in Hf. case_decide as Hx.
  - simplify_eq. destruct (decide (v = j)) as [->|Hvj]; simpl.
    + rewrite decide_True by done. lia.
    + rewrite decide_True by done. lia.
  - destruct (list_find _ xs) as [[m' v']|] eqn:E; simpl in Hf; [|done].
    simplify_eq. specialize (IH (lo + 1) m' eq_refl).
    assert (x ≠ j ∧ x ≠ -1) as [? ?] by tauto.
    destruct (decide (v = j)); simpl; rewrite !decide_False by done;
      rewrite IH; lia.
Qed.

(** [Push] in terms of the slots of the row. *)
Lemma Push_row dbg T i j k T' :
  csr T → Push dbg T i j = Ok (k, T') →
  0 ≤ i < Size T ∧
  ∃ lo hi (m : nat) v,
    GetI T !! Z.to_nat i = Some lo ∧ GetI T !! Z.to_nat (i + 1) = Some hi ∧
    0 ≤ lo ∧ lo ≤ hi ∧ hi ≤ Z.of_nat (length (GetJ T)) ∧
    list_find (λ v, v = j ∨ v = -1) (row T i) = Some (m, v) ∧
    k = lo + Z.of_nat m ∧ lo + Z.of_nat m < hi ∧
    T' = mkTable (Size T) (GetI T)
           (if decide (v = j) then GetJ T else <[Z.to_nat k := j]> (GetJ T)) ∧
    row T' i = (if decide (v = j) then row T i else <[m := j]> (row T i)).
Proof.
  intros Hcsr HP. pose proof (Push_valid_row _ _ _ _ _ _ Hcsr HP) as Hi.
  split; [done|].
  destruct (csr_row T Hcsr i Hi) as (lo & hi & Hlo & Hhi & ? & ? & ? & Hrow).
  assert (Push dbg T i j =
          '(k, J_) ← push_scan (GetJ T) j lo (Z.to_nat (hi - lo));
          Ok (k, mkTable (Size T) (GetI T) J_)) as HPeq.
  { unfold Push. rewrite (rd_lookup (GetI T) i lo), (rd_lookup (GetI T) (i + 1) hi)
      by (done || lia).
    destruct dbg; [rewrite decide_False by lia|]; done. }
  rewrite HPeq, push_scan_find in HP by lia.
  fold (slice (GetJ T) lo hi) in HP. rewrite <- Hrow in HP.
  destruct (list_find _ (row T i)) as [[m v]|] eqn:Hfind; [|done].
  pose proof Hfind as (Hm & _)%list_find_Some.
  pose proof (lookup_lt_Some _ _ _ Hm) as Hlt.
  rewrite Hrow, length_slice in Hlt by lia.
  exists lo, hi, m, v. repeat (split; [done || lia|]).
  destruct (decide (v = j)) as [->|Hvj]; simpl in HP; simplify_eq.
  - split; [done|]. split; [lia|]. split; [by destruct T|]. done.
  - split; [done|]. split; [lia|]. split; [done|].
    unfold row at 1. simpl. rewrite Hlo, Hhi.
    rewrite slice_insert_in by lia. rewrite <- Hrow. f_equal. lia.
Qed.

(** A successful [Push(i,j)] on a table in CSR shape is seen by the lookup:
    [operator()(i,j)] on the table that [Push] leaves returns the slot index
    that [Push] returned. *)
Theorem Push_then_lookup (dbg : bool) (T : Table) (i j k : Z) (T' : Table) :
  csr T → Push dbg T i j = Ok (k, T') →
  csr T' ∧ Table_call T' i j = Ok k.
Proof.
  intros Hcsr HP.
  destruct (Push_row dbg T i j k T' Hcsr HP)
    as (Hi & lo & hi & m & v & Hlo & Hhi & ? & ? & ? & Hfind & -> & ? & HT' & Hrow').
  assert (csr T') as Hcsr'.
  { subst T'. case_decide; [by destruct T | by apply csr_insert]. }
  split; [done|].
  assert (Size T' = Size T) as HSz by (by subst T').
  assert (GetI T' = GetI T) as HI by (by subst T').
  destruct (Table_call_row T' i j Hcsr') as (lo' & Hlo' & ->); [by rewrite HSz|].
  rewrite HI in Hlo'. simplify_eq. rewrite Hrow'. f_equal.
  by apply scan_slots_after_find.
Qed.

(** The first unset slot of a row whose unset slots trail. *)
Lemma find_first_unset ys n j (m : nat) :
  (∀ v, v ∈ ys → v ≠ -1) → j ∉ ys → j ≠ -1 →
  list_find (λ v, v = j ∨ v = -1) (ys ++ replicate n (-1)) = Some (m, -1) →
  m = length ys ∧ (0 < n)%nat.
Proof.
  intros Hys Hj Hj1 (Hm & _ & Hbefore)%list_find_Some.
  destruct (lt_eq_lt_dec m (length ys)) as [[Hlt|Heq]|Hgt].
  - rewrite lookup_app_l in Hm by done.
    apply list_elem_of_lookup_2 in Hm. by apply Hys in Hm.
  - split; [done|]. subst m. rewrite lookup_app_r, Nat.sub_diag in Hm by lia.
    destruct n; [done | lia].
  - exfalso. apply lookup_lt_Some in Hm as Hlen.
    rewrite length_app, length_replicate in Hlen.
    apply (Hbefore (length ys) (-1)); [|done|by right].
    rewrite lookup_app_r, Nat.sub_diag by lia. apply lookup_replicate_2. lia.
Qed.

Lemma scan_slots_other ys n j j' lo :
  (∀ v, v ∈ ys → v ≠ -1) → j' ≠ j → j' ≠ -1 →
  scan_slots (ys ++ j :: replicate n (-1)) j' lo
  = scan_slots (ys ++ replicate (S n) (-1)) j' lo.
Proof.
  intros Hys Hne Hj1. revert lo.
  induction ys as [|y ys IH]; intros lo; simpl.
  - repeat case_decide; try congruence.
    apply scan_slots_absent. intros [? _]%elem_of_replicate. congruence.
  - assert (y ≠ -1) by (apply Hys; left).
    repeat case_decide; try done. apply IH. intros v Hv. apply Hys. by right.
Qed.

(** A successful [Push(i,j)] on a table that satisfies the representation
    invariant keeps the row starts and the invariant, adds the entry [(i,j)]
    and no other, loses none, and leaves the result of every other lookup of
    a column as it was. *)
Theorem Push_frame (dbg : bool) (T : Table) (i j k : Z) (T' : Table) :
  StaticTable T → Push dbg T i j = Ok (k, T') →
  Size T' = Size T ∧ GetI T' = GetI T ∧ StaticTable T' ∧
  (∀ i' j', j' ≠ -1 →
     (entry T' i' j' ↔ entry T i' j' ∨ (i' = i ∧ j' = j))) ∧
  (∀ i' j', j' ≠ -1 → (i', j') ≠ (i, j) →
     Table_call T' i' j' = Table_call T i' j').
Proof.
  intros HS HP. pose proof HS as [Hcsr Hpk].
  pose proof (Push_StaticTable _ _ _ _ _ _ HS HP) as HS'.
  destruct (Push_row dbg T i j k T' Hcsr HP)
    as (Hi & lo & hi & m & v & Hlo & Hhi & ? & ? & ? & Hfind & -> & ? & HT' & Hrow').
  assert (Size T' = Size T) as HSz by (by subst T').
  assert (GetI T' = GetI T) as HI by (by subst T').
  split; [done|]. split; [done|]. split; [done|].
  assert (∀ i', 0 ≤ i' < Size T → i' ≠ i → row T' i' = row T i') as Hother.
  { intros i' Hi' Hne. subst T'. case_decide; [done|].
    apply (row_insert_other T i i'); try done.
    exists lo, hi. repeat split; try done; lia. }
  destruct (decide (v = j)) as [->|Hvj].
  { assert (T' = T) as -> by (subst T'; by destruct T).
    split; [|done]. intros i' j' _. split; [by left|].
    intros [?|[-> ->]]; [done|]. split; [done|].
    apply list_find_Some in Hfind as (Hm & _). by eapply list_elem_of_lookup_2. }
  pose proof Hfind as (_ & [?| ->] & _)%list_find_Some; [done|].
  destruct (Hpk i Hi) as (ys & n & Hr & Hys).
  assert (j ∉ ys) as Hjys.
  { intros [q Hq]%list_elem_of_lookup.
    apply list_find_Some in Hfind as (Hm & _ & Hbefore).
    destruct (decide (q < m)%nat) as [Hlt|Hge].
    - apply (Hbefore q j); [|done|by left].
      rewrite Hr, lookup_app_l; [done|]. by eapply lookup_lt_Some.
    - assert (m < length ys)%nat as Hlt.
      { apply lookup_lt_Some in Hq. lia. }
      rewrite Hr, lookup_app_l in Hm by done.
      apply list_elem_of_lookup_2 in Hm. by apply Hys in Hm. }
  rewrite Hr in Hfind.
  destruct (find_first_unset ys n j m Hys Hjys ltac:(done) Hfind) as [-> Hn].
  destruct n as [|n]; [lia|].
  assert (row T' i = ys ++ j :: replicate n (-1)) as Hri.
  { rewrite Hrow', Hr.
    replace (length ys) with (length ys + 0)%nat at 1 by lia.
    by rewrite insert_app_r. }
  split.
  - intros i' j' Hj'. unfold entry. rewrite HSz.
    destruct (decide (i' = i)) as [->|Hne].
    + rewrite Hri, Hr. rewrite !elem_of_app, elem_of_cons, !elem_of_replicate.
      split.
      * intros [? [?|[?|[? _]]]]; [left; split; [done | by left]
                                  | right; done | done].
      * intros [[? [?|[? _]]]|[_ ->]]; [split; [done | by left] | done
                                       | split; [done | right; by left]].
    + split.
      * intros [? Hin]. left. split; [done|]. by rewrite <- Hother.
      * intros [[? Hin]|[? _]]; [|done]. split; [done|]. by rewrite Hother.
  - intros i' j' Hj' Hne.
    destruct (decide (0 ≤ i' < Size T)) as [Hi'|Hi'].
    2: { unfold Table_call. rewrite HSz. by rewrite !decide_True by lia. }
    destruct (Table_call_row T' i' j' (proj1 HS')) as (lo1 & Hlo1 & ->);
      [by rewrite HSz|].
    destruct (Table_call_row T i' j' Hcsr Hi') as (lo2 & Hlo2 & ->).
    rewrite HI in Hlo1. simplify_eq. f_equal.
    destruct (decide (i' = i)) as [->|Hne'].
    + rewrite Hri, Hr. apply scan_slots_other; try done. congruence.
    + by rewrite Hother.
Qed.

(** ** [Finalize] and [Width] *)

Lemma foldl_max_set_slots (l : list Z) w :
  -1 ≤ w → foldl Z.max w (set_slots l) = foldl Z.max w l.
Proof.
  revert w. induction l as [|v l IH]; intros w Hw; [done|].
  unfold set_slots in *. destruct (decide (v = -1)) as [->|Hv].
  - rewrite filter_cons_False by (simpl; tauto). simpl.
    rewrite IH by done. f_equal. lia.
  - rewrite filter_cons_True by done. simpl. apply IH. lia.
Qed.

(** On a table that satisfies the representation invariant, the table that
    [Finalize] returns depends neither on the content of fresh memory nor on
    the build; a second [Finalize] returns it unchanged; and [Finalize]
    does not change the width. *)
Theorem Finalize_idempotent (junk : nat → Z) (dbg : bool) (T : Table) :
  StaticTable T →
  ∃ T', Finalize junk dbg T = Ok T' ∧ StaticTable T' ∧
        (∀ junk' dbg', Finalize junk' dbg' T = Ok T' ∧
                       Finalize junk' dbg' T' = Ok T') ∧
        Width T' = Width T.
Proof.
  intros HS. pose proof HS as [Hcsr _].
  set (T' := if decide (-1 ∈ GetJ T) then compacted T else T).
  assert (csr T') as Hcsr'.
  { unfold T'. case_decide; [by apply compacted_csr | done]. }
  assert (-1 ∉ GetJ T') as Hfree.
  { unfold T'. case_decide; [|done]. simpl. unfold set_slots.
    by intros [? _]%list_elem_of_filter. }
  pose proof (unset_free_StaticTable T' Hcsr' Hfree) as HS'.
  exists T'. split; [by apply Finalize_eq|]. split; [done|]. split.
  - intros junk' dbg'. split; [by apply Finalize_eq|].
    rewrite Finalize_eq by done. by rewrite decide_False.
  - rewrite !Width_eq by done. f_equal. unfold T'. case_decide; [|done].
    simpl. unfold width_of. by rewrite foldl_max_set_slots.
Qed.

Lemma foldl_max_elem (l : list Z) w :
  foldl Z.max w l = w ∨ foldl Z.max w l ∈ l.
Proof.
  revert w. induction l as [|v l IH]; intros w; [by left|].
  simpl. destruct (IH (Z.max w v)) as [Heq|Hin].
  - rewrite Heq. destruct (Z.max_spec w v) as [[_ ->]|[_ ->]];
      [right; left | by left].
  - right. by right.
Qed.

(** On a table in CSR shape [Width] returns one more than the largest
    column that a slot holds, and 0 when no slot holds a column (the table is
    empty or all its slots are unset). *)
Theorem Width_least_bound (T : Table) :
  csr T →
  ∃ w, Width T = Ok w ∧ 0 ≤ w ∧
       (∀ v, v ∈ GetJ T → v < w) ∧
       (0 < w → w - 1 ∈ GetJ T) ∧
       (w = 0 ↔ ∀ v, v ∈ GetJ T → v < 0).
Proof.
  intros Hcsr. exists (width_of (GetJ T)).
  split; [by apply Width_eq|]. split; [apply width_of_nonneg|].
  split; [intros v; apply width_of_bound|]. split.
  - intros Hw. unfold width_of in *.
    destruct (foldl_max_elem (GetJ T) (-1)) as [Heq|Hin]; [lia|].
    by replace (foldl Z.max (-1) (GetJ T) + 1 - 1)
      with (foldl Z.max (-1) (GetJ T)) by lia.
  - split.
    + intros Hw v Hv. pose proof (width_of_bound _ _ Hv). lia.
    + intros Hall. pose proof (width_of_nonneg (GetJ T)).
      pose proof (width_of_least (GetJ T) 0 ltac:(lia) Hall). lia.
Qed.

(** ** [SetDims] and [SetSize] *)

(** [void Table::SetSize(int dim, int connections_per_row)]. *)
Definition SetSize (junk : nat → Z) (T : Table) (dim connections_per_row : Z)
  : result Table :=
  T ← SetDims junk T dim (dim * connections_per_row);
  if decide (Size T > 0) then
    I_ ← wr (GetI T) 0 0;
    '(I_, J_, j) ← for_range 0 (Size T) (λ i '(I_, J_, j),
        v ← rd I_ i;
        let end_ := v + connections_per_row in
        I_ ← wr I_ (i + 1) end_;
        J_ ← for_range j end_ (λ j J_, wr J_ j (-1)) J_;
        Ok (I_, J_, Z.max j end_)) (I_, GetJ T, 0);
    Ok (mkTable (Size T) I_ J_)
  else Ok T.

(** [SetDims(rows, nnz)] on a table object in one of the states that
    [reusable] describes leaves an object with [rows] rows whose arrays have
    [rows + 1] and [nnz] cells, with [I[rows] = nnz] and, for [rows > 0],
    [I[0] = 0].  An array is kept, with its content, when its size does not
    change; on a table in CSR shape a call with the dimensions that the
    table has changes nothing. *)
Theorem SetDims_dimensions (junk : nat → Z) (T : Table) (rows nnz : Z) :
  reusable T → 0 ≤ rows → 0 ≤ nnz →
  ∃ T', SetDims junk T rows nnz = Ok T' ∧ reusable T' ∧ Size T' = rows ∧
        Z.of_nat (length (GetI T')) = rows + 1 ∧
        Z.of_nat (length (GetJ T')) = nnz ∧
        GetI T' !! Z.to_nat rows = Some nnz ∧
        (0 < rows → GetI T' !! O = Some 0) ∧
        (Z.of_nat (length (GetJ T)) = nnz → GetJ T' = GetJ T) ∧
        (Size T = rows →
         ∀ p, 0 < p < rows → GetI T' !! Z.to_nat p = GetI T !! Z.to_nat p) ∧
        (csr T → rows = Size T → nnz = Z.of_nat (length (GetJ T)) → T' = T).
Proof.
  intros Hre Hrows Hnnz. unfold SetDims.
  assert (∃ j, (match GetI T with [] => Ok 0 | _ => rd (GetI T) (Size T) end)
               = Ok j ∧ Z.of_nat (length (GetJ T)) = j) as (j & -> & Hj).
  { destruct Hre as [(? & -> & ->)|(HSz & Hl & Hend)]; [by exists 0|].
    exists (Z.of_nat (length (GetJ T))). split; [|done].
    rewrite (rd_lookup (GetI T) (Size T) _ HSz Hend).
    destruct (GetI T); [simpl in Hl; lia | done]. }
  simpl.
  assert (∃ Ia, (if decide (Size T ≠ rows) then
                   I_ ← (if decide (rows >= 0) then new_int junk (rows + 1)
                         else Ok []);
                   Ok (rows, I_)
                 else Ok (Size T, GetI T)) = Ok (rows, Ia) ∧
                Z.of_nat (length Ia) = rows + 1 ∧
                (Size T = rows → Ia = GetI T)) as (Ia & -> & HIa & HIkeep).
  { case_decide as Hsz.
    - rewrite decide_True by lia.
      destruct (new_int_Ok junk (rows + 1)) as (Ia & -> & ?); [lia|].
      exists Ia. split; [done|]. split; [done|]. intros ?. done.
    - exists (GetI T). assert (Size T = rows) as <- by lia.
      split; [done|]. split; [|done].
      destruct Hre as [(? & _)|(? & Hl & _)]; [lia | done]. }
  simpl.
  assert (∃ Ja, (if decide (j ≠ nnz) then
                   (if decide (nnz > 0) then new_int junk nnz else Ok [])
                 else Ok (GetJ T)) = Ok Ja ∧
                Z.of_nat (length Ja) = nnz ∧
                (j = nnz → Ja = GetJ T)) as (Ja & -> & HJa & HJkeep).
  { case_decide as Hjn.
    - case_decide.
      + destruct (new_int_Ok junk nnz) as (Ja & -> & ?); [lia|].
        exists Ja. split; [done|]. split; [done|]. intros ?. done.
      + exists []. split; [done|]. split; [simpl; lia|]. intros ?. done.
    - exists (GetJ T). split; [done|]. split; [lia|]. done. }
  simpl. rewrite decide_True by lia.
  rewrite wr_Ok by lia. simpl. rewrite wr_Ok by (rewrite length_insert; lia).
  eexists. split; [done|]. simpl. rewrite !length_insert.
  assert (<[Z.to_nat rows := nnz]> (<[Z.to_nat 0 := 0]> Ia) !! Z.to_nat rows
          = Some nnz) as Hend.
  { apply list_lookup_insert_eq. rewrite length_insert. lia. }
  split; [right; simpl; rewrite !length_insert, HJa; done|].
  split; [done|]. split; [done|]. split; [done|]. split; [done|].
  split; [|split; [|split]].
  - intros Hpos. rewrite list_lookup_insert_ne by lia.
    apply list_lookup_insert_eq. lia.
  - intros Hsame. apply HJkeep. lia.
  - intros Hsame p Hp. rewrite !list_lookup_insert_ne by lia.
    by rewrite HIkeep.
  - intros (HSz & Hlen & H0 & _ & Hlast) -> ->.
    rewrite HIkeep, HJkeep by (done || lia). change (Z.to_nat 0) with O.
    rewrite (list_insert_id _ _ _ H0).
    rewrite (list_insert_id _ _ _ Hlast). by destruct T.
Qed.

(** [SetSize(dim, connections_per_row)] puts a table object, whatever it
    held, into the state in which the constructor
    [Table(dim, connections_per_row)] creates one. *)
Theorem SetSize_as_constructor (junk junk' : nat → Z) (T : Table) (dim cpr : Z) :
  reusable T → 0 ≤ dim → 0 ≤ cpr →
  SetSize junk T dim cpr = Table_new junk' dim cpr.
Proof.
  intros Hre Hdim Hcpr. rewrite Table_new_eq by done. unfold SetSize.
  destruct (SetDims_shape junk T dim (dim * cpr) Hre Hdim ltac:(nia))
    as (I0 & J0 & -> & HlI0 & HlJ0 & Hend0).
  simpl. case_decide as Hpos.
  2: { assert (dim = 0) as -> by lia. unfold fresh_table. simpl in *.
       f_equal. f_equal.
       - destruct I0 as [|x [|]]; simpl in *; try lia. by simplify_eq.
       - destruct J0; simpl in *; [done | lia]. }
  rewrite wr_Ok by lia. simpl.
  set (P := λ (i : Z) (s : list Z * list Z * Z),
    Z.of_nat (length s.1.1) = dim + 1 ∧ Z.of_nat (length s.1.2) = dim * cpr ∧
    s.2 = i * cpr ∧
    (∀ r, 0 ≤ r ≤ i → s.1.1 !! Z.to_nat r = Some (r * cpr)) ∧
    (∀ p, 0 ≤ p < i * cpr → s.1.2 !! Z.to_nat p = Some (-1))).
  match goal with |- context [for_range 0 dim ?b ?s] =>
    destruct (for_range_inv P 0 dim b s) as ([[I1 J1] j1] & -> & HP) end.
  - done.
  - unfold P. simpl. rewrite length_insert. repeat split; try done.
    + intros r Hr. assert (r = 0) as -> by lia.
      rewrite list_lookup_insert_eq by lia. done.
    + intros p Hp. lia.
  - intros i [[Ia Ja] ja] Hi (HlI & HlJ & Hj & HI & HJ). simpl in *. subst ja.
    rewrite (rd_lookup Ia i (i * cpr)) by (apply HI || lia; lia).
    simpl. rewrite wr_Ok by lia. simpl.
    set (Q := λ (j : Z) (a : list Z),
      Z.of_nat (length a) = dim * cpr ∧
      ∀ p, 0 ≤ p < j → a !! Z.to_nat p = Some (-1)).
    match goal with |- context [for_range ?lo ?hi ?b ?s] =>
      destruct (for_range_inv Q lo hi b s) as (J2 & -> & HQ) end.
    + lia.
    + split; [done|]. intros p Hp. apply HJ. lia.
    + intros j a Hj [Hla Ha]. rewrite wr_Ok by nia.
      eexists. split; [done|]. split; [by rewrite length_insert|].
      intros p Hp. destruct (decide (p = j)) as [->|].
      * rewrite list_lookup_insert_eq; [done | nia].
      * rewrite list_lookup_insert_ne by lia. apply Ha. lia.
    + simpl. eexists. split; [done|]. destruct HQ as [HlJ2 HJ2].
      unfold P. simpl. rewrite length_insert.
      split; [done|]. split; [done|]. split; [lia|]. split.
      * intros r Hr. destruct (decide (r = i + 1)) as [->|].
        -- rewrite list_lookup_insert_eq by lia. f_equal. lia.
        -- rewrite list_lookup_insert_ne by lia. apply HI. lia.
      * intros p Hp. apply HJ2. lia.
  - simpl. destruct HP as (HlI & HlJ & _ & HI & HJ). simpl in *.
    unfold fresh_table. do 2 f_equal.
    + apply list_eq_Z.
      * rewrite length_fmap, length_seq. lia.
      * intros p Hp. rewrite HI by lia.
        rewrite list_lookup_fmap, lookup_seq_lt by lia. simpl.
        f_equal. lia.
    + apply list_eq_Z.
      * rewrite length_replicate. lia.
      * intros p Hp. rewrite HJ by lia.
        symmetry. apply lookup_replicate_2. lia.
Qed.

(** ** The partition constructor *)

(** [Table::Table (int nrows, int *partitioning)]. *)
Definition Table_new_partitioning (junk : nat → Z) (nrows : Z)
    (partitioning : list Z) : result Table :=
  I_ ← new_int junk (nrows + 1);
  J_ ← new_int junk nrows;
  '(I_, J_) ← for_range 0 nrows (λ i '(I_, J_),
      I_ ← wr I_ i i;
      p ← rd partitioning i;
      J_ ← wr J_ i p;
      Ok (I_, J_)) (I_, J_);
  I_ ← wr I_ nrows nrows;
  Ok (mkTable nrows I_ J_).

(** The table that the partition constructor builds. *)
Definition partition_table (nrows : Z) (partitioning : list Z) : Table :=
  mkTable nrows (seqZ 0 (nrows + 1)) (take (Z.to_nat nrows) partitioning).

Lemma Table_new_partitioning_eq junk nrows partitioning :
  0 ≤ nrows → nrows ≤ Z.of_nat (length partitioning) →
  Table_new_partitioning junk nrows partitioning
  = Ok (partition_table nrows partitioning).
Proof.
  intros Hn Hlen. unfold Table_new_partitioning.
  destruct (new_int_Ok junk (nrows + 1)) as (I0 & -> & HI0); [lia|].
  destruct (new_int_Ok junk nrows) as (J0 & -> & HJ0); [lia|].
  simpl.
  set (P := λ (i : Z) (s : list Z * list Z),
    Z.of_nat (length s.1) = nrows + 1 ∧ Z.of_nat (length s.2) = nrows ∧
    (∀ r, 0 ≤ r < i → s.1 !! Z.to_nat r = Some r) ∧
    (∀ r, 0 ≤ r < i → s.2 !! Z.to_nat r = partitioning !! Z.to_nat r)).
  match goal with |- context [for_range 0 nrows ?b ?s] =>
    destruct (for_range_inv P 0 nrows b s) as ([I1 J1] & -> & HP) end.
  - done.
  - unfold P. simpl. repeat split; try done; intros; lia.
  - intros i [Ia Ja] Hi (HlI & HlJ & HI & HJ). simpl in *.
    rewrite wr_Ok by lia. simpl.
    destruct (rd_in_range partitioning i) as (p & -> & Hp); [lia|].
    simpl. rewrite wr_Ok by lia. simpl. eexists. split; [done|].
    unfold P. simpl. rewrite !length_insert. repeat split; try done.
    + intros r Hr. destruct (decide (r = i)) as [->|].
      * by rewrite list_lookup_insert_eq by lia.
      * rewrite list_lookup_insert_ne by lia. apply HI. lia.
    + intros r Hr. destruct (decide (r = i)) as [->|].
      * by rewrite list_lookup_insert_eq by lia.
      * rewrite list_lookup_insert_ne by lia. apply HJ. lia.
  - destruct HP as (HlI & HlJ & HI & HJ). simpl in *.
    rewrite wr_Ok by lia. simpl. unfold partition_table. do 2 f_equal.
    + apply list_eq_Z.
      * rewrite length_insert, length_seqZ. lia.
      * intros p Hp. rewrite length_insert in Hp.
        rewrite lookup_seqZ_lt by lia.
        destruct (decide (p = nrows)) as [->|].
        -- rewrite list_lookup_insert_eq by lia. f_equal. lia.
        -- rewrite list_lookup_insert_ne by lia. rewrite HI by lia.
           f_equal. lia.
    + apply list_eq_Z.
      * rewrite length_take. lia.
      * intros p Hp. rewrite HJ by lia. by rewrite lookup_take_lt by lia.
Qed.

Lemma partition_table_start nrows partitioning r :
  0 ≤ r ≤ nrows → GetI (partition_table nrows partitioning) !! Z.to_nat r = Some r.
Proof. intros Hr. simpl. rewrite lookup_seqZ_lt by lia. f_equal. lia. Qed.

Lemma partition_table_csr nrows partitioning :
  0 ≤ nrows → nrows ≤ Z.of_nat (length partitioning) →
  csr (partition_table nrows partitioning).
Proof.
  intros Hn Hlen. set (T := partition_table nrows partitioning).
  split; [done|]. split; [simpl; rewrite length_seqZ; lia|].
  split; [apply (partition_table_start nrows partitioning 0); lia|]. split.
  - intros i a b Hi Ha Hb. change (Size T) with nrows in Hi. unfold T in *.
    rewrite (partition_table_start _ _ i) in Ha by lia.
    rewrite (partition_table_start _ _ (i + 1)) in Hb by lia.
    simplify_eq. lia.
  - change (Size T) with nrows. unfold T.
    rewrite (partition_table_start _ _ nrows) by lia. simpl.
    rewrite length_take. f_equal. lia.
Qed.

Lemma partition_table_row nrows partitioning i c :
  0 ≤ i < nrows → partitioning !! Z.to_nat i = Some c →
  row (partition_table nrows partitioning) i = [c].
Proof.
  intros Hi Hc. unfold row.
  rewrite (partition_table_start _ _ i), (partition_table_start _ _ (i + 1))
    by lia.
  rewrite (slice_cons _ i (i + 1) c); [|lia|lia|].
  - by rewrite slice_nil by lia.
  - simpl. by rewrite lookup_take_lt by lia.
Qed.

(** The constructor [Table(nrows, partitioning)], given an array of at
    least [nrows] cells, returns the table in CSR shape whose row [i] holds
    the single column [partitioning[i]], whatever the fresh memory holds. *)
Theorem Table_new_partitioning_rows (junk : nat → Z) (nrows : Z)
    (partitioning : list Z) :
  0 ≤ nrows → nrows ≤ Z.of_nat (length partitioning) →
  ∃ T, Table_new_partitioning junk nrows partitioning = Ok T ∧
       Size T = nrows ∧ csr T ∧
       (∀ i, 0 ≤ i < nrows →
             ∃ c, partitioning !! Z.to_nat i = Some c ∧ row T i = [c]) ∧
       (∀ i j, entry T i j ↔
               0 ≤ i < nrows ∧ partitioning !! Z.to_nat i = Some j).
Proof.
  intros Hn Hlen. rewrite Table_new_partitioning_eq by done.
  set (T := partition_table nrows partitioning).
  assert (∀ i, 0 ≤ i < nrows →
            ∃ c, partitioning !! Z.to_nat i = Some c ∧ row T i = [c]) as Hrow.
  { intros i Hi.
    destruct (lookup_lt_is_Some_2 partitioning (Z.to_nat i)) as [c Hc]; [lia|].
    exists c. split; [done|]. by apply partition_table_row. }
  exists T. split; [done|]. split; [done|].
  split; [by apply partition_table_csr|]. split; [done|].
  intros i j. unfold entry. change (Size T) with nrows. split.
  - intros [Hi Hj]. split; [done|]. destruct (Hrow i Hi) as (c & Hc & Hr).
    rewrite Hr in Hj. apply list_elem_of_singleton in Hj. by subst.
  - intros [Hi Hj]. split; [done|]. destruct (Hrow i Hi) as (c & Hc & Hr).
    rewrite Hr. simplify_eq. by left.
Qed.

(** ** Tables in CSR shape are determined by their rows *)

Lemma csr_ext (T T' : Table) :
  csr T → csr T' → Size T = Size T' →
  (∀ i, 0 ≤ i < Size T → row T i = row T' i) → T = T'.
Proof.
  intros Hcsr Hcsr' HSz Hrows.
  pose proof Hcsr as (Hn & HlI & HI0 & _ & Hend).
  pose proof Hcsr' as (Hn' & HlI' & HI0' & _ & Hend').
  assert (∀ n : nat, Z.of_nat n ≤ Size T → GetI T !! n = GetI T' !! n) as HI.
  { induction n as [|n IH]; intros Hle; [by rewrite HI0, HI0'|].
    specialize (IH ltac:(lia)).
    destruct (length_row T (Z.of_nat n) Hcsr ltac:(lia))
      as (lo & hi & Hlo & Hhi & Hl).
    destruct (length_row T' (Z.of_nat n) Hcsr' ltac:(lia))
      as (lo' & hi' & Hlo' & Hhi' & Hl').
    rewrite Nat2Z.id in Hlo, Hlo'.
    replace (Z.to_nat (Z.of_nat n + 1)) with (S n) in Hhi, Hhi' by lia.
    rewrite Hrows in Hl by lia. rewrite Hhi, Hhi'. f_equal.
    rewrite IH in Hlo. simplify_eq. lia. }
  assert (GetI T = GetI T') as HIeq.
  { apply list_eq_Z; [lia|]. intros p Hp. apply HI. lia. }
  assert (length (GetJ T) = length (GetJ T')) as HlJ.
  { rewrite HIeq, HSz in Hend. rewrite Hend' in Hend. simplify_eq. lia. }
  assert (GetJ T = GetJ T') as HJeq.
  { apply list_eq_Z; [done|]. intros p Hp.
    destruct (csr_cover T p Hcsr Hp) as (i & Hi & (lo & hi & Hlo & Hhi & Hlh)).
    destruct (csr_row T Hcsr i Hi) as (lo1 & hi1 & ? & ? & ? & ? & ? & Hr).
    destruct (csr_row T' Hcsr' i ltac:(lia))
      as (lo2 & hi2 & Hlo2 & Hhi2 & ? & ? & ? & Hr').
    rewrite <- HIeq in Hlo2, Hhi2. simplify_eq.
    rewrite <- (lookup_slice_Z (GetJ T) lo hi p) by lia.
    rewrite <- (lookup_slice_Z (GetJ T') lo hi p) by lia.
    by rewrite <- Hr, <- Hr', Hrows. }
  destruct T, T'. simpl in *. by subst.
Qed.


(** ** [Transpose]: the order of the rows *)

(** The rows [0 .. n) of [A] that hold column [c], in increasing order, each
    as many times as [c] occurs in it. *)
Definition rows_with (A : Table) (c : Z) (n : Z) : list Z :=
  seqZ 0 n ≫= λ i, replicate (length (filter (λ v, v = c) (row A i))) i.

Lemma rows_with_succ A c n :
  0 ≤ n →
  rows_with A c (n + 1)
  = rows_with A c n ++ replicate (length (filter (λ v, v = c) (row A n))) n.
Proof.
  intros Hn. unfold rows_with. rewrite (seqZ_app 0 n 1) by lia.
  rewrite bind_app. f_equal. simpl. by rewrite app_nil_r.
Qed.

Lemma rows_with_range A c n x : x ∈ rows_with A c n → 0 ≤ x < n.
Proof.
  intros (i & [-> _]%elem_of_replicate & Hi%elem_of_seqZ)%list_elem_of_bind. lia.
Qed.

Lemma rows_with_sorted A c (n : nat) (p q : nat) x y :
  (p ≤ q)%nat →
  rows_with A c (Z.of_nat n) !! p = Some x →
  rows_with A c (Z.of_nat n) !! q = Some y → x ≤ y.
Proof.
  revert p q x y. induction n as [|n IH]; intros p q x y Hpq Hx Hy.
  - done.
  - replace (Z.of_nat (S n)) with (Z.of_nat n + 1) in Hx, Hy by lia.
    rewrite rows_with_succ in Hx, Hy by lia.
    apply lookup_app_Some in Hx as [Hx|[Hp Hx]];
      apply lookup_app_Some in Hy as [Hy|[Hq Hy]].
    + by eapply IH.
    + apply lookup_replicate in Hy as [-> _].
      apply list_elem_of_lookup_2, rows_with_range in Hx. lia.
    + apply lookup_lt_Some in Hy. lia.
    + apply lookup_replicate in Hx as [-> _].
      apply lookup_replicate in Hy as [-> _]. lia.
Qed.

Lemma slice_snoc (a : list Z) lo p v :
  0 ≤ lo → lo ≤ p → a !! Z.to_nat p = Some v →
  slice a lo (p + 1) = slice a lo p ++ [v].
Proof.
  intros Hlo Hp Hv. unfold slice.
  replace (Z.to_nat (p + 1 - lo)) with (S (Z.to_nat (p - lo))) by lia.
  apply take_S_r. rewrite lookup_drop. rewrite <- Hv. f_equal. lia.
Qed.

Lemma slice_insert_snoc (a : list Z) lo p v :
  0 ≤ lo → lo ≤ p < Z.of_nat (length a) →
  slice (<[Z.to_nat p := v]> a) lo (p + 1) = slice a lo p ++ [v].
Proof.
  intros Hlo Hp.
  rewrite (slice_snoc _ lo p v); [|done|lia|by apply list_lookup_insert_eq; lia].
  f_equal. apply slice_insert_out; lia.
Qed.

Section transpose_rows.
Context (junk : nat → Z) (A : Table) (ncols : Z).
Context (HA : finalized A) (Hw : width_of (GetJ A) ≤ ncols).

Local Abbreviation JA := (GetJ A).
Local Abbreviation nnz := (Z.of_nat (length (GetJ A))).

(** During the scatter loop, in row [i] whose slots begin at [lo], after
    the cells [0 .. P) of [j_A] have been visited: the slots that column [c]
    has filled hold the rows below [i] that hold [c], in order, and [i] for
    every occurrence of [c] among the visited slots of row [i]. *)
Definition filled_inv (i lo P : Z) (s : list Z * list Z) : Prop :=
  scatter_inv A ncols P s ∧
  ∀ c, 0 ≤ c < ncols →
    slice s.2 (below JA c) (below JA c + cnt c (take (Z.to_nat P) JA))
    = rows_with A c i ++ replicate (Z.to_nat (cnt c (slice JA lo P))) i.

Lemma filled_step i lo j s :
  0 ≤ i < Size A → is_slot A i j → 0 ≤ lo → lo ≤ j → filled_inv i lo j s →
  ∃ s', (let '(i_At, j_At) := s in
         c ← rd JA j;
         pos ← rd i_At c;
         j_At ← wr j_At pos i;
         i_At ← wr i_At c (pos + 1);
         Ok (i_At, j_At)) = Ok s' ∧ filled_inv i lo (j + 1) s'.
Proof.
  intros Hi Hslot Hlo Hj [Hinv Hfill].
  assert (0 ≤ j) as Hj0 by lia.
  destruct (transpose_scatter_step A ncols HA Hw i j s Hi Hslot Hj0 Hinv)
    as (s' & Hbody & Hinv').
  exists s'. split; [done|]. split; [done|].
  destruct Hinv as (Hlc & Hlj & Htop & Hcur & _ & _).
  destruct s as [cur jAt]. simpl in *.
  pose proof HA as [Hcsr _].
  assert (∃ c, JA !! Z.to_nat j = Some c) as [c Hc].
  { apply lookup_lt_is_Some_2.
    destruct Hslot as (lo' & hi & Hlo' & Hhi & ?).
    destruct (csr_row A Hcsr i Hi) as (? & ? & ? & ? & ? & ? & ? & _).
    simplify_eq. lia. }
  assert (0 ≤ c < ncols) as Hcr.
  { apply (transpose_col_range A ncols HA Hw). by eapply list_elem_of_lookup_2. }
  pose proof (cnt_take_lt c JA _ Hc) as Hlt.
  pose proof (cnt_nonneg c (take (Z.to_nat j) JA)) as Hnn.
  pose proof (below_succ JA c) as Hsucc.
  pose proof (below_mono JA (c + 1) ncols ltac:(lia)) as Hmono.
  pose proof (transpose_below_top A ncols HA Hw) as Htop'.
  pose proof (below_mono JA 0 c ltac:(lia)) as Hmono0.
  pose proof (transpose_below_0 A ncols HA Hw) as Hb0.
  set (pos := below JA c + cnt c (take (Z.to_nat j) JA)) in *.
  rewrite (rd_lookup JA j c) in Hbody by done. simpl in Hbody.
  rewrite (rd_lookup cur c pos) in Hbody by (apply Hcur || lia; done).
  simpl in Hbody. rewrite wr_Ok in Hbody by lia. simpl in Hbody.
  rewrite wr_Ok in Hbody by lia. simpl in Hbody. simplify_eq. simpl.
  intros c' Hc'.
  replace (Z.to_nat (j + 1)) with (S (Z.to_nat j)) by lia.
  rewrite (cnt_take_S c' JA _ c Hc).
  rewrite (slice_snoc JA lo j c) by done. rewrite cnt_app, cnt_single.
  pose proof (cnt_nonneg c' (slice JA lo j)) as Hnn'.
  destruct (decide (c = c')) as [<-|Hne].
  - replace (below JA c + (cnt c (take (Z.to_nat j) JA) + 1)) with (pos + 1)
      by (unfold pos; lia).
    rewrite slice_insert_snoc by lia. unfold pos at 1.
    rewrite Hfill by done.
    replace (Z.to_nat (cnt c (slice JA lo j) + 1))
      with (S (Z.to_nat (cnt c (slice JA lo j)))) by lia.
    by rewrite replicate_S_end, app_assoc.
  - rewrite !Z.add_0_r. rewrite <- Hfill by done.
    pose proof (below_mono JA 0 c' ltac:(lia)) as Hmono0'.
    apply slice_insert_out; [lia| |lia].
    pose proof (scatter_disjoint A _ c c' pos Hc ltac:(lia)) as Hdis.
    fold pos in Hdis.
    destruct (decide (below JA c' ≤ pos
                      < below JA c' + cnt c' (take (Z.to_nat j) JA)))
      as [Hin|Hout]; [by apply Hdis in Hin | lia].
Qed.

Lemma filled_scatter (s : list Z * list Z) :
  scatter_inv A ncols 0 s →
  ∃ s', for_range 0 (Size A) (λ i '(i_At, j_At),
          lo ← rd (GetI A) i;
          hi ← rd (GetI A) (i + 1);
          for_range lo hi (λ j '(i_At, j_At),
            c ← rd JA j;
            pos ← rd i_At c;
            j_At ← wr j_At pos i;
            i_At ← wr i_At c (pos + 1);
            Ok (i_At, j_At)) (i_At, j_At)) s = Ok s' ∧
        scatter_inv A ncols nnz s' ∧
        ∀ c, 0 ≤ c < ncols →
          slice s'.2 (below JA c) (below JA (c + 1)) = rows_with A c (Size A).
Proof.
  intros H0. pose proof HA as [Hcsr _].
  pose proof Hcsr as (HSz & _ & HI0 & _ & Hend).
  match goal with |- context [for_range 0 (Size A) ?b s] =>
    destruct (for_range_inv
      (λ i t, ∃ st, GetI A !! Z.to_nat i = Some st ∧ filled_inv i st st t)
      0 (Size A) b s) as (s' & Hs' & (st & Hst & Hinv)) end.
  - done.
  - exists 0. split; [done|]. split; [done|]. intros c Hc. simpl.
    apply slice_nil. change (Z.to_nat 0) with O. rewrite take_0.
    unfold cnt. simpl. lia.
  - intros i [cur jAt] Hi (st & Hst & Hinv).
    destruct (csr_row A Hcsr i Hi) as (lo & hi & Hlo & Hhi & ? & ? & ? & Hrow).
    assert (st = lo) as -> by congruence.
    rewrite (rd_lookup (GetI A) i lo), (rd_lookup (GetI A) (i + 1) hi)
      by (done || lia).
    simpl.
    match goal with |- context [for_range lo hi ?bb ?tt] =>
      destruct (for_range_inv (λ j u, filled_inv i lo j u) lo hi bb tt)
        as (t' & Ht' & Hinv') end.
    + done.
    + done.
    + intros j t Hj Hjinv.
      apply (filled_step i lo j t); try done; try lia.
      exists lo, hi. repeat split; try done; lia.
    + exists t'. split; [done|]. exists hi. split; [done|].
      destruct Hinv' as [Hsc Hfill]. split; [done|].
      intros c Hc. rewrite Hfill by done. rewrite <- Hrow.
      rewrite rows_with_succ by lia. rewrite slice_nil by lia. simpl.
      rewrite app_nil_r. unfold cnt. by rewrite Nat2Z.id.
  - exists s'. assert (st = nnz) as -> by congruence.
    destruct Hinv as [Hsc Hfill]. split; [done|]. split; [done|].
    intros c Hc. rewrite below_succ.
    pose proof (Hfill c Hc) as Hf. rewrite take_ge in Hf by lia.
    rewrite Hf. rewrite slice_nil by lia. simpl. by rewrite app_nil_r.
Qed.

(** [Transpose] as a stable counting sort of the entries by column. *)
Lemma Transpose_rows_with (At0 : Table) :
  reusable At0 →
  ∃ At, Transpose junk A At0 ncols = Ok At ∧
        Size At = ncols ∧ csr At ∧
        length (GetJ At) = length (GetJ A) ∧
        ∀ c, 0 ≤ c < ncols → row At c = rows_with A c (Size A).
Proof.
  intros Hre. pose proof HA as [Hcsr _].
  pose proof Hcsr as (HSz & _ & HI0 & _ & Hend).
  pose proof (transpose_ncols_nonneg A ncols Hw) as Hn.
  pose proof (transpose_below_0 A ncols HA Hw) as Hb0.
  pose proof (transpose_below_top A ncols HA Hw) as Htop.
  unfold Transpose. rewrite decide_False by lia. simpl.
  rewrite (rd_lookup _ _ _ HSz Hend). simpl.
  destruct (SetDims_shape junk At0 ncols nnz Hre Hn ltac:(lia))
    as (I0 & J0 & -> & HlI0 & HlJ0 & _).
  simpl. rewrite fill_loop by done. simpl.
  destruct (transpose_histogram A ncols HA Hw) as (a & -> & Hla & Ha0 & Hacnt).
  simpl.
  destruct (transpose_prefix_sum A ncols HA Hw a Hla Ha0 Hacnt)
    as (b & -> & Hlb & Hb).
  simpl.
  destruct (filled_scatter (b, J0)) as ([cur jAt] & -> & Hinv & Hrows).
  { unfold scatter_inv. simpl. rewrite take_0.
    split; [done|]. split; [done|]. split; [apply Hb; lia|].
    split; [|split].
    - intros c Hc. rewrite Hb by lia. f_equal. unfold cnt. simpl. lia.
    - intros p i c Hp. lia.
    - intros c t Hc Ht. unfold cnt in Ht. simpl in Ht. lia. }
  simpl. destruct Hinv as (Hlc & Hlj & Hctop & Hcur & _ & _).
  simpl in *. rewrite Nat2Z.id in Hcur.
  destruct (transpose_shift A ncols Hw cur Hlc Hctop) as (d & -> & Hld & Hd).
  { intros c Hc. rewrite Hcur, take_ge, below_succ by done. done. }
  simpl. rewrite wr_Ok by lia. simpl.
  assert (∀ r, 0 ≤ r ≤ ncols →
               <[Z.to_nat 0 := 0]> d !! Z.to_nat r = Some (below JA r))
    as HIAt.
  { intros r Hr. destruct (decide (r = 0)) as [->|].
    - rewrite list_lookup_insert_eq by lia. by rewrite Hb0.
    - rewrite list_lookup_insert_ne by lia. apply Hd. lia. }
  set (At := mkTable ncols (<[Z.to_nat 0 := 0]> d) jAt).
  assert (csr At) as HcsrAt.
  { unfold csr. simpl. rewrite length_insert.
    split; [done|]. split; [done|]. split; [|split].
    - pose proof (HIAt 0 ltac:(lia)) as H00. rewrite Hb0 in H00. exact H00.
    - intros i x y Hi Hx Hy. simpl in Hi.
      rewrite (HIAt i) in Hx by (simpl; lia).
      rewrite (HIAt (i + 1)) in Hy by (simpl; lia). simplify_eq.
      apply below_mono. lia.
    - rewrite (HIAt ncols) by lia. f_equal. lia. }
  exists At. split; [done|]. split; [done|]. split; [done|].
  split; [simpl; lia|].
  intros c Hc. unfold row. subst At. simpl.
  rewrite (HIAt c), (HIAt (c + 1)) by lia. by apply Hrows.
Qed.
End transpose_rows.

(** [Transpose] is a stable counting sort: for a table [A] without unset
    slots and [ncols] at least its width, row [c] of [At] lists the rows of
    [A] that hold column [c] in increasing order, each as many times as [c]
    occurs in it; the number of slots is that of [A]; and a negative
    [_ncols_A] stands for the width of [A]. *)
Theorem Transpose_sorted (junk : nat → Z) (A At0 : Table) (w ncols : Z) :
  finalized A → reusable At0 → Width A = Ok w → w ≤ ncols →
  ∃ At, Transpose junk A At0 ncols = Ok At ∧
        Size At = ncols ∧ csr At ∧
        length (GetJ At) = length (GetJ A) ∧
        (∀ c, 0 ≤ c < ncols →
           row At c
           = seqZ 0 (Size A) ≫=
               λ i, replicate (length (filter (λ v, v = c) (row A i))) i) ∧
        (∀ c (p q : nat) x y, 0 ≤ c < ncols → (p ≤ q)%nat →
           row At c !! p = Some x → row At c !! q = Some y → x ≤ y) ∧
        (∀ junk' At0', reusable At0' →
           Transpose junk' A At0' ncols = Ok At) ∧
        (∀ n, n < 0 → Transpose junk A At0 n = Transpose junk A At0 w).
Proof.
  intros HA Hre HW Hw. pose proof HA as [Hcsr _].
  pose proof HW as HW'. rewrite Width_eq in HW' by done. simplify_eq.
  destruct (Transpose_rows_with junk A ncols HA Hw At0 Hre)
    as (At & HT & HSz & HcsrAt & Hlen & Hrows).
  exists At. split; [done|]. split; [done|]. split; [done|]. split; [done|].
  split; [exact Hrows|]. split; [|split].
  - intros c p q x y Hc Hpq Hx Hy. rewrite Hrows in Hx, Hy by done.
    destruct Hcsr as (HSz' & _).
    rewrite <- (Z2Nat.id (Size A)) in Hx, Hy by done.
    by eapply rows_with_sorted.
  - intros junk' At0' Hre'.
    destruct (Transpose_rows_with junk' A ncols HA Hw At0' Hre')
      as (At' & HT' & HSz' & HcsrAt' & _ & Hrows').
    rewrite HT'. f_equal. apply csr_ext; [done | done | congruence |].
    intros c Hc. rewrite HSz' in Hc. by rewrite Hrows, Hrows'.
  - intros n Hn. unfold Transpose. rewrite decide_True by done.
    rewrite HW. simpl. rewrite decide_False; [done|].
    pose proof (width_of_nonneg (GetJ A)). lia.
Qed.

(** ** [Mult]: the order of the columns, and composition *)

(** [Mult] on tables without unset slots returns a table without unset
    slots that is no wider than [B]. *)
Lemma Mult_finalized junk A B C0 :
  finalized A → finalized B → width_of (GetJ A) ≤ Size B → reusable C0 →
  ∃ C, Mult junk A B C0 = Ok C ∧ Size C = Size A ∧ finalized C ∧
       width_of (GetJ C) ≤ width_of (GetJ B) ∧
       (∀ i, 0 ≤ i < Size A → row C i = prod_row A B i) ∧
       (∀ i m, entry C i m ↔ ∃ k, entry A i k ∧ entry B k m).
Proof.
  intros HA HB Hle Hre.
  destruct (Mult_spec junk A B HA HB Hle C0 Hre) as (C & HM & HSz & Hcsr & Hrow).
  assert (∀ i m, entry C i m ↔ ∃ k, entry A i k ∧ entry B k m) as Hent.
  { intros i m. unfold entry at 1. rewrite HSz. split.
    - intros [Hi Hm]. rewrite Hrow in Hm by done.
      apply emit_elem in Hm as [Hm _].
      apply list_elem_of_bind in Hm as (k & Hm & Hk).
      exists k. split; [done|]. split; [|done].
      exact (mult_A_col A B HA Hle i k Hi Hk).
    - intros (k & [Hi Hk] & [_ Hm]). split; [done|].
      rewrite Hrow by done. apply emit_elem.
      split; [|by intros ?%elem_of_nil].
      apply list_elem_of_bind. by exists k. }
  assert (∀ v, v ∈ GetJ C → 0 ≤ v < width_of (GetJ B)) as Hcol.
  { intros v Hv. destruct (elem_of_entry C v Hcsr Hv) as (i & Hi & Hin).
    rewrite HSz in Hi. rewrite Hrow in Hin by done.
    apply emit_elem in Hin as [Hin _].
    exact (cand_col A B HA HB Hle i v Hi Hin). }
  exists C. split; [done|]. split; [done|].
  split; [split; [done|]; intros v Hv; by apply Hcol|].
  split; [|done].
  apply width_of_least; [apply width_of_nonneg|]. intros v Hv. by apply Hcol.
Qed.

(** For tables [A] and [B] without unset slots with [A.Width() <= B.Size()],
    row [i] of the table that [Mult] returns lists the columns of the rows of
    [B] that row [i] of [A] names, walked in the order of [A]'s row, each
    column once at its first occurrence; the table depends neither on the
    content of fresh memory nor on what the output object held. *)
Theorem Mult_row_order (junk : nat → Z) (A B C0 : Table) (wA : Z) :
  finalized A → finalized B → reusable C0 → Width A = Ok wA → wA ≤ Size B →
  ∃ C, Mult junk A B C0 = Ok C ∧ Size C = Size A ∧ finalized C ∧
       (∀ i, 0 ≤ i < Size A → row C i = emit [] (row A i ≫= row B)) ∧
       (∀ junk' C0', reusable C0' → Mult junk' A B C0' = Ok C).
Proof.
  intros HA HB Hre HW Hle. pose proof HA as [HcsrA _].
  rewrite Width_eq in HW by done. simplify_eq.
  destruct (Mult_finalized junk A B C0 HA HB Hle Hre)
    as (C & HM & HSz & HC & _ & Hrow & _).
  exists C. split; [done|]. split; [done|]. split; [done|]. split; [done|].
  intros junk' C0' Hre'.
  destruct (Mult_finalized junk' A B C0' HA HB Hle Hre')
    as (C' & HM' & HSz' & HC' & _ & Hrow' & _).
  rewrite HM'. f_equal. apply csr_ext; [apply HC' | apply HC | congruence |].
  intros i Hi. rewrite HSz' in Hi. by rewrite Hrow, Hrow'.
Qed.

(** [Mult] is associative on the entries: for tables without unset slots
    with [A.Width() <= B.Size()] and [B.Width() <= C.Size()], the products
    [(A B) C] and [A (B C)] are both computed and have the same entries. *)
Theorem Mult_assoc (junk : nat → Z) (A B C X0 Y0 L0 R0 : Table) (wA wB : Z) :
  finalized A → finalized B → finalized C →
  reusable X0 → reusable Y0 → reusable L0 → reusable R0 →
  Width A = Ok wA → wA ≤ Size B → Width B = Ok wB → wB ≤ Size C →
  ∃ AB BC L R,
    Mult junk A B X0 = Ok AB ∧ Mult junk B C Y0 = Ok BC ∧
    Mult junk AB C L0 = Ok L ∧ Mult junk A BC R0 = Ok R ∧
    Size L = Size A ∧ Size R = Size A ∧
    ∀ i m, entry L i m ↔ entry R i m.
Proof.
  intros HA HB HC HX HY HL HR HWA HleA HWB HleB.
  rewrite Width_eq in HWA, HWB by (apply HA || apply HB). simplify_eq.
  destruct (Mult_finalized junk A B X0 HA HB HleA HX)
    as (AB & HAB & HSzAB & HfAB & HwAB & _ & HeAB).
  destruct (Mult_finalized junk B C Y0 HB HC HleB HY)
    as (BC & HBC & HSzBC & HfBC & _ & _ & HeBC).
  destruct (Mult_finalized junk AB C L0 HfAB HC ltac:(lia) HL)
    as (L & HLm & HSzL & _ & _ & _ & HeL).
  destruct (Mult_finalized junk A BC R0 HA HfBC ltac:(lia) HR)
    as (R & HRm & HSzR & _ & _ & _ & HeR).
  exists AB, BC, L, R. repeat (split; [done || congruence|]).
  intros i m. rewrite HeL, HeR. split.
  - intros (k & (k' & ? & ?)%HeAB & ?). exists k'. split; [done|].
    apply HeBC. by exists k.
  - intros (k & ? & (k' & ? & ?)%HeBC). exists k'. split; [|done].
    apply HeAB. by exists k.
Qed.

(** [Transpose] on a table without unset slots returns a table without
    unset slots whose width is at most the number of rows of [A]. *)
Lemma Transpose_finalized junk A At0 ncols :
  finalized A → reusable At0 → width_of (GetJ A) ≤ ncols →
  ∃ At, Transpose junk A At0 ncols = Ok At ∧ Size At = ncols ∧ finalized At ∧
        width_of (GetJ At) ≤ Size A ∧
        (∀ c i, entry At c i ↔ entry A i c).
Proof.
  intros HA Hre Hw.
  destruct (Transpose_spec junk A ncols HA Hw At0 Hre)
    as (At & HT & HSz & HcsrAt & Hent).
  assert (∀ v, v ∈ GetJ At → 0 ≤ v < Size A) as Hrange.
  { intros v Hv. destruct (elem_of_entry At v HcsrAt Hv) as (c & Hc).
    apply Hent in Hc. apply Hc. }
  exists At. split; [done|]. split; [done|].
  split; [split; [done|]; intros v Hv; by apply Hrange|].
  split; [|done].
  apply width_of_least; [by destruct HA as [(? & _) _]|].
  intros v Hv. by apply Hrange.
Qed.

(** The transpose of a product is the product of the transposes in reverse
    order: for tables [A] and [B] without unset slots with
    [A.Width() <= B.Size()] and [ncols] at least [B.Width()], the tables
    [Transpose(Mult(A,B), ncols)] and
    [Mult(Transpose(B, ncols), Transpose(A, B.Size()))] have the same number
    of rows and the same entries. *)
Theorem Mult_Transpose (junk : nat → Z) (A B C0 Ct0 At0 Bt0 P0 : Table)
    (wA wB ncols : Z) :
  finalized A → finalized B →
  reusable C0 → reusable Ct0 → reusable At0 → reusable Bt0 → reusable P0 →
  Width A = Ok wA → wA ≤ Size B → Width B = Ok wB → wB ≤ ncols →
  ∃ C Ct At Bt P,
    Mult junk A B C0 = Ok C ∧ Transpose junk C Ct0 ncols = Ok Ct ∧
    Transpose junk A At0 (Size B) = Ok At ∧
    Transpose junk B Bt0 ncols = Ok Bt ∧
    Mult junk Bt At P0 = Ok P ∧
    Size Ct = ncols ∧ Size P = ncols ∧
    ∀ m i, entry Ct m i ↔ entry P m i.
Proof.
  intros HA HB HC0 HCt0 HAt0 HBt0 HP0 HWA HleA HWB HleB.
  rewrite Width_eq in HWA, HWB by (apply HA || apply HB). simplify_eq.
  destruct (Mult_finalized junk A B C0 HA HB HleA HC0)
    as (C & HC & HSzC & HfC & HwC & _ & HeC).
  destruct (Transpose_finalized junk C Ct0 ncols HfC HCt0 ltac:(lia))
    as (Ct & HCt & HSzCt & _ & _ & HeCt).
  destruct (Transpose_finalized junk A At0 (Size B) HA HAt0 HleA)
    as (At & HAt & HSzAt & HfAt & _ & HeAt).
  destruct (Transpose_finalized junk B Bt0 ncols HB HBt0 HleB)
    as (Bt & HBt & HSzBt & HfBt & HwBt & HeBt).
  destruct (Mult_finalized junk Bt At P0 HfBt HfAt ltac:(lia) HP0)
    as (P & HP & HSzP & _ & _ & _ & HeP).
  exists C, Ct, At, Bt, P. repeat (split; [done || congruence|]).
  intros m i. rewrite HeCt, HeC, HeP. split.
  - intros (k & ? & ?). exists k. by rewrite HeBt, HeAt.
  - intros (k & ?%HeBt & ?%HeAt). by exists k.
Qed.

(** ** The two-phase build and [Transpose] of an array *)

(** [void Table::MakeI (int nrows)]. *)
Definition MakeI (junk : nat → Z) (T : Table) (nrows : Z) : result Table :=
  T ← SetDims junk T nrows 0;
  I_ ← for_range 0 (nrows + 1) (λ i I_, wr I_ i 0) (GetI T);
  Ok (mkTable (Size T) I_ (GetJ T)).

(** [void Table::MakeJ()]: the counts in [I] become row starts, and [J] is
    allocated. *)
Definition MakeJ (junk : nat → Z) (T : Table) : result Table :=
  '(I_, k) ← for_range 0 (Size T) (λ i '(I_, k),
      j ← rd I_ i;
      I_ ← wr I_ i k;
      Ok (I_, k + j)) (GetI T, 0);
  I_ ← wr I_ (Size T) k;
  J_ ← new_int junk k;
  Ok (mkTable (Size T) I_ J_).

(** [void Table::AddConnections (int r, int *c, int nc)]. *)
Definition AddConnections (T : Table) (r : Z) (c : list Z) (nc : Z)
  : result Table :=
  jp ← rd (GetI T) r;
  J_ ← for_range 0 nc (λ i J_, v ← rd c i; wr J_ (jp + i) v) (GetJ T);
  cur ← rd (GetI T) r;
  I_ ← wr (GetI T) r (cur + nc);
  Ok (mkTable (Size T) I_ J_).

(** [void Table::ShiftUpI()]. *)
Definition ShiftUpI (T : Table) : result Table :=
  I_ ← for_down (Size T) 0 (λ i I_, v ← rd I_ (i - 1); wr I_ i v) (GetI T);
  I_ ← wr I_ 0 0;
  Ok (mkTable (Size T) I_ (GetJ T)).

(** Modelled from the spec: [AddAColumnInRow] and [AddConnection] are
    inline members declared in table.hpp, which is absent.  By section 4.1
    (protocol 2) the first counts one more column for row [r] in
    [rowStart[r]]; the second writes the column into the next free slot of
    row [r] and advances the cursor that [rowStart[r]] holds meanwhile. *)
Definition AddAColumnInRow (T : Table) (r : Z) : result Table :=
  v ← rd (GetI T) r;
  I_ ← wr (GetI T) r (v + 1);
  Ok (mkTable (Size T) I_ (GetJ T)).

Definition AddConnection (T : Table) (r c : Z) : result Table :=
  pos ← rd (GetI T) r;
  J_ ← wr (GetJ T) pos c;
  I_ ← wr (GetI T) r (pos + 1);
  Ok (mkTable (Size T) I_ J_).

(** [void Transpose(const Array<int> &A, Table &At, int _ncols_A)].  The
    array [A] (class [Array<int>] of array.hpp, which is absent) is the list
    of its cells: [A.Size()] is its length and [A[i]] the read of cell [i];
    [A.Max()] is taken as the parameter [Max]. *)
Definition Transpose_array (junk : nat → Z) (Max : list Z → result Z)
    (A : list Z) (At0 : Table) (_ncols_A : Z) : result Table :=
  ncols ← (if decide (_ncols_A < 0) then m ← Max A; Ok (m + 1)
           else Ok _ncols_A);
  At ← MakeI junk At0 ncols;
  At ← for_range 0 (Z.of_nat (length A)) (λ i At,
         c ← rd A i; AddAColumnInRow At c) At;
  At ← MakeJ junk At;
  At ← for_range 0 (Z.of_nat (length A)) (λ i At,
         c ← rd A i; AddConnection At c i) At;
  ShiftUpI At.

Lemma MakeI_eq junk T nrows :
  reusable T → 0 ≤ nrows →
  MakeI junk T nrows = Ok (mkTable nrows (replicate (Z.to_nat (nrows + 1)) 0) []).
Proof.
  intros Hre Hn. unfold MakeI.
  destruct (SetDims_shape junk T nrows 0 Hre Hn ltac:(lia))
    as (I0 & J0 & -> & HlI0 & HlJ0 & _).
  simpl. rewrite fill_loop by done. simpl.
  destruct J0; [done | simpl in HlJ0; lia].
Qed.

Section transpose_array.
Context (junk : nat → Z) (A : list Z) (ncols : Z).
Context (Hncols : 0 ≤ ncols) (HA : ∀ v, v ∈ A → 0 ≤ v < ncols).

Local Abbreviation n := (Z.of_nat (length A)).

(** The table with one entry per row that the spec speaks of. *)
Local Abbreviation T1 := (partition_table n A).

Lemma array_table_J : GetJ T1 = A.
Proof. simpl. apply take_ge. lia. Qed.

Lemma array_table_finalized : finalized T1.
Proof.
  split; [apply partition_table_csr; lia|].
  intros v Hv. rewrite array_table_J in Hv. by apply HA.
Qed.

Lemma array_table_width : width_of (GetJ T1) ≤ ncols.
Proof.
  rewrite array_table_J. apply width_of_least; [done|].
  intros v Hv. by apply HA.
Qed.

Lemma array_below_0 : below A 0 = 0.
Proof. apply below_bottom. intros v Hv. by apply HA. Qed.

Lemma array_below_top : below A ncols = n.
Proof. apply below_top. intros v Hv. by apply HA. Qed.

Lemma array_rows_succ c (P : Z) v :
  0 ≤ P → A !! Z.to_nat P = Some v →
  rows_with T1 c (P + 1)
  = rows_with T1 c P ++ (if decide (v = c) then [P] else []).
Proof.
  intros HP Hv. rewrite rows_with_succ by done. f_equal.
  rewrite (partition_table_row n A P v);
    [|split; [done|]; apply lookup_lt_Some in Hv; lia|done].
  case_decide.
  - by rewrite filter_cons_True.
  - by rewrite filter_cons_False.
Qed.

(** Phase 1: the histogram of the columns. *)
Lemma array_histogram :
  ∃ I1, for_range 0 n (λ i At, c ← rd A i; AddAColumnInRow At c)
          (mkTable ncols (replicate (Z.to_nat (ncols + 1)) 0) [])
        = Ok (mkTable ncols I1 []) ∧
        Z.of_nat (length I1) = ncols + 1 ∧
        I1 !! Z.to_nat ncols = Some 0 ∧
        ∀ c, 0 ≤ c < ncols → I1 !! Z.to_nat c = Some (cnt c A).
Proof.
  rewrite (for_range_rd_foldM A (λ c At, AddAColumnInRow At c)) by lia.
  rewrite slice_all.
  destruct (foldM_inv
    (λ pre (At : Table), Size At = ncols ∧ GetJ At = [] ∧
       Z.of_nat (length (GetI At)) = ncols + 1 ∧
       GetI At !! Z.to_nat ncols = Some 0 ∧
       ∀ c, 0 ≤ c < ncols → GetI At !! Z.to_nat c = Some (cnt c pre))
    (λ c At, AddAColumnInRow At c)
    A (mkTable ncols (replicate (Z.to_nat (ncols + 1)) 0) []))
    as ([sz I1 J1] & HI1 & HP).
  - simpl. rewrite length_replicate. split; [done|]. split; [done|].
    split; [lia|]. split.
    + apply lookup_replicate_2. lia.
    + intros c Hc. apply lookup_replicate_2. lia.
  - intros pre c post At HJ (HSz & HJ0 & Hlen & Htop & Hcnt).
    assert (0 ≤ c < ncols) as Hc.
    { apply HA. rewrite HJ. apply elem_of_app. right. left. }
    unfold AddAColumnInRow.
    rewrite (rd_lookup (GetI At) c (cnt c pre)) by (apply Hcnt || lia; lia).
    simpl. rewrite wr_Ok by lia. eexists. split; [done|]. simpl.
    rewrite length_insert. split; [done|]. split; [done|]. split; [done|].
    split.
    + rewrite list_lookup_insert_ne by lia. done.
    + intros c' Hc'. rewrite cnt_app, cnt_single.
      destruct (decide (c = c')) as [->|Hne].
      * rewrite list_lookup_insert_eq by lia. done.
      * rewrite list_lookup_insert_ne by lia. rewrite Hcnt by done.
        f_equal. lia.
  - simpl in HP. destruct HP as (-> & -> & ? & ? & ?). exists I1. done.
Qed.

(** [MakeJ]: the counts become the row starts. *)
Lemma array_MakeJ I1 :
  Z.of_nat (length I1) = ncols + 1 →
  (∀ c, 0 ≤ c < ncols → I1 !! Z.to_nat c = Some (cnt c A)) →
  ∃ I2 J2, MakeJ junk (mkTable ncols I1 []) = Ok (mkTable ncols I2 J2) ∧
           Z.of_nat (length I2) = ncols + 1 ∧ Z.of_nat (length J2) = n ∧
           ∀ r, 0 ≤ r ≤ ncols → I2 !! Z.to_nat r = Some (below A r).
Proof.
  intros Hlen Hcnt. unfold MakeJ. simpl.
  destruct (for_range_inv
    (λ i (s : list Z * Z), Z.of_nat (length s.1) = ncols + 1 ∧
       s.2 = below A i ∧
       (∀ r, 0 ≤ r < i → s.1 !! Z.to_nat r = Some (below A r)) ∧
       (∀ r, i ≤ r < ncols → s.1 !! Z.to_nat r = Some (cnt r A)))
    0 ncols (λ i '(I_, k), j ← rd I_ i; I_ ← wr I_ i k; Ok (I_, k + j))
    (I1, 0)) as ([I2 k] & -> & HP).
  - done.
  - simpl. split; [done|]. split; [by rewrite array_below_0|].
    split; [intros; lia|]. intros r Hr. apply Hcnt. lia.
  - intros i [Ia k] Hi (HlI & Hk & Hdone & Hrest). simpl in *. subst k.
    rewrite (rd_lookup Ia i (cnt i A)) by (apply Hrest || lia; lia).
    simpl. rewrite wr_Ok by lia. simpl. eexists. split; [done|]. simpl.
    rewrite length_insert. split; [done|]. split; [by rewrite below_succ|].
    split.
    + intros r Hr. destruct (decide (r = i)) as [->|].
      * by rewrite list_lookup_insert_eq by lia.
      * rewrite list_lookup_insert_ne by lia. apply Hdone. lia.
    + intros r Hr. rewrite list_lookup_insert_ne by lia. apply Hrest. lia.
  - simpl in HP. destruct HP as (HlI & -> & Hdone & _).
    simpl. rewrite wr_Ok by lia. simpl. rewrite array_below_top.
    destruct (new_int_Ok junk n) as (J2 & -> & HJ2); [lia|]. simpl.
    eexists _, _. split; [done|]. rewrite length_insert.
    split; [done|]. split; [done|]. intros r Hr.
    destruct (decide (r = ncols)) as [->|].
    + rewrite list_lookup_insert_eq by lia. by rewrite array_below_top.
    + rewrite list_lookup_insert_ne by lia. apply Hdone. lia.
Qed.

(** Phase 2, after the cells [0 .. P) of [A] have been visited. *)
Definition array_inv (P : Z) (At : Table) : Prop :=
  Size At = ncols ∧ Z.of_nat (length (GetI At)) = ncols + 1 ∧
  Z.of_nat (length (GetJ At)) = n ∧
  GetI At !! Z.to_nat ncols = Some (below A ncols) ∧
  ∀ c, 0 ≤ c < ncols →
    GetI At !! Z.to_nat c = Some (below A c + cnt c (take (Z.to_nat P) A)) ∧
    slice (GetJ At) (below A c) (below A c + cnt c (take (Z.to_nat P) A))
    = rows_with T1 c P.

Lemma array_scatter At :
  array_inv 0 At →
  ∃ At', for_range 0 n (λ i At, c ← rd A i; AddConnection At c i) At = Ok At' ∧
         array_inv n At'.
Proof.
  intros H0. apply for_range_inv; [lia | done |].
  intros P [sz Ia Ja] HP (HSz & HlI & HlJ & Htop & Hc). simpl in *.
  destruct (rd_in_range A P) as (c & -> & HcP); [lia|]. simpl.
  assert (0 ≤ c < ncols) as Hcr by (apply HA; by eapply list_elem_of_lookup_2).
  pose proof (cnt_take_lt c A _ HcP) as Hlt.
  pose proof (cnt_nonneg c (take (Z.to_nat P) A)) as Hnn.
  pose proof (below_succ A c) as Hsucc.
  pose proof (below_mono A (c + 1) ncols ltac:(lia)) as Hmono.
  pose proof array_below_top as Htop'.
  pose proof (below_mono A 0 c ltac:(lia)) as Hmono0.
  pose proof array_below_0 as Hb0.
  set (pos := below A c + cnt c (take (Z.to_nat P) A)) in *.
  unfold AddConnection. simpl.
  rewrite (rd_lookup Ia c pos) by (apply Hc || lia; done). simpl.
  rewrite wr_Ok by lia. simpl. rewrite wr_Ok by lia. simpl.
  eexists. split; [done|]. unfold array_inv. simpl. rewrite !length_insert.
  split; [done|]. split; [done|]. split; [done|]. split.
  { rewrite list_lookup_insert_ne by lia. done. }
  intros c' Hc'.
  replace (Z.to_nat (P + 1)) with (S (Z.to_nat P)) by lia.
  rewrite (cnt_take_S c' A _ c HcP). rewrite (array_rows_succ c' P c) by (done || lia).
  destruct (Hc c' Hc') as [Hcur Hfill].
  destruct (decide (c = c')) as [<-|Hne].
  - rewrite list_lookup_insert_eq by lia. split; [f_equal; unfold pos; lia|].
    replace (below A c + (cnt c (take (Z.to_nat P) A) + 1)) with (pos + 1)
      by (unfold pos; lia).
    rewrite slice_insert_snoc by lia. unfold pos at 1. by rewrite Hfill.
  - rewrite list_lookup_insert_ne by lia. rewrite !Z.add_0_r, app_nil_r.
    split; [done|]. rewrite <- Hfill.
    pose proof (below_mono A 0 c' ltac:(lia)) as Hmono0'.
    apply slice_insert_out; [lia| |lia].
    pose proof (scatter_disjoint T1 (Z.to_nat P) c c' pos) as Hdis.
    rewrite array_table_J in Hdis. specialize (Hdis HcP ltac:(lia)).
    fold pos in Hdis.
    destruct (decide (below A c' ≤ pos
                      < below A c' + cnt c' (take (Z.to_nat P) A)))
      as [Hin|Hout]; [by apply Hdis in Hin | lia].
Qed.

(** The table that the array variant builds. *)
Lemma Transpose_array_spec Max (At0 : Table) :
  reusable At0 →
  ∃ At, Transpose_array junk Max A At0 ncols = Ok At ∧
        Size At = ncols ∧ csr At ∧
        ∀ c, 0 ≤ c < ncols → row At c = rows_with T1 c n.
Proof.
  intros Hre. unfold Transpose_array. rewrite decide_False by lia. simpl.
  rewrite MakeI_eq by done. simpl.
  destruct array_histogram as (I1 & -> & HlI1 & Htop1 & Hcnt1). simpl.
  destruct (array_MakeJ I1 HlI1 Hcnt1) as (I2 & J2 & -> & HlI2 & HlJ2 & HI2).
  simpl.
  destruct (array_scatter (mkTable ncols I2 J2)) as ([sz I3 J3] & -> & Hinv).
  { unfold array_inv. simpl. change (Z.to_nat 0) with O. rewrite take_0.
    split; [done|]. split; [done|]. split; [done|].
    split; [apply HI2; lia|]. intros c Hc. split.
    - rewrite HI2 by lia. f_equal. unfold cnt. simpl. lia.
    - unfold cnt. simpl. by rewrite slice_nil by lia. }
  simpl. destruct Hinv as (HSz & HlI3 & HlJ3 & Htop3 & Hc3). simpl in *.
  subst sz. rewrite Nat2Z.id in Hc3. unfold ShiftUpI. simpl.
  pose proof array_table_width as Hw. pose proof array_table_J as HJ.
  destruct (transpose_shift T1 ncols Hw I3 HlI3) as (d & -> & Hld & Hd).
  { by rewrite HJ. }
  { intros c Hc. rewrite HJ. destruct (Hc3 c Hc) as [-> _].
    by rewrite take_ge, below_succ. }
  simpl. rewrite wr_Ok by lia. simpl. rewrite HJ in Hd.
  assert (∀ r, 0 ≤ r ≤ ncols →
               <[Z.to_nat 0 := 0]> d !! Z.to_nat r = Some (below A r))
    as HIAt.
  { intros r Hr. destruct (decide (r = 0)) as [->|].
    - rewrite list_lookup_insert_eq by lia. by rewrite array_below_0.
    - rewrite list_lookup_insert_ne by lia. apply Hd. lia. }
  set (At := mkTable ncols (<[Z.to_nat 0 := 0]> d) J3).
  assert (csr At) as HcsrAt.
  { unfold csr. simpl. rewrite length_insert.
    split; [done|]. split; [done|]. split; [|split].
    - pose proof (HIAt 0 ltac:(lia)) as H00.
      rewrite array_below_0 in H00. exact H00.
    - intros i x y Hi Hx Hy. simpl in Hi.
      rewrite (HIAt i) in Hx by (simpl; lia).
      rewrite (HIAt (i + 1)) in Hy by (simpl; lia). simplify_eq.
      apply below_mono. lia.
    - rewrite (HIAt ncols) by lia. f_equal. rewrite array_below_top. lia. }
  exists At. split; [done|]. split; [done|]. split; [done|].
  intros c Hc. unfold row. subst At. simpl.
  rewrite (HIAt c), (HIAt (c + 1)) by lia.
  destruct (Hc3 c Hc) as [_ <-]. by rewrite take_ge, below_succ.
Qed.

Lemma array_rows_filter c (P : nat) :
  (P ≤ length A)%nat →
  rows_with T1 c (Z.of_nat P)
  = filter (λ i, A !! Z.to_nat i = Some c) (seqZ 0 (Z.of_nat P)).
Proof.
  induction P as [|P IH]; intros HP; [done|].
  destruct (lookup_lt_is_Some_2 A P) as [v Hv]; [lia|].
  replace (Z.of_nat (S P)) with (Z.of_nat P + 1) by lia.
  rewrite (array_rows_succ c (Z.of_nat P) v) by (rewrite ?Nat2Z.id; done || lia).
  rewrite (seqZ_app 0 (Z.of_nat P) 1), filter_app by lia.
  rewrite IH by lia. f_equal.
  replace (seqZ (0 + Z.of_nat P) 1) with [Z.of_nat P]
    by (rewrite seqZ_cons by lia; simpl; f_equal; lia).
  destruct (decide (v = c)) as [->|Hne].
  - rewrite filter_cons_True; [done|]. simpl. by rewrite Nat2Z.id.
  - rewrite filter_cons_False; [done|]. simpl. rewrite Nat2Z.id. congruence.
Qed.
End transpose_array.

(** [Transpose] of an array [A] whose cells lie in [0, ncols): row [c] of
    the table [At] lists, in increasing order, the indices [i] with
    [A[i] = c]; and [At] is the table that [Transpose] of a table returns on
    the table with the one entry [A[i]] in row [i], as the partition
    constructor builds it. *)
Theorem Transpose_array_rows (junk : nat → Z) (Max : list Z → result Z)
    (A : list Z) (At0 : Table) (ncols : Z) :
  0 ≤ ncols → (∀ v, v ∈ A → 0 ≤ v < ncols) → reusable At0 →
  ∃ At, Transpose_array junk Max A At0 ncols = Ok At ∧
        Size At = ncols ∧ csr At ∧
        (∀ c, 0 ≤ c < ncols →
           row At c
           = filter (λ i, A !! Z.to_nat i = Some c)
               (seqZ 0 (Z.of_nat (length A)))) ∧
        ∃ T, Table_new_partitioning junk (Z.of_nat (length A)) A = Ok T ∧
             ∀ junk' At0', reusable At0' →
               Transpose junk' T At0' ncols = Ok At.
Proof.
  intros Hn HA Hre.
  destruct (Transpose_array_spec junk A ncols Hn HA Max At0 Hre)
    as (At & HT & HSz & Hcsr & Hrows).
  exists At. split; [done|]. split; [done|]. split; [done|]. split.
  - intros c Hc. rewrite Hrows by done. by apply array_rows_filter.
  - exists (partition_table (Z.of_nat (length A)) A).
    split; [apply Table_new_partitioning_eq; lia|].
    intros junk' At0' Hre'.
    pose proof (array_table_finalized A ncols HA) as Hfin.
    pose proof (array_table_width A ncols Hn HA) as Hw.
    destruct (Transpose_rows_with junk' _ ncols Hfin Hw At0' Hre')
      as (At' & HT' & HSz' & Hcsr' & _ & Hrows').
    rewrite HT'. f_equal. apply csr_ext; [done | done | congruence |].
    intros c Hc. rewrite HSz' in Hc. by rewrite Hrows, Hrows'.
Qed.

(** ** [STable]: the symmetric view *)

(** [STable::STable (int dim, int connections_per_row)] calls the
    constructor of [Table]. *)
Definition STable_new (junk : nat → Z) (dim connections_per_row : Z)
  : result Table :=
  Table_new junk dim connections_per_row.

(** [int STable::operator() (int i, int j) const]. *)
Definition STable_call (T : Table) (i j : Z) : result Z :=
  if decide (i < j) then Table_call T i j else Table_call T j i.

(** [int STable::Push (int i, int j)]. *)
Definition STable_Push (MFEM_DEBUG : bool) (T : Table) (i j : Z)
  : result (Z * Table) :=
  if decide (i < j) then Push MFEM_DEBUG T i j else Push MFEM_DEBUG T j i.

(** The lookup and [Push] of [STable] do not depend on the order of their
    two arguments: the pair is stored in the row of the smaller one, under
    the column of the larger one, and a pair pushed in one order is found,
    at the slot that [Push] returned, in both. *)
Theorem STable_symmetric (dbg : bool) (T : Table) (i j : Z) :
  STable_call T i j = STable_call T j i ∧
  STable_Push dbg T i j = STable_Push dbg T j i ∧
  STable_call T i j = Table_call T (Z.min i j) (Z.max i j) ∧
  STable_Push dbg T i j = Push dbg T (Z.min i j) (Z.max i j) ∧
  ∀ k T', csr T → STable_Push dbg T i j = Ok (k, T') →
          STable_call T' i j = Ok k ∧ STable_call T' j i = Ok k.
Proof.
  assert (∀ T a b, STable_call T a b = Table_call T (Z.min a b) (Z.max a b))
    as Hcall.
  { intros T0 a b. unfold STable_call. case_decide.
    - by rewrite Z.min_l, Z.max_r by lia.
    - by rewrite Z.min_r, Z.max_l by lia. }
  assert (STable_Push dbg T i j = Push dbg T (Z.min i j) (Z.max i j)) as Hpush.
  { unfold STable_Push. case_decide.
    - by rewrite Z.min_l, Z.max_r by lia.
    - by rewrite Z.min_r, Z.max_l by lia. }
  split; [by rewrite !Hcall, Z.min_comm, Z.max_comm|].
  split.
  { rewrite Hpush. unfold STable_Push. case_decide.
    - by rewrite Z.min_r, Z.max_l by lia.
    - by rewrite Z.min_l, Z.max_r by lia. }
  split; [apply Hcall|]. split; [done|].
  intros k T' Hcsr HP. rewrite Hpush in HP.
  destruct (Push_row dbg T _ _ k T' Hcsr HP)
    as (Hi & lo & hi & m & v & Hlo & Hhi & ? & ? & ? & Hfind & -> & ? & HT' & Hrow').
  assert (csr T') as Hcsr'.
  { subst T'. case_decide; [by destruct T | by apply csr_insert]. }
  assert (Table_call T' (Z.min i j) (Z.max i j) = Ok (lo + Z.of_nat m)) as Hk.
  { assert (Size T' = Size T) as HSz by (by subst T').
    assert (GetI T' = GetI T) as HI by (by subst T').
    destruct (Table_call_row T' (Z.min i j) (Z.max i j) Hcsr')
      as (lo' & Hlo' & ->); [by rewrite HSz|].
    rewrite HI in Hlo'. simplify_eq. rewrite Hrow'. f_equal.
    by apply scan_slots_after_find. }
  by rewrite !Hcall, (Z.min_comm j i), (Z.max_comm j i).
Qed.

(** ** [DSTable]: the lookup [Index] *)

(** After the pairs [ps] have been pushed into a fresh [DSTable], [Index]
    returns for a pair of [ps] the index that [Push_] returned for it, and
    -1 for a pair that was never pushed, be its row in the table or beyond
    its last row; the indices lie in [0, entryCount) and two different
    pairs never share one. *)
Theorem Index_after_pushes (dbg dbg' : bool) (nrows : Z) (ps : list (Z * Z)) :
  0 ≤ nrows → (∀ p, p ∈ ps → 0 ≤ p.1 < nrows) →
  ∃ T0 ks T, DSTable_new nrows = Ok T0 ∧ push_all dbg ps T0 = Ok (ks, T) ∧
    (∀ (n : nat) r c k, ps !! n = Some (r, c) → ks !! n = Some k →
       Index dbg' T r c = Ok k ∧ 0 ≤ k < NumEntries T) ∧
    (∀ r c, 0 ≤ r → (r, c) ∉ ps → Index dbg' T r c = Ok (-1)) ∧
    (∀ r c r' c' k, 0 ≤ r → 0 ≤ r' → k ≠ -1 →
       Index dbg' T r c = Ok k → Index dbg' T r' c' = Ok k →
       (r, c) = (r', c')).
Proof.
  intros Hn Hps.
  destruct (DSTable_new_inv nrows Hn) as (T0 & HT0 & Hinv0).
  destruct (push_all_spec dbg nrows ps [] T0 Hinv0 Hps) as (T & HT & Hinv).
  set (seen := first_seen [] ps) in *.
  pose proof (first_seen_NoDup [] ps (NoDup_nil_2)) as Hnd. fold seen in Hnd.
  assert (∀ p, p ∈ seen ↔ p ∈ ps) as Hseen.
  { intros p. unfold seen. rewrite first_seen_elem. split; [|by right].
    by intros [?%elem_of_nil|?]. }
  destruct Hinv as (HNR & HlR & HNE & _ & Hchain).
  assert (∀ r c, 0 ≤ r →
            Index dbg' T r c = Ok (default (-1) (index_of (r, c) seen)))
    as HIndex.
  { intros r c Hr. unfold Index.
    assert ((if dbg' then if decide (r < 0) then mfem_error else Ok ()
             else Ok ()) = Ok ()) as ->.
    { destruct dbg'; [by rewrite decide_False by lia | done]. }
    simpl. case_decide as Hge.
    - assert (index_of (r, c) seen = None) as ->; [|done].
      apply index_of_None. intros Hin%Hseen. apply Hps in Hin. simpl in Hin. lia.
    - destruct (lookup_lt_is_Some_2 (Rows T) (Z.to_nat r)) as [chain Hch];
        [lia|].
      unfold rd_chain. rewrite decide_True, Hch by done. simpl.
      by rewrite (Hchain r chain Hr Hch). }
  exists T0, ((λ p, default (-1) (index_of p seen)) <$> ps), T.
  split; [done|]. split; [done|]. split; [|split].
  - intros n r c k Hp Hk. rewrite list_lookup_fmap, Hp in Hk. simpl in Hk.
    simplify_eq.
    assert (0 ≤ r) as Hr.
    { apply list_elem_of_lookup_2, Hps in Hp. simpl in Hp. lia. }
    split; [by apply HIndex|].
    destruct (index_of (r, c) seen) as [k|] eqn:E.
    + apply index_of_Some in E as [? Hl%lookup_lt_Some]. simpl. lia.
    + apply index_of_None in E. exfalso. apply E, Hseen.
      by eapply list_elem_of_lookup_2.
  - intros r c Hr Hnot. rewrite HIndex by done.
    assert (index_of (r, c) seen = None) as ->; [|done].
    apply index_of_None. by intros ?%Hseen.
  - intros r c r' c' k Hr Hr' Hk H1 H2.
    rewrite HIndex in H1, H2 by done.
    destruct (index_of (r, c) seen) as [k1|] eqn:E1; simpl in H1; [|congruence].
    destruct (index_of (r', c') seen) as [k2|] eqn:E2; simpl in H2; [|congruence].
    simplify_eq.
    apply index_of_Some in E1 as [_ E1]. apply index_of_Some in E2 as [_ E2].
    congruence.
Qed.

(** * Further properties of the entity sets *)

(** ** [CopyMeshTables] *)

Lemma CopyMeshTables_fields (es : EntitySets) :
  sets_ (CopyMeshTables es) = sets_ es ∧
  set_names_ (CopyMeshTables es) = set_names_ es ∧
  set_index_by_name_ (CopyMeshTables es) = set_index_by_name_ es ∧
  NumOfVertices_ (CopyMeshTables es) = GetNV (mesh_ es) ∧
  NumOfEdges_ (CopyMeshTables es) = GetNEdges (mesh_ es) ∧
  NumOfElements_ (CopyMeshTables es) = GetNE (mesh_ es).
Proof.
  destruct es as [m ev fv fe nv ned ne sets names index].
  destruct m as [NV NEd NE D mev mfv mfe gev gfv gfe vv f3 f4].
  unfold CopyMeshTables, GetNumSets. simpl.
  destruct (decide (Z.of_nat (length (sets EDGE)) > 0));
    destruct (decide (Z.of_nat (length (sets FACE)) > 0));
    destruct mev, mfv, mfe; simpl; done.
Qed.

(** [CopyMeshTables] leaves the groups, their names and the name index as
    they are and sets the three counts to those of the mesh; it acquires the
    edge-vertex table exactly when there is an EDGE group and the two face
    tables exactly when there is a FACE group (the table that the mesh has
    cached, and the one that the mesh builds when it has cached none), and
    keeps the tables it had otherwise; a second call changes nothing. *)
Theorem CopyMeshTables_tables (es : EntitySets) :
  let es' := CopyMeshTables es in
  sets_ es' = sets_ es ∧ set_names_ es' = set_names_ es ∧
  set_index_by_name_ es' = set_index_by_name_ es ∧
  NumOfVertices_ es' = GetNV (mesh_ es) ∧
  NumOfEdges_ es' = GetNEdges (mesh_ es) ∧
  NumOfElements_ es' = GetNE (mesh_ es) ∧
  edge_vertex_ es'
  = (if decide (GetNumSets es EDGE > 0)
     then Some (default (GetEdgeVertexTable (mesh_ es)) (edge_vertex (mesh_ es)))
     else edge_vertex_ es) ∧
  face_vertex_ es'
  = (if decide (GetNumSets es FACE > 0)
     then Some (default (GetFaceVertexTable (mesh_ es)) (face_vertex (mesh_ es)))
     else face_vertex_ es) ∧
  face_edge_ es'
  = (if decide (GetNumSets es FACE > 0)
     then Some (default (GetFaceEdgeTable (mesh_ es)) (face_edge (mesh_ es)))
     else face_edge_ es) ∧
  CopyMeshTables es' = es'.
Proof.
  destruct es as [m ev fv fe nv ned ne sets names index].
  destruct m as [NV NEd NE D mev mfv mfe gev gfv gfe vv f3 f4].
  unfold CopyMeshTables, GetNumSets. simpl.
  destruct (decide (Z.of_nat (length (sets EDGE)) > 0));
    destruct (decide (Z.of_nat (length (sets FACE)) > 0));
    destruct mev, mfv, mfe; simpl;
    rewrite ?decide_True by done; rewrite ?decide_False by done;
    repeat (split; [done|]); repeat case_decide; done.
Qed.

(** ** The FACE block of [HexUniformRefinement] *)

(** The child of face [f] at its corner [j], as the search of
    [HexUniformRefinement] finds it; negative when the search finds none. *)
Definition child_face (fv fe : option Table) (faces : Z → Z → Z → Z → Z)
    (oedge oface : Z) (f j : Z) : Z :=
  match (v ← row_ptr fv f;
         e ← row_ptr fe f;
         v0 ← row_at v j;
         face_search_k faces e oedge v0 (oface + f) 0 4) with
  | Ok r => r
  | _ => -1
  end.

Section face_group.
Context (fv fe : option Table) (faces : Z → Z → Z → Z → Z) (oedge oface : Z).

Local Abbreviation child := (child_face fv fe faces oedge oface).

(** What the block leaves in the slot of the parent and in the three new
    slots. *)
Definition face_first (f : Z) : Z :=
  if decide (child f 0 >= 0) then child f 0 else f.
Definition face_rest (f j : Z) : Z :=
  if decide (child f j >= 0) then child f j else 0.

Lemma hex_face_group_spec g :
  (∀ f, f ∈ g → face_rows fv fe f) →
  ∃ g', hex_face_group fv fe faces oedge oface g = Ok g' ∧
        Z.of_nat (length g') = 4 * Z.of_nat (length g) ∧
        ∀ i f, 0 ≤ i → g !! Z.to_nat i = Some f →
          g' !! Z.to_nat i = Some (face_first f) ∧
          ∀ j, 1 ≤ j ≤ 3 →
            g' !! Z.to_nat (Z.of_nat (length g) + 3 * i + j - 1)
            = Some (face_rest f j).
Proof.
  intros Hrows. unfold hex_face_group. rewrite resize_grow by lia.
  rewrite bind_Ok.
  set (n := Z.of_nat (length g)).
  match goal with |- context [for_range 0 n ?body ?init] =>
    destruct (for_range_inv
      (λ i (cur : list Z),
         Z.of_nat (length cur) = 4 * n ∧
         (∀ i' f, 0 ≤ i' < i → g !! Z.to_nat i' = Some f →
            cur !! Z.to_nat i' = Some (face_first f) ∧
            ∀ j, 1 ≤ j ≤ 3 →
              cur !! Z.to_nat (n + 3 * i' + j - 1) = Some (face_rest f j)) ∧
         (∀ i', i ≤ i' < n → cur !! Z.to_nat i' = g !! Z.to_nat i') ∧
         (∀ p, n + 3 * i ≤ p < 4 * n → cur !! Z.to_nat p = Some 0))
      0 n body init) as (cur & -> & Hlen & Hdone & _ & _) end.
  - lia.
  - split; [rewrite length_app, length_replicate; lia|].
    split; [intros; lia|]. split.
    + intros i' Hi'. apply lookup_app_l. lia.
    + intros p Hp. rewrite lookup_app_r by lia. apply lookup_replicate_2. lia.
  - intros i cur Hi (Hlen & Hdone & Hcur & Hzero).
    destruct (lookup_lt_is_Some_2 g (Z.to_nat i)) as [f Hf]; [lia|].
    rewrite (rd_lookup cur i f) by (rewrite ?Hcur; done || lia).
    rewrite bind_Ok.
    pose proof (Hrows f ltac:(by eapply list_elem_of_lookup_2)) as Hface.
    assert (∃ v e, row_ptr fv f = Ok v ∧ row_ptr fe f = Ok e ∧
                   ∀ k, 0 ≤ k < 4 → (∃ a, row_at v k = Ok a) ∧
                                    (∃ b, row_at e k = Ok b))
      as (v & e & Hv & He & Hcells).
    { destruct (Hface 0 ltac:(lia)) as [[a Ha] [b Hb]].
      unfold face_rows in Hface. unfold read_end in Ha, Hb, Hface.
      destruct (row_ptr fv f) as [v| |]; simpl in Ha; try done.
      destruct (row_ptr fe f) as [e| |]; simpl in Hb; try done.
      exists v, e. split; [done|]. split; [done|]. intros k Hk.
      apply (Hface k Hk). }
    rewrite Hv, He, !bind_Ok.
    assert (∀ j, 0 ≤ j < 4 →
              ∃ a, row_at v j = Ok a ∧
                   face_search_k faces e oedge a (oface + f) 0 4
                   = Ok (child f j)) as Hchild.
    { intros j Hj. destruct (Hcells j Hj) as [[a Ha] _]. exists a.
      split; [done|].
      destruct (face_search_k_Ok faces e oedge a (oface + f) 4 0) as [r Hr];
        [lia | lia | intros k' Hk'; apply Hcells; lia |].
      rewrite Hr. f_equal. unfold child_face. rewrite Hv, bind_Ok, He, bind_Ok.
      by rewrite Ha, bind_Ok, Hr. }
    match goal with |- context [for_range 0 4 ?body ?init] =>
      destruct (for_range_inv
        (λ (j : Z) (c : list Z),
           Z.of_nat (length c) = 4 * n ∧
           (∀ i' f, 0 ≤ i' < i → g !! Z.to_nat i' = Some f →
              c !! Z.to_nat i' = Some (face_first f) ∧
              ∀ j, 1 ≤ j ≤ 3 →
                c !! Z.to_nat (n + 3 * i' + j - 1) = Some (face_rest f j)) ∧
           (∀ i', i < i' < n → c !! Z.to_nat i' = g !! Z.to_nat i') ∧
           (∀ p, n + 3 * (i + 1) ≤ p < 4 * n → c !! Z.to_nat p = Some 0) ∧
           c !! Z.to_nat i = Some (if decide (0 < j) then face_first f else f) ∧
           (∀ j', 1 ≤ j' ≤ 3 →
              c !! Z.to_nat (n + 3 * i + j' - 1)
              = Some (if decide (j' < j) then face_rest f j' else 0)))
        0 4 body init) as (c & -> & Hlc & Hd & Hc & Hz & Hfirst & Hrest) end.
    + lia.
    + split; [done|]. split; [done|]. split; [intros; apply Hcur; lia|].
      split; [intros; apply Hzero; lia|]. split.
      * rewrite decide_False by lia. rewrite Hcur by lia. done.
      * intros j' Hj'. rewrite decide_False by lia. apply Hzero. lia.
    + intros j c Hj (Hlc & Hd & Hc & Hz & Hfirst & Hrest).
      destruct (Hchild j Hj) as (a & -> & Hs). rewrite bind_Ok.
      cbv zeta. rewrite Hs, bind_Ok.
      destruct (decide (child f j >= 0)) as [Hfound|Hnone].
      * destruct (decide (j = 0)) as [->|Hj0].
        -- rewrite wr_Ok by lia. eexists. split; [done|].
           rewrite length_insert. split; [done|]. split; [|split; [|split; [|split]]].
           ++ intros i' f' Hi' Hf'. destruct (Hd i' f' Hi' Hf') as [H1 H2].
              split; [by rewrite list_lookup_insert_ne by lia|].
              intros j' Hj'. rewrite list_lookup_insert_ne by lia. by apply H2.
           ++ intros i' Hi'. rewrite list_lookup_insert_ne by lia. by apply Hc.
           ++ intros p Hp. rewrite list_lookup_insert_ne by lia. by apply Hz.
           ++ rewrite list_lookup_insert_eq by lia. rewrite decide_True by lia.
              unfold face_first. by rewrite decide_True.
           ++ intros j' Hj'. rewrite list_lookup_insert_ne by lia.
              rewrite Hrest by done. by rewrite !decide_False by lia.
        -- rewrite wr_Ok by lia. eexists. split; [done|].
           rewrite length_insert. split; [done|]. split; [|split; [|split; [|split]]].
           ++ intros i' f' Hi' Hf'. destruct (Hd i' f' Hi' Hf') as [H1 H2].
              split; [by rewrite list_lookup_insert_ne by lia|].
              intros j' Hj'. rewrite list_lookup_insert_ne by lia. by apply H2.
           ++ intros i' Hi'. rewrite list_lookup_insert_ne by lia. by apply Hc.
           ++ intros p Hp. rewrite list_lookup_insert_ne by lia. by apply Hz.
           ++ rewrite list_lookup_insert_ne by lia. rewrite Hfirst.
              by rewrite !decide_True by lia.
           ++ intros j' Hj'. destruct (decide (j' = j)) as [->|Hne].
              ** rewrite list_lookup_insert_eq by lia.
                 rewrite decide_True by lia. unfold face_rest.
                 by rewrite decide_True.
              ** rewrite list_lookup_insert_ne by lia. rewrite Hrest by done.
                 repeat case_decide; try done; lia.
      * eexists. split; [done|]. split; [done|]. split; [done|].
        split; [done|]. split; [done|]. split.
        -- rewrite Hfirst. destruct (decide (j = 0)) as [->|Hj0].
           ++ rewrite decide_False by lia. rewrite decide_True by lia.
              unfold face_first. by rewrite decide_False.
           ++ by rewrite !decide_True by lia.
        -- intros j' Hj'. rewrite Hrest by done.
           destruct (decide (j' = j)) as [->|Hne].
           ++ rewrite decide_False by lia. rewrite decide_True by lia.
              unfold face_rest. by rewrite decide_False.
           ++ repeat case_decide; try done; lia.
    + exists c. split; [done|]. split; [done|]. split; [|split].
      * intros i' f' Hi' Hf'. destruct (decide (i' = i)) as [->|Hne].
        -- simplify_eq. rewrite decide_True in Hfirst by lia.
           split; [done|]. intros j' Hj'. rewrite Hrest by done.
           by rewrite decide_True by lia.
        -- apply Hd; [lia | done].
      * intros i' Hi'. apply Hc. lia.
      * intros p Hp. apply Hz. lia.
  - exists cur. split; [done|]. split; [done|].
    intros i f Hi Hf. apply Hdone; [|done].
    apply lookup_lt_Some in Hf. lia.
Qed.
End face_group.

(** The search for a child face probes the face table in the order
    [k = 0..3], [l = 1..3] and stops at the first face it knows. *)
Section face_search.
Context (faces : Z → Z → Z → Z → Z) (e : Table * Z) (oedge v0 v3 : Z).
Context (ek : Z → Z) (Hek : ∀ k, 0 ≤ k < 4 → row_at e k = Ok (ek k)).

(** The probe for the pair [(k, l)]. *)
Definition probe (k l : Z) : Z :=
  faces v0 (oedge + ek k) (oedge + ek ((k + l) `mod` 4)) v3.

Lemma face_search_l_spec k (n : nat) : ∀ l,
  0 ≤ k < 4 →
  let r := match face_search_l faces e oedge v0 (oedge + ek k) v3 k l n with
           | Ok r => r | _ => -1 end in
  face_search_l faces e oedge v0 (oedge + ek k) v3 k l n = Ok r ∧
  ((r >= 0 ∧ ∃ l', l ≤ l' < l + Z.of_nat n ∧ r = probe k l' ∧
                   ∀ l'', l ≤ l'' < l' → probe k l'' < 0) ∨
   (r = -1 ∧ ∀ l', l ≤ l' < l + Z.of_nat n → probe k l' < 0)).
Proof.
  induction n as [|n IH]; intros l Hk; simpl.
  - split; [done|]. right. split; [done|]. intros. lia.
  - rewrite Hek by (by apply Z.mod_pos_bound). simpl.
    fold (probe k l). destruct (decide (probe k l >= 0)) as [Hp|Hp].
    + split; [done|]. left. split; [done|]. exists l.
      split; [lia|]. split; [done|]. intros. lia.
    + destruct (IH (l + 1) Hk) as [Heq Hcases]. simpl in Heq, Hcases.
      split; [done|].
      destruct Hcases as [(Hr & l' & Hl' & Hrl & Hbefore)|(Hr & Hall)].
      * left. split; [done|]. exists l'. split; [lia|]. split; [done|].
        intros l'' Hl''. destruct (decide (l'' = l)) as [->|]; [lia|].
        apply Hbefore. lia.
      * right. split; [done|]. intros l' Hl'.
        destruct (decide (l' = l)) as [->|]; [lia|]. apply Hall. lia.
Qed.

Lemma face_search_k_spec (n : nat) : ∀ k,
  0 ≤ k → k + Z.of_nat n ≤ 4 →
  let r := match face_search_k faces e oedge v0 v3 k n with
           | Ok r => r | _ => -1 end in
  face_search_k faces e oedge v0 v3 k n = Ok r ∧
  ((r >= 0 ∧ ∃ k' l', k ≤ k' < k + Z.of_nat n ∧ 1 ≤ l' < 4 ∧ r = probe k' l' ∧
                      (∀ k'' l'', k ≤ k'' < k' → 1 ≤ l'' < 4 →
                                  probe k'' l'' < 0) ∧
                      (∀ l'', 1 ≤ l'' < l' → probe k' l'' < 0)) ∨
   (r = -1 ∧ ∀ k' l', k ≤ k' < k + Z.of_nat n → 1 ≤ l' < 4 →
                      probe k' l' < 0)).
Proof.
  induction n as [|n IH]; intros k Hk Hn.
  - simpl. split; [done|]. right. split; [done|]. intros. lia.
  - cbn [face_search_k]. rewrite Hek by lia. rewrite bind_Ok. cbv zeta.
    destruct (face_search_l_spec k 3 1 ltac:(lia)) as [Hl Hlc].
    cbv zeta in Hl, Hlc. rewrite Hl, bind_Ok.
    destruct Hlc as [(Hr & l' & Hl' & Hrl & Hbefore)|(Hr & Hall)].
    + rewrite decide_True by done. cbv zeta. split; [done|].
      left. split; [done|]. exists k, l'. split; [lia|]. split; [lia|].
      split; [done|]. split; [intros; lia|]. intros. apply Hbefore. lia.
    + rewrite decide_False by lia.
      destruct (IH (k + 1) ltac:(lia) ltac:(lia)) as [Heq Hcases].
      cbv zeta in Heq, Hcases. cbv zeta. split; [done|].
      destruct Hcases as [(Hr' & k' & l' & Hk' & Hl' & Hrl & Hbk & Hbl)|(Hr' & Hall')].
      * left. split; [done|]. exists k', l'. split; [lia|]. split; [done|].
        split; [done|]. split; [|done]. intros k'' l'' Hk'' Hl''.
        destruct (decide (k'' = k)) as [->|]; [apply Hall; lia|].
        apply Hbk; [lia | done].
      * right. split; [done|]. intros k' l' Hk' Hl'.
        destruct (decide (k' = k)) as [->|]; [apply Hall; lia|].
        apply Hall'; [lia | done].
Qed.
End face_search.

(** The child of a face [f] at its corner [j], for a face whose four
    corners [vj 0..3] and four edges [ek 0..3] are in the face tables: the
    search probes the face table with the quadruples (corner, mid-edge
    vertex of edge [k], mid-edge vertex of edge [(k+l) mod 4], mid-face
    vertex) in the order [k = 0..3], [l = 1..3]; the child is the value of
    the first probe that is not negative, and -1 when every probe is
    negative. *)
Theorem child_face_search (fv fe : option Table)
    (faces : Z → Z → Z → Z → Z) (oedge oface f j : Z) (vj ek : Z → Z) :
  (∀ k, 0 ≤ k < 4 → read_end fv f k = Ok (vj k)) →
  (∀ k, 0 ≤ k < 4 → read_end fe f k = Ok (ek k)) →
  0 ≤ j < 4 →
  let p := probe faces oedge (vj j) (oface + f) ek in
  let r := child_face fv fe faces oedge oface f j in
  (r >= 0 ∧ ∃ k l, 0 ≤ k < 4 ∧ 1 ≤ l < 4 ∧ r = p k l ∧
                   (∀ k' l', 0 ≤ k' < k → 1 ≤ l' < 4 → p k' l' < 0) ∧
                   (∀ l', 1 ≤ l' < l → p k l' < 0)) ∨
  (r = -1 ∧ ∀ k l, 0 ≤ k < 4 → 1 ≤ l < 4 → p k l < 0).
Proof.
  intros Hv He Hj p r. unfold r, child_face.
  pose proof (Hv 0 ltac:(lia)) as Hv0. pose proof (He 0 ltac:(lia)) as He0.
  unfold read_end in Hv, He, Hv0, He0.
  destruct (row_ptr fv f) as [v| |]; simpl in Hv0; try done.
  destruct (row_ptr fe f) as [e| |]; simpl in He0; try done.
  rewrite !bind_Ok. simpl in Hv, He. rewrite (Hv j Hj), bind_Ok.
  destruct (face_search_k_spec faces e oedge (vj j) (oface + f) ek He 4 0
              ltac:(lia) ltac:(lia)) as [Heq Hcases].
  cbv zeta in Hcases. clear Heq.
  destruct Hcases as [(Hr & k & l & Hk & Hl & Hrl & Hbk & Hbl)|(Hr & Hall)].
  - left. split; [done|]. exists k, l. split; [lia|]. split; [done|].
    split; [done|]. split; [|done]. intros k' l' Hk' Hl'. apply Hbk; [lia | done].
  - right. split; [done|]. intros k l Hk Hl. apply Hall; [lia | done].
Qed.

(** ** What the refinement passes leave alone *)

Lemma edge_block_frame es es1 :
  (if decide (GetNumSets es EDGE > 0) then
     gs ← for_each_set
            (refine_edge_group (edge_vertex_ es)
               (GetVertexToVertexTable (mesh_ es) (GetNV (mesh_ es)))
               (NumOfVertices_ es))
            (sets_ es EDGE);
     Ok (with_sets es EDGE gs)
   else Ok es) = Ok es1 →
  set_names_ es1 = set_names_ es ∧
  set_index_by_name_ es1 = set_index_by_name_ es ∧
  edge_vertex_ es1 = edge_vertex_ es.
Proof.
  case_decide; intros Heq; [|by simplify_eq].
  apply bind_Ok_inv in Heq as (gs & _ & Heq). by simplify_eq.
Qed.

(** The groups of faces after the FACE block. *)
Definition hex_faces (es : EntitySets) (g : list Z) : list Z :=
  match hex_face_group (face_vertex_ es) (face_edge_ es)
          (GetFacesTable4 (mesh_ es)) (NumOfVertices_ es)
          (NumOfVertices_ es + NumOfEdges_ es) g with
  | Ok g' => g'
  | _ => g
  end.

Lemma face_block es1 :
  faces_ok es1 →
  ∃ es2,
    (if decide (GetNumSets es1 FACE > 0) then
       gs ← for_each_set
              (hex_face_group (face_vertex_ es1) (face_edge_ es1)
                 (GetFacesTable4 (mesh_ es1)) (NumOfVertices_ es1)
                 (NumOfVertices_ es1 + NumOfEdges_ es1)) (sets_ es1 FACE);
       Ok (with_sets es1 FACE gs)
     else Ok es1) = Ok es2 ∧
    sets_ es2 FACE = hex_faces es1 <$> sets_ es1 FACE ∧
    (∀ t, t ≠ FACE → sets_ es2 t = sets_ es1 t) ∧
    set_names_ es2 = set_names_ es1 ∧
    set_index_by_name_ es2 = set_index_by_name_ es1 ∧
    mesh_ es2 = mesh_ es1 ∧ NumOfElements_ es2 = NumOfElements_ es1.
Proof.
  intros Hfok. case_decide as Hn.
  - rewrite (for_each_set_map _ (hex_faces es1)).
    + eexists. split; [done|]. rewrite sets_with_sets.
      rewrite decide_True by done. split; [done|]. split; [|done].
      intros t Ht. rewrite sets_with_sets. by rewrite decide_False.
    + intros g Hg. unfold hex_faces.
      destruct (hex_face_group_Ok (face_vertex_ es1) (face_edge_ es1)
        (GetFacesTable4 (mesh_ es1)) (NumOfVertices_ es1)
        (NumOfVertices_ es1 + NumOfEdges_ es1) g) as [g' Hg'].
      * intros fc Hfc. by apply (Hfok g).
      * by rewrite Hg'.
  - exists es1. split; [done|]. split; [|done].
    unfold GetNumSets in Hn. destruct (sets_ es1 FACE); [done|].
    simpl in Hn. lia.
Qed.

Lemma faces_ok_edge_block es es1 :
  faces_ok es → sets_ es1 FACE = sets_ es FACE →
  face_vertex_ es1 = face_vertex_ es → face_edge_ es1 = face_edge_ es →
  faces_ok es1.
Proof.
  intros Hf HS Hfv Hfe g f Hg Hin. rewrite Hfv, Hfe.
  apply (Hf g); [by rewrite <- HS | done].
Qed.

(** [QuadUniformRefinement] and [HexUniformRefinement], on an instance
    whose stored edges (and, for the second, faces) are rows of its
    tables, change neither the VERTEX groups nor any group name nor the name
    index nor the number of groups of any kind; the first also leaves the
    FACE groups as they are; and both leave the three counts equal to those
    of the mesh. *)
Theorem refinement_frame (es : EntitySets) :
  edges_ok es →
  (∃ es', QuadUniformRefinement es = Ok es' ∧
     sets_ es' VERTEX = sets_ es VERTEX ∧ sets_ es' FACE = sets_ es FACE ∧
     set_names_ es' = set_names_ es ∧
     set_index_by_name_ es' = set_index_by_name_ es ∧
     (∀ t, GetNumSets es' t = GetNumSets es t) ∧
     NumOfVertices_ es' = GetNV (mesh_ es) ∧
     NumOfEdges_ es' = GetNEdges (mesh_ es) ∧
     NumOfElements_ es' = GetNE (mesh_ es)) ∧
  (faces_ok es →
   ∃ es', HexUniformRefinement es = Ok es' ∧
     sets_ es' VERTEX = sets_ es VERTEX ∧
     set_names_ es' = set_names_ es ∧
     set_index_by_name_ es' = set_index_by_name_ es ∧
     (∀ t, GetNumSets es' t = GetNumSets es t) ∧
     NumOfVertices_ es' = GetNV (mesh_ es) ∧
     NumOfEdges_ es' = GetNEdges (mesh_ es) ∧
     NumOfElements_ es' = GetNE (mesh_ es)).
Proof.
  intros Hok.
  destruct (edge_block es Hok)
    as (es1 & Hes1 & HE & Hother & Hfv & Hfe & Hm & HNV & HNEd & HNE).
  destruct (edge_block_frame es es1 Hes1) as (Hnames & Hindex & _).
  assert (∀ t, length (sets_ es1 t) = length (sets_ es t)) as Hlen1.
  { intros t. destruct (decide (t = EDGE)) as [->|Hne].
    - by rewrite HE, length_fmap.
    - by rewrite Hother. }
  split.
  - unfold QuadUniformRefinement. rewrite Hes1, bind_Ok.
    rewrite (for_each_set_map _
               (λ g, g ++ (g ≫= quad_children (NumOfElements_ es1)))).
    2: { intros g _. apply quad_element_group_eq. }
    rewrite bind_Ok. eexists. split; [done|].
    pose proof (CopyMeshTables_fields
      (with_sets es1 ELEMENT
         ((λ g, g ++ (g ≫= quad_children (NumOfElements_ es1)))
            <$> sets_ es1 ELEMENT))) as HC.
    destruct HC as (HCs & HCn & HCi & HCv & HCe & HCl).
    rewrite HCs, HCn, HCi, HCv, HCe, HCl. simpl. rewrite Hm.
    rewrite !fn_lookup_insert_ne by done. rewrite !Hother by done.
    repeat (split; [done|]). split; [|done].
    intros t. unfold GetNumSets. rewrite sets_CopyMeshTables, sets_with_sets.
    f_equal. destruct (decide (ELEMENT = t)) as [<-|Hne].
    + rewrite length_fmap. by rewrite <- (Hother ELEMENT).
    + apply Hlen1.
  - intros Hfok. unfold HexUniformRefinement. rewrite Hes1, bind_Ok.
    pose proof (faces_ok_edge_block es es1 Hfok (Hother FACE ltac:(done))
                  Hfv Hfe) as Hfok1.
    destruct (face_block es1 Hfok1)
      as (es2 & -> & HF2 & Hother2 & Hnames2 & Hindex2 & Hm2 & HNE2).
    rewrite bind_Ok.
    rewrite (for_each_set_map _
               (λ g, g ++ (g ≫= hex_children (NumOfElements_ es2)))).
    2: { intros g _. apply hex_element_group_eq. }
    rewrite bind_Ok. eexists. split; [done|].
    pose proof (CopyMeshTables_fields
      (with_sets es2 ELEMENT
         ((λ g, g ++ (g ≫= hex_children (NumOfElements_ es2)))
            <$> sets_ es2 ELEMENT))) as HC.
    destruct HC as (HCs & HCn & HCi & HCv & HCe & HCl).
    rewrite HCs, HCn, HCi, HCv, HCe, HCl. simpl. rewrite Hm2, Hm.
    rewrite !fn_lookup_insert_ne by done.
    rewrite (Hother2 VERTEX), (Hother VERTEX) by done.
    rewrite Hnames2, Hindex2.
    repeat (split; [done|]). split; [|done].
    assert (∀ t, length (sets_ es2 t) = length (sets_ es t)) as Hlen2.
    { intros t. destruct (decide (t = FACE)) as [->|Hne].
      - by rewrite HF2, length_fmap.
      - by rewrite Hother2. }
    intros t. unfold GetNumSets. rewrite sets_CopyMeshTables, sets_with_sets.
    f_equal. destruct (decide (ELEMENT = t)) as [<-|Hne].
    + rewrite length_fmap. apply Hlen2.
    + apply Hlen2.
Qed.

(** [HexUniformRefinement] makes every FACE group four times larger: the
    slot [i] of a parent face [f] holds the child of [f] at its corner 0 when
    the search finds one, and [f] itself otherwise; the slots
    [n + 3i + j - 1], [j = 1, 2, 3], hold the child at corner [j] when the
    search finds one, and 0 otherwise. *)
Theorem face_groups_refined (es : EntitySets) :
  edges_ok es → faces_ok es →
  let child := child_face (face_vertex_ es) (face_edge_ es)
                 (GetFacesTable4 (mesh_ es)) (NumOfVertices_ es)
                 (NumOfVertices_ es + NumOfEdges_ es) in
  ∃ es', HexUniformRefinement es = Ok es' ∧
    length (sets_ es' FACE) = length (sets_ es FACE) ∧
    ∀ (s : nat) g, sets_ es FACE !! s = Some g →
      ∃ g', sets_ es' FACE !! s = Some g' ∧
            Z.of_nat (length g') = 4 * Z.of_nat (length g) ∧
            ∀ i f, 0 ≤ i → g !! Z.to_nat i = Some f →
              g' !! Z.to_nat i
              = Some (if decide (child f 0 >= 0) then child f 0 else f) ∧
              ∀ j, 1 ≤ j ≤ 3 →
                g' !! Z.to_nat (Z.of_nat (length g) + 3 * i + j - 1)
                = Some (if decide (child f j >= 0) then child f j else 0).
Proof.
  intros Hok Hfok child.
  destruct (edge_block es Hok)
    as (es1 & Hes1 & HE & Hother & Hfv & Hfe & Hm & HNV & HNEd & HNE).
  pose proof (faces_ok_edge_block es es1 Hfok (Hother FACE ltac:(done))
                Hfv Hfe) as Hfok1.
  unfold HexUniformRefinement. rewrite Hes1, bind_Ok.
  destruct (face_block es1 Hfok1)
    as (es2 & -> & HF2 & Hother2 & _ & _ & _ & _).
  rewrite bind_Ok.
  rewrite (for_each_set_map _
             (λ g, g ++ (g ≫= hex_children (NumOfElements_ es2)))).
  2: { intros g _. apply hex_element_group_eq. }
  rewrite bind_Ok. eexists. split; [done|].
  rewrite sets_CopyMeshTables, sets_with_sets, decide_False by done.
  rewrite HF2, (Hother FACE) by done.
  split; [by rewrite length_fmap|].
  intros s g Hg. rewrite list_lookup_fmap, Hg. simpl.
  eexists. split; [done|].
  unfold hex_faces. rewrite Hfv, Hfe, Hm, HNV, HNEd.
  destruct (hex_face_group_spec (face_vertex_ es) (face_edge_ es)
              (GetFacesTable4 (mesh_ es)) (NumOfVertices_ es)
              (NumOfVertices_ es + NumOfEdges_ es) g) as (g' & -> & Hlen & Hg').
  { intros f Hf. apply (Hfok g); [by eapply list_elem_of_lookup_2 | done]. }
  split; [done|]. exact Hg'.
Qed.

(** ** The two-phase build with [AddConnections] *)

(** The columns that the calls [cs] of [AddConnections], each a row and the
    columns it adds there, give to row [r], in the order of the calls. *)
Definition added (cs : list (Z * list Z)) (r : Z) : list Z :=
  filter (λ p, p.1 = r) cs ≫= snd.

(** The number of columns that the calls give to the rows before [r]. *)
Definition start (cs : list (Z * list Z)) (r : Z) : Z :=
  Z.of_nat (length (seqZ 0 r ≫= added cs)).

(** The second phase: [MakeJ], the calls of [AddConnections] and
    [ShiftUpI]. *)
Definition fill_rows (junk : nat → Z) (cs : list (Z * list Z)) (T : Table)
  : result Table :=
  T ← MakeJ junk T;
  T ← foldM (λ p T, AddConnections T p.1 p.2 (Z.of_nat (length p.2))) cs T;
  ShiftUpI T.

Lemma added_app cs ds r : added (cs ++ ds) r = added cs r ++ added ds r.
Proof. unfold added. by rewrite filter_app, bind_app. Qed.

Lemma added_snoc cs r' c r :
  added (cs ++ [(r', c)]) r = added cs r ++ (if decide (r' = r) then c else []).
Proof.
  rewrite added_app. f_equal. unfold added.
  destruct (decide (r' = r)) as [->|Hne].
  - rewrite filter_cons_True by done. simpl. by rewrite app_nil_r.
  - by rewrite filter_cons_False by done.
Qed.

Lemma elem_of_added cs r v : v ∈ added cs r ↔ ∃ c, (r, c) ∈ cs ∧ v ∈ c.
Proof.
  unfold added. rewrite list_elem_of_bind. split.
  - intros ([r' c] & Hv & [Hr Hin]%list_elem_of_filter). simpl in *. subst.
    eauto.
  - intros (c & Hin & Hv). exists (r, c). split; [done|].
    by apply list_elem_of_filter.
Qed.

Lemma start_0 cs : start cs 0 = 0.
Proof. done. Qed.

Lemma start_succ cs r :
  0 ≤ r → start cs (r + 1) = start cs r + Z.of_nat (length (added cs r)).
Proof.
  intros Hr. unfold start. rewrite seqZ_app by lia. rewrite bind_app.
  rewrite length_app.
  replace (seqZ (0 + r) 1) with [r] by (rewrite seqZ_cons by lia; simpl; f_equal; lia).
  simpl. rewrite app_nil_r. lia.
Qed.

Lemma start_mono cs a b : 0 ≤ a → a ≤ b → start cs a ≤ start cs b.
Proof.
  intros Ha Hab. replace b with (a + Z.of_nat (Z.to_nat (b - a))) by lia.
  induction (Z.to_nat (b - a)) as [|k IH].
  - replace (a + Z.of_nat 0) with a by lia. lia.
  - replace (a + Z.of_nat (S k)) with (a + Z.of_nat k + 1) by lia.
    rewrite start_succ by lia. lia.
Qed.

Section two_phase.
Context (junk : nat → Z) (n : Z) (cs : list (Z * list Z)).
Context (Hn : 0 ≤ n) (Hcs : ∀ p, p ∈ cs → 0 ≤ p.1 < n).

(** [MakeJ]: the counts become the row starts. *)
Lemma MakeJ_starts I1 J1 :
  Z.of_nat (length I1) = n + 1 →
  (∀ r, 0 ≤ r < n → I1 !! Z.to_nat r = Some (Z.of_nat (length (added cs r)))) →
  ∃ I2 J2, MakeJ junk (mkTable n I1 J1) = Ok (mkTable n I2 J2) ∧
           Z.of_nat (length I2) = n + 1 ∧ Z.of_nat (length J2) = start cs n ∧
           ∀ r, 0 ≤ r ≤ n → I2 !! Z.to_nat r = Some (start cs r).
Proof.
  intros Hlen Hcnt. unfold MakeJ. simpl.
  destruct (for_range_inv
    (λ i (s : list Z * Z), Z.of_nat (length s.1) = n + 1 ∧
       s.2 = start cs i ∧
       (∀ r, 0 ≤ r < i → s.1 !! Z.to_nat r = Some (start cs r)) ∧
       (∀ r, i ≤ r < n →
             s.1 !! Z.to_nat r = Some (Z.of_nat (length (added cs r)))))
    0 n (λ i '(I_, k), j ← rd I_ i; I_ ← wr I_ i k; Ok (I_, k + j))
    (I1, 0)) as ([I2 k] & -> & HP).
  - done.
  - simpl. split; [done|]. split; [done|].
    split; [intros; lia|]. intros r Hr. apply Hcnt. lia.
  - intros i [Ia k] Hi (HlI & Hk & Hdone & Hrest). simpl in *. subst k.
    rewrite (rd_lookup Ia i (Z.of_nat (length (added cs i))))
      by (apply Hrest || lia; lia).
    simpl. rewrite wr_Ok by lia. simpl. eexists. split; [done|]. simpl.
    rewrite length_insert. split; [done|].
    split; [by rewrite start_succ by lia|]. split.
    + intros r Hr. destruct (decide (r = i)) as [->|].
      * by rewrite list_lookup_insert_eq by lia.
      * rewrite list_lookup_insert_ne by lia. apply Hdone. lia.
    + intros r Hr. rewrite list_lookup_insert_ne by lia. apply Hrest. lia.
  - simpl in HP. destruct HP as (HlI & -> & Hdone & _).
    simpl. rewrite wr_Ok by lia. simpl.
    destruct (new_int_Ok junk (start cs n)) as (J2 & -> & HJ2);
      [unfold start; lia|]. simpl.
    eexists _, _. split; [done|]. rewrite length_insert.
    split; [done|]. split; [done|]. intros r Hr.
    destruct (decide (r = n)) as [->|].
    + by rewrite list_lookup_insert_eq by lia.
    + rewrite list_lookup_insert_ne by lia. apply Hdone. lia.
Qed.

(** The state between [MakeJ] and [ShiftUpI], after the calls [done]:
    [I[r]] is the cursor of row [r], and the slots of the row before the
    cursor hold the columns added so far. *)
Definition filling (done : list (Z * list Z)) (T : Table) : Prop :=
  Size T = n ∧ Z.of_nat (length (GetI T)) = n + 1 ∧
  Z.of_nat (length (GetJ T)) = start cs n ∧
  GetI T !! Z.to_nat n = Some (start cs n) ∧
  ∀ r, 0 ≤ r < n →
    GetI T !! Z.to_nat r
    = Some (start cs r + Z.of_nat (length (added done r))) ∧
    slice (GetJ T) (start cs r) (start cs r + Z.of_nat (length (added done r)))
    = added done r.

Lemma filling_room pre r c post :
  cs = pre ++ (r, c) :: post →
  ∀ r', 0 ≤ r' < n →
    0 ≤ start cs r' ∧
    start cs r' + Z.of_nat (length (added pre r'))
    + (if decide (r = r') then Z.of_nat (length c) else 0) ≤ start cs (r' + 1) ∧
    start cs (r' + 1) ≤ start cs n.
Proof.
  intros Hsplit r' Hr'.
  split; [unfold start; lia|]. split; [|apply start_mono; lia].
  rewrite start_succ by lia. rewrite Hsplit at 3.
  rewrite (added_app pre ((r, c) :: post) r'), length_app.
  change ((r, c) :: post) with ([(r, c)] ++ post).
  rewrite (added_app [(r, c)] post r'), length_app.
  assert (length (added [(r, c)] r')
          = if decide (r = r') then length c else O) as ->.
  { unfold added. case_decide.
    - rewrite filter_cons_True by done. simpl. by rewrite app_nil_r.
    - by rewrite filter_cons_False by done. }
  case_decide; lia.
Qed.

Lemma AddConnections_filling pre r c post T :
  cs = pre ++ (r, c) :: post → filling pre T →
  ∃ T', AddConnections T r c (Z.of_nat (length c)) = Ok T' ∧
        filling (pre ++ [(r, c)]) T'.
Proof.
  intros Hsplit (HSz & HlI & HlJ & Htop & Hrows).
  destruct T as [sz Ia Ja]. simpl in *. subst sz.
  assert (0 ≤ r < n) as Hr.
  { apply (Hcs (r, c)). rewrite Hsplit. apply elem_of_app. right. left. }
  pose proof (filling_room pre r c post Hsplit) as Hroom.
  destruct (Hrows r Hr) as [Hcur Hfill].
  set (pos := start cs r + Z.of_nat (length (added pre r))) in *.
  pose proof (Hroom r Hr) as (Hs0 & Hfit & Hend).
  rewrite decide_True in Hfit by done. fold pos in Hfit.
  unfold AddConnections. simpl.
  rewrite (rd_lookup Ia r pos) by (done || lia). simpl.
  destruct (for_range_inv
    (λ i (J_ : list Z), Z.of_nat (length J_) = start cs n ∧
       ∀ r', 0 ≤ r' < n →
         slice J_ (start cs r')
           (start cs r' + Z.of_nat (length (added pre r'))
            + (if decide (r = r') then i else 0))
         = added pre r' ++ (if decide (r = r') then take (Z.to_nat i) c else []))
    0 (Z.of_nat (length c)) (λ i J_, v ← rd c i; wr J_ (pos + i) v) Ja)
    as (J' & -> & HlJ' & HJ').
  - lia.
  - split; [done|]. intros r' Hr'. destruct (Hrows r' Hr') as [_ Hf].
    case_decide; rewrite Z.add_0_r, ?app_nil_r; done.
  - intros i J_ Hi (HlJ_ & HJ_).
    destruct (rd_in_range c i) as (v & -> & Hv); [lia|]. simpl.
    rewrite wr_Ok by lia. eexists. split; [done|].
    rewrite length_insert. split; [done|]. intros r' Hr'.
    pose proof (Hroom r' Hr') as (Hs0' & Hfit' & Hend').
    specialize (HJ_ r' Hr').
    destruct (decide (r = r')) as [<-|Hne].
    + replace (Z.to_nat (i + 1)) with (S (Z.to_nat i)) by lia.
      rewrite (take_S_r _ _ _ Hv), app_assoc. rewrite <- HJ_.
      fold pos. replace (pos + (i + 1)) with (pos + i + 1) by lia.
      apply slice_insert_snoc; lia.
    + rewrite Z.add_0_r, app_nil_r in *. etrans; [|exact HJ_].
      apply slice_insert_out; [done| |lia].
      destruct (decide (r < r')).
      * left. pose proof (start_mono cs (r + 1) r' ltac:(lia) ltac:(lia)). lia.
      * right. pose proof (start_mono cs (r' + 1) r ltac:(lia) ltac:(lia)).
        lia.
  - simpl. rewrite wr_Ok by lia. simpl. eexists. split; [done|].
    unfold filling. simpl. rewrite length_insert.
    split; [done|]. split; [done|]. split; [done|]. split.
    { destruct (decide (r = n)); [lia|].
      by rewrite list_lookup_insert_ne by lia. }
    intros r' Hr'. rewrite added_snoc, length_app.
    specialize (HJ' r' Hr'). destruct (Hrows r' Hr') as [Hcur' _].
    destruct (decide (r = r')) as [<-|Hne].
    + rewrite list_lookup_insert_eq by lia.
      split; [f_equal; unfold pos; lia|].
      rewrite Nat2Z.id, firstn_all in HJ'. rewrite <- HJ'. f_equal. lia.
    + rewrite list_lookup_insert_ne by lia. simpl.
      rewrite Nat.add_0_r. rewrite Z.add_0_r, app_nil_r in *. done.
Qed.

(** [ShiftUpI]: the cursors, each at the end of its row, become the row
    starts. *)
Lemma ShiftUpI_starts I2 J2 :
  Z.of_nat (length I2) = n + 1 →
  I2 !! Z.to_nat n = Some (start cs n) →
  (∀ r, 0 ≤ r < n → I2 !! Z.to_nat r = Some (start cs (r + 1))) →
  ∃ I3, ShiftUpI (mkTable n I2 J2) = Ok (mkTable n I3 J2) ∧
        Z.of_nat (length I3) = n + 1 ∧
        ∀ r, 0 ≤ r ≤ n → I3 !! Z.to_nat r = Some (start cs r).
Proof.
  intros Hlen Htop Hcur. unfold ShiftUpI. simpl.
  destruct (for_down_inv
    (λ i (b : list Z), Z.of_nat (length b) = n + 1 ∧
       ∀ r, 0 ≤ r ≤ n →
            b !! Z.to_nat r
            = Some (if decide (r ≤ i ∧ r < n) then start cs (r + 1)
                    else start cs r))
    n 0 (λ i I_, v ← rd I_ (i - 1); wr I_ i v) I2)
    as (b & -> & Hlb & HP).
  - done.
  - split; [done|]. intros r Hr. case_decide.
    + apply Hcur. lia.
    + assert (r = n) as -> by lia. done.
  - intros k b Hk (Hlb & Hb).
    rewrite (rd_lookup b (k - 1) (start cs k)).
    2: lia.
    2: { rewrite Hb by lia. rewrite decide_True by lia. do 2 f_equal. lia. }
    simpl. rewrite wr_Ok by lia. eexists. split; [done|].
    rewrite length_insert. split; [done|]. intros r Hr.
    destruct (decide (r = k)) as [->|Hne].
    + rewrite list_lookup_insert_eq by lia. by rewrite decide_False by lia.
    + rewrite list_lookup_insert_ne by lia. rewrite Hb by done.
      repeat case_decide; try done; lia.
  - simpl. rewrite wr_Ok by lia. simpl. eexists. split; [done|].
    rewrite length_insert. split; [done|]. intros r Hr.
    destruct (decide (r = 0)) as [->|Hne].
    + rewrite list_lookup_insert_eq by lia. done.
    + rewrite list_lookup_insert_ne by lia. rewrite HP by lia.
      by rewrite decide_False by lia.
Qed.

Lemma fill_rows_spec (T : Table) :
  Size T = n → Z.of_nat (length (GetI T)) = n + 1 →
  (∀ r, 0 ≤ r < n →
        GetI T !! Z.to_nat r = Some (Z.of_nat (length (added cs r)))) →
  ∃ T', fill_rows junk cs T = Ok T' ∧ Size T' = n ∧ csr T' ∧
        ∀ r, 0 ≤ r < n → row T' r = added cs r.
Proof.
  intros HSz HlI Hcnt. destruct T as [sz I1 J1]. simpl in *. subst sz.
  unfold fill_rows.
  destruct (MakeJ_starts I1 J1 HlI Hcnt) as (I2 & J2 & -> & HlI2 & HlJ2 & HI2).
  rewrite bind_Ok.
  destruct (foldM_inv filling
    (λ p T, AddConnections T p.1 p.2 (Z.of_nat (length p.2))) cs
    (mkTable n I2 J2)) as (T2 & -> & HT2).
  - unfold filling. simpl. split; [done|]. split; [done|]. split; [done|].
    split; [apply HI2; lia|]. intros r Hr.
    split; [rewrite HI2 by lia; f_equal; simpl; lia|].
    apply slice_nil. simpl. lia.
  - intros pre [r c] post T Hsplit HT. simpl.
    by apply (AddConnections_filling pre r c post).
  - rewrite bind_Ok. destruct T2 as [sz I3 J3].
    destruct HT2 as (HSz & HlI3 & HlJ3 & Htop & Hrows). simpl in *. subst sz.
    destruct (ShiftUpI_starts I3 J3 HlI3 Htop) as (I4 & -> & HlI4 & HI4).
    { intros r Hr. destruct (Hrows r Hr) as [-> _]. f_equal.
      by rewrite start_succ by lia. }
    eexists. split; [done|]. simpl. split; [done|]. split.
    + unfold csr. simpl. split; [done|]. split; [done|].
      split; [by apply (HI4 0)|]. split.
      * intros i a b Hi Ha Hb. rewrite HI4 in Ha, Hb by lia. simplify_eq.
        apply start_mono; lia.
      * rewrite HI4 by lia. f_equal. lia.
    + intros r Hr. unfold row. simpl. rewrite !HI4 by lia.
      destruct (Hrows r Hr) as [_ Hfill]. etrans; [|exact Hfill].
      by rewrite start_succ by lia.
Qed.
End two_phase.

(** When the row starts of a table hold, for each row, the number of
    columns that the calls [cs] of [AddConnections] will give it, then
    [MakeJ], the calls in any order of the rows, and [ShiftUpI] build the
    table whose row [r] lists the columns of the calls for row [r] in the
    order of the calls; the result does not depend on what the new or the
    old column array held. *)
Theorem AddConnections_build (junk : nat → Z) (T : Table)
    (cs : list (Z * list Z)) :
  0 ≤ Size T → Z.of_nat (length (GetI T)) = Size T + 1 →
  (∀ p, p ∈ cs → 0 ≤ p.1 < Size T) →
  (∀ r, 0 ≤ r < Size T →
        GetI T !! Z.to_nat r = Some (Z.of_nat (length (added cs r)))) →
  ∃ T', fill_rows junk cs T = Ok T' ∧ Size T' = Size T ∧ csr T' ∧
        (∀ r, 0 ≤ r < Size T → row T' r = filter (λ p, p.1 = r) cs ≫= snd) ∧
        (∀ r v, entry T' r v ↔ ∃ c, (r, c) ∈ cs ∧ v ∈ c) ∧
        (∀ junk' J', fill_rows junk' cs (mkTable (Size T) (GetI T) J') = Ok T').
Proof.
  intros Hn HlI Hcs Hcnt.
  destruct (fill_rows_spec junk (Size T) cs Hn Hcs T eq_refl HlI Hcnt)
    as (T' & HT' & HSz & Hcsr & Hrows).
  exists T'. split; [done|]. split; [done|]. split; [done|].
  split; [done|]. split.
  - intros r v. unfold entry. rewrite HSz. split.
    + intros [Hr Hv]. rewrite Hrows in Hv by done. by apply elem_of_added.
    + intros (c & Hin & Hv). pose proof (Hcs _ Hin) as Hr. simpl in Hr.
      split; [done|]. rewrite Hrows by done. apply elem_of_added. eauto.
  - intros junk' J'.
    destruct (fill_rows_spec junk' (Size T) cs Hn Hcs
                (mkTable (Size T) (GetI T) J') eq_refl HlI Hcnt)
      as (T'' & -> & HSz' & Hcsr' & Hrows').
    f_equal. apply csr_ext; [done | done | congruence |].
    intros i Hi. rewrite HSz' in Hi. by rewrite Hrows, Hrows'.
Qed.

(** * The accessors and the copy constructor of [EntitySets] *)

(** [MFEM_ASSERT(cond, msg)].
    Modelled from the spec: the macro is defined in general/error.hpp, which
    is absent; section 7 counts the invalid-argument assertions among the
    fatal conditions.  The condition is checked in a debug build only.  The
    assertions on the entity type cannot fail for a value of [EntityType]
    and are left out below. *)
Definition MFEM_ASSERT (MFEM_DEBUG : bool) (cond : bool) : result () :=
  if MFEM_DEBUG then MFEM_VERIFY cond else Ok ().

(** [const string & EntitySets::GetSetName(EntityType t, int s) const]. *)
Definition GetSetName (es : EntitySets) (t : EntityType) (s : Z)
  : result string :=
  rd_at (set_names_ es t) s.

(** [int EntitySets::GetSetIndex(EntityType t, const string & s) const]:
    for a name that the map does not hold, the iterator that is read is the
    end of the map. *)
Definition GetSetIndex (MFEM_DEBUG : bool) (es : EntitySets) (t : EntityType)
    (s : string) : result Z :=
  let mit := set_index_by_name_ es t !! s in
  _ ← MFEM_ASSERT MFEM_DEBUG (bool_decide (mit ≠ None));
  match mit with
  | Some i => Ok i
  | None => Fault
  end.

(** [unsigned int EntitySets::GetNumEntities(EntityType t, int s) const]. *)
Definition GetNumEntities (es : EntitySets) (t : EntityType) (s : Z)
  : result Z :=
  g ← rd_at (sets_ es t) s;
  Ok (Z.of_nat (length g)).

(** [unsigned int EntitySets::GetNumEntities(EntityType t,
    const std::string & s) const]. *)
Definition GetNumEntities_by_name (MFEM_DEBUG : bool) (es : EntitySets)
    (t : EntityType) (s : string) : result Z :=
  i ← GetSetIndex MFEM_DEBUG es t s;
  GetNumEntities es t i.

(** [int EntitySets::GetEntityIndex(EntityType t, int s, int i) const]. *)
Definition GetEntityIndex (es : EntitySets) (t : EntityType) (s i : Z)
  : result Z :=
  g ← rd_at (sets_ es t) s;
  rd g i.

(** [int EntitySets::GetEntityIndex(EntityType t, const string & s, int i)
    const]. *)
Definition GetEntityIndex_by_name (MFEM_DEBUG : bool) (es : EntitySets)
    (t : EntityType) (s : string) (i : Z) : result Z :=
  j ← GetSetIndex MFEM_DEBUG es t s;
  GetEntityIndex es t j i.

(** [void EntitySets::CopyEntitySets(const EntitySets & ent_sets,
    EntityType t)].  The element access [ent_sets(t, s, i)] is an operator
    of entsets.hpp, which is absent; it is the parameter [elem]. *)
Definition CopyEntitySets (elem : EntityType → Z → Z → result Z)
    (es ent_sets : EntitySets) (t : EntityType) : result EntitySets :=
  let ns := GetNumSets ent_sets t in
  sets ← resize [] (sets_ es t) ns;
  names ← resize ""%string (set_names_ es t) ns;
  '(sets, names, index) ←
    for_range 0 ns
      (λ s '(sets, names, index),
         ni ← GetNumEntities ent_sets t s;
         g ← rd_at sets s;
         g ← resize 0 g ni;
         sets ← wr_at sets s g;
         name ← GetSetName ent_sets t s;
         names ← wr_at names s name;
         name ← rd_at names s;
         let index := <[name := s]> index in
         g ← rd_at sets s;
         g ← for_range 0 ni (λ i g, v ← elem t s i; wr g i v) g;
         sets ← wr_at sets s g;
         Ok (sets, names, index))
      (sets, names, set_index_by_name_ es t);
  Ok (with_loaded es t sets names index).

(** [EntitySets::EntitySets(const EntitySets & ent_sets)].  The getters of
    [ent_sets] are members of entsets.hpp, and the copy constructor of
    [Table] a member of table.hpp, which are absent: [mesh] is the value of
    [ent_sets.GetMesh()], and [ev], [fv] and [fe] are the copies that
    [new Table(...)] makes of the tables that [GetEdgeVertexTable()],
    [GetFaceVertexTable()] and [GetFaceEdgeTable()] return, [None] for a
    null pointer. *)
Definition EntitySets_copy (mesh : Mesh) (ev fv fe : option Table)
    (elem : EntityType → Z → Z → result Z) (ent_sets : EntitySets)
  : result EntitySets :=
  let es := mkEntitySets mesh None None None
              (GetNV mesh) (GetNEdges mesh) (GetNE mesh)
              (λ _, []) (λ _, []) (λ _, ∅) in
  es ← CopyEntitySets elem es ent_sets VERTEX;
  es ← CopyEntitySets elem es ent_sets EDGE;
  es ← CopyEntitySets elem es ent_sets FACE;
  es ← CopyEntitySets elem es ent_sets ELEMENT;
  Ok (mkEntitySets (mesh_ es)
        (if ev is Some T then Some T else edge_vertex_ es)
        (if fv is Some T then Some T else face_vertex_ es)
        (if fe is Some T then Some T else face_edge_ es)
        (NumOfVertices_ es) (NumOfEdges_ es) (NumOfElements_ es)
        (sets_ es) (set_names_ es) (set_index_by_name_ es)).

(** The name index that the loops over the groups leave: every name of the
    list, from position [s] on, mapped to its position. *)
Fixpoint index_from (s : Z) (names : list string) (index : gmap string Z)
  : gmap string Z :=
  match names with
  | [] => index
  | n :: names => index_from (s + 1) names (<[n := s]> index)
  end.

(** [s] is the last position of [name] in [names]. *)
Definition last_named (names : list string) (name : string) (s : Z) : Prop :=
  0 ≤ s ∧ names !! Z.to_nat s = Some name ∧
  ∀ s', s < s' → names !! Z.to_nat s' ≠ Some name.

Lemma index_from_snoc s names n index :
  index_from s (names ++ [n]) index
  = <[n := s + Z.of_nat (length names)]> (index_from s names index).
Proof.
  revert s index. induction names as [|m names IH]; intros s index.
  - simpl. by rewrite Z.add_0_r.
  - rewrite <- app_comm_cons. cbn [index_from]. rewrite IH, length_cons.
    f_equal. lia.
Qed.

Lemma index_from_take names index (k : Z) n :
  0 ≤ k → names !! Z.to_nat k = Some n →
  index_from 0 (take (Z.to_nat (k + 1)) names) index
  = <[n := k]> (index_from 0 (take (Z.to_nat k) names) index).
Proof.
  intros Hk Hn. replace (Z.to_nat (k + 1)) with (S (Z.to_nat k)) by lia.
  rewrite (take_S_r _ _ _ Hn), index_from_snoc. f_equal.
  rewrite length_take. apply lookup_lt_Some in Hn. lia.
Qed.

Lemma index_from_lookup names index name :
  (∀ s, index_from 0 names index !! name = Some s ∧ name ∈ names
        ↔ last_named names name s) ∧
  (name ∉ names → index_from 0 names index !! name = index !! name).
Proof.
  induction names as [|n names IH] using rev_ind.
  - split; [|done]. intros s. split.
    + by intros [_ ?%elem_of_nil].
    + by intros (_ & ? & _).
  - destruct IH as [IH1 IH2]. rewrite index_from_snoc, Z.add_0_l.
    destruct (decide (n = name)) as [->|Hne].
    + rewrite lookup_insert_eq. split.
      * intros s. split.
        -- intros [[= <-] _]. split; [lia|]. split.
           ++ rewrite Nat2Z.id. by apply list_lookup_middle.
           ++ intros s' Hs' Hl. apply lookup_lt_Some in Hl.
              rewrite length_app in Hl. simpl in Hl. lia.
        -- intros (Hs & Hl & Hlast). split; [|apply elem_of_app; right; left].
           f_equal.
           destruct (decide (s < Z.of_nat (length names))) as [Hlt|Hge].
           ++ exfalso. apply (Hlast (Z.of_nat (length names)) Hlt).
              rewrite Nat2Z.id. by apply list_lookup_middle.
           ++ apply lookup_lt_Some in Hl. rewrite length_app in Hl.
              simpl in Hl. lia.
      * intros Hnot. exfalso. apply Hnot. apply elem_of_app. right. left.
    + rewrite lookup_insert_ne by done. split.
      * intros s. split.
        -- intros [Hi Hin]. apply elem_of_app in Hin as [Hin|Hin];
             [|by apply list_elem_of_singleton in Hin].
           destruct (proj1 (IH1 s) (conj Hi Hin)) as (Hs & Hl & Hlast).
           split; [done|]. split.
           ++ by apply lookup_app_l_Some.
           ++ intros s' Hs' Hl'.
              destruct (decide (Z.to_nat s' < length names)%nat).
              ** rewrite lookup_app_l in Hl' by done. by apply (Hlast s').
              ** rewrite lookup_app_r in Hl' by lia.
                 destruct (Z.to_nat s' - length names)%nat; simpl in Hl';
                   simplify_eq.
        -- intros (Hs & Hl & Hlast).
           assert (names !! Z.to_nat s = Some name) as Hl'.
           { destruct (decide (Z.to_nat s < length names)%nat).
             - by rewrite lookup_app_l in Hl.
             - rewrite lookup_app_r in Hl by lia.
               destruct (Z.to_nat s - length names)%nat; simpl in Hl;
                 simplify_eq. }
           assert (last_named names name s) as Hlast'.
           { split; [done|]. split; [done|]. intros s' Hs' Hl''.
             apply (Hlast s' Hs'). by apply lookup_app_l_Some. }
           apply IH1 in Hlast' as [Hi Hin]. split; [done|].
           apply elem_of_app. by left.
      * intros Hnot. apply IH2. intros Hin. apply Hnot.
        apply elem_of_app. by left.
Qed.

(** A loop that writes the cells of an array one after the other leaves
    the list of the values written. *)
Lemma fill_cells (f : Z → result Z) (l l0 : list Z) :
  length l0 = length l →
  (∀ i v, 0 ≤ i → l !! Z.to_nat i = Some v → f i = Ok v) →
  for_range 0 (Z.of_nat (length l)) (λ i g, v ← f i; wr g i v) l0 = Ok l.
Proof.
  intros Hlen Hf.
  destruct (for_range_inv
    (λ i (c : list Z), length c = length l ∧
       ∀ k, 0 ≤ k < i → c !! Z.to_nat k = l !! Z.to_nat k)
    0 (Z.of_nat (length l)) (λ i g, v ← f i; wr g i v) l0)
    as (c & -> & Hlc & Hc).
  - lia.
  - split; [done|]. intros; lia.
  - intros i c Hi (Hlc & Hc).
    destruct (lookup_lt_is_Some_2 l (Z.to_nat i)) as [v Hv]; [lia|].
    rewrite (Hf i v) by (done || lia). simpl.
    rewrite wr_Ok by lia. eexists. split; [done|].
    rewrite length_insert. split; [done|]. intros k Hk.
    destruct (decide (k = i)) as [->|Hne].
    + rewrite list_lookup_insert_eq by lia. done.
    + rewrite list_lookup_insert_ne by lia. apply Hc. lia.
  - f_equal. apply list_eq. intros k.
    destruct (decide (k < length l)%nat) as [Hk|Hk].
    + specialize (Hc (Z.of_nat k)). rewrite Nat2Z.id in Hc. apply Hc. lia.
    + rewrite !lookup_ge_None_2 by lia. done.
Qed.

Section copy.
Context (elem : EntityType → Z → Z → result Z) (ent_sets : EntitySets).
Context (Helem : ∀ t s i, elem t s i = GetEntityIndex ent_sets t s i).
Context (Hnames : ∀ t, length (set_names_ ent_sets t)
                       = length (sets_ ent_sets t)).

(** The loop that copies the elements of one group. *)
Lemma copy_group t s (g g0 : list Z) :
  0 ≤ s → sets_ ent_sets t !! Z.to_nat s = Some g → length g0 = length g →
  for_range 0 (Z.of_nat (length g)) (λ i g, v ← elem t s i; wr g i v) g0
  = Ok g.
Proof.
  intros Hs Hg Hlen. apply fill_cells; [done|]. intros i v Hi Hv.
  rewrite Helem. unfold GetEntityIndex.
  rewrite (rd_at_lookup _ s g) by done. simpl. by apply rd_lookup.
Qed.

(** One kind copied: the groups and the names of the source replace those
    of the object, and every name of the source enters the name index. *)
Lemma CopyEntitySets_eq es t :
  CopyEntitySets elem es ent_sets t
  = Ok (with_loaded es t (sets_ ent_sets t) (set_names_ ent_sets t)
          (index_from 0 (set_names_ ent_sets t) (set_index_by_name_ es t))).
Proof.
  unfold CopyEntitySets, GetNumSets.
  set (S0 := sets_ ent_sets t). set (N0 := set_names_ ent_sets t).
  set (ns := Z.of_nat (length S0)).
  assert (length N0 = length S0) as HlN by apply Hnames.
  unfold resize. rewrite !decide_True by lia. simpl.
  match goal with |- context [for_range 0 ns ?body ?init] =>
    destruct (for_range_inv
      (λ k (st : list (list Z) * list string * gmap string Z),
         let '(sets, names, index) := st in
         length sets = length S0 ∧ length names = length S0 ∧
         take (Z.to_nat k) sets = take (Z.to_nat k) S0 ∧
         take (Z.to_nat k) names = take (Z.to_nat k) N0 ∧
         index = index_from 0 (take (Z.to_nat k) N0) (set_index_by_name_ es t))
      0 ns body init)
      as ([[sets names] index] & -> & Hls & Hln & Hs & Hn & Hi)
  end.
  - lia.
  - rewrite !length_app, !length_take, !length_replicate.
    split; [lia|]. split; [lia|]. done.
  - intros k [[sets names] index] Hk (Hls & Hln & Hs & Hn & Hi).
    destruct (lookup_lt_is_Some_2 S0 (Z.to_nat k)) as [g Hg]; [lia|].
    destruct (lookup_lt_is_Some_2 N0 (Z.to_nat k)) as [n Hnm]; [lia|].
    destruct (lookup_lt_is_Some_2 sets (Z.to_nat k)) as [g0 Hg0]; [lia|].
    unfold GetNumEntities, GetSetName. fold S0 N0.
    rewrite (rd_at_lookup S0 k g) by (done || lia). simpl.
    rewrite (rd_at_lookup sets k g0) by (done || lia). simpl.
    rewrite decide_True by lia. simpl.
    rewrite wr_at_Ok by lia. simpl.
    rewrite (rd_at_lookup N0 k n) by (done || lia). simpl.
    rewrite wr_at_Ok by lia. simpl.
    rewrite (rd_at_lookup _ k n)
      by (lia || apply list_lookup_insert_eq; lia). simpl.
    match goal with |- context [rd_at (<[Z.to_nat k := ?x]> sets) k] =>
      rewrite (rd_at_lookup _ k x)
        by (lia || apply list_lookup_insert_eq; lia)
    end. simpl.
    rewrite (copy_group t k g) by
      (lia || done ||
       rewrite length_app, length_take, length_replicate; lia).
    simpl. rewrite wr_at_Ok by (rewrite length_insert; lia). simpl.
    eexists. split; [done|]. cbv beta iota. rewrite !length_insert.
    split; [done|]. split; [done|].
    replace (Z.to_nat (k + 1)) with (S (Z.to_nat k)) by lia.
    rewrite list_insert_insert_eq.
    split; [|split].
    + rewrite (take_S_r S0 _ g Hg).
      rewrite (take_S_r _ _ g) by (apply list_lookup_insert_eq; lia).
      rewrite take_insert_ge by lia. by rewrite Hs.
    + rewrite (take_S_r N0 _ n Hnm).
      rewrite (take_S_r _ _ n) by (apply list_lookup_insert_eq; lia).
      rewrite take_insert_ge by lia. by rewrite Hn.
    + replace (S (Z.to_nat k)) with (Z.to_nat (k + 1)) by lia.
      rewrite (index_from_take N0 _ k n) by (done || lia). by rewrite Hi.
  - simpl. do 2 f_equal.
    + rewrite <- (take_ge sets (Z.to_nat ns)) by lia.
      rewrite Hs. apply take_ge. lia.
    + rewrite <- (take_ge names (Z.to_nat ns)) by lia.
      rewrite Hn. apply take_ge. lia.
    + rewrite Hi. f_equal. apply take_ge. lia.
Qed.
End copy.

(** The copy constructor succeeds on an object that has a name for each of
    its groups.  The copy has the mesh, the groups, the names and the
    tables of the source; its three counts are those of the mesh, not those
    of the source; its name index maps a name to the last group that bears
    it and holds no other name, so a name that the source's index held
    without a group is not copied.  With distinct names, the index of the
    name of group [s] is [s]; and the accessors by name give, for the name
    of a group, what the accessors by index give for the group. *)
Theorem EntitySets_copy_groups (MFEM_DEBUG : bool)
    (elem : EntityType → Z → Z → result Z) (ent_sets : EntitySets) :
  (∀ t s i, elem t s i = GetEntityIndex ent_sets t s i) →
  (∀ t, length (set_names_ ent_sets t) = length (sets_ ent_sets t)) →
  ∃ es, EntitySets_copy (mesh_ ent_sets) (edge_vertex_ ent_sets)
          (face_vertex_ ent_sets) (face_edge_ ent_sets) elem ent_sets = Ok es ∧
    mesh_ es = mesh_ ent_sets ∧
    edge_vertex_ es = edge_vertex_ ent_sets ∧
    face_vertex_ es = face_vertex_ ent_sets ∧
    face_edge_ es = face_edge_ ent_sets ∧
    NumOfVertices_ es = GetNV (mesh_ ent_sets) ∧
    NumOfEdges_ es = GetNEdges (mesh_ ent_sets) ∧
    NumOfElements_ es = GetNE (mesh_ ent_sets) ∧
    (∀ t, sets_ es t = sets_ ent_sets t ∧
          set_names_ es t = set_names_ ent_sets t) ∧
    (∀ t name s, set_index_by_name_ es t !! name = Some s
                 ↔ last_named (set_names_ ent_sets t) name s) ∧
    (∀ t name, name ∉ set_names_ ent_sets t →
               ∀ s, GetSetIndex MFEM_DEBUG es t name ≠ Ok s) ∧
    (∀ t s name, NoDup (set_names_ ent_sets t) →
                 GetSetName es t s = Ok name →
                 GetSetIndex MFEM_DEBUG es t name = Ok s) ∧
    (∀ t name s, last_named (set_names_ ent_sets t) name s →
       GetNumEntities_by_name MFEM_DEBUG es t name
       = GetNumEntities ent_sets t s ∧
       ∀ i, GetEntityIndex_by_name MFEM_DEBUG es t name i
            = GetEntityIndex ent_sets t s i).
Proof.
  intros Helem Hnames. unfold EntitySets_copy.
  cbv zeta.
  repeat (rewrite (CopyEntitySets_eq elem ent_sets Helem Hnames);
          rewrite bind_Ok; cbv beta).
  eexists. split; [done|]. simpl.
  assert (∀ t, (<[ELEMENT:=sets_ ent_sets ELEMENT]>
                 (<[FACE:=sets_ ent_sets FACE]>
                   (<[EDGE:=sets_ ent_sets EDGE]>
                     (<[VERTEX:=sets_ ent_sets VERTEX]> (λ _, []))))) t
               = sets_ ent_sets t) as Hsets.
  { intros []; by repeat (rewrite fn_lookup_insert
                           || rewrite fn_lookup_insert_ne by done). }
  assert (∀ t, (<[ELEMENT:=set_names_ ent_sets ELEMENT]>
                 (<[FACE:=set_names_ ent_sets FACE]>
                   (<[EDGE:=set_names_ ent_sets EDGE]>
                     (<[VERTEX:=set_names_ ent_sets VERTEX]> (λ _, []))))) t
               = set_names_ ent_sets t) as Hnm.
  { intros []; by repeat (rewrite fn_lookup_insert
                           || rewrite fn_lookup_insert_ne by done). }
  match goal with |- context [mkEntitySets _ _ _ _ _ _ _ _ _ ?ix] =>
    assert (∀ t, ix t = index_from 0 (set_names_ ent_sets t) ∅) as Hix
  end.
  { intros []; by repeat (rewrite fn_lookup_insert
                           || rewrite fn_lookup_insert_ne by done). }
  assert (∀ t name s,
            index_from 0 (set_names_ ent_sets t) ∅ !! name = Some s
            ↔ last_named (set_names_ ent_sets t) name s) as Hlast.
  { intros t name s.
    destruct (index_from_lookup (set_names_ ent_sets t) ∅ name) as [H1 H2].
    rewrite <- H1. split; [|by intros [? _]]. intros Hi. split; [done|].
    destruct (decide (name ∈ set_names_ ent_sets t)) as [|Hnot]; [done|].
    rewrite (H2 Hnot) in Hi. by rewrite lookup_empty in Hi. }
  split; [done|].
  split; [by destruct (edge_vertex_ ent_sets)|].
  split; [by destruct (face_vertex_ ent_sets)|].
  split; [by destruct (face_edge_ ent_sets)|].
  split; [done|]. split; [done|]. split; [done|].
  split; [intros t; by rewrite Hsets, Hnm|].
  split; [intros t name s; by rewrite Hix|]. split; [|split].
  - intros t name Hnot s. unfold GetSetIndex. simpl. rewrite Hix.
    destruct (index_from_lookup (set_names_ ent_sets t) ∅ name) as [_ H2].
    rewrite (H2 Hnot), lookup_empty.
    destruct MFEM_DEBUG; simpl; done.
  - intros t s name Hnd Hname. unfold GetSetName in Hname. simpl in Hname.
    rewrite Hnm in Hname. unfold rd_at in Hname.
    case_decide as Hs; [|done].
    destruct (set_names_ ent_sets t !! Z.to_nat s) as [n|] eqn:Hl; [|done].
    simplify_eq.
    assert (last_named (set_names_ ent_sets t) name s) as Hl'.
    { split; [done|]. split; [done|]. intros s' Hs' Hl'.
      pose proof (NoDup_lookup _ _ _ _ Hnd Hl Hl'). lia. }
    apply Hlast in Hl'. unfold GetSetIndex. simpl. rewrite Hix, Hl'.
    rewrite bool_decide_true by done. by destruct MFEM_DEBUG.
  - intros t name s Hl. apply Hlast in Hl.
    unfold GetNumEntities_by_name, GetEntityIndex_by_name, GetSetIndex,
      GetNumEntities, GetEntityIndex. simpl. rewrite Hix, Hl, Hsets.
    rewrite bool_decide_true by done. by destruct MFEM_DEBUG.
Qed.

(** * [NCEntitySets]: the groups as tuples of vertices *)

(** Modelled from the spec: [Table::RowSize(int i)] is declared in
    table.hpp, which is absent; by section 3 row [i] occupies
    [columns[rowStart[i] .. rowStart[i+1])]. *)
Definition RowSize (T : option Table) (i : Z) : result Z :=
  match T with
  | Some T => lo ← rd (GetI T) i; hi ← rd (GetI T) (i + 1); Ok (hi - lo)
  | None => Fault
  end.

(** Modelled from the spec: [Swap] is a template of the headers of the
    library, which are absent; by section 4.5 the two vertices are swapped.
    [Swap g a b] exchanges the cells [a] and [b] of [g]. *)
Definition Swap (g : list Z) (a b : Z) : result (list Z) :=
  x ← rd g a;
  y ← rd g b;
  g ← wr g a y;
  wr g b x.

Module NC.

(** The object state of an [NCEntitySets]; the pointer [ncmesh_], which
    none of the functions at hand follows, is left out. *)
Record NCEntitySets : Type := mkNCEntitySets {
  sets_ : EntityType → list (list Z);
  set_names_ : EntityType → list string;
  set_index_by_name_ : EntityType → gmap string Z;
  entity_size_ : EntityType → Z;
}.

(** One of the four blocks of the constructor, which differ in the entity
    type [t], in the entity size and in the body [entity] of the loop over
    the entities of a group. *)
Definition block (ent_sets : EntitySets) (t : EntityType) (size : Z)
    (entity : Z → Z → list Z → result (list Z)) (nc : NCEntitySets)
  : result NCEntitySets :=
  let entity_size := <[t := size]> (entity_size_ nc) in
  let ns := GetNumSets ent_sets t in
  sets ← resize [] (sets_ nc t) ns;
  names ← resize ""%string (set_names_ nc t) ns;
  '(sets, names, index) ←
    for_range 0 ns
      (λ s '(sets, names, index),
         ni ← GetNumEntities ent_sets t s;
         g ← rd_at sets s;
         g ← resize 0 g (size * ni);
         sets ← wr_at sets s g;
         name ← GetSetName ent_sets t s;
         names ← wr_at names s name;
         name ← rd_at names s;
         let index := <[name := s]> index in
         g ← rd_at sets s;
         g ← for_range 0 ni (entity s) g;
         sets ← wr_at sets s g;
         Ok (sets, names, index))
      (sets, names, set_index_by_name_ nc t);
  Ok (mkNCEntitySets (<[t := sets]> (sets_ nc)) (<[t := names]> (set_names_ nc))
        (<[t := index]> (set_index_by_name_ nc)) entity_size).

(** The body for VERTEX and ELEMENT. *)
Definition index_entity (ent_sets : EntitySets) (t : EntityType) (s i : Z)
    (g : list Z) : result (list Z) :=
  v ← GetEntityIndex ent_sets t s i;
  wr g i v.

(** The body for EDGE. *)
Definition edge_entity (ent_sets : EntitySets) (s i : Z) (g : list Z)
  : result (list Z) :=
  edge ← GetEntityIndex ent_sets EDGE s i;
  v ← row_ptr (edge_vertex_ ent_sets) edge;
  v0 ← row_at v 0;
  g ← wr g (2 * i + 0) v0;
  v1 ← row_at v 1;
  wr g (2 * i + 1) v1.

(** The body for FACE.  [FindId] is [ncmesh.nodes.FindId], the edge index
    that the non-conforming mesh keeps, negative for a pair of vertices
    without an edge.  The face-vertex table is not written, so every [v[k]]
    is read once. *)
Definition face_entity (FindId : Z → Z → Z) (ent_sets : EntitySets) (s i : Z)
    (g : list Z) : result (list Z) :=
  face ← GetEntityIndex ent_sets FACE s i;
  v ← row_ptr (face_vertex_ ent_sets) face;
  nv ← RowSize (face_vertex_ ent_sets) face;
  v0 ← row_at v 0;
  g ← wr g (4 * i + 0) v0;
  v1 ← row_at v 1;
  g ← wr g (4 * i + 1) v1;
  v2 ← row_at v 2;
  g ← wr g (4 * i + 2) v2;
  if decide (nv > 3) then
    v3 ← row_at v 3;
    g ← wr g (4 * i + 3) v3;
    let e01 := FindId v0 v1 in
    let e03 := FindId v0 v3 in
    if decide (e01 < 0) then Swap g (4 * i + 1) (4 * i + 2)
    else if decide (e03 < 0) then Swap g (4 * i + 3) (4 * i + 2)
    else Ok g
  else wr g (4 * i + 3) (-1).

(** [NCEntitySets::NCEntitySets(const Mesh &mesh, const NCMesh &ncmesh)]:
    [ent_sets] is the object that [mesh.ent_sets] points to, [None] for a
    null pointer.  The messages that the constructor writes to [cout] are
    not part of the state. *)
Definition NCEntitySets_new (FindId : Z → Z → Z) (ent_sets : option EntitySets)
  : result NCEntitySets :=
  let nc := mkNCEntitySets (λ _, []) (λ _, []) (λ _, ∅) (λ _, 0) in
  match ent_sets with
  | Some es =>
      nc ← block es VERTEX 1 (index_entity es VERTEX) nc;
      nc ← block es EDGE 2 (edge_entity es) nc;
      nc ← block es FACE 4 (face_entity FindId es) nc;
      block es ELEMENT 1 (index_entity es ELEMENT) nc
  | None => Ok nc
  end.

(** [unsigned int NCEntitySets::GetNumSets(EntitySets::EntityType t)
    const]. *)
Definition GetNumSets (nc : NCEntitySets) (t : EntityType) : Z :=
  Z.of_nat (length (sets_ nc t)).

(** [int NCEntitySets::GetEntitySize(EntitySets::EntityType t) const]. *)
Definition GetEntitySize (nc : NCEntitySets) (t : EntityType) : Z :=
  entity_size_ nc t.

(** [const string & NCEntitySets::GetSetName(EntitySets::EntityType t,
    int s) const]. *)
Definition GetSetName (nc : NCEntitySets) (t : EntityType) (s : Z)
  : result string :=
  rd_at (set_names_ nc t) s.

(** [int NCEntitySets::GetSetIndex(EntitySets::EntityType t,
    const string & s) const]. *)
Definition GetSetIndex (MFEM_DEBUG : bool) (nc : NCEntitySets)
    (t : EntityType) (s : string) : result Z :=
  let mit := set_index_by_name_ nc t !! s in
  _ ← MFEM_ASSERT MFEM_DEBUG (bool_decide (mit ≠ None));
  match mit with
  | Some i => Ok i
  | None => Fault
  end.

(** [unsigned int NCEntitySets::GetNumEntities(EntitySets::EntityType t,
    int s) const]: the size of the group, a [size_t], is divided by the
    entity size, an [int] that converts to [size_t] (64 bits). *)
Definition GetNumEntities (nc : NCEntitySets) (t : EntityType) (s : Z)
  : result Z :=
  g ← rd_at (sets_ nc t) s;
  let d := entity_size_ nc t `mod` 2 ^ 64 in
  if decide (d = 0) then Fault else Ok (Z.of_nat (length g) `div` d).

(** [unsigned int NCEntitySets::GetNumEntities(EntitySets::EntityType t,
    const std::string & s) const]. *)
Definition GetNumEntities_by_name (MFEM_DEBUG : bool) (nc : NCEntitySets)
    (t : EntityType) (s : string) : result Z :=
  i ← GetSetIndex MFEM_DEBUG nc t s;
  GetNumEntities nc t i.

(** [void NCEntitySets::GetEntityIndex(EntitySets::EntityType t, int s,
    int i, Array<int> & inds) const].  The array [inds] (class [Array<int>]
    of array.hpp, which is absent) is the list of its cells;
    [inds.SetSize(n)] is the parameter [SetSize]. *)
Definition GetEntityIndex (SetSize : list Z → Z → result (list Z))
    (nc : NCEntitySets) (t : EntityType) (s i : Z) (inds : list Z)
  : result (list Z) :=
  inds ← SetSize inds (entity_size_ nc t);
  for_range 0 (entity_size_ nc t)
    (λ j inds,
       g ← rd_at (sets_ nc t) s;
       v ← rd g (entity_size_ nc t * i + j);
       wr inds j v) inds.

(** [void NCEntitySets::GetEntityIndex(EntitySets::EntityType t,
    const string & s, int i, Array<int> &inds) const]. *)
Definition GetEntityIndex_by_name (MFEM_DEBUG : bool)
    (SetSize : list Z → Z → result (list Z))
    (nc : NCEntitySets) (t : EntityType) (s : string) (i : Z) (inds : list Z)
  : result (list Z) :=
  j ← GetSetIndex MFEM_DEBUG nc t s;
  GetEntityIndex SetSize nc t j i inds.

End NC.

(** The number of vertices of face [f] as a value (0 where the table has
    no such row). *)
Definition row_size (fv : option Table) (f : Z) : Z :=
  match RowSize fv f with Ok n => n | _ => 0 end.

(** The two vertices that stand for edge [e]. *)
Definition edge_tuple (ev : option Table) (e : Z) : list Z :=
  [endpoint ev 0 e; endpoint ev 1 e].

(** The four vertices that stand for face [f]: the vertices of its row in
    the face-vertex table, with -1 in the last place for a triangle; for a
    quadrilateral, the second and the third vertex exchanged when no edge
    joins the first and the second, and else the third and the fourth
    exchanged when no edge joins the first and the fourth. *)
Definition face_tuple (FindId : Z → Z → Z) (fv : option Table) (f : Z)
  : list Z :=
  let v k := endpoint fv k f in
  if decide (row_size fv f > 3) then
    if decide (FindId (v 0) (v 1) < 0) then [v 0; v 2; v 1; v 3]
    else if decide (FindId (v 0) (v 3) < 0) then [v 0; v 1; v 3; v 2]
    else [v 0; v 1; v 2; v 3]
  else [v 0; v 1; v 2; -1].

(** Every face stored in a FACE group has a row in the face-vertex table
    with three vertices, and with a fourth when the row is longer. *)
Definition face_vertices_ok (es : EntitySets) : Prop :=
  ∀ g f, g ∈ sets_ es FACE → f ∈ g →
    ∃ nv, RowSize (face_vertex_ es) f = Ok nv ∧
          ∀ k, 0 ≤ k < 3 ∨ (k = 3 ∧ nv > 3) →
               ∃ a, read_end (face_vertex_ es) f k = Ok a.

Lemma lookup_bind_const (g : list Z) (f : Z → list Z) (w : nat) :
  (∀ e, length (f e) = w) →
  ∀ (i : nat) e (j : nat), g !! i = Some e → (j < w)%nat →
    (g ≫= f) !! (i * w + j)%nat = f e !! j.
Proof.
  intros Hw. induction g as [|a g IH]; intros i e j Hi Hj; [done|].
  rewrite bind_cons. destruct i as [|i]; simpl in Hi.
  - simplify_eq. rewrite lookup_app_l by (rewrite Hw; lia). done.
  - rewrite lookup_app_r by (rewrite Hw; lia). rewrite Hw.
    replace (S i * w + j - w)%nat with (i * w + j)%nat by lia. by apply IH.
Qed.

Lemma for_range_ext {S : Type} (body body' : Z → S → result S) lo hi s :
  (∀ k t, body k t = body' k t) →
  for_range lo hi body s = for_range lo hi body' s.
Proof.
  intros Hext. unfold for_range. generalize (Z.to_nat (hi - lo)) as n.
  intros n. revert lo s. induction n as [|n IH]; intros lo s; [done|].
  simpl. rewrite Hext. destruct (body' lo s); simpl; [apply IH | done..].
Qed.

Lemma rd_app_at (pre l : list Z) (k : nat) v p :
  p = Z.of_nat (length pre) + Z.of_nat k → l !! k = Some v →
  rd (pre ++ l) p = Ok v.
Proof.
  intros -> Hv. apply rd_lookup; [lia|].
  replace (Z.to_nat (Z.of_nat (length pre) + Z.of_nat k))
    with (length pre + k)%nat by lia.
  rewrite lookup_app_r by lia. rewrite <- Hv. f_equal. lia.
Qed.

(** A loop whose turn [i] writes the tuple of entity [i] into the cells
    [w*i .. w*i + w) leaves the tuples in a row. *)
Lemma fill_tuples (w : nat) (tuple : Z → list Z)
    (body : Z → list Z → result (list Z)) (g g0 : list Z) :
  (∀ e, length (tuple e) = w) →
  length g0 = (length g * w)%nat →
  (∀ i e pre old post, 0 ≤ i → g !! Z.to_nat i = Some e →
      Z.of_nat (length pre) = Z.of_nat w * i → length old = w →
      body i (pre ++ old ++ post) = Ok (pre ++ tuple e ++ post)) →
  for_range 0 (Z.of_nat (length g)) body g0 = Ok (g ≫= tuple).
Proof.
  intros Hw Hlen Hbody.
  destruct (for_range_inv
    (λ i (c : list Z),
       ∃ rest, c = (take (Z.to_nat i) g ≫= tuple) ++ rest ∧
               length rest = ((length g - Z.to_nat i) * w)%nat)
    0 (Z.of_nat (length g)) body g0) as (c & -> & rest & -> & Hrest).
  - lia.
  - exists g0. split; [done|]. rewrite Hlen. f_equal. lia.
  - intros i c Hi (rest & -> & Hrest).
    destruct (lookup_lt_is_Some_2 g (Z.to_nat i)) as [e He]; [lia|].
    rewrite <- (take_drop w rest).
    rewrite (Hbody i e _ (take w rest) (drop w rest)); [|lia|done| |].
    + eexists. split; [done|]. exists (drop w rest). split.
      * replace (Z.to_nat (i + 1)) with (S (Z.to_nat i)) by lia.
        rewrite (take_S_r _ _ _ He), bind_app. simpl.
        by rewrite app_nil_r, <- app_assoc.
      * rewrite length_drop, Hrest. nia.
    + rewrite (length_bind_const _ _ w Hw), length_take. nia.
    + rewrite length_take, Hrest. nia.
  - f_equal. rewrite Nat2Z.id, firstn_all in *.
    replace ((length g - length g) * w)%nat with O in Hrest by lia.
    destruct rest; [by rewrite app_nil_r | done].
Qed.

Section nc_blocks.
Context (FindId : Z → Z → Z) (src : EntitySets).
Context (Hnames : ∀ t, length (set_names_ src t) = length (sets_ src t)).

(** One block: the groups of the kind, rewritten by [F], the names of the
    source and its name index replace what the object held. *)
Lemma block_eq t (size : Z) entity (F : list Z → list Z) nc :
  0 ≤ size →
  (∀ s g g0, 0 ≤ s → sets_ src t !! Z.to_nat s = Some g →
     Z.of_nat (length g0) = size * Z.of_nat (length g) →
     for_range 0 (Z.of_nat (length g)) (entity s) g0 = Ok (F g)) →
  NC.block src t size entity nc
  = Ok (NC.mkNCEntitySets
          (<[t := F <$> sets_ src t]> (NC.sets_ nc))
          (<[t := set_names_ src t]> (NC.set_names_ nc))
          (<[t := index_from 0 (set_names_ src t)
                    (NC.set_index_by_name_ nc t)]> (NC.set_index_by_name_ nc))
          (<[t := size]> (NC.entity_size_ nc))).
Proof.
  intros Hsize Hfill. unfold NC.block, GetNumSets.
  set (S0 := sets_ src t). set (N0 := set_names_ src t).
  set (ns := Z.of_nat (length S0)).
  assert (length N0 = length S0) as HlN by apply Hnames.
  unfold resize. rewrite !decide_True by lia. simpl.
  match goal with |- context [for_range 0 ns ?body ?init] =>
    destruct (for_range_inv
      (λ k (st : list (list Z) * list string * gmap string Z),
         let '(sets, names, index) := st in
         length sets = length S0 ∧ length names = length S0 ∧
         take (Z.to_nat k) sets = F <$> take (Z.to_nat k) S0 ∧
         take (Z.to_nat k) names = take (Z.to_nat k) N0 ∧
         index = index_from 0 (take (Z.to_nat k) N0)
                   (NC.set_index_by_name_ nc t))
      0 ns body init)
      as ([[sets names] index] & -> & Hls & Hln & Hs & Hn & Hi)
  end.
  - lia.
  - rewrite !length_app, !length_take, !length_replicate.
    split; [lia|]. split; [lia|]. done.
  - intros k [[sets names] index] Hk (Hls & Hln & Hs & Hn & Hi).
    destruct (lookup_lt_is_Some_2 S0 (Z.to_nat k)) as [g Hg]; [lia|].
    destruct (lookup_lt_is_Some_2 N0 (Z.to_nat k)) as [n Hnm]; [lia|].
    destruct (lookup_lt_is_Some_2 sets (Z.to_nat k)) as [g0 Hg0]; [lia|].
    unfold GetNumEntities, GetSetName. fold S0 N0.
    rewrite (rd_at_lookup S0 k g) by (done || lia). simpl.
    rewrite (rd_at_lookup sets k g0) by (done || lia). simpl.
    rewrite decide_True by lia. simpl.
    rewrite wr_at_Ok by lia. simpl.
    rewrite (rd_at_lookup N0 k n) by (done || lia). simpl.
    rewrite wr_at_Ok by lia. simpl.
    rewrite (rd_at_lookup _ k n)
      by (lia || apply list_lookup_insert_eq; lia). simpl.
    match goal with |- context [rd_at (<[Z.to_nat k := ?x]> sets) k] =>
      rewrite (rd_at_lookup _ k x)
        by (lia || apply list_lookup_insert_eq; lia)
    end. simpl.
    rewrite (Hfill k g) by
      (lia || done ||
       rewrite length_app, length_take, length_replicate; lia).
    simpl. rewrite wr_at_Ok by (rewrite length_insert; lia). simpl.
    eexists. split; [done|]. cbv beta iota. rewrite !length_insert.
    split; [done|]. split; [done|].
    replace (Z.to_nat (k + 1)) with (S (Z.to_nat k)) by lia.
    rewrite list_insert_insert_eq.
    split; [|split].
    + rewrite (take_S_r S0 _ g Hg), fmap_app.
      rewrite (take_S_r _ _ (F g)) by (apply list_lookup_insert_eq; lia).
      rewrite take_insert_ge by lia. by rewrite Hs.
    + rewrite (take_S_r N0 _ n Hnm).
      rewrite (take_S_r _ _ n) by (apply list_lookup_insert_eq; lia).
      rewrite take_insert_ge by lia. by rewrite Hn.
    + replace (S (Z.to_nat k)) with (Z.to_nat (k + 1)) by lia.
      rewrite (index_from_take N0 _ k n) by (done || lia). by rewrite Hi.
  - simpl. f_equal. f_equal.
    + f_equal. rewrite <- (take_ge sets (Z.to_nat ns)) by lia.
      rewrite Hs. f_equal. apply take_ge. lia.
    + f_equal. rewrite <- (take_ge names (Z.to_nat ns)) by lia.
      rewrite Hn. apply take_ge. lia.
    + f_equal. rewrite Hi. f_equal. apply take_ge. lia.
Qed.

Lemma index_entities t s g g0 :
  0 ≤ s → sets_ src t !! Z.to_nat s = Some g →
  Z.of_nat (length g0) = 1 * Z.of_nat (length g) →
  for_range 0 (Z.of_nat (length g)) (NC.index_entity src t s) g0 = Ok g.
Proof.
  intros Hs Hg Hlen. apply fill_cells; [lia|]. intros i v Hi Hv.
  unfold GetEntityIndex. rewrite (rd_at_lookup _ s g) by done. simpl.
  by apply rd_lookup.
Qed.

Lemma edge_entities s g g0 :
  edges_ok src →
  0 ≤ s → sets_ src EDGE !! Z.to_nat s = Some g →
  Z.of_nat (length g0) = 2 * Z.of_nat (length g) →
  for_range 0 (Z.of_nat (length g)) (NC.edge_entity src s) g0
  = Ok (g ≫= edge_tuple (edge_vertex_ src)).
Proof.
  intros Hok Hs Hg Hlen. apply (fill_tuples 2); [done | lia |].
  intros i e pre old post Hi He Hpre Hold.
  destruct old as [|x0 [|x1 [|]]]; simpl in Hold; try lia.
  destruct (Hok g e) as (v0 & v1 & H0 & H1);
    [by eapply list_elem_of_lookup_2 | by eapply list_elem_of_lookup_2 |].
  unfold NC.edge_entity, GetEntityIndex.
  rewrite (rd_at_lookup _ s g) by done. simpl.
  rewrite (rd_lookup g i e) by done. simpl.
  unfold edge_tuple, endpoint. rewrite H0, H1.
  unfold read_end in H0, H1.
  destruct (row_ptr (edge_vertex_ src) e) as [v| |]; simpl in *; try done.
  rewrite H0. simpl.
  rewrite (wr_app_at pre _ 0) by (simpl; lia). simpl.
  rewrite H1. simpl.
  rewrite (wr_app_at pre _ 1) by (simpl; lia). done.
Qed.

Lemma face_entities s g g0 :
  face_vertices_ok src →
  0 ≤ s → sets_ src FACE !! Z.to_nat s = Some g →
  Z.of_nat (length g0) = 4 * Z.of_nat (length g) →
  for_range 0 (Z.of_nat (length g)) (NC.face_entity FindId src s) g0
  = Ok (g ≫= face_tuple FindId (face_vertex_ src)).
Proof.
  intros Hok Hs Hg Hlen. apply (fill_tuples 4); [|lia|].
  { intros e. unfold face_tuple. repeat case_decide; done. }
  intros i e pre old post Hi He Hpre Hold.
  destruct old as [|x0 [|x1 [|x2 [|x3 [|]]]]]; simpl in Hold; try lia.
  destruct (Hok g e) as (nv & Hnv & Hcells);
    [by eapply list_elem_of_lookup_2 | by eapply list_elem_of_lookup_2 |].
  destruct (Hcells 0) as [a0 H0]; [lia|].
  destruct (Hcells 1) as [a1 H1]; [lia|].
  destruct (Hcells 2) as [a2 H2]; [lia|].
  unfold NC.face_entity, GetEntityIndex.
  rewrite (rd_at_lookup _ s g) by done. simpl.
  rewrite (rd_lookup g i e) by done. simpl.
  unfold face_tuple, row_size, endpoint. rewrite Hnv, H0, H1, H2.
  destruct (decide (nv > 3)) as [Hquad|Htri].
  - destruct (Hcells 3) as [a3 H3]; [lia|]. rewrite H3.
    unfold read_end in H0, H1, H2, H3.
    destruct (row_ptr (face_vertex_ src) e) as [v| |]; simpl in *; try done.
    rewrite H0. simpl. rewrite (wr_app_at pre _ 0) by (simpl; lia). simpl.
    rewrite H1. simpl. rewrite (wr_app_at pre _ 1) by (simpl; lia). simpl.
    rewrite H2. simpl. rewrite (wr_app_at pre _ 2) by (simpl; lia). simpl.
    rewrite decide_True by done.
    rewrite H3. simpl. rewrite (wr_app_at pre _ 3) by (simpl; lia). simpl.
    destruct (decide (FindId a0 a1 < 0)); [|destruct (decide (FindId a0 a3 < 0))].
    + unfold Swap.
      rewrite (rd_app_at pre _ 1 a1 (4 * i + 1)) by (reflexivity || (simpl; lia)). simpl.
      rewrite (rd_app_at pre _ 2 a2 (4 * i + 2)) by (reflexivity || (simpl; lia)). simpl.
      rewrite (wr_app_at pre _ 1) by (simpl; lia). simpl.
      rewrite (wr_app_at pre _ 2) by (simpl; lia). done.
    + unfold Swap.
      rewrite (rd_app_at pre _ 3 a3 (4 * i + 3)) by (reflexivity || (simpl; lia)). simpl.
      rewrite (rd_app_at pre _ 2 a2 (4 * i + 2)) by (reflexivity || (simpl; lia)). simpl.
      rewrite (wr_app_at pre _ 3) by (simpl; lia). simpl.
      rewrite (wr_app_at pre _ 2) by (simpl; lia). done.
    + done.
  - unfold read_end in H0, H1, H2.
    destruct (row_ptr (face_vertex_ src) e) as [v| |]; simpl in *; try done.
    rewrite H0. simpl. rewrite (wr_app_at pre _ 0) by (simpl; lia). simpl.
    rewrite H1. simpl. rewrite (wr_app_at pre _ 1) by (simpl; lia). simpl.
    rewrite H2. simpl. rewrite (wr_app_at pre _ 2) by (simpl; lia). simpl.
    rewrite decide_False by done.
    rewrite (wr_app_at pre _ 3) by (simpl; lia). done.
Qed.
End nc_blocks.

(** The tuple that stands for entity [e] of kind [t]. *)
Definition entity_tuple (FindId : Z → Z → Z) (es : EntitySets)
    (t : EntityType) (e : Z) : list Z :=
  match t with
  | VERTEX | ELEMENT => [e]
  | EDGE => edge_tuple (edge_vertex_ es) e
  | FACE => face_tuple FindId (face_vertex_ es) e
  end.

(** The entity size of a kind. *)
Definition tuple_size (t : EntityType) : Z :=
  match t with VERTEX | ELEMENT => 1 | EDGE => 2 | FACE => 4 end.

Lemma length_entity_tuple FindId es t e :
  Z.of_nat (length (entity_tuple FindId es t e)) = tuple_size t.
Proof.
  destruct t; try done. unfold entity_tuple, face_tuple.
  repeat case_decide; done.
Qed.

(** The object that the constructor builds. *)
Lemma NCEntitySets_new_eq FindId (src : EntitySets) :
  (∀ t, length (set_names_ src t) = length (sets_ src t)) →
  edges_ok src → face_vertices_ok src →
  ∃ nc, NC.NCEntitySets_new FindId (Some src) = Ok nc ∧
        (∀ t, NC.sets_ nc t = (λ g, g ≫= entity_tuple FindId src t)
                                <$> sets_ src t) ∧
        (∀ t, NC.set_names_ nc t = set_names_ src t) ∧
        (∀ t, NC.set_index_by_name_ nc t
              = index_from 0 (set_names_ src t) ∅) ∧
        (∀ t, NC.entity_size_ nc t = tuple_size t).
Proof.
  intros Hnames He Hf. unfold NC.NCEntitySets_new. cbv zeta.
  rewrite (block_eq src Hnames VERTEX 1 _ id) by
    (lia || intros; by apply index_entities).
  rewrite bind_Ok. cbv beta.
  rewrite (block_eq src Hnames EDGE 2 _
             (λ g, g ≫= edge_tuple (edge_vertex_ src))) by
    (lia || intros; by apply edge_entities).
  rewrite bind_Ok. cbv beta.
  rewrite (block_eq src Hnames FACE 4 _
             (λ g, g ≫= face_tuple FindId (face_vertex_ src))) by
    (lia || intros; by apply face_entities).
  rewrite bind_Ok. cbv beta.
  rewrite (block_eq src Hnames ELEMENT 1 _ id) by
    (lia || intros; by apply index_entities).
  eexists. split; [done|]. simpl.
  assert (∀ g : list Z, g ≫= (λ e, [e]) = g) as Hid.
  { induction g as [|x g IH]; [done|]. rewrite bind_cons, IH. done. }
  split; [|split; [|split]].
  - intros []; repeat (rewrite fn_lookup_insert
                       || rewrite fn_lookup_insert_ne by done);
      try done; simpl;
      (etrans; [apply list_fmap_id|]); symmetry;
      (etrans; [|apply list_fmap_id]); apply list_fmap_ext;
      intros; apply Hid.
  - intros []; by repeat (rewrite fn_lookup_insert
                          || rewrite fn_lookup_insert_ne by done).
  - intros []; by repeat (rewrite fn_lookup_insert
                          || rewrite fn_lookup_insert_ne by done).
  - intros []; by repeat (rewrite fn_lookup_insert
                          || rewrite fn_lookup_insert_ne by done).
Qed.

(** From an [EntitySets] object that has a name for each of its groups and
    whose edges and faces have rows in the tables, the constructor builds
    an object with the same number of groups and the same names for every
    kind.  Its accessors give, for every group, the number of entities
    that the group has in the source, and for entity [i] of a group the
    tuple of its vertices: the index itself for VERTEX and ELEMENT, the two
    ends for EDGE, and for FACE the four vertices in normalised order, with
    -1 in the fourth place for a triangle.  The name of a group leads to
    the group, and the accessors by name give for it what the accessors by
    index give for the group. *)
Theorem NCEntitySets_tuples (MFEM_DEBUG : bool) (FindId : Z → Z → Z)
    (SetSize : list Z → Z → result (list Z)) (src : EntitySets) :
  (∀ a n, 0 ≤ n → ∃ a', SetSize a n = Ok a' ∧ Z.of_nat (length a') = n) →
  (∀ t, length (set_names_ src t) = length (sets_ src t)) →
  edges_ok src → face_vertices_ok src →
  ∃ nc, NC.NCEntitySets_new FindId (Some src) = Ok nc ∧
    (∀ t, NC.GetNumSets nc t = GetNumSets src t ∧
          NC.set_names_ nc t = set_names_ src t ∧
          NC.GetEntitySize nc t
          = match t with VERTEX | ELEMENT => 1 | EDGE => 2 | FACE => 4 end) ∧
    (∀ t s, NC.GetNumEntities nc t s = GetNumEntities src t s) ∧
    (∀ t s i e inds, 0 ≤ i → GetEntityIndex src t s i = Ok e →
       NC.GetEntityIndex SetSize nc t s i inds
       = Ok (match t with
             | VERTEX | ELEMENT => [e]
             | EDGE => [endpoint (edge_vertex_ src) 0 e;
                        endpoint (edge_vertex_ src) 1 e]
             | FACE => face_tuple FindId (face_vertex_ src) e
             end)) ∧
    (∀ t name s, NC.set_index_by_name_ nc t !! name = Some s
                 ↔ last_named (set_names_ src t) name s) ∧
    (∀ t name s, last_named (set_names_ src t) name s →
       NC.GetSetName nc t s = Ok name ∧
       NC.GetSetIndex MFEM_DEBUG nc t name = Ok s ∧
       NC.GetNumEntities_by_name MFEM_DEBUG nc t name
       = NC.GetNumEntities nc t s ∧
       ∀ i inds, NC.GetEntityIndex_by_name MFEM_DEBUG SetSize nc t name i inds
                 = NC.GetEntityIndex SetSize nc t s i inds).
Proof.
  intros HSetSize Hnames He Hf.
  destruct (NCEntitySets_new_eq FindId src Hnames He Hf)
    as (nc & Hnc & Hsets & Hnm & Hix & Hsz).
  assert (∀ t name s, NC.set_index_by_name_ nc t !! name = Some s
                      ↔ last_named (set_names_ src t) name s) as Hlast.
  { intros t name s. rewrite Hix.
    destruct (index_from_lookup (set_names_ src t) ∅ name) as [H1 H2].
    rewrite <- H1. split; [|by intros [? _]]. intros Hi. split; [done|].
    destruct (decide (name ∈ set_names_ src t)) as [|Hnot]; [done|].
    rewrite (H2 Hnot) in Hi. by rewrite lookup_empty in Hi. }
  exists nc. split; [done|]. split; [|split; [|split; [|split]]].
  - intros t. unfold NC.GetNumSets, GetNumSets, NC.GetEntitySize.
    rewrite Hsets, length_fmap, Hnm, Hsz. by destruct t.
  - intros t s. unfold NC.GetNumEntities, GetNumEntities, rd_at.
    rewrite Hsets, Hsz, list_lookup_fmap.
    destruct (decide (0 ≤ s)); [|done].
    destruct (sets_ src t !! Z.to_nat s) as [g|]; simpl; [|done].
    assert (tuple_size t `mod` 2 ^ 64 = tuple_size t) as -> by (by destruct t).
    rewrite decide_False by (by destruct t). f_equal.
    rewrite (length_bind_const g _ (Z.to_nat (tuple_size t))).
    2: { intros e. pose proof (length_entity_tuple FindId src t e). lia. }
    rewrite Nat2Z.inj_mul, Z2Nat.id by (by destruct t).
    apply Z.div_mul. by destruct t.
  - intros t s i e inds Hi Hget. unfold NC.GetEntityIndex.
    rewrite Hsz.
    destruct (HSetSize inds (tuple_size t)) as (inds0 & -> & Hl0);
      [by destruct t|].
    rewrite bind_Ok.
    unfold GetEntityIndex in Hget.
    apply bind_Ok_inv in Hget as (g & Hg & Hge).
    unfold rd_at in Hg. case_decide as Hs; [|done].
    destruct (sets_ src t !! Z.to_nat s) as [g'|] eqn:Hgs; [|done].
    simplify_eq. apply rd_Ok in Hge as [_ Hge].
    change (match t with
            | VERTEX | ELEMENT => [e]
            | EDGE => [endpoint (edge_vertex_ src) 0 e;
                       endpoint (edge_vertex_ src) 1 e]
            | FACE => face_tuple FindId (face_vertex_ src) e
            end) with (entity_tuple FindId src t e).
    pose proof (length_entity_tuple FindId src t e) as Hlt.
    rewrite (for_range_ext _
               (λ j inds, v ← rd (g ≫= entity_tuple FindId src t)
                                 (tuple_size t * i + j); wr inds j v)).
    2: { intros j c. rewrite Hsets. unfold rd_at.
         rewrite decide_True by done.
         by rewrite list_lookup_fmap, Hgs. }
    rewrite <- Hlt at 1.
    apply fill_cells; [lia|]. intros j v Hj Hv.
    apply rd_lookup; [destruct t; simpl; lia|]. rewrite <- Hv.
    pose proof (lookup_lt_Some _ _ _ Hv) as Hjlt.
    rewrite <- (lookup_bind_const g (entity_tuple FindId src t)
                  (Z.to_nat (tuple_size t)) ltac:(intros e'; pose proof
                    (length_entity_tuple FindId src t e'); lia)
                  (Z.to_nat i) e (Z.to_nat j) Hge ltac:(lia)).
    f_equal. destruct t; simpl; lia.
  - apply Hlast.
  - intros t name s Hl. pose proof Hl as (Hs & Hname & _).
    apply Hlast in Hl.
    assert (NC.GetSetIndex MFEM_DEBUG nc t name = Ok s) as Hget.
    { unfold NC.GetSetIndex. rewrite Hl. simpl. by destruct MFEM_DEBUG. }
    split; [|split; [done|split]].
    + unfold NC.GetSetName. rewrite Hnm. by apply rd_at_lookup.
    + unfold NC.GetNumEntities_by_name. by rewrite Hget.
    + intros i inds. unfold NC.GetEntityIndex_by_name. by rewrite Hget.
Qed.

(** * The names of the groups after [Load] *)

(** Every group has a name, and the name index finds, for every name that a
    group bears, the last group that bears it. *)
Definition names_resolve (es : EntitySets) : Prop :=
  ∀ t, length (set_names_ es t) = length (sets_ es t) ∧
       ∀ name s, last_named (set_names_ es t) name s →
                 set_index_by_name_ es t !! name = Some s.

(** What a loop that returns has kept. *)
Lemma iter_Ok_inv {S : Type} (P : Z → S → Prop) (body : Z → S → result S)
    n lo s s' :
  P lo s →
  (∀ k t t', lo ≤ k < lo + Z.of_nat n → P k t → body k t = Ok t' →
             P (k + 1) t') →
  iter body lo n s = Ok s' → P (lo + Z.of_nat n) s'.
Proof.
  revert lo s. induction n as [|n IH]; intros lo s H0 Hstep Hrun.
  - simpl in Hrun. simplify_eq. by replace (lo + Z.of_nat 0) with lo by lia.
  - simpl in Hrun. apply bind_Ok_inv in Hrun as (t & Hb & Hrun).
    replace (lo + Z.of_nat (Datatypes.S n)) with (lo + 1 + Z.of_nat n) by lia.
    apply (IH (lo + 1) t); [|intros k u u' Hk; apply Hstep; lia|done].
    apply (Hstep lo s t); [lia | done | done].
Qed.

Lemma for_range_Ok_inv {S : Type} (P : Z → S → Prop) lo hi
    (body : Z → S → result S) s s' :
  lo ≤ hi → P lo s →
  (∀ k t t', lo ≤ k < hi → P k t → body k t = Ok t' → P (k + 1) t') →
  for_range lo hi body s = Ok s' → P hi s'.
Proof.
  intros Hle H0 Hstep Hrun. unfold for_range in Hrun.
  replace hi with (lo + Z.of_nat (Z.to_nat (hi - lo))) at 1 by lia.
  apply (iter_Ok_inv P body _ lo s s'); [done| |done].
  intros k t t' Hk. apply Hstep. lia.
Qed.

Lemma wr_at_Ok_inv {A} (v : list A) i x v' :
  wr_at v i x = Ok v' →
  0 ≤ i < Z.of_nat (length v) ∧ v' = <[Z.to_nat i := x]> v.
Proof. unfold wr_at. case_decide; intros; simplify_eq. split; [lia|done]. Qed.

Lemma resize_Ok_inv {A} (d : A) (v : list A) n v' :
  resize d v n = Ok v' → 0 ≤ n ∧ Z.of_nat (length v') = n.
Proof.
  unfold resize. case_decide; intros; simplify_eq. split; [done|].
  rewrite length_app, length_take, length_replicate. lia.
Qed.

Section load_names.
Context {istream : Type} `{Input istream} (uninit : Z).

(** A section that has been read: the kind has as many names as groups,
    and every name that was read has entered the name index with the
    position of its group, a later group replacing an earlier one of the
    same name; nothing else of the object has changed. *)
Lemma LoadEntitySets_Ok_inv input es t header input' es' :
  LoadEntitySets uninit input es t header = Ok (input', es') →
  ∃ sets names,
    length names = length sets ∧
    es' = with_loaded es t sets names
            (index_from 0 names (set_index_by_name_ es t)).
Proof.
  unfold LoadEntitySets. intros HL.
  destruct (get_string "" (skip_comment_lines input hash)) as [ident input1].
  apply bind_Ok_inv in HL as (_ & _ & HL).
  destruct (get_int (-1) (skip_ws input1)) as [NumSets input2].
  apply bind_Ok_inv in HL as (sets0 & [HN Hl0]%resize_Ok_inv & HL).
  apply bind_Ok_inv in HL as (names0 & [_ Hn0]%resize_Ok_inv & HL).
  apply bind_Ok_inv in HL as ([[[[[[input3 ident3] ne] vars] sets3] names3] idx]
                               & Hloop & HL).
  injection HL as Hin Hes'. subst input' es'.
  apply (for_range_Ok_inv
    (λ k (st : istream * string * Z * face_vars * list (list Z)
               * list string * gmap string Z),
       let '(_, _, _, _, sets, names, index) := st in
       Z.of_nat (length sets) = NumSets ∧ Z.of_nat (length names) = NumSets ∧
       index = index_from 0 (take (Z.to_nat k) names)
                 (set_index_by_name_ es t))) in Hloop.
  - destruct Hloop as (Hls & Hln & ->). exists sets3, names3.
    split; [lia|]. do 2 f_equal. apply take_ge. lia.
  - done.
  - done.
  - intros k [[[[[[inp id] nE] vs] ss] ns] ix]
      [[[[[[inp' id'] nE'] vs'] ss'] ns'] ix'] Hk (Hls & Hln & Hix) Hbody.
    destruct (getline id inp) as [id1 inp1].
    apply bind_Ok_inv in Hbody as (ns1 & [_ ->]%wr_at_Ok_inv & Hbody).
    destruct (get_int nE inp1) as [nE1 inp2].
    apply bind_Ok_inv in Hbody as (g & _ & Hbody).
    apply bind_Ok_inv in Hbody as (g1 & _ & Hbody).
    apply bind_Ok_inv in Hbody as ([[inp3 vs3] g3] & _ & Hbody).
    apply bind_Ok_inv in Hbody as (ss1 & [_ ->]%wr_at_Ok_inv & Hbody).
    injection Hbody as ? ? ? ? ? ? ?. subst inp' id' nE' vs' ss' ns' ix'.
    cbv beta iota. rewrite !length_insert. split; [done|]. split; [done|].
    rewrite (index_from_take _ _ k (filter_dos id1))
      by (lia || apply list_lookup_insert_eq; lia).
    f_equal. f_equal. rewrite take_insert_ge by lia. done.
Qed.
End load_names.

Lemma names_resolve_with_loaded es t sets names :
  length names = length sets → names_resolve es →
  names_resolve (with_loaded es t sets names
                   (index_from 0 names (set_index_by_name_ es t))).
Proof.
  intros Hlen Hes t'. unfold with_loaded. simpl.
  destruct (decide (t = t')) as [<-|Hne].
  - rewrite !fn_lookup_insert. split; [done|]. intros name s Hlast.
    by apply (index_from_lookup names (set_index_by_name_ es t) name).
  - rewrite !fn_lookup_insert_ne by done. apply Hes.
Qed.

(** The name index holds no name but those of the groups. *)
Definition names_only (es : EntitySets) : Prop :=
  ∀ t name s, set_index_by_name_ es t !! name = Some s →
              last_named (set_names_ es t) name s.

Lemma names_only_with_loaded es t sets names :
  set_index_by_name_ es t = ∅ → names_only es →
  names_only (with_loaded es t sets names
                (index_from 0 names (set_index_by_name_ es t))).
Proof.
  intros Hempty Hes t'. unfold with_loaded. simpl.
  destruct (decide (t = t')) as [<-|Hne].
  - rewrite !fn_lookup_insert, Hempty. intros name s Hi.
    destruct (index_from_lookup names ∅ name) as [H1 H2].
    apply H1. split; [done|].
    destruct (decide (name ∈ names)) as [|Hnot]; [done|].
    rewrite (H2 Hnot) in Hi. by rewrite lookup_empty in Hi.
  - rewrite !fn_lookup_insert_ne by done. apply Hes.
Qed.

(** [Load], when it returns, leaves every kind with as many names as
    groups and a name index that finds, for every name that a group bears,
    the last group of that name; with distinct names, the index of the name
    of group [s] is [s].  On an object whose name index was empty, as the
    constructor leaves it, the index holds no other name afterwards. *)
Theorem Load_names_resolve {istream : Type} `{Input istream} (uninit : Z)
    (MFEM_DEBUG : bool) (input input' : istream) (es es' : EntitySets) :
  names_resolve es →
  Load uninit input es = Ok (input', es') →
  (∀ t, length (set_names_ es' t) = length (sets_ es' t)) ∧
  (∀ t name s, last_named (set_names_ es' t) name s →
               GetSetIndex MFEM_DEBUG es' t name = Ok s) ∧
  (∀ t s name, NoDup (set_names_ es' t) → GetSetName es' t s = Ok name →
               GetSetIndex MFEM_DEBUG es' t name = Ok s) ∧
  ((∀ t, set_index_by_name_ es t = ∅) →
   ∀ t name s, set_index_by_name_ es' t !! name = Some s →
               last_named (set_names_ es' t) name s).
Proof.
  intros Hes HL.
  assert (names_resolve es' ∧
          ((∀ t, set_index_by_name_ es t = ∅) → names_only es')) as [Hres Honly].
  { unfold Load in HL. destruct (stream_ok input); simpl in HL; [|done].
    destruct (getline "" (skip_ws input)) as [file_type input1].
    destruct (bool_decide (filter_dos file_type = "MFEM sets v1.0"%string)).
    2: { simplify_eq. split; [done|]. intros Hempty t name s.
         by rewrite Hempty, lookup_empty. }
    destruct (get_string "" (skip_comment_lines input1 hash))
      as [ident input2].
    apply bind_Ok_inv in HL as (_ & _ & HL).
    destruct (get_int (-1) (skip_ws input2)) as [Dim input3].
    apply bind_Ok_inv in HL as ([i1 e1] & H1 & HL).
    apply bind_Ok_inv in HL as ([i2 e2] & H2 & HL).
    apply bind_Ok_inv in HL as ([i3 e3] & H3 & HL).
    apply bind_Ok_inv in HL as ([i4 e4] & H4 & HL).
    simplify_eq.
    apply LoadEntitySets_Ok_inv in H1 as (s1 & n1 & Hl1 & ->).
    assert (∃ e2', e2 = e2' ∧ names_resolve e2' ∧
              ((∀ t, set_index_by_name_ es t = ∅) →
               names_only e2' ∧ set_index_by_name_ e2' FACE = ∅ ∧
               set_index_by_name_ e2' ELEMENT = ∅))
      as (e2' & -> & Hr2 & Ho2).
    { destruct (decide (Dim > 1)).
      - apply LoadEntitySets_Ok_inv in H2 as (s2 & n2 & Hl2 & ->).
        eexists. split; [done|]. split.
        + apply names_resolve_with_loaded; [done|].
          by apply names_resolve_with_loaded.
        + intros Hempty. split; [|split].
          * apply names_only_with_loaded; [by simpl;
              rewrite fn_lookup_insert_ne by done|].
            apply names_only_with_loaded; [done|].
            intros t name s. by rewrite Hempty, lookup_empty.
          * simpl. by rewrite !fn_lookup_insert_ne by done.
          * simpl. by rewrite !fn_lookup_insert_ne by done.
      - simplify_eq. eexists. split; [done|]. split.
        + by apply names_resolve_with_loaded.
        + intros Hempty. split; [|split].
          * apply names_only_with_loaded; [done|].
            intros t name s. by rewrite Hempty, lookup_empty.
          * simpl. by rewrite !fn_lookup_insert_ne by done.
          * simpl. by rewrite !fn_lookup_insert_ne by done. }
    assert (∃ e3', e3 = e3' ∧ names_resolve e3' ∧
              ((∀ t, set_index_by_name_ es t = ∅) →
               names_only e3' ∧ set_index_by_name_ e3' ELEMENT = ∅))
      as (e3' & -> & Hr3 & Ho3).
    { destruct (decide (Dim > 2)).
      - apply LoadEntitySets_Ok_inv in H3 as (s3 & n3 & Hl3 & ->).
        eexists. split; [done|]. split.
        + by apply names_resolve_with_loaded.
        + intros Hempty. destruct (Ho2 Hempty) as (Hon & HF & HE). split.
          * by apply names_only_with_loaded.
          * simpl. by rewrite !fn_lookup_insert_ne by done.
      - simplify_eq. eexists. split; [done|]. split; [done|].
        intros Hempty. by destruct (Ho2 Hempty) as (Hon & HF & HE). }
    apply LoadEntitySets_Ok_inv in H4 as (s4 & n4 & Hl4 & ->).
    split.
    - intros t.
      destruct (CopyMeshTables_fields
                  (with_loaded e3' ELEMENT s4 n4
                     (index_from 0 n4 (set_index_by_name_ e3' ELEMENT))))
        as (-> & -> & -> & _).
      by apply names_resolve_with_loaded.
    - intros Hempty t.
      destruct (CopyMeshTables_fields
                  (with_loaded e3' ELEMENT s4 n4
                     (index_from 0 n4 (set_index_by_name_ e3' ELEMENT))))
        as (_ & -> & -> & _).
      destruct (Ho3 Hempty) as (Hon & HE).
      by apply names_only_with_loaded. }
  split; [intros t; apply Hres|].
  assert (∀ t name s, last_named (set_names_ es' t) name s →
                      GetSetIndex MFEM_DEBUG es' t name = Ok s) as Hget.
  { intros t name s Hlast. unfold GetSetIndex.
    rewrite (proj2 (Hres t) name s Hlast). simpl.
    by destruct MFEM_DEBUG. }
  split; [done|]. split; [|done].
  intros t s name Hnd Hname. apply Hget.
  unfold GetSetName, rd_at in Hname. case_decide as Hs; [|done].
  destruct (set_names_ es' t !! Z.to_nat s) as [n|] eqn:Hl; [|done].
  simplify_eq. split; [done|]. split; [done|]. intros s' Hs' Hl'.
  pose proof (NoDup_lookup _ _ _ _ Hnd Hl Hl'). lia.
Qed.

(** * Rows as arrays *)

(** [void Table::GetRow(int i, Array<int> &row) const].  [GetRow(i)] and
    [RowSize(i)] are [row_ptr] and [RowSize]; the array [row] (class
    [Array<int>] of array.hpp, which is absent) is the list of its cells
    and [row.SetSize(n)] is the parameter [SetSize]. *)
Definition GetRow (SetSize : list Z → Z → result (list Z)) (T : Table) (i : Z)
    (row : list Z) : result (list Z) :=
  jp ← row_ptr (Some T) i;
  n ← RowSize (Some T) i;
  row ← SetSize row n;
  for_range 0 n (λ i row, v ← row_at jp i; wr row i v) row.

(** On a table in CSR shape [GetRow(i, row)] leaves in [row] the slots of
    row [i], unset ones included, in their order, whatever [row] held; there
    are [RowSize(i)] of them. *)
Theorem GetRow_slots (SetSize : list Z → Z → result (list Z)) (T : Table)
    (i : Z) (row0 : list Z) :
  (∀ a n, 0 ≤ n → ∃ a', SetSize a n = Ok a' ∧ Z.of_nat (length a') = n) →
  csr T → 0 ≤ i < Size T →
  GetRow SetSize T i row0 = Ok (row T i) ∧
  RowSize (Some T) i = Ok (Z.of_nat (length (row T i))) ∧
  ∀ j, entry T i j ↔ ∃ k : nat, row T i !! k = Some j.
Proof.
  intros HSetSize Hcsr Hi.
  destruct (csr_row T Hcsr i Hi) as (lo & hi & Hlo & Hhi & H0 & Hle & Hend & Hrow).
  assert (length (row T i) = Z.to_nat (hi - lo)) as Hlen
    by (rewrite Hrow; apply length_slice; lia).
  assert (RowSize (Some T) i = Ok (hi - lo)) as HRS.
  { unfold RowSize. rewrite (rd_lookup _ i lo) by (done || lia). simpl.
    by rewrite (rd_lookup _ (i + 1) hi) by (done || lia). }
  split; [|split].
  - unfold GetRow. rewrite HRS. unfold row_ptr.
    rewrite (rd_lookup _ i lo) by (done || lia). rewrite !bind_Ok.
    destruct (HSetSize row0 (hi - lo)) as (r0 & -> & Hr0); [lia|].
    rewrite bind_Ok.
    replace (hi - lo) with (Z.of_nat (length (row T i))) by lia.
    apply fill_cells; [lia|]. intros k v Hk Hv.
    unfold row_at. simpl. apply rd_lookup; [lia|]. rewrite <- Hv, Hrow.
    pose proof (lookup_lt_Some _ _ _ Hv) as Hlt.
    rewrite lookup_slice by lia. f_equal. lia.
  - rewrite HRS. f_equal. lia.
  - intros j. unfold entry. rewrite list_elem_of_lookup. tauto.
Qed.

(** * The groups derived from a non-conforming mesh *)

(** What [BuildEntitySets] uses of class [NCMesh], which is not part of the
    sources: the object that [ncent_sets] points to, and the refined edges,
    faces and elements.  [GetRefinedEdges a b] is the list that the call
    [GetRefinedEdges(a, b, ind_coll)] leaves in a fresh [BlockArray], taken
    as a function of the arguments of the call; likewise the two others. *)
Record NCMesh : Type := mkNCMesh {
  ncent_sets : NC.NCEntitySets;
  GetRefinedEdges : Z → Z → list Z;
  GetRefinedFaces : Z → Z → Z → Z → list Z;
  GetRefinedElements : Z → list Z;
}.

(** [for (j = 0; j < ind_coll.Size(); j++) set.Append(ind_coll[j])], a
    [BlockArray<int>] being the list of its cells. *)
Definition append_all (set ind_coll : list Z) : result (list Z) :=
  for_range 0 (Z.of_nat (length ind_coll))
    (λ j set, x ← rd ind_coll j; Ok (set ++ [x])) set.

(** The [switch] of [BuildEntitySets] for group [s] of [ni] entities, on
    the array [inds], the groups of the kind and the block array [set].
    The element access of the object [ncent_sets] at [(t, s, i)] is an
    operator of entsets.hpp, which is absent; it is the parameter
    [nc_elem]. *)
Definition build_set (SetSize : list Z → Z → result (list Z))
    (nc_elem : EntityType → Z → Z → result Z) (ncmesh : NCMesh)
    (t : EntityType) (s ni : Z) (st : list Z * list (list Z) * list Z)
  : result (list Z * list (list Z) * list Z) :=
  let '(inds, sets, set) := st in
  let nc := ncent_sets ncmesh in
  match t with
  | VERTEX =>
      g ← rd_at sets s;
      g ← resize 0 g ni;
      g ← for_range 0 ni (λ i g, v ← nc_elem t s i; wr g i v) g;
      sets ← wr_at sets s g;
      Ok (inds, sets, set)
  | EDGE =>
      '(inds, set) ←
        for_range 0 ni
          (λ i '(inds, set),
             inds ← NC.GetEntityIndex SetSize nc t s i inds;
             a ← rd inds 0;
             b ← rd inds 1;
             set ← append_all set (GetRefinedEdges ncmesh a b);
             Ok (inds, set)) (inds, set);
      Ok (inds, sets, set)
  | FACE =>
      '(inds, set) ←
        for_range 0 ni
          (λ i '(inds, set),
             inds ← NC.GetEntityIndex SetSize nc t s i inds;
             a ← rd inds 0;
             b ← rd inds 1;
             c ← rd inds 2;
             d ← rd inds 3;
             set ← append_all set (GetRefinedFaces ncmesh a b c d);
             Ok (inds, set)) (inds, set);
      Ok (inds, sets, set)
  | ELEMENT =>
      set ← for_range 0 ni
               (λ i set,
                  elem ← nc_elem t s i;
                  append_all set (GetRefinedElements ncmesh elem)) set;
      Ok (inds, sets, set)
  end.

(** [void EntitySets::BuildEntitySets(NCMesh &ncmesh, EntityType t)].  The
    array [inds] is allocated with [es] cells that are not initialised. *)
Definition BuildEntitySets (SetSize : list Z → Z → result (list Z))
    (nc_elem : EntityType → Z → Z → result Z) (junk : nat → Z)
    (ncmesh : NCMesh) (es : EntitySets) (t : EntityType)
  : result EntitySets :=
  let nc := ncent_sets ncmesh in
  let es_ := NC.GetEntitySize nc t in
  let ns := NC.GetNumSets nc t in
  inds ← new_int junk es_;
  sets ← resize [] (sets_ es t) ns;
  names ← resize ""%string (set_names_ es t) ns;
  '(inds, sets, names, index) ←
    for_range 0 ns
      (λ s '(inds, sets, names, index),
         ni ← NC.GetNumEntities nc t s;
         name ← NC.GetSetName nc t s;
         names ← wr_at names s name;
         name ← rd_at names s;
         let index := <[name := s]> index in
         '(inds, sets, set) ←
           build_set SetSize nc_elem ncmesh t s ni (inds, sets, []);
         sets ← (if decide (t ≠ VERTEX) then
                   g ← rd_at sets s;
                   g ← resize 0 g (Z.of_nat (length set));
                   g ← for_range 0 (Z.of_nat (length set))
                         (λ j g, v ← rd set j; wr g j v) g;
                   wr_at sets s g
                 else Ok sets);
         Ok (inds, sets, names, index))
      (inds, sets, names, set_index_by_name_ es t);
  Ok (with_loaded es t sets names index).

(** [EntitySets::EntitySets(Mesh & mesh, NCMesh &ncmesh)]. *)
Definition EntitySets_new_nc (SetSize : list Z → Z → result (list Z))
    (nc_elem : EntityType → Z → Z → result Z) (junk : nat → Z)
    (mesh : Mesh) (ncmesh : NCMesh) : result EntitySets :=
  let es := mkEntitySets mesh None None None
              (GetNV mesh) (GetNEdges mesh) (GetNE mesh)
              (λ _, []) (λ _, []) (λ _, ∅) in
  es ← BuildEntitySets SetSize nc_elem junk ncmesh es VERTEX;
  es ← BuildEntitySets SetSize nc_elem junk ncmesh es EDGE;
  es ← BuildEntitySets SetSize nc_elem junk ncmesh es FACE;
  BuildEntitySets SetSize nc_elem junk ncmesh es ELEMENT.

(** Cell [k] of a group (0 beyond its end). *)
Definition cell (g : list Z) (k : Z) : Z := default 0 (g !! Z.to_nat k).

(** The group that [BuildEntitySets] derives from the group [g] of tuples
    of kind [t]: the vertices as they are, and the refined edges, faces
    and elements of the tuples, in the order of the tuples. *)
Definition derived (ncmesh : NCMesh) (t : EntityType) (g : list Z) : list Z :=
  match t with
  | VERTEX => g
  | EDGE =>
      seqZ 0 (Z.of_nat (length g) `div` 2) ≫= λ i,
        GetRefinedEdges ncmesh (cell g (2 * i)) (cell g (2 * i + 1))
  | FACE =>
      seqZ 0 (Z.of_nat (length g) `div` 4) ≫= λ i,
        GetRefinedFaces ncmesh (cell g (4 * i)) (cell g (4 * i + 1))
          (cell g (4 * i + 2)) (cell g (4 * i + 3))
  | ELEMENT => g ≫= GetRefinedElements ncmesh
  end.

Lemma append_all_eq set ind_coll :
  append_all set ind_coll = Ok (set ++ ind_coll).
Proof.
  unfold append_all.
  destruct (for_range_inv
    (λ j (c : list Z), c = set ++ take (Z.to_nat j) ind_coll)
    0 (Z.of_nat (length ind_coll))
    (λ j set, x ← rd ind_coll j; Ok (set ++ [x])) set) as (c & -> & ->).
  - lia.
  - by rewrite app_nil_r.
  - intros j c Hj ->.
    destruct (rd_in_range ind_coll j) as (x & -> & Hx); [lia|]. simpl.
    eexists. split; [done|].
    replace (Z.to_nat (j + 1)) with (S (Z.to_nat j)) by lia.
    by rewrite (take_S_r _ _ _ Hx), app_assoc.
  - by rewrite Nat2Z.id, firstn_all.
Qed.

Lemma resize_Ok {A} (d : A) (v : list A) n :
  0 ≤ n →
  resize d v n
  = Ok (take (Z.to_nat n) v ++ replicate (Z.to_nat n - length v) d).
Proof. intros. unfold resize. by rewrite decide_True. Qed.

Lemma seqZ_snoc (n : Z) : 0 ≤ n → seqZ 0 (n + 1) = seqZ 0 n ++ [n].
Proof.
  intros Hn. rewrite seqZ_app by lia. by f_equal.
Qed.

Section build.
Context (SetSize : list Z → Z → result (list Z)).
Context (nc_elem : EntityType → Z → Z → result Z) (ncmesh : NCMesh).
Context (HSetSize : ∀ a n, 0 ≤ n →
           ∃ a', SetSize a n = Ok a' ∧ Z.of_nat (length a') = n).

Local Abbreviation nc := (ncent_sets ncmesh).

Context (Helem : ∀ t s i, nc_elem t s i
                          = g ← rd_at (NC.sets_ nc t) s; rd g i).
Context (Hsize : ∀ t, NC.entity_size_ nc t = tuple_size t).
Context (Hnames : ∀ t, length (NC.set_names_ nc t) = length (NC.sets_ nc t)).

(** The tuple [i] of a group, as [GetEntityIndex] returns it. *)
Lemma GetEntityIndex_tuple t s g i inds :
  0 ≤ s → NC.sets_ nc t !! Z.to_nat s = Some g →
  0 ≤ i → tuple_size t * i + tuple_size t ≤ Z.of_nat (length g) →
  NC.GetEntityIndex SetSize nc t s i inds
  = Ok (slice g (tuple_size t * i) (tuple_size t * i + tuple_size t)).
Proof.
  intros Hs Hg Hi Hfit. unfold NC.GetEntityIndex. rewrite Hsize.
  assert (0 < tuple_size t) as Hw by (by destruct t).
  destruct (HSetSize inds (tuple_size t)) as (inds0 & -> & Hl0); [lia|].
  rewrite bind_Ok.
  rewrite (for_range_ext _
             (λ j inds, v ← rd g (tuple_size t * i + j); wr inds j v)).
  2: { intros j c. unfold rd_at. rewrite decide_True by done.
       by rewrite Hg. }
  set (l := slice g (tuple_size t * i) (tuple_size t * i + tuple_size t)).
  assert (length l = Z.to_nat (tuple_size t)) as Hll.
  { unfold l. rewrite length_slice by nia. lia. }
  replace (tuple_size t) with (Z.of_nat (length l)) at 1 by lia.
  apply fill_cells; [lia|]. intros j v Hj Hv.
  pose proof (lookup_lt_Some _ _ _ Hv) as Hlt.
  apply rd_lookup; [nia|]. rewrite <- Hv. unfold l.
  rewrite lookup_slice by lia. f_equal. nia.
Qed.

Lemma lookup_cell g k v : 0 ≤ k → g !! Z.to_nat k = Some v → cell g k = v.
Proof. intros _ Hv. unfold cell. by rewrite Hv. Qed.

Lemma rd_tuple g (w i k : Z) :
  0 < w → 0 ≤ i → w * i + w ≤ Z.of_nat (length g) → 0 ≤ k < w →
  rd (slice g (w * i) (w * i + w)) k = Ok (cell g (w * i + k)).
Proof.
  intros Hw Hi Hfit Hk.
  destruct (lookup_lt_is_Some_2 g (Z.to_nat (w * i + k))) as [v Hv]; [nia|].
  rewrite (lookup_cell g _ v) by (done || nia).
  apply rd_lookup; [lia|]. rewrite lookup_slice by lia. rewrite <- Hv.
  f_equal. nia.
Qed.

(** The group that the [switch] and the copy of the block array leave for
    group [s]. *)
Lemma build_group t s g inds sets :
  0 ≤ s → NC.sets_ nc t !! Z.to_nat s = Some g →
  (Z.to_nat s < length sets)%nat →
  ∃ inds' set',
    build_set SetSize nc_elem ncmesh t s
      (Z.of_nat (length g) `div` tuple_size t) (inds, sets, [])
    = Ok (inds', (if decide (t ≠ VERTEX) then sets
                  else <[Z.to_nat s := derived ncmesh t g]> sets), set') ∧
    (t ≠ VERTEX → set' = derived ncmesh t g).
Proof.
  intros Hs Hg Hlt. unfold build_set.
  destruct (lookup_lt_is_Some_2 sets (Z.to_nat s)) as [g0 Hg0]; [lia|].
  destruct t.
  - rewrite Z.div_1_r. rewrite (rd_at_lookup sets s g0) by done. simpl.
    unfold resize. rewrite decide_True by lia. simpl.
    rewrite (fill_cells _ g).
    + simpl. rewrite wr_at_Ok by lia. simpl. eexists _, _.
      split; [done|]. by intros ?.
    + rewrite length_app, length_take, length_replicate. lia.
    + intros i v Hi Hv. rewrite Helem. unfold rd_at.
      rewrite decide_True by done. rewrite Hg. simpl. by apply rd_lookup.
  - change (tuple_size EDGE) with 2.
    set (ni := Z.of_nat (length g) `div` 2).
    assert (0 ≤ ni ∧ 2 * ni ≤ Z.of_nat (length g)) as [Hni Hfit].
    { unfold ni. split; [apply Z.div_pos; lia|].
      apply Z.mul_div_le. lia. }
    match goal with |- context [for_range 0 ni ?body ?init] =>
      destruct (for_range_inv
        (λ i (st : list Z * list Z),
           st.2 = seqZ 0 i ≫= λ i,
             GetRefinedEdges ncmesh (cell g (2 * i)) (cell g (2 * i + 1)))
        0 ni body init) as ([inds' set'] & -> & Hset)
    end.
    + done.
    + done.
    + intros i [inds1 set1] Hi Hset1. simpl in Hset1. subst set1.
      rewrite (GetEntityIndex_tuple EDGE s g i) by (done || simpl; lia).
      simpl. change (tuple_size EDGE) with 2.
      rewrite (rd_tuple g 2 i 0), (rd_tuple g 2 i 1) by lia. simpl.
      rewrite append_all_eq. simpl. eexists. split; [done|]. simpl.
      rewrite seqZ_snoc by lia. rewrite bind_app. simpl.
      rewrite app_nil_r, Z.add_0_r. done.
    + simpl in Hset. simpl. eexists _, _. split; [done|]. intros _. done.
  - change (tuple_size FACE) with 4.
    set (ni := Z.of_nat (length g) `div` 4).
    assert (0 ≤ ni ∧ 4 * ni ≤ Z.of_nat (length g)) as [Hni Hfit].
    { unfold ni. split; [apply Z.div_pos; lia|].
      apply Z.mul_div_le. lia. }
    match goal with |- context [for_range 0 ni ?body ?init] =>
      destruct (for_range_inv
        (λ i (st : list Z * list Z),
           st.2 = seqZ 0 i ≫= λ i,
             GetRefinedFaces ncmesh (cell g (4 * i)) (cell g (4 * i + 1))
               (cell g (4 * i + 2)) (cell g (4 * i + 3)))
        0 ni body init) as ([inds' set'] & -> & Hset)
    end.
    + done.
    + done.
    + intros i [inds1 set1] Hi Hset1. simpl in Hset1. subst set1.
      rewrite (GetEntityIndex_tuple FACE s g i) by (done || simpl; lia).
      simpl. change (tuple_size FACE) with 4.
      rewrite (rd_tuple g 4 i 0), (rd_tuple g 4 i 1),
        (rd_tuple g 4 i 2), (rd_tuple g 4 i 3) by lia. simpl.
      rewrite append_all_eq. simpl. eexists. split; [done|]. simpl.
      rewrite seqZ_snoc by lia. rewrite bind_app. simpl.
      rewrite app_nil_r, Z.add_0_r. done.
    + simpl in Hset. simpl. eexists _, _. split; [done|]. intros _. done.
  - rewrite Z.div_1_r.
    match goal with |- context [for_range 0 _ ?body ?init] =>
      destruct (for_range_inv
        (λ i (set : list Z),
           set = take (Z.to_nat i) g ≫= GetRefinedElements ncmesh)
        0 (Z.of_nat (length g)) body init) as (set' & -> & Hset)
    end.
    + lia.
    + done.
    + intros i set1 Hi ->.
      destruct (lookup_lt_is_Some_2 g (Z.to_nat i)) as [e He]; [lia|].
      rewrite Helem. unfold rd_at. rewrite decide_True by done.
      rewrite Hg. simpl. rewrite (rd_lookup g i e) by (done || lia). simpl.
      rewrite append_all_eq. eexists. split; [done|].
      replace (Z.to_nat (i + 1)) with (S (Z.to_nat i)) by lia.
      rewrite (take_S_r _ _ _ He), bind_app. simpl. by rewrite app_nil_r.
    + simpl. eexists _, _. split; [done|].
      intros _. by rewrite Hset, Nat2Z.id, firstn_all.
Qed.

(** One kind built: the derived groups, the names of the source and a name
    index that holds them replace what the object had for the kind. *)
Lemma BuildEntitySets_eq junk es t :
  BuildEntitySets SetSize nc_elem junk ncmesh es t
  = Ok (with_loaded es t (derived ncmesh t <$> NC.sets_ nc t)
          (NC.set_names_ nc t)
          (index_from 0 (NC.set_names_ nc t) (set_index_by_name_ es t))).
Proof.
  unfold BuildEntitySets, NC.GetNumSets, NC.GetEntitySize.
  set (S0 := NC.sets_ nc t). set (N0 := NC.set_names_ nc t).
  set (ns := Z.of_nat (length S0)).
  assert (length N0 = length S0) as HlN by apply Hnames.
  assert (0 < tuple_size t) as Hw by (by destruct t).
  rewrite Hsize.
  destruct (new_int_Ok junk (tuple_size t)) as (inds0 & -> & _); [lia|].
  rewrite bind_Ok.
  rewrite (resize_Ok [] (sets_ es t)) by lia. rewrite bind_Ok.
  rewrite (resize_Ok ""%string (set_names_ es t)) by lia. rewrite bind_Ok.
  match goal with |- context [for_range 0 ns ?body ?init] =>
    destruct (for_range_inv
      (λ k (st : list Z * list (list Z) * list string * gmap string Z),
         let '(_, sets, names, index) := st in
         length sets = length S0 ∧ length names = length S0 ∧
         take (Z.to_nat k) sets = derived ncmesh t <$> take (Z.to_nat k) S0 ∧
         take (Z.to_nat k) names = take (Z.to_nat k) N0 ∧
         index = index_from 0 (take (Z.to_nat k) N0)
                   (set_index_by_name_ es t))
      0 ns body init)
      as ([[[inds sets] names] index] & -> & Hls & Hln & Hs & Hn & Hi)
  end.
  - lia.
  - rewrite !length_app, !length_take, !length_replicate.
    split; [lia|]. split; [lia|]. done.
  - intros k [[[inds sets] names] index] Hk (Hls & Hln & Hs & Hn & Hi).
    destruct (lookup_lt_is_Some_2 S0 (Z.to_nat k)) as [g Hg]; [lia|].
    destruct (lookup_lt_is_Some_2 N0 (Z.to_nat k)) as [n Hnm]; [lia|].
    unfold NC.GetNumEntities, NC.GetSetName. fold S0 N0.
    rewrite (rd_at_lookup S0 k g) by (done || lia). rewrite bind_Ok.
    cbv zeta. rewrite Hsize.
    assert (tuple_size t `mod` 2 ^ 64 = tuple_size t) as ->
      by (by destruct t).
    rewrite decide_False by lia. rewrite bind_Ok.
    rewrite (rd_at_lookup N0 k n) by (done || lia). rewrite bind_Ok.
    rewrite wr_at_Ok by lia. rewrite bind_Ok.
    rewrite (rd_at_lookup _ k n)
      by (lia || apply list_lookup_insert_eq; lia). rewrite bind_Ok.
    destruct (build_group t k g inds sets) as (inds' & set' & -> & Hset');
      [lia | done | lia |].
    rewrite bind_Ok. cbv beta iota.
    assert (∃ sets',
      (if decide (t ≠ VERTEX) then
         g0 ← rd_at sets k;
         g0 ← resize 0 g0 (Z.of_nat (length set'));
         g0 ← for_range 0 (Z.of_nat (length set'))
                (λ j g1, v ← rd set' j; wr g1 j v) g0;
         wr_at sets k g0
       else Ok (<[Z.to_nat k := derived ncmesh t g]> sets)) = Ok sets' ∧
      sets' = <[Z.to_nat k := derived ncmesh t g]> sets) as (sets' & Hst & ->).
    { destruct (decide (t ≠ VERTEX)) as [Hne|_]; [|by eexists].
      rewrite (Hset' Hne).
      destruct (lookup_lt_is_Some_2 sets (Z.to_nat k)) as [g0 Hg0]; [lia|].
      rewrite (rd_at_lookup sets k g0) by (done || lia). rewrite bind_Ok.
      rewrite resize_Ok by lia. rewrite bind_Ok.
      rewrite (fill_cells _ (derived ncmesh t g)).
      - simpl. rewrite wr_at_Ok by lia. by eexists.
      - rewrite length_app, length_take, length_replicate. lia.
      - intros j v Hj Hv. by apply rd_lookup. }
    destruct (decide (t ≠ VERTEX)) as [Hne|Heq].
    + rewrite Hst. rewrite bind_Ok. eexists. split; [done|].
      cbv beta iota. rewrite !length_insert.
      split; [done|]. split; [done|].
      replace (Z.to_nat (k + 1)) with (S (Z.to_nat k)) by lia.
      split; [|split].
      * rewrite (take_S_r S0 _ g Hg), fmap_app.
        rewrite (take_S_r _ _ (derived ncmesh t g))
          by (apply list_lookup_insert_eq; lia).
        rewrite take_insert_ge by lia. by rewrite Hs.
      * rewrite (take_S_r N0 _ n Hnm).
        rewrite (take_S_r _ _ n) by (apply list_lookup_insert_eq; lia).
        rewrite take_insert_ge by lia. by rewrite Hn.
      * replace (S (Z.to_nat k)) with (Z.to_nat (k + 1)) by lia.
        rewrite (index_from_take N0 _ k n) by (done || lia). by rewrite Hi.
    + rewrite bind_Ok. eexists. split; [done|].
      cbv beta iota. rewrite !length_insert.
      split; [done|]. split; [done|].
      replace (Z.to_nat (k + 1)) with (S (Z.to_nat k)) by lia.
      split; [|split].
      * rewrite (take_S_r S0 _ g Hg), fmap_app.
        rewrite (take_S_r _ _ (derived ncmesh t g))
          by (apply list_lookup_insert_eq; lia).
        rewrite take_insert_ge by lia. by rewrite Hs.
      * rewrite (take_S_r N0 _ n Hnm).
        rewrite (take_S_r _ _ n) by (apply list_lookup_insert_eq; lia).
        rewrite take_insert_ge by lia. by rewrite Hn.
      * replace (S (Z.to_nat k)) with (Z.to_nat (k + 1)) by lia.
        rewrite (index_from_take N0 _ k n) by (done || lia). by rewrite Hi.
  - simpl. do 2 f_equal.
    + rewrite <- (take_ge sets (Z.to_nat ns)) by lia.
      rewrite Hs. f_equal. apply take_ge. lia.
    + rewrite <- (take_ge names (Z.to_nat ns)) by lia.
      rewrite Hn. apply take_ge. lia.
    + rewrite Hi. f_equal. apply take_ge. lia.
Qed.
End build.

(** The tuples that the constructor of [NCEntitySets] has made of the
    entities of a group, read back one by one. *)
Lemma derived_tuples FindId (src : EntitySets) ncmesh (g : list Z) t :
  derived ncmesh t (g ≫= entity_tuple FindId src t)
  = match t with
    | VERTEX => g
    | EDGE => g ≫= λ e, GetRefinedEdges ncmesh
                          (endpoint (edge_vertex_ src) 0 e)
                          (endpoint (edge_vertex_ src) 1 e)
    | FACE => g ≫= λ f,
        let v k := default 0 (face_tuple FindId (face_vertex_ src) f !! k) in
        GetRefinedFaces ncmesh (v 0%nat) (v 1%nat) (v 2%nat) (v 3%nat)
    | ELEMENT => g ≫= GetRefinedElements ncmesh
    end.
Proof.
  assert (∀ l : list Z, l ≫= (λ e, [e]) = l) as Hid.
  { induction l as [|x l IH]; [done|]. by rewrite bind_cons, IH. }
  assert (∀ (w : nat) (tuple : Z → list Z) (f : list Z → Z → list Z)
            (h : Z → list Z),
            (0 < w)%nat → (∀ e, length (tuple e) = w) →
            (∀ (l : list Z) i e, l !! i = Some e →
               f (l ≫= tuple) (Z.of_nat i) = h e) →
            ∀ l : list Z,
              seqZ 0 (Z.of_nat (length (l ≫= tuple)) `div` Z.of_nat w)
                ≫= f (l ≫= tuple)
              = l ≫= h) as Hgen.
  { intros w tuple f h Hw Hlen Hf l.
    rewrite (length_bind_const l tuple w Hlen).
    rewrite Nat2Z.inj_mul, Z.div_mul by lia.
    assert (∀ n : nat, (n ≤ length l)%nat →
              seqZ 0 (Z.of_nat n) ≫= f (l ≫= tuple) = take n l ≫= h) as Hn.
    { induction n as [|n IH]; intros Hle; [done|].
      destruct (lookup_lt_is_Some_2 l n) as [e He]; [lia|].
      rewrite Nat2Z.inj_succ, <- Z.add_1_r, seqZ_snoc by lia.
      rewrite bind_app, IH by lia. rewrite (take_S_r _ _ _ He), bind_app.
      simpl. rewrite !app_nil_r. f_equal. by apply Hf. }
    rewrite Hn by lia. by rewrite firstn_all. }
  destruct t; simpl.
  - apply Hid.
  - apply (Hgen 2%nat (edge_tuple (edge_vertex_ src))
             (λ l i, GetRefinedEdges ncmesh (cell l (2 * i))
                       (cell l (2 * i + 1)))
             (λ e, GetRefinedEdges ncmesh (endpoint (edge_vertex_ src) 0 e)
                     (endpoint (edge_vertex_ src) 1 e))); [lia | done |].
    intros l i e He. unfold cell.
    replace (Z.to_nat (2 * Z.of_nat i)) with (i * 2 + 0)%nat by lia.
    replace (Z.to_nat (2 * Z.of_nat i + 1)) with (i * 2 + 1)%nat by lia.
    rewrite (lookup_bind_const l (edge_tuple (edge_vertex_ src)) 2
               (λ _, eq_refl) i e 0 He) by lia.
    rewrite (lookup_bind_const l (edge_tuple (edge_vertex_ src)) 2
               (λ _, eq_refl) i e 1 He) by lia.
    done.
  - apply (Hgen 4%nat (face_tuple FindId (face_vertex_ src))
             (λ l i, GetRefinedFaces ncmesh (cell l (4 * i))
                       (cell l (4 * i + 1)) (cell l (4 * i + 2))
                       (cell l (4 * i + 3)))
             (λ f, GetRefinedFaces ncmesh
                     (default 0 (face_tuple FindId (face_vertex_ src) f !! 0%nat))
                     (default 0 (face_tuple FindId (face_vertex_ src) f !! 1%nat))
                     (default 0 (face_tuple FindId (face_vertex_ src) f !! 2%nat))
                     (default 0 (face_tuple FindId (face_vertex_ src) f !! 3%nat))));
      [lia| |].
    { intros e. unfold face_tuple. repeat case_decide; done. }
    intros l i e He. unfold cell.
    replace (Z.to_nat (4 * Z.of_nat i)) with (i * 4 + 0)%nat by lia.
    replace (Z.to_nat (4 * Z.of_nat i + 1)) with (i * 4 + 1)%nat by lia.
    replace (Z.to_nat (4 * Z.of_nat i + 2)) with (i * 4 + 2)%nat by lia.
    replace (Z.to_nat (4 * Z.of_nat i + 3)) with (i * 4 + 3)%nat by lia.
    assert (∀ e', length (face_tuple FindId (face_vertex_ src) e') = 4%nat)
      as Hlen by (intros e'; unfold face_tuple; repeat case_decide; done).
    rewrite (lookup_bind_const l _ 4 Hlen i e 0 He) by lia.
    rewrite (lookup_bind_const l _ 4 Hlen i e 1 He) by lia.
    rewrite (lookup_bind_const l _ 4 Hlen i e 2 He) by lia.
    rewrite (lookup_bind_const l _ 4 Hlen i e 3 He) by lia.
    done.
  - by rewrite Hid.
Qed.

(** From an [EntitySets] object to the [NCEntitySets] object of a
    non-conforming mesh and back: the constructor
    [EntitySets(mesh, ncmesh)] gives every kind the names of the source,
    the VERTEX groups of the source, and for the other kinds the groups in
    which every edge, face or element of the source is replaced, in place,
    by its refined ones (those of the two ends of the edge, and of the
    four vertices of the face in normalised order).  So where every entity
    is its own refinement, the groups of the source come back. *)
Theorem EntitySets_from_NCEntitySets (FindId : Z → Z → Z)
    (SetSize : list Z → Z → result (list Z))
    (nc_elem : EntityType → Z → Z → result Z) (junk : nat → Z)
    (mesh : Mesh) (ncmesh : NCMesh) (src : EntitySets) :
  (∀ a n, 0 ≤ n → ∃ a', SetSize a n = Ok a' ∧ Z.of_nat (length a') = n) →
  (∀ t s i, nc_elem t s i
            = g ← rd_at (NC.sets_ (ncent_sets ncmesh) t) s; rd g i) →
  (∀ t, length (set_names_ src t) = length (sets_ src t)) →
  edges_ok src → face_vertices_ok src →
  NC.NCEntitySets_new FindId (Some src) = Ok (ncent_sets ncmesh) →
  let edge e := GetRefinedEdges ncmesh (endpoint (edge_vertex_ src) 0 e)
                  (endpoint (edge_vertex_ src) 1 e) in
  let face f :=
    let v k := default 0 (face_tuple FindId (face_vertex_ src) f !! k) in
    GetRefinedFaces ncmesh (v 0%nat) (v 1%nat) (v 2%nat) (v 3%nat) in
  ∃ es, EntitySets_new_nc SetSize nc_elem junk mesh ncmesh = Ok es ∧
    mesh_ es = mesh ∧
    (∀ t, set_names_ es t = set_names_ src t ∧
          length (sets_ es t) = length (sets_ src t)) ∧
    sets_ es VERTEX = sets_ src VERTEX ∧
    sets_ es EDGE = (λ g, g ≫= edge) <$> sets_ src EDGE ∧
    sets_ es FACE = (λ g, g ≫= face) <$> sets_ src FACE ∧
    sets_ es ELEMENT
    = (λ g, g ≫= GetRefinedElements ncmesh) <$> sets_ src ELEMENT ∧
    (∀ t name s, set_index_by_name_ es t !! name = Some s
                 ↔ last_named (set_names_ src t) name s) ∧
    ((∀ g e, g ∈ sets_ src EDGE → e ∈ g → edge e = [e]) →
     (∀ g f, g ∈ sets_ src FACE → f ∈ g → face f = [f]) →
     (∀ g e, g ∈ sets_ src ELEMENT → e ∈ g →
             GetRefinedElements ncmesh e = [e]) →
     ∀ t, sets_ es t = sets_ src t).
Proof.
  intros HSetSize Helem Hnames He Hf Hnc edge face.
  destruct (NCEntitySets_new_eq FindId src Hnames He Hf)
    as (nc & Hnc' & Hsets & Hnm & Hix & Hsz).
  rewrite Hnc in Hnc'. injection Hnc' as <-.
  assert (∀ t, length (NC.set_names_ (ncent_sets ncmesh) t)
               = length (NC.sets_ (ncent_sets ncmesh) t)) as Hnames'.
  { intros t. by rewrite Hnm, Hsets, length_fmap. }
  unfold EntitySets_new_nc. cbv zeta.
  repeat (rewrite (BuildEntitySets_eq SetSize nc_elem ncmesh HSetSize Helem
                     Hsz Hnames'); rewrite ?bind_Ok; cbv beta).
  eexists. split; [done|]. simpl.
  assert (∀ t, derived ncmesh t <$> NC.sets_ (ncent_sets ncmesh) t
               = (λ g, match t with
                       | VERTEX => g
                       | EDGE => g ≫= edge
                       | FACE => g ≫= face
                       | ELEMENT => g ≫= GetRefinedElements ncmesh
                       end) <$> sets_ src t) as Hder.
  { intros t. rewrite Hsets, <- list_fmap_compose. apply list_fmap_ext.
    intros i g _. simpl. rewrite (derived_tuples FindId src ncmesh g t).
    by destruct t. }
  assert (∀ t name s,
            index_from 0 (set_names_ src t) ∅ !! name = Some s
            ↔ last_named (set_names_ src t) name s) as Hlast.
  { intros t name s.
    destruct (index_from_lookup (set_names_ src t) ∅ name) as [H1 H2].
    rewrite <- H1. split; [|by intros [? _]]. intros Hi. split; [done|].
    destruct (decide (name ∈ set_names_ src t)) as [|Hnot]; [done|].
    rewrite (H2 Hnot) in Hi. by rewrite lookup_empty in Hi. }
  split; [done|]. split.
  { intros []; repeat (rewrite fn_lookup_insert
                       || rewrite fn_lookup_insert_ne by done);
      rewrite Hnm, Hder, length_fmap; done. }
  split.
  { repeat (rewrite fn_lookup_insert
            || rewrite fn_lookup_insert_ne by done).
    rewrite Hder. apply list_fmap_id. }
  split.
  { repeat (rewrite fn_lookup_insert
            || rewrite fn_lookup_insert_ne by done). by rewrite Hder. }
  split.
  { repeat (rewrite fn_lookup_insert
            || rewrite fn_lookup_insert_ne by done). by rewrite Hder. }
  split.
  { repeat (rewrite fn_lookup_insert
            || rewrite fn_lookup_insert_ne by done). by rewrite Hder. }
  split.
  { intros [] name s; repeat (rewrite fn_lookup_insert
                              || rewrite fn_lookup_insert_ne by done);
      rewrite Hnm; apply Hlast. }
  intros Hedge Hface Helt.
  assert (∀ (h : Z → list Z) (gs : list (list Z)),
            (∀ g e, g ∈ gs → e ∈ g → h e = [e]) →
            (λ g, g ≫= h) <$> gs = gs) as Hsame.
  { intros h gs Hh. etrans; [|apply list_fmap_id].
    apply list_fmap_ext. intros i g Hg. simpl.
    assert (∀ e, e ∈ g → h e = [e]) as Hg'.
    { intros e. apply Hh. by eapply list_elem_of_lookup_2. }
    clear Hg. induction g as [|x g IH]; [done|].
    rewrite bind_cons, (Hg' x) by left. simpl. f_equal.
    apply IH. intros e He'. apply Hg'. by right. }
  intros []; repeat (rewrite fn_lookup_insert
                     || rewrite fn_lookup_insert_ne by done);
    rewrite Hder.
  - apply list_fmap_id.
  - by apply Hsame.
  - by apply Hsame.
  - by apply Hsame.
Qed.

(** ** The further properties at concrete inputs *)

Lemma example_table_csr : csr example_table.
Proof. exact (proj1 example_table_StaticTable). Defined.

Lemma Table_new_unset_witness :
  0 ≤ 2 ∧ 0 ≤ 3 ∧
  ∃ T, Table_new (λ _, 7) 2 3 = Ok T ∧
       (∀ junk', Table_new junk' 2 3 = Ok T) ∧
       Size T = 2 ∧ csr T ∧
       (∀ i, 0 ≤ i < 2 → row T i = replicate (Z.to_nat 3) (-1)) ∧
       (∀ i j, j ≠ -1 → Table_call T i j = Ok (-1)) ∧
       Width T = Ok 0.
Proof.
  split; [lia|]. split; [lia|]. apply (Table_new_unset (λ _, 7) 2 3); lia.
Defined.

(** [example_table] after [Push(1,4)]. *)
Definition pushed_table : Table := mkTable 2 [0; 2; 4] [5; 6; 9; 4].

Lemma Push_then_lookup_witness :
  csr example_table ∧ Push false example_table 1 4 = Ok (3, pushed_table) ∧
  csr pushed_table ∧ Table_call pushed_table 1 4 = Ok 3.
Proof.
  split; [exact example_table_csr|]. split; [reflexivity|].
  exact (Push_then_lookup false example_table 1 4 3 pushed_table
           example_table_csr eq_refl).
Defined.

Lemma Push_frame_witness :
  StaticTable example_table ∧
  Push false example_table 1 4 = Ok (3, pushed_table) ∧
  Size pushed_table = Size example_table ∧
  GetI pushed_table = GetI example_table ∧ StaticTable pushed_table ∧
  (∀ i' j', j' ≠ -1 →
     (entry pushed_table i' j' ↔ entry example_table i' j' ∨ (i' = 1 ∧ j' = 4))) ∧
  (∀ i' j', j' ≠ -1 → (i', j') ≠ (1, 4) →
     Table_call pushed_table i' j' = Table_call example_table i' j').
Proof.
  split; [exact example_table_StaticTable|]. split; [reflexivity|].
  exact (Push_frame false example_table 1 4 3 pushed_table
           example_table_StaticTable eq_refl).
Defined.

Lemma Finalize_idempotent_witness :
  StaticTable example_table ∧
  ∃ T', Finalize (λ _, 0) true example_table = Ok T' ∧ StaticTable T' ∧
        (∀ junk' dbg', Finalize junk' dbg' example_table = Ok T' ∧
                       Finalize junk' dbg' T' = Ok T') ∧
        Width T' = Width example_table.
Proof.
  split; [exact example_table_StaticTable|].
  exact (Finalize_idempotent (λ _, 0) true example_table
           example_table_StaticTable).
Defined.

Lemma Width_least_bound_witness :
  csr example_table ∧
  ∃ w, Width example_table = Ok w ∧ 0 ≤ w ∧
       (∀ v, v ∈ GetJ example_table → v < w) ∧
       (0 < w → w - 1 ∈ GetJ example_table) ∧
       (w = 0 ↔ ∀ v, v ∈ GetJ example_table → v < 0).
Proof.
  split; [exact example_table_csr|].
  exact (Width_least_bound example_table example_table_csr).
Defined.

Lemma SetDims_dimensions_witness :
  reusable empty_table ∧ 0 ≤ 2 ∧ 0 ≤ 3 ∧
  ∃ T', SetDims (λ _, 7) empty_table 2 3 = Ok T' ∧ reusable T' ∧ Size T' = 2 ∧
        Z.of_nat (length (GetI T')) = 2 + 1 ∧
        Z.of_nat (length (GetJ T')) = 3 ∧
        GetI T' !! Z.to_nat 2 = Some 3 ∧
        (0 < 2 → GetI T' !! O = Some 0) ∧
        (Z.of_nat (length (GetJ empty_table)) = 3 → GetJ T' = GetJ empty_table) ∧
        (Size empty_table = 2 →
         ∀ p, 0 < p < 2 →
              GetI T' !! Z.to_nat p = GetI empty_table !! Z.to_nat p) ∧
        (csr empty_table → 2 = Size empty_table →
         3 = Z.of_nat (length (GetJ empty_table)) → T' = empty_table).
Proof.
  split; [exact empty_table_reusable|]. split; [lia|]. split; [lia|].
  apply (SetDims_dimensions (λ _, 7) empty_table 2 3 empty_table_reusable); lia.
Defined.

Lemma SetSize_as_constructor_witness :
  reusable example_table ∧ 0 ≤ 2 ∧ 0 ≤ 3 ∧
  SetSize (λ _, 7) example_table 2 3 = Table_new (λ _, 0) 2 3.
Proof.
  split; [exact (csr_reusable _ example_table_csr)|].
  split; [lia|]. split; [lia|].
  apply (SetSize_as_constructor (λ _, 7) (λ _, 0) example_table 2 3);
    [exact (csr_reusable _ example_table_csr) | lia | lia].
Defined.

Lemma Table_new_partitioning_rows_witness :
  0 ≤ 3 ∧ 3 ≤ Z.of_nat (length [1; 0; 1]) ∧
  ∃ T, Table_new_partitioning (λ _, 7) 3 [1; 0; 1] = Ok T ∧
       Size T = 3 ∧ csr T ∧
       (∀ i, 0 ≤ i < 3 →
             ∃ c, [1; 0; 1] !! Z.to_nat i = Some c ∧ row T i = [c]) ∧
       (∀ i j, entry T i j ↔ 0 ≤ i < 3 ∧ [1; 0; 1] !! Z.to_nat i = Some j).
Proof.
  split; [lia|]. split; [simpl; lia|].
  apply (Table_new_partitioning_rows (λ _, 7) 3 [1; 0; 1]); simpl; lia.
Defined.

Lemma Transpose_sorted_witness :
  finalized table_A ∧ reusable empty_table ∧ Width table_A = Ok 4 ∧ 4 ≤ 5 ∧
  ∃ At, Transpose (λ _, 0) table_A empty_table 5 = Ok At ∧
        Size At = 5 ∧ csr At ∧
        length (GetJ At) = length (GetJ table_A) ∧
        (∀ c, 0 ≤ c < 5 →
           row At c
           = seqZ 0 (Size table_A) ≫=
               λ i, replicate (length (filter (λ v, v = c) (row table_A i))) i) ∧
        (∀ c (p q : nat) x y, 0 ≤ c < 5 → (p ≤ q)%nat →
           row At c !! p = Some x → row At c !! q = Some y → x ≤ y) ∧
        (∀ junk' At0', reusable At0' →
           Transpose junk' table_A At0' 5 = Ok At) ∧
        (∀ n, n < 0 → Transpose (λ _, 0) table_A empty_table n
                      = Transpose (λ _, 0) table_A empty_table 4).
Proof.
  split; [exact table_A_finalized|]. split; [exact empty_table_reusable|].
  split; [reflexivity|]. split; [lia|].
  apply (Transpose_sorted (λ _, 0) table_A empty_table 4 5
           table_A_finalized empty_table_reusable eq_refl).
  lia.
Defined.

Lemma array_cells_in_range : ∀ v, v ∈ [1; 0; 1] → 0 ≤ v < 2.
Proof.
  intros v Hv. repeat (apply elem_of_cons in Hv as [->|Hv]; [lia|]).
  by apply elem_of_nil in Hv.
Defined.

Lemma Transpose_array_rows_witness :
  0 ≤ 2 ∧ (∀ v, v ∈ [1; 0; 1] → 0 ≤ v < 2) ∧ reusable empty_table ∧
  ∃ At, Transpose_array (λ _, 0) (λ _, Ok 1) [1; 0; 1] empty_table 2 = Ok At ∧
        Size At = 2 ∧ csr At ∧
        (∀ c, 0 ≤ c < 2 →
           row At c
           = filter (λ i, [1; 0; 1] !! Z.to_nat i = Some c)
               (seqZ 0 (Z.of_nat (length [1; 0; 1])))) ∧
        ∃ T, Table_new_partitioning (λ _, 0) (Z.of_nat (length [1; 0; 1]))
               [1; 0; 1] = Ok T ∧
             ∀ junk' At0', reusable At0' → Transpose junk' T At0' 2 = Ok At.
Proof.
  split; [lia|]. split; [exact array_cells_in_range|].
  split; [exact empty_table_reusable|].
  apply (Transpose_array_rows (λ _, 0) (λ _, Ok 1) [1; 0; 1] empty_table 2);
    [lia | exact array_cells_in_range | exact empty_table_reusable].
Defined.

Lemma Mult_row_order_witness :
  finalized table_A ∧ finalized table_B ∧ reusable empty_table ∧
  Width table_A = Ok 4 ∧ 4 ≤ Size table_B ∧
  ∃ C, Mult (λ _, 0) table_A table_B empty_table = Ok C ∧
       Size C = Size table_A ∧ finalized C ∧
       (∀ i, 0 ≤ i < Size table_A →
             row C i = emit [] (row table_A i ≫= row table_B)) ∧
       (∀ junk' C0', reusable C0' → Mult junk' table_A table_B C0' = Ok C).
Proof.
  split; [exact table_A_finalized|]. split; [exact table_B_finalized|].
  split; [exact empty_table_reusable|]. split; [reflexivity|].
  split; [simpl; lia|].
  apply (Mult_row_order (λ _, 0) table_A table_B empty_table 4
           table_A_finalized table_B_finalized empty_table_reusable eq_refl).
  simpl. lia.
Defined.

Lemma Mult_assoc_witness :
  finalized table_A ∧ finalized table_B ∧ reusable empty_table ∧
  Width table_A = Ok 4 ∧ 4 ≤ Size table_B ∧
  Width table_B = Ok 3 ∧ 3 ≤ Size table_A ∧
  ∃ AB BC L R,
    Mult (λ _, 0) table_A table_B empty_table = Ok AB ∧
    Mult (λ _, 0) table_B table_A empty_table = Ok BC ∧
    Mult (λ _, 0) AB table_A empty_table = Ok L ∧
    Mult (λ _, 0) table_A BC empty_table = Ok R ∧
    Size L = Size table_A ∧ Size R = Size table_A ∧
    ∀ i m, entry L i m ↔ entry R i m.
Proof.
  split; [exact table_A_finalized|]. split; [exact table_B_finalized|].
  split; [exact empty_table_reusable|]. split; [reflexivity|].
  split; [simpl; lia|]. split; [reflexivity|]. split; [simpl; lia|].
  apply (Mult_assoc (λ _, 0) table_A table_B table_A
           empty_table empty_table empty_table empty_table 4 3
           table_A_finalized table_B_finalized table_A_finalized
           empty_table_reusable empty_table_reusable
           empty_table_reusable empty_table_reusable eq_refl);
    [simpl; lia | reflexivity | simpl; lia].
Defined.

Lemma Mult_Transpose_witness :
  finalized table_A ∧ finalized table_B ∧ reusable empty_table ∧
  Width table_A = Ok 4 ∧ 4 ≤ Size table_B ∧ Width table_B = Ok 3 ∧ 3 ≤ 3 ∧
  ∃ C Ct At Bt P,
    Mult (λ _, 0) table_A table_B empty_table = Ok C ∧
    Transpose (λ _, 0) C empty_table 3 = Ok Ct ∧
    Transpose (λ _, 0) table_A empty_table (Size table_B) = Ok At ∧
    Transpose (λ _, 0) table_B empty_table 3 = Ok Bt ∧
    Mult (λ _, 0) Bt At empty_table = Ok P ∧
    Size Ct = 3 ∧ Size P = 3 ∧
    ∀ m i, entry Ct m i ↔ entry P m i.
Proof.
  split; [exact table_A_finalized|]. split; [exact table_B_finalized|].
  split; [exact empty_table_reusable|]. split; [reflexivity|].
  split; [simpl; lia|]. split; [reflexivity|]. split; [lia|].
  apply (Mult_Transpose (λ _, 0) table_A table_B
           empty_table empty_table empty_table empty_table empty_table 4 3 3
           table_A_finalized table_B_finalized
           empty_table_reusable empty_table_reusable empty_table_reusable
           empty_table_reusable empty_table_reusable eq_refl);
    [simpl; lia | reflexivity | lia].
Defined.

Lemma STable_symmetric_witness :
  csr example_table ∧
  STable_Push false example_table 4 1 = Ok (3, pushed_table) ∧
  STable_call pushed_table 4 1 = Ok 3 ∧ STable_call pushed_table 1 4 = Ok 3.
Proof.
  split; [exact example_table_csr|]. split; [reflexivity|].
  destruct (STable_symmetric false example_table 4 1) as (_ & _ & _ & _ & H).
  exact (H 3 pushed_table example_table_csr eq_refl).
Defined.

Lemma pushed_rows_in_range :
  ∀ p : Z * Z, p ∈ [(0, 1); (1, 2); (0, 1)] → 0 ≤ p.1 < 3.
Proof.
  intros p Hp. repeat (apply elem_of_cons in Hp as [->|Hp]; [simpl; lia|]).
  by apply elem_of_nil in Hp.
Defined.

Lemma Index_after_pushes_witness :
  0 ≤ 3 ∧ (∀ p : Z * Z, p ∈ [(0, 1); (1, 2); (0, 1)] → 0 ≤ p.1 < 3) ∧
  ∃ T0 ks T, DSTable_new 3 = Ok T0 ∧
    push_all false [(0, 1); (1, 2); (0, 1)] T0 = Ok (ks, T) ∧
    (∀ (n : nat) r c k, [(0, 1); (1, 2); (0, 1)] !! n = Some (r, c) →
       ks !! n = Some k →
       Index true T r c = Ok k ∧ 0 ≤ k < NumEntries T) ∧
    (∀ r c, 0 ≤ r → (r, c) ∉ [(0, 1); (1, 2); (0, 1)] →
       Index true T r c = Ok (-1)) ∧
    (∀ r c r' c' k, 0 ≤ r → 0 ≤ r' → k ≠ -1 →
       Index true T r c = Ok k → Index true T r' c' = Ok k →
       (r, c) = (r', c')).
Proof.
  split; [lia|]. split; [exact pushed_rows_in_range|].
  apply (Index_after_pushes false true 3 [(0, 1); (1, 2); (0, 1)]);
    [lia | exact pushed_rows_in_range].
Defined.

(** A hexahedral instance: one quadrilateral face with the corners and the
    edges 0..3, stored in a FACE group; the face table knows one child, at
    corner 0. *)
Definition quad_face : Table := mkTable 1 [0; 4] [0; 1; 2; 3].

Definition hex_mesh : Mesh :=
  mkMesh 27 54 8 3 None None None
    (mkTable 1 [0; 2] [0; 1]) quad_face quad_face
    (λ _ a b, 1000 * a + b) (λ _ _ _, -1)
    (λ a _ _ _, if decide (a = 0) then 7 else -1).

Definition hex_sets : EntitySets :=
  mkEntitySets hex_mesh (Some (mkTable 1 [0; 2] [0; 1]))
    (Some quad_face) (Some quad_face) 8 12 1
    (λ t, match t with
          | ELEMENT => [[0]] | EDGE => [[0]] | FACE => [[0]] | _ => []
          end)
    (λ _, []) (λ _, ∅).

Lemma hex_sets_edges_ok : edges_ok hex_sets.
Proof.
  intros g e Hg He. simpl in Hg.
  apply list_elem_of_singleton in Hg as ->.
  apply list_elem_of_singleton in He as ->.
  exists 0, 1. split; reflexivity.
Defined.

Lemma quad_face_rows k :
  0 ≤ k < 4 → read_end (Some quad_face) 0 k = Ok k.
Proof.
  intros Hk.
  assert (k = 0 ∨ k = 1 ∨ k = 2 ∨ k = 3) as [-> | [-> | [-> | ->]]] by lia;
    reflexivity.
Defined.

Lemma hex_sets_faces_ok : faces_ok hex_sets.
Proof.
  intros g f Hg Hf. simpl in Hg.
  apply list_elem_of_singleton in Hg as ->.
  apply list_elem_of_singleton in Hf as ->.
  intros k Hk. simpl. rewrite quad_face_rows by done. eauto.
Defined.

Lemma child_face_search_witness :
  (∀ k, 0 ≤ k < 4 → read_end (Some quad_face) 0 k = Ok k) ∧ 0 ≤ 0 < 4 ∧
  let p := probe (λ a _ _ _, if decide (a = 0) then 7 else -1) 8 0 (20 + 0)
             (λ k, k) in
  let r := child_face (Some quad_face) (Some quad_face)
             (λ a _ _ _, if decide (a = 0) then 7 else -1) 8 20 0 0 in
  (r >= 0 ∧ ∃ k l, 0 ≤ k < 4 ∧ 1 ≤ l < 4 ∧ r = p k l ∧
                   (∀ k' l', 0 ≤ k' < k → 1 ≤ l' < 4 → p k' l' < 0) ∧
                   (∀ l', 1 ≤ l' < l → p k l' < 0)) ∨
  (r = -1 ∧ ∀ k l, 0 ≤ k < 4 → 1 ≤ l < 4 → p k l < 0).
Proof.
  split; [exact quad_face_rows|]. split; [lia|].
  apply (child_face_search (Some quad_face) (Some quad_face)
           (λ a _ _ _, if decide (a = 0) then 7 else -1) 8 20 0 0
           (λ k, k) (λ k, k) quad_face_rows quad_face_rows).
  lia.
Defined.

Lemma refinement_frame_witness :
  edges_ok hex_sets ∧ faces_ok hex_sets ∧
  (∃ es', QuadUniformRefinement hex_sets = Ok es' ∧
     sets_ es' VERTEX = sets_ hex_sets VERTEX ∧
     sets_ es' FACE = sets_ hex_sets FACE ∧
     set_names_ es' = set_names_ hex_sets ∧
     set_index_by_name_ es' = set_index_by_name_ hex_sets ∧
     (∀ t, GetNumSets es' t = GetNumSets hex_sets t) ∧
     NumOfVertices_ es' = GetNV (mesh_ hex_sets) ∧
     NumOfEdges_ es' = GetNEdges (mesh_ hex_sets) ∧
     NumOfElements_ es' = GetNE (mesh_ hex_sets)) ∧
  (∃ es', HexUniformRefinement hex_sets = Ok es' ∧
     sets_ es' VERTEX = sets_ hex_sets VERTEX ∧
     set_names_ es' = set_names_ hex_sets ∧
     set_index_by_name_ es' = set_index_by_name_ hex_sets ∧
     (∀ t, GetNumSets es' t = GetNumSets hex_sets t) ∧
     NumOfVertices_ es' = GetNV (mesh_ hex_sets) ∧
     NumOfEdges_ es' = GetNEdges (mesh_ hex_sets) ∧
     NumOfElements_ es' = GetNE (mesh_ hex_sets)).
Proof.
  split; [exact hex_sets_edges_ok|]. split; [exact hex_sets_faces_ok|].
  destruct (refinement_frame hex_sets hex_sets_edges_ok) as [HQ HH].
  split; [exact HQ | exact (HH hex_sets_faces_ok)].
Defined.

Lemma face_groups_refined_witness :
  edges_ok hex_sets ∧ faces_ok hex_sets ∧
  let child := child_face (face_vertex_ hex_sets) (face_edge_ hex_sets)
                 (GetFacesTable4 (mesh_ hex_sets)) (NumOfVertices_ hex_sets)
                 (NumOfVertices_ hex_sets + NumOfEdges_ hex_sets) in
  ∃ es', HexUniformRefinement hex_sets = Ok es' ∧
    length (sets_ es' FACE) = length (sets_ hex_sets FACE) ∧
    ∀ (s : nat) g, sets_ hex_sets FACE !! s = Some g →
      ∃ g', sets_ es' FACE !! s = Some g' ∧
            Z.of_nat (length g') = 4 * Z.of_nat (length g) ∧
            ∀ i f, 0 ≤ i → g !! Z.to_nat i = Some f →
              g' !! Z.to_nat i
              = Some (if decide (child f 0 >= 0) then child f 0 else f) ∧
              ∀ j, 1 ≤ j ≤ 3 →
                g' !! Z.to_nat (Z.of_nat (length g) + 3 * i + j - 1)
                = Some (if decide (child f j >= 0) then child f j else 0).
Proof.
  split; [exact hex_sets_edges_ok|]. split; [exact hex_sets_faces_ok|].
  exact (face_groups_refined hex_sets hex_sets_edges_ok hex_sets_faces_ok).
Defined.

(** The FACE group [[0]] of [hex_sets] after the pass: the child at corner 0
    in the slot of the parent, and nothing found for the three others. *)
Example hex_sets_faces :
  (es' ← HexUniformRefinement hex_sets; Ok (sets_ es' FACE))
  = Ok [[7; 0; 0; 0]].
Proof. reflexivity. Qed.

(** A table after the first phase, with the counts 2 and 1 in its row
    starts, and three calls that fill it. *)
Definition counted_table : Table := mkTable 2 [2; 1; 99] [].

Definition three_calls : list (Z * list Z) := [(1, [7]); (0, [4]); (0, [5])].

Lemma three_calls_rows : ∀ p, p ∈ three_calls → 0 ≤ p.1 < Size counted_table.
Proof.
  intros p Hp. repeat (apply elem_of_cons in Hp as [->|Hp]; [simpl; lia|]).
  by apply elem_of_nil in Hp.
Defined.

Lemma three_calls_counts r :
  0 ≤ r < Size counted_table →
  GetI counted_table !! Z.to_nat r
  = Some (Z.of_nat (length (added three_calls r))).
Proof.
  simpl. intros Hr. assert (r = 0 ∨ r = 1) as [-> | ->] by lia; reflexivity.
Defined.

Lemma AddConnections_build_witness :
  0 ≤ Size counted_table ∧
  Z.of_nat (length (GetI counted_table)) = Size counted_table + 1 ∧
  (∀ p, p ∈ three_calls → 0 ≤ p.1 < Size counted_table) ∧
  (∀ r, 0 ≤ r < Size counted_table →
        GetI counted_table !! Z.to_nat r
        = Some (Z.of_nat (length (added three_calls r)))) ∧
  ∃ T', fill_rows (λ _, 0) three_calls counted_table = Ok T' ∧
        Size T' = Size counted_table ∧ csr T' ∧
        (∀ r, 0 ≤ r < Size counted_table →
              row T' r = filter (λ p, p.1 = r) three_calls ≫= snd) ∧
        (∀ r v, entry T' r v ↔ ∃ c, (r, c) ∈ three_calls ∧ v ∈ c) ∧
        (∀ junk' J', fill_rows junk' three_calls
                       (mkTable (Size counted_table) (GetI counted_table) J')
                     = Ok T').
Proof.
  split; [simpl; lia|]. split; [reflexivity|].
  split; [exact three_calls_rows|]. split; [exact three_calls_counts|].
  apply (AddConnections_build (λ _, 0) counted_table three_calls);
    [simpl; lia | reflexivity | exact three_calls_rows
    | exact three_calls_counts].
Defined.

Example counted_table_filled :
  fill_rows (λ _, 0) three_calls counted_table
  = Ok (mkTable 2 [0; 2; 3] [4; 5; 7]).
Proof. reflexivity. Qed.

(** An object with named groups of every kind over [hex_mesh]; its name
    index holds a name that no group bears. *)
Definition named_sets : EntitySets :=
  mkEntitySets hex_mesh (Some (mkTable 1 [0; 2] [0; 1]))
    (Some quad_face) (Some quad_face) 8 12 1
    (λ t, match t with
          | VERTEX => [[0; 1]; [2]] | EDGE => [[0]]
          | FACE => [[0]] | ELEMENT => [[0]]
          end)
    (λ t, match t with
          | VERTEX => ["left"; "right"] | EDGE => ["rim"]
          | FACE => ["top"] | ELEMENT => ["all"]
          end%string)
    (λ _, {["ghost"%string := 7]}).

Lemma named_sets_names t :
  length (set_names_ named_sets t) = length (sets_ named_sets t).
Proof. destruct t; reflexivity. Defined.

Lemma named_sets_edges_ok : edges_ok named_sets.
Proof.
  intros g e Hg He. simpl in Hg.
  apply list_elem_of_singleton in Hg as ->.
  apply list_elem_of_singleton in He as ->.
  exists 0, 1. split; reflexivity.
Defined.

Lemma named_sets_face_vertices_ok : face_vertices_ok named_sets.
Proof.
  intros g f Hg Hf. simpl in Hg.
  apply list_elem_of_singleton in Hg as ->.
  apply list_elem_of_singleton in Hf as ->.
  exists 4. split; [reflexivity|]. intros k Hk. exists k.
  apply quad_face_rows. lia.
Defined.

Lemma EntitySets_copy_groups_witness :
  (∀ t s i, GetEntityIndex named_sets t s i = GetEntityIndex named_sets t s i) ∧
  (∀ t, length (set_names_ named_sets t) = length (sets_ named_sets t)) ∧
  ∃ es, EntitySets_copy (mesh_ named_sets) (edge_vertex_ named_sets)
          (face_vertex_ named_sets) (face_edge_ named_sets)
          (GetEntityIndex named_sets) named_sets = Ok es ∧
    mesh_ es = mesh_ named_sets ∧
    edge_vertex_ es = edge_vertex_ named_sets ∧
    face_vertex_ es = face_vertex_ named_sets ∧
    face_edge_ es = face_edge_ named_sets ∧
    NumOfVertices_ es = GetNV (mesh_ named_sets) ∧
    NumOfEdges_ es = GetNEdges (mesh_ named_sets) ∧
    NumOfElements_ es = GetNE (mesh_ named_sets) ∧
    (∀ t, sets_ es t = sets_ named_sets t ∧
          set_names_ es t = set_names_ named_sets t) ∧
    (∀ t name s, set_index_by_name_ es t !! name = Some s
                 ↔ last_named (set_names_ named_sets t) name s) ∧
    (∀ t name, name ∉ set_names_ named_sets t →
               ∀ s, GetSetIndex true es t name ≠ Ok s) ∧
    (∀ t s name, NoDup (set_names_ named_sets t) →
                 GetSetName es t s = Ok name →
                 GetSetIndex true es t name = Ok s) ∧
    (∀ t name s, last_named (set_names_ named_sets t) name s →
       GetNumEntities_by_name true es t name
       = GetNumEntities named_sets t s ∧
       ∀ i, GetEntityIndex_by_name true es t name i
            = GetEntityIndex named_sets t s i).
Proof.
  split; [reflexivity|]. split; [exact named_sets_names|].
  exact (EntitySets_copy_groups true (GetEntityIndex named_sets) named_sets
           (λ _ _ _, eq_refl) named_sets_names).
Defined.

(** [Array<int>::SetSize] as a resize that keeps the cells there are. *)
Lemma resize_sets_size (a : list Z) (n : Z) :
  0 ≤ n → ∃ a', resize 0 a n = Ok a' ∧ Z.of_nat (length a') = n.
Proof.
  intros Hn. unfold resize. rewrite decide_True by done.
  eexists. split; [reflexivity|].
  rewrite length_app, length_take, length_replicate. lia.
Defined.

Lemma NCEntitySets_tuples_witness :
  (∀ a n, 0 ≤ n → ∃ a', resize 0 a n = Ok a' ∧ Z.of_nat (length a') = n) ∧
  (∀ t, length (set_names_ named_sets t) = length (sets_ named_sets t)) ∧
  edges_ok named_sets ∧ face_vertices_ok named_sets ∧
  ∃ nc, NC.NCEntitySets_new (λ _ b, if decide (b = 1) then -1 else 0)
          (Some named_sets) = Ok nc ∧
    (∀ t, NC.GetNumSets nc t = GetNumSets named_sets t ∧
          NC.set_names_ nc t = set_names_ named_sets t ∧
          NC.GetEntitySize nc t
          = match t with VERTEX | ELEMENT => 1 | EDGE => 2 | FACE => 4 end) ∧
    (∀ t s, NC.GetNumEntities nc t s = GetNumEntities named_sets t s) ∧
    (∀ t s i e inds, 0 ≤ i → GetEntityIndex named_sets t s i = Ok e →
       NC.GetEntityIndex (resize 0) nc t s i inds
       = Ok (match t with
             | VERTEX | ELEMENT => [e]
             | EDGE => [endpoint (edge_vertex_ named_sets) 0 e;
                        endpoint (edge_vertex_ named_sets) 1 e]
             | FACE => face_tuple (λ _ b, if decide (b = 1) then -1 else 0)
                         (face_vertex_ named_sets) e
             end)) ∧
    (∀ t name s, NC.set_index_by_name_ nc t !! name = Some s
                 ↔ last_named (set_names_ named_sets t) name s) ∧
    (∀ t name s, last_named (set_names_ named_sets t) name s →
       NC.GetSetName nc t s = Ok name ∧
       NC.GetSetIndex true nc t name = Ok s ∧
       NC.GetNumEntities_by_name true nc t name = NC.GetNumEntities nc t s ∧
       ∀ i inds, NC.GetEntityIndex_by_name true (resize 0) nc t name i inds
                 = NC.GetEntityIndex (resize 0) nc t s i inds).
Proof.
  split; [exact resize_sets_size|]. split; [exact named_sets_names|].
  split; [exact named_sets_edges_ok|].
  split; [exact named_sets_face_vertices_ok|].
  exact (NCEntitySets_tuples true (λ _ b, if decide (b = 1) then -1 else 0)
           (resize 0) named_sets resize_sets_size named_sets_names
           named_sets_edges_ok named_sets_face_vertices_ok).
Defined.

(** The face [0] of [named_sets], whose vertices 0 and 1 no edge joins, as
    the non-conforming object holds it. *)
Example named_sets_face_tuple :
  (nc ← NC.NCEntitySets_new (λ _ b, if decide (b = 1) then -1 else 0)
          (Some named_sets);
   NC.GetEntityIndex (resize 0) nc FACE 0 0 [])
  = Ok [0; 2; 1; 3].
Proof. reflexivity. Qed.

(** A stream of dimension 1 with two vertex groups and one element
    group. *)
Definition sets_text : text_stream :=
  text_of_lines
    ["MFEM sets v1.0"; ""; "# two kinds"; "dimension"; "1"; "";
     "vertex_sets"; "2"; ""; "left"; "2"; "0"; "1"; ""; "right"; "1"; "2"; "";
     "element_sets"; "1"; ""; "all"; "1"; "0"; ""]%string.

(** What [Load] makes of it. *)
Definition sets_loaded : text_stream * EntitySets :=
  match Load 0 sets_text (EntitySets_new example_mesh) with
  | Ok r => r
  | _ => (sets_text, EntitySets_new example_mesh)
  end.

Lemma sets_text_Ok :
  Load 0 sets_text (EntitySets_new example_mesh)
  = Ok (sets_loaded.1, sets_loaded.2).
Proof. vm_compute. reflexivity. Defined.

Lemma new_names_resolve mesh : names_resolve (EntitySets_new mesh).
Proof.
  intros t. split; [reflexivity|]. intros name s (_ & Hl & _).
  simpl in Hl. by rewrite lookup_nil in Hl.
Defined.

Lemma Load_names_resolve_witness :
  names_resolve (EntitySets_new example_mesh) ∧
  Load 0 sets_text (EntitySets_new example_mesh)
  = Ok (sets_loaded.1, sets_loaded.2) ∧
  (∀ t, length (set_names_ sets_loaded.2 t) = length (sets_ sets_loaded.2 t)) ∧
  (∀ t name s, last_named (set_names_ sets_loaded.2 t) name s →
               GetSetIndex true sets_loaded.2 t name = Ok s) ∧
  (∀ t s name, NoDup (set_names_ sets_loaded.2 t) →
               GetSetName sets_loaded.2 t s = Ok name →
               GetSetIndex true sets_loaded.2 t name = Ok s) ∧
  ((∀ t, set_index_by_name_ (EntitySets_new example_mesh) t = ∅) →
   ∀ t name s, set_index_by_name_ sets_loaded.2 t !! name = Some s →
               last_named (set_names_ sets_loaded.2 t) name s).
Proof.
  split; [exact (new_names_resolve example_mesh)|].
  split; [exact sets_text_Ok|].
  exact (Load_names_resolve 0 true sets_text sets_loaded.1
           (EntitySets_new example_mesh) sets_loaded.2
           (new_names_resolve example_mesh) sets_text_Ok).
Defined.

(** The groups and the names that [Load] finds in [sets_text]. *)
Example sets_text_groups :
  sets_ sets_loaded.2 VERTEX = [[0; 1]; [2]] ∧
  set_names_ sets_loaded.2 VERTEX = ["left"; "right"]%string ∧
  GetSetIndex true sets_loaded.2 VERTEX "right" = Ok 1 ∧
  sets_ sets_loaded.2 ELEMENT = [[0]] ∧
  sets_ sets_loaded.2 EDGE = [].
Proof. vm_compute. repeat split. Qed.

(** The object that [Load] has filled from [sets_text] keeps its groups
    when a stream in another format is loaded into it afterwards. *)
Example sets_text_then_mesh_text :
  Load 0 mesh_text sets_loaded.2
  = Ok ((getline ""%string (skip_ws mesh_text)).2, sets_loaded.2) ∧
  GetNumSets sets_loaded.2 VERTEX = 2 ∧
  GetNumSets sets_loaded.2 ELEMENT = 1.
Proof. split; [|split]; vm_compute; reflexivity. Qed.

Lemma GetRow_slots_witness :
  (∀ a n, 0 ≤ n → ∃ a', resize 0 a n = Ok a' ∧ Z.of_nat (length a') = n) ∧
  csr example_table ∧ 0 ≤ 1 < Size example_table ∧
  GetRow (resize 0) example_table 1 [7; 7; 7] = Ok (row example_table 1) ∧
  RowSize (Some example_table) 1
  = Ok (Z.of_nat (length (row example_table 1))) ∧
  ∀ j, entry example_table 1 j ↔ ∃ k : nat, row example_table 1 !! k = Some j.
Proof.
  split; [exact resize_sets_size|]. split; [exact example_table_csr|].
  split; [simpl; lia|].
  apply (GetRow_slots (resize 0) example_table 1 [7; 7; 7] resize_sets_size
           example_table_csr).
  simpl. lia.
Defined.

(** The non-conforming object of [named_sets], and a non-conforming mesh
    that has it and in which edge 0 has the two halves 20 and 21, and every
    face and element is unrefined. *)
Definition named_nc : NC.NCEntitySets :=
  match NC.NCEntitySets_new (λ _ b, if decide (b = 1) then -1 else 0)
          (Some named_sets) with
  | Ok nc => nc
  | _ => NC.mkNCEntitySets (λ _, []) (λ _, []) (λ _, ∅) (λ _, 0)
  end.

Definition named_ncmesh : NCMesh :=
  mkNCMesh named_nc (λ a b, [20 + a; 20 + b]) (λ a _ _ _, [a]) (λ e, [e]).

Lemma named_nc_Ok :
  NC.NCEntitySets_new (λ _ b, if decide (b = 1) then -1 else 0)
    (Some named_sets) = Ok (ncent_sets named_ncmesh).
Proof. vm_compute. reflexivity. Defined.

Lemma EntitySets_from_NCEntitySets_witness :
  let FindId := λ _ b : Z, if decide (b = 1) then -1 else 0 in
  let nc_elem := λ t s i,
    g ← rd_at (NC.sets_ (ncent_sets named_ncmesh) t) s; rd g i in
  let edge e := GetRefinedEdges named_ncmesh
                  (endpoint (edge_vertex_ named_sets) 0 e)
                  (endpoint (edge_vertex_ named_sets) 1 e) in
  let face f :=
    let v k :=
      default 0 (face_tuple FindId (face_vertex_ named_sets) f !! k) in
    GetRefinedFaces named_ncmesh (v 0%nat) (v 1%nat) (v 2%nat) (v 3%nat) in
  NC.NCEntitySets_new FindId (Some named_sets)
  = Ok (ncent_sets named_ncmesh) ∧
  ∃ es, EntitySets_new_nc (resize 0) nc_elem (λ _, 0) hex_mesh named_ncmesh
        = Ok es ∧
    mesh_ es = hex_mesh ∧
    (∀ t, set_names_ es t = set_names_ named_sets t ∧
          length (sets_ es t) = length (sets_ named_sets t)) ∧
    sets_ es VERTEX = sets_ named_sets VERTEX ∧
    sets_ es EDGE = (λ g, g ≫= edge) <$> sets_ named_sets EDGE ∧
    sets_ es FACE = (λ g, g ≫= face) <$> sets_ named_sets FACE ∧
    sets_ es ELEMENT
    = (λ g, g ≫= GetRefinedElements named_ncmesh)
        <$> sets_ named_sets ELEMENT ∧
    (∀ t name s, set_index_by_name_ es t !! name = Some s
                 ↔ last_named (set_names_ named_sets t) name s) ∧
    ((∀ g e, g ∈ sets_ named_sets EDGE → e ∈ g → edge e = [e]) →
     (∀ g f, g ∈ sets_ named_sets FACE → f ∈ g → face f = [f]) →
     (∀ g e, g ∈ sets_ named_sets ELEMENT → e ∈ g →
             GetRefinedElements named_ncmesh e = [e]) →
     ∀ t, sets_ es t = sets_ named_sets t).
Proof.
  intros FindId nc_elem edge face. split; [exact named_nc_Ok|].
  exact (EntitySets_from_NCEntitySets FindId (resize 0) nc_elem (λ _, 0)
           hex_mesh named_ncmesh named_sets resize_sets_size
           (λ _ _ _, eq_refl) named_sets_names named_sets_edges_ok
           named_sets_face_vertices_ok named_nc_Ok).
Defined.

(** The groups that come back from [named_ncmesh]: the edge 0, with the
    ends 0 and 1, gives its two halves. *)
Example named_sets_rebuilt :
  (es ← EntitySets_new_nc (resize 0)
          (λ t s i, g ← rd_at (NC.sets_ named_nc t) s; rd g i) (λ _, 0)
          hex_mesh named_ncmesh;
   Ok (sets_ es VERTEX, sets_ es EDGE, sets_ es FACE, sets_ es ELEMENT))
  = Ok ([[0; 1]; [2]], [[20; 21]], [[0]], [[0]]).
Proof. vm_compute. reflexivity. Qed.
